(** * QueueAndBuffer: the SPSC node queue, the SPSC block buffer, the
      sequential block buffer and the linear buffer, embedded and verified.

    Source files: [spsc_queue.hpp], [spsc_block_buffer.hpp], [block_buffer.hpp],
    [buffer.hpp].

    Conventions of the embedding.
    - The C++ heap of queue nodes is a finite map from addresses to nodes;
      [new Node] takes an address that is not yet in the map.  Node pointers
      are [option addr] ([None] is [nullptr]).
    - [size_t] is 64 bits wide: every [size_t] expression is reduced modulo
      [2^64] where the source computes it.  [ssize_t] counters are plain
      integers (signed overflow is undefined and out of reach here).
    - A [std::unique_ptr<char[]>] is the owned block itself, [option (list
      byte)], [None] being the null pointer;  moving out of it leaves [None].
    - Every operation returns a [res]: a value, or the reason why the C++
      call has no value (undefined behaviour, a loop that never exits, a wait
      that nobody ends, a file descriptor script that ran out).
    - Operations are atomic: the theorems speak about the states between two
      calls, as a single thread driving producer and consumer sees them.
      The one call that is split is [empty()], whose two reads of [wpos_]
      [Interleaving] takes apart to let the producer run between them. *)

From Stdlib Require Import ZArith List Lia Strings.Byte.
From stdpp Require Import base tactics option list gmap.

Local Open Scope Z_scope.

(** ** Results of a call *)

Inductive fault : Type :=
  | Undefined   (* undefined behaviour: null or wild dereference, overrun *)
  | Diverges    (* the loop of the call never exits *)
  | Blocked     (* the call waits for the other thread for ever *)
  | Aborted     (* an assert failed *)
  | NoInput.    (* the script of system-call answers is exhausted *)

Inductive res (A : Type) : Type :=
  | Ok (a : A)
  | Fail (f : fault).
Arguments Ok {A} a.
Arguments Fail {A} f.

#[global] Instance res_ret : MRet res := fun A a => Ok a.
#[global] Instance res_bind : MBind res := fun A B k m =>
  match m with Ok a => k a | Fail f => Fail f end.

Definition is_Ok {A} (m : res A) : Prop := ∃ a, m = Ok a.

(** ** The SPSC node queue ([spsc_queue.hpp]) *)

Definition addr := positive.

Module SPSCQueue.
Section queue.
Context {T : Type} `{Inhabited T}.

(** [class Node { T obj; Node* next; }].  [obj = None] is a payload whose
    destructor has run (storage without a live object). *)
Record Node : Type := mkNode { obj : option T; next : option addr }.

Record t : Type := mkQueue {
  heap : gmap addr Node;
  head_ : option addr;
  tail_ : option addr;
  free_head_ : option addr;
  free_tail_ : option addr
}.

Definition with_heap (q : t) (h : gmap addr Node) : t :=
  mkQueue h (head_ q) (tail_ q) (free_head_ q) (free_tail_ q).
Definition with_head (q : t) (p : option addr) : t :=
  mkQueue (heap q) p (tail_ q) (free_head_ q) (free_tail_ q).
Definition with_tail (q : t) (p : option addr) : t :=
  mkQueue (heap q) (head_ q) p (free_head_ q) (free_tail_ q).
Definition with_free_head (q : t) (p : option addr) : t :=
  mkQueue (heap q) (head_ q) (tail_ q) p (free_tail_ q).
Definition with_free_tail (q : t) (p : option addr) : t :=
  mkQueue (heap q) (head_ q) (tail_ q) (free_head_ q) p.

(** [p->...] for a pointer [p]: the node it points to. *)
Definition load (q : t) (p : option addr) : res Node :=
  match p with
  | Some a => match heap q !! a with Some n => Ok n | None => Fail Undefined end
  | None => Fail Undefined
  end.

(** [p->next = v] *)
Definition store_next (p : option addr) (v : option addr) (q : t) : res t :=
  n ← load q p;
  match p with
  | Some a => Ok (with_heap q (<[a := mkNode (obj n) v]> (heap q)))
  | None => Fail Undefined
  end.

(** [p->obj = o] (construction, destruction or assignment of the payload) *)
Definition store_obj (p : option addr) (o : option T) (q : t) : res t :=
  n ← load q p;
  match p with
  | Some a => Ok (with_heap q (<[a := mkNode o (next n)]> (heap q)))
  | None => Fail Undefined
  end.

(** [new Node(...)]: a fresh address. *)
Definition alloc (n : Node) (q : t) : addr * t :=
  let a := fresh (dom (heap q)) in (a, with_heap q (<[a := n]> (heap q))).

(** [SPSCQueueBase()]: [new Node()] value-initialises the node, so [obj] is
    a value-initialised [T] (the argument [dflt]) and [next] is null. *)
Definition new (dflt : T) : t :=
  let q0 := mkQueue ∅ None None None None in
  let '(h, q1) := alloc (mkNode (Some dflt) None) q0 in
  let q2 := with_tail (with_head q1 (Some h)) (Some h) in
  let '(f, q3) := alloc (mkNode (Some dflt) None) q2 in
  with_free_tail (with_free_head q3 (Some f)) (Some f).

Definition free_list_empty (q : t) : bool :=
  bool_decide (free_head_ q = free_tail_ q).

Definition empty (q : t) : bool := bool_decide (head_ q = tail_ q).

(** [push(const T&)], [push(T&&)] and [emplace(args...)] run the same
    statements (mode 2 only adds the mutex and the signal). *)
Definition push (x : T) (q : t) : res t :=
  q1 ← (if free_list_empty q then
          let '(a, q') := alloc (mkNode (Some x) None) q in
          store_next (tail_ q') (Some a) q'
        else
          (* tail_->next = free_head_; *)
          q' ← store_next (tail_ q) (free_head_ q) q;
          (* free_head_ = free_head_->next; *)
          fh ← load q' (free_head_ q');
          let q'' := with_free_head q' (next fh) in
          (* new (tail_->next) Node(nullptr, obj); *)
          tl ← load q'' (tail_ q'');
          _ ← load q'' (next tl);
          match next tl with
          | Some a => Ok (with_heap q'' (<[a := mkNode (Some x) None]> (heap q'')))
          | None => Fail Undefined
          end);
  (* tail_ = tail_->next (release) *)
  tl ← load q1 (tail_ q1);
  Ok (with_tail q1 (next tl)).

Definition emplace := push.

(** The wait at the head of [pop] and of the non-const [front]: modes 1
    and 2 wait until the queue is not empty, which a lone thread never
    sees happen; mode 0 (the alias [SPSCQueue]) does not look. *)
Definition await_nonempty (mode : Z) (q : t) : res unit :=
  if bool_decide (mode = 1 ∨ mode = 2) && empty q then Fail Blocked else Ok ().

Definition pop (mode : Z) (q : t) : res t :=
  _ ← await_nonempty mode q;
  (* free_tail_->next = head_; *)
  q1 ← store_next (free_tail_ q) (head_ q) q;
  (* head_ = head_->next; *)
  hd ← load q1 (head_ q1);
  let q2 := with_head q1 (next hd) in
  (* free_tail_->next->obj.~T(); *)
  ft ← load q2 (free_tail_ q2);
  q3 ← store_obj (next ft) None q2;
  (* free_tail_->next->next = nullptr; *)
  ft ← load q3 (free_tail_ q3);
  q4 ← store_next (next ft) None q3;
  (* free_tail_ = free_tail_->next (release) *)
  ft ← load q4 (free_tail_ q4);
  Ok (with_free_tail q4 (next ft)).

(** [&front()]: the node whose [obj] the returned reference denotes. *)
Definition front_ptr (mode : Z) (q : t) : res (option addr) :=
  _ ← await_nonempty mode q;
  hd ← load q (head_ q);
  Ok (next hd).

(** [&back()] *)
Definition back_ptr (q : t) : option addr := tail_ q.

(** Reading through a [T&]: the object must be alive. *)
Definition read_obj (q : t) (p : option addr) : res T :=
  n ← load q p;
  match obj n with Some v => Ok v | None => Fail Undefined end.

Definition front (mode : Z) (q : t) : res T :=
  p ← front_ptr mode q; read_obj q p.

Definition back (q : t) : res T := read_obj q (back_ptr q).


(** *** The nodes of the two lists, by walking the [next] pointers *)

Fixpoint walk (h : gmap addr Node) (fuel : nat) (cur stop : addr) : list addr :=
  if decide (cur = stop) then [] else
  match fuel with
  | O => []
  | S f =>
    match h !! cur with
    | Some n =>
      match next n with
      | Some b => b :: walk h f b stop
      | None => []
      end
    | None => []
    end
  end.

Definition walk_from (q : t) (from to : option addr) : list addr :=
  match from, to with
  | Some a, Some b => walk (heap q) (size (heap q)) a b
  | _, _ => []
  end.

(** The nodes after the dummy [head_] up to [tail_]: the elements. *)
Definition nodes (q : t) : list addr := walk_from q (head_ q) (tail_ q).
(** The nodes after the dummy [free_head_] up to [free_tail_]. *)
Definition free_nodes (q : t) : list addr := walk_from q (free_head_ q) (free_tail_ q).

Definition payload (q : t) (a : addr) : option T := heap q !! a ≫= obj.

(** The queue as the list of its payloads, front first. *)
Definition contents (q : t) : list T := omap (payload q) (nodes q).

(** *** Representation invariant *)

Fixpoint lseg (h : gmap addr Node) (a : addr) (l : list addr) : Prop :=
  match l with
  | [] => is_Some (h !! a)
  | b :: l' => (∃ n, h !! a = Some n ∧ next n = Some b) ∧ lseg h b l'
  end.

Definition holds (h : gmap addr Node) (es : list (addr * T)) : Prop :=
  Forall (λ e, ∃ n, h !! e.1 = Some n ∧ obj n = Some e.2) es.

(** [repr q d es fd fs]: the main list is the dummy [d] followed by the
    nodes of [es] with their live payloads, the freelist is the dummy [fd]
    followed by [fs], and no node occurs twice. *)
Definition repr (q : t) (d : addr) (es : list (addr * T))
    (fd : addr) (fs : list addr) : Prop :=
  head_ q = Some d ∧ tail_ q = Some (default d (last es.*1)) ∧
  free_head_ q = Some fd ∧ free_tail_ q = Some (default fd (last fs)) ∧
  lseg (heap q) d es.*1 ∧ lseg (heap q) fd fs ∧ holds (heap q) es ∧
  NoDup ((d :: es.*1) ++ fd :: fs).

Definition wf (q : t) : Prop := ∃ d es fd fs, repr q d es fd fs.

End queue.
Arguments Node : clear implicits.
Arguments t : clear implicits.
End SPSCQueue.

(** A producer pushing a list of values, and a consumer taking [n] values by
    [n] successive [front()] / [pop()] pairs. *)

Module QueueClient.
Import SPSCQueue.

Fixpoint push_all {T} (xs : list T) (q : t T) : res (t T) :=
  match xs with
  | [] => Ok q
  | x :: xs' => q' ← push x q; push_all xs' q'
  end.

Fixpoint take_front {T} (mode : Z) (n : nat) (q : t T) : res (list T * t T) :=
  match n with
  | O => Ok ([], q)
  | S n' =>
    x ← front mode q;
    q' ← pop mode q;
    '(xs, q'') ← take_front mode n' q';
    Ok (x :: xs, q'')
  end.

(** The reading of "pop destroys the payload" as the payload of the element
    it removes: after [pop], the node that held the front value holds no
    live object. *)
Definition pop_destroys_front {T} (mode : Z) (q : t T) : Prop :=
  ∀ a q', front_ptr mode q = Ok (Some a) → pop mode q = Ok q' → payload q' a = None.

End QueueClient.

(** ** Bytes, [size_t] and blocks *)

(** [size_t] arithmetic: 64 bits, wrapping. *)
Definition wrap (z : Z) : Z := z mod 2 ^ 64.

Definition sizeof_size_t : Z := 8.

Definition byte_of_Z (z : Z) : byte :=
  match Byte.of_N (Z.to_N (z mod 256)) with Some b => b | None => x00 end.

Definition Z_of_byte (b : byte) : Z := Z.of_N (Byte.to_N b).

(** The object representation of an unsigned integer of [n] bytes on the
    little-endian hosts the library runs on ([write<T>] copies it as is). *)
Fixpoint le_bytes (n : nat) (z : Z) : list byte :=
  match n with
  | O => []
  | S n' => byte_of_Z z :: le_bytes n' (z / 256)
  end.

Fixpoint le_value (bs : list byte) : Z :=
  match bs with
  | [] => 0
  | b :: r => Z_of_byte b + 256 * le_value r
  end.

Definition size_t_bytes (z : Z) : list byte := le_bytes 8 z.

Definition len {A} (l : list A) : Z := Z.of_nat (length l).

(** A block of [char]s.  [new char[n]] leaves the contents indeterminate; the
    model fixes them to zero bytes. *)
Definition block := list byte.

Definition new_block (n : Z) : block := replicate (Z.to_nat n) x00.

(** [std::copy(src, src + len src, blk + off)]; writing past the block is
    undefined. *)
Definition blit (blk : block) (off : Z) (src : list byte) : res block :=
  if bool_decide (0 ≤ off ∧ off + len src ≤ len blk) then
    Ok (take (Z.to_nat off) blk ++ src ++ drop (Z.to_nat off + length src) blk)
  else Fail Undefined.

(** The [n] bytes at [blk + off]; reading past the block is undefined. *)
Definition slice (blk : block) (off n : Z) : res (list byte) :=
  if bool_decide (0 ≤ off ∧ 0 ≤ n ∧ off + n ≤ len blk) then
    Ok (take (Z.to_nat n) (drop (Z.to_nat off) blk))
  else Fail Undefined.

(** [std::pair<std::unique_ptr<char[]>, size_t>]: a block and its published
    length. *)
Abbreviation segment := (option block * Z)%type.

(** ** Answers of the operating system *)

(** One [::read(fd, buf, count)] call: it fails (the call returns -1), or
    the descriptor has [data] ready and the call stores the first [count]
    bytes of it, returning how many it stored (0 at end of file, or when
    [count] is 0). *)
Inductive read_answer : Type :=
  | ReadErr
  | ReadData (data : list byte).

(** One [::write(fd, buf, count)] call: it fails (-1), or the descriptor has
    room for [room] bytes and takes the first [min room count] bytes. *)
Inductive write_answer : Type :=
  | WriteErr
  | WriteRoom (room : nat).

(** The bytes a [::read] with this [count] stores. *)
Definition stored (count : Z) (data : list byte) : list byte :=
  take (Z.to_nat count) data.

(** The number of bytes a [::write] with this [count] takes. *)
Definition taken (count : Z) (room : nat) : Z := Z.min (Z.of_nat room) (Z.max 0 count).

(** The values the system calls of one buffer call returned, in order. *)
Definition trace : Type := list Z.

(** The bytes moved by the calls of a trace. *)
Definition transferred (tr : trace) : Z := foldr (λ x acc, Z.max 0 x + acc) 0 tr.

(** Some call of the trace failed. *)
Definition errored (tr : trace) : Prop := ∃ x, x ∈ tr ∧ x < 0.

(** ** The SPSC block buffer ([spsc_block_buffer.hpp])

    [SPSCBlockBuffer] is [SPSCBlockBufferBase<0>]: the wait-free mode, whose
    [notify] is the release store of [*wpos_] and whose [pop_block_if_needed]
    never waits.  Its three queues are [SPSCQueue]s (queue mode 0). *)

Module SPSCBlockBuffer.

Record t : Type := mkBuffer {
  block_size_ : Z;
  buf_ : SPSCQueue.t segment;
  free_list_ : SPSCQueue.t (option block);
  preserved_list_ : SPSCQueue.t segment;
  rpos_ : Z;
  (** [size_t* wpos_]: the node of [buf_] whose [obj.second] it addresses *)
  wpos_ : option addr;
  wpos_private_ : Z;
  one_block_left_ : bool
}.

Definition with_buf (s : t) (q : SPSCQueue.t segment) : t :=
  mkBuffer (block_size_ s) q (free_list_ s) (preserved_list_ s) (rpos_ s)
    (wpos_ s) (wpos_private_ s) (one_block_left_ s).
Definition with_free_list (s : t) (q : SPSCQueue.t (option block)) : t :=
  mkBuffer (block_size_ s) (buf_ s) q (preserved_list_ s) (rpos_ s)
    (wpos_ s) (wpos_private_ s) (one_block_left_ s).
Definition with_preserved_list (s : t) (q : SPSCQueue.t segment) : t :=
  mkBuffer (block_size_ s) (buf_ s) (free_list_ s) q (rpos_ s)
    (wpos_ s) (wpos_private_ s) (one_block_left_ s).
Definition with_rpos (s : t) (z : Z) : t :=
  mkBuffer (block_size_ s) (buf_ s) (free_list_ s) (preserved_list_ s) z
    (wpos_ s) (wpos_private_ s) (one_block_left_ s).
Definition with_wpos (s : t) (p : option addr) : t :=
  mkBuffer (block_size_ s) (buf_ s) (free_list_ s) (preserved_list_ s) (rpos_ s)
    p (wpos_private_ s) (one_block_left_ s).
Definition with_wpos_private (s : t) (z : Z) : t :=
  mkBuffer (block_size_ s) (buf_ s) (free_list_ s) (preserved_list_ s) (rpos_ s)
    (wpos_ s) z (one_block_left_ s).
Definition with_one_block_left (s : t) (b : bool) : t :=
  mkBuffer (block_size_ s) (buf_ s) (free_list_ s) (preserved_list_ s) (rpos_ s)
    (wpos_ s) (wpos_private_ s) b.

(** [*p = v] for a [size_t* p] into a segment node: the [second] of its pair. *)
Definition store_end (p : option addr) (v : Z) (q : SPSCQueue.t segment)
    : res (SPSCQueue.t segment) :=
  seg ← SPSCQueue.read_obj q p;
  SPSCQueue.store_obj p (Some (seg.1, v)) q.

(** [*p] *)
Definition load_end (p : option addr) (q : SPSCQueue.t segment) : res Z :=
  seg ← SPSCQueue.read_obj q p; Ok seg.2.

(** The default-constructed buffer: three fresh queues.  The scalar members
    are indeterminate until [init] assigns every one of them. *)
Definition default_constructed : t :=
  mkBuffer 0 (SPSCQueue.new (None, 0)) (SPSCQueue.new None)
    (SPSCQueue.new (None, 0)) 0 None 0 true.

(** [init(block_size)]; [pagesize] is [sysconf(_SC_PAGESIZE)]. *)
Definition init (pagesize : Z) (block_size : Z) (s : t) : res t :=
  let bs := if bool_decide (block_size = -1) then wrap pagesize else wrap block_size in
  q ← SPSCQueue.emplace (Some (new_block bs), 0) (buf_ s);
  Ok (mkBuffer bs q (free_list_ s) (preserved_list_ s) 0
        (SPSCQueue.back_ptr q) 0 true).

(** [SPSCBlockBufferBase(ssize_t block_size)] *)
Definition create (pagesize : Z) (block_size : Z) : res t :=
  init pagesize block_size default_constructed.

(** [notify()] in mode 0 *)
Definition notify (s : t) : res t :=
  q ← store_end (wpos_ s) (wpos_private_ s) (buf_ s);
  Ok (with_buf s q).

Definition add_block (s : t) : res t :=
  (* __atomic_store_n(wpos_, wpos_private_, __ATOMIC_RELEASE); *)
  q1 ← store_end (wpos_ s) (wpos_private_ s) (buf_ s);
  let s1 := with_wpos_private (with_buf s q1) 0 in
  s2 ← (if SPSCQueue.empty (free_list_ s1) then
          q2 ← SPSCQueue.emplace (Some (new_block (block_size_ s1)), 0) (buf_ s1);
          Ok (with_buf s1 q2)
        else
          (* buf_.emplace(std::move(free_list_.front()), 0); *)
          fp ← SPSCQueue.front_ptr 0 (free_list_ s1);
          blk ← SPSCQueue.read_obj (free_list_ s1) fp;
          f1 ← SPSCQueue.store_obj fp (Some None) (free_list_ s1);
          q2 ← SPSCQueue.emplace (blk, 0) (buf_ s1);
          (* free_list_.pop(); *)
          f2 ← SPSCQueue.pop 0 f1;
          Ok (with_free_list (with_buf s1 q2) f2));
  (* __atomic_store_n(&wpos_, &buf_.back().second, __ATOMIC_RELEASE); *)
  Ok (with_wpos s2 (SPSCQueue.back_ptr (buf_ s2))).

(** [add_block_if_needed()] *)
Definition add_block_if_full (s : t) : res t :=
  if bool_decide (wpos_private_ s = block_size_ s) then add_block s else Ok s.

(** [add_block_if_needed(size_t cont_write_len)] *)
Definition add_block_if_needed (cont_write_len : Z) (s : t) : res t :=
  if bool_decide (cont_write_len > wrap (block_size_ s - wpos_private_ s))
  then add_block s else Ok s.

(** [std::copy(src, ..., buf_.back().first.get() + wpos_private_)] *)
Definition copy_to_back (src : list byte) (s : t) : res t :=
  seg ← SPSCQueue.back (buf_ s);
  match seg.1 with
  | Some blk =>
    blk' ← blit blk (wpos_private_ s) src;
    q ← SPSCQueue.store_obj (SPSCQueue.back_ptr (buf_ s)) (Some (Some blk', seg.2)) (buf_ s);
    Ok (with_buf s q)
  | None => Fail Undefined
  end.

(** The loop of [write(write_start, write_end, notify)] over the bytes still
    to be written.  An iteration that can copy nothing ([block_size_] is 0)
    repeats for ever. *)
Fixpoint write_loop (fuel : nat) (src : list byte) (s : t) : res t :=
  match src with
  | [] => Ok s
  | _ :: _ =>
    match fuel with
    | O => Fail Diverges
    | S fuel' =>
      s1 ← add_block_if_full s;
      let to_write := Z.min (wrap (len src)) (wrap (block_size_ s1 - wpos_private_ s1)) in
      if bool_decide (to_write = 0) then Fail Diverges else
      s2 ← copy_to_back (take (Z.to_nat to_write) src) s1;
      write_loop fuel' (drop (Z.to_nat to_write) src)
        (with_wpos_private s2 (wrap (wpos_private_ s2 + to_write)))
    end
  end.

(** [write(const char* write_start, const char* write_end, bool notify)] *)
Definition write (src : list byte) (do_notify : bool) (s : t) : res t :=
  s1 ← write_loop (length src) src s;
  if do_notify then notify s1 else Ok s1.

(** [write<T>(const T&, bool notify)]: [repr] is the object representation
    of the value, [sizeof(T)] bytes. *)
Definition write_value (repr : list byte) (do_notify : bool) (s : t) : res t :=
  write repr do_notify s.

(** [write(const std::string&, bool notify)] *)
Definition write_string (str : list byte) (do_notify : bool) (s : t) : res t :=
  let size := len str in
  s1 ← write_value (size_t_bytes size) false s;
  write str do_notify s1.

(** [&buf_.front().second == wpos_] *)
Definition check_one_block_left (s : t) : res bool :=
  fp ← SPSCQueue.front_ptr 0 (buf_ s);
  Ok (bool_decide (fp = wpos_ s)).

(** [buf_.front().second], atomically or not *)
Definition front_end (s : t) : res Z :=
  seg ← SPSCQueue.front 0 (buf_ s); Ok seg.2.

Definition pop_block (s : t) : res t :=
  (* preserved_list_.push(std::move(buf_.front())); *)
  fp ← SPSCQueue.front_ptr 0 (buf_ s);
  seg ← SPSCQueue.read_obj (buf_ s) fp;
  pl ← SPSCQueue.push seg (preserved_list_ s);
  q1 ← SPSCQueue.store_obj fp (Some (None, seg.2)) (buf_ s);
  (* buf_.pop(); *)
  q2 ← SPSCQueue.pop 0 q1;
  let s1 := with_rpos (with_preserved_list (with_buf s q2) pl) 0 in
  b ← check_one_block_left s1;
  Ok (with_one_block_left s1 b).

(** [pop_block_if_needed(size)] in mode 0, which is also the body of
    [pop_block_if_needed_and_available(size)]. *)
Definition pop_block_if_needed (size : Z) (s : t) : res t :=
  if one_block_left_ s then
    one ← check_one_block_left s;
    if negb one then
      e ← front_end s;
      if bool_decide (wrap (e - rpos_ s) < size) then pop_block s else Ok s
    else Ok s
  else
    e ← front_end s;
    if bool_decide (wrap (e - rpos_ s) < size) then pop_block s else Ok s.

Definition pop_block_if_needed_and_available := pop_block_if_needed.

(** The [n] bytes at [&buf_.front().first[rpos_]] *)
Definition peek (n : Z) (s : t) : res (list byte) :=
  seg ← SPSCQueue.front 0 (buf_ s);
  match seg.1 with
  | Some blk => slice blk (rpos_ s) n
  | None => Fail Undefined
  end.

(** One step of the loop of [clear_preserved]; [None] is the [break]. *)
Definition clear_step (length_ : Z) (cleared_len : Z) (s : t) : res (option (Z * t)) :=
  if SPSCQueue.empty (preserved_list_ s) then Ok None else
  seg ← SPSCQueue.front 0 (preserved_list_ s);
  if bool_decide (wrap (seg.2 + cleared_len) ≤ length_) then
    (* free_list_.push(std::move(preserved_list_.front().first)); *)
    fp ← SPSCQueue.front_ptr 0 (preserved_list_ s);
    fl ← SPSCQueue.push seg.1 (free_list_ s);
    p1 ← SPSCQueue.store_obj fp (Some (None, seg.2)) (preserved_list_ s);
    (* preserved_list_.pop(); *)
    p2 ← SPSCQueue.pop 0 p1;
    Ok (Some (wrap (cleared_len + seg.2), with_preserved_list (with_free_list s fl) p2))
  else Ok None.

Fixpoint clear_loop (fuel : nat) (length_ : Z) (cleared_len : Z) (s : t) : res t :=
  st ← clear_step length_ cleared_len s;
  match st with
  | None => Ok s
  | Some (cleared_len', s') =>
    match fuel with
    | O => Fail Diverges
    | S fuel' => clear_loop fuel' length_ cleared_len' s'
    end
  end.

(** [clear_preserved(size_t len)]: every turn of the loop pops one node of
    the preserved list. *)
Definition clear_preserved (length_ : Z) (s : t) : res t :=
  clear_loop (length (SPSCQueue.nodes (preserved_list_ s))) length_ 0 s.

(** [read<T>()] with [size = sizeof(T)].  The call returns a pointer into
    the head block; the model returns the [size] bytes it points to. *)
Definition read (size : Z) (s : t) : res (list byte * t) :=
  s1 ← pop_block_if_needed size s;
  v ← peek size s1;
  Ok (v, with_rpos s1 (wrap (rpos_ s1 + size))).

(** [get<T>()] *)
Definition get (size : Z) (s : t) : res (list byte * t) :=
  '(v, s1) ← read size s;
  s2 ← clear_preserved size s1;
  Ok (v, s2).

(** [read_cont(len)] *)
Definition read_cont (length_ : Z) (s : t) : res (list byte * t) := read length_ s.

(** [get_cont(dest, len)]: the bytes stored to [dest] *)
Definition get_cont (length_ : Z) (s : t) : res (list byte * t) :=
  '(v, s1) ← read length_ s;
  s2 ← clear_preserved length_ s1;
  Ok (v, s2).

(** [get_string()] *)
Definition get_string (s : t) : res (list byte * t) :=
  '(lenb, s1) ← read sizeof_size_t s;
  let length_ := le_value lenb in
  s2 ← pop_block_if_needed length_ s1;
  str ← peek length_ s2;
  let s3 := with_rpos s2 (wrap (rpos_ s2 + length_)) in
  s4 ← clear_preserved (wrap (sizeof_size_t + length_)) s3;
  Ok (str, s4).

(** [write_cont(const char* write_start, const char* write_end, bool notify)] *)
Definition write_cont (src : list byte) (do_notify : bool) (s : t) : res t :=
  match src with
  | [] => Ok s
  | _ :: _ =>
    let to_write := wrap (len src) in
    s1 ← add_block_if_needed to_write s;
    s2 ← copy_to_back src s1;
    let s3 := with_wpos_private s2 (wrap (wpos_private_ s2 + to_write)) in
    if do_notify then notify s3 else Ok s3
  end.

(** [write_cont<T>(const T&, bool notify)] *)
Definition write_cont_value (repr : list byte) (do_notify : bool) (s : t) : res t :=
  write_cont repr do_notify s.

(** [write_cont(const std::string&, bool notify)] *)
Definition write_cont_string (str : list byte) (do_notify : bool) (s : t) : res t :=
  let size := len str in
  s1 ← write_cont_value (size_t_bytes size) false s;
  write_cont str do_notify s1.

(** [ensure_cont(size)]: the returned pointer is the tail node and the
    offset [wpos_private_] in its block. *)
Definition ensure_cont (size : Z) (s : t) : res (option addr * Z * t) :=
  s1 ← add_block_if_needed size s;
  Ok (SPSCQueue.back_ptr (buf_ s1), wpos_private_ s1, s1).

(** The end of [input_from_fd]: notify iff something was read. *)
Definition input_finish (total_len : Z) (s : t) : res (Z * t) :=
  if bool_decide (total_len > 0) then s' ← notify s; Ok (total_len, s')
  else Ok (total_len, s).

(** The loop of [input_from_fd(fd, cont, max_len)], one answer of [::read]
    per turn.  The result carries the trace of the [::read] calls. *)
Fixpoint input_loop (script : list read_answer) (cont : bool) (max_len : Z)
    (total_len : Z) (s : t) : res (Z * t * trace) :=
  s1 ← add_block_if_full s;
  let room := wrap (block_size_ s1 - wpos_private_ s1) in
  let count := if bool_decide (max_len = -1) then room
               else Z.min (wrap (max_len - total_len)) room in
  match script with
  | [] => Fail NoInput
  | ReadErr :: rest =>
    if bool_decide (total_len = 0) then Ok (-1, s1, [-1])
    else '(r, s') ← input_finish total_len s1; Ok (r, s', [-1])
  | ReadData data :: rest =>
    let got := stored count data in
    if bool_decide (len got = 0) then
      '(r, s') ← input_finish total_len s1; Ok (r, s', [0])
    else
      s2 ← copy_to_back got s1;
      let total_len' := total_len + len got in
      let s3 := with_wpos_private s2 (wrap (wpos_private_ s2 + len got)) in
      if cont then '(r, s') ← input_finish total_len' s3; Ok (r, s', [len got])
      else '(r, s', tr) ← input_loop rest cont max_len total_len' s3;
           Ok (r, s', len got :: tr)
  end.

Definition input_from_fd (script : list read_answer) (cont : bool) (max_len : Z)
    (s : t) : res (Z * t * trace) :=
  input_loop script cont max_len 0 s.

(** The loop of [output_to_fd(fd)], one answer of [::write] per turn.  The
    result carries the bytes the descriptor took and the trace of the
    [::write] calls. *)
Fixpoint output_loop (script : list write_answer) (total_len : Z) (s : t)
    : res (Z * list byte * t * trace) :=
  s1 ← pop_block_if_needed_and_available 1 s;
  e ← front_end s1;
  let count := wrap (e - rpos_ s1) in
  match script with
  | [] => Fail NoInput
  | WriteErr :: rest =>
    if bool_decide (total_len = 0) then Ok (-1, [], s1, [-1])
    else s' ← clear_preserved (wrap total_len) s1; Ok (total_len, [], s', [-1])
  | WriteRoom room :: rest =>
    let n := taken count room in
    if bool_decide (n = 0) then
      s' ← clear_preserved (wrap total_len) s1; Ok (total_len, [], s', [0])
    else
      bytes ← peek n s1;
      '(r, out, s', tr) ← output_loop rest (total_len + n)
                            (with_rpos s1 (wrap (rpos_ s1 + n)));
      Ok (r, bytes ++ out, s', n :: tr)
  end.

Definition output_to_fd (script : list write_answer) (s : t)
    : res (Z * list byte * t * trace) :=
  output_loop script 0 s.

(** [empty() const] *)
Definition empty_const (s : t) : res bool :=
  if one_block_left_ s then
    one ← check_one_block_left s;
    if (one : bool) then e ← load_end (wpos_ s) (buf_ s); Ok (bool_decide (rpos_ s = e))
    else Ok false
  else Ok false.

(** [empty()], which also refreshes [one_block_left_] *)
Definition empty (s : t) : res (bool * t) :=
  if one_block_left_ s then
    one ← check_one_block_left s;
    let s1 := with_one_block_left s one in
    if (one : bool) then e ← load_end (wpos_ s1) (buf_ s1); Ok (bool_decide (rpos_ s1 = e), s1)
    else Ok (false, s1)
  else Ok (false, s).

End SPSCBlockBuffer.

(** ** The sequential block buffer ([block_buffer.hpp])

    Its queues are [std::queue]s: lists, the front first.  [front()],
    [back()] and [pop()] of an empty [std::queue] are undefined. *)

Module BlockBuffer.

(** [(size_t)-1], the [second] of the segment being written *)
Definition uncommitted : Z := 2 ^ 64 - 1.

Record t : Type := mkBuffer {
  block_size_ : Z;
  buf_ : list segment;
  free_list_ : list (option block);
  preserved_list_ : list segment;
  rpos_ : Z;
  wpos_ : Z
}.

Definition with_buf (s : t) (q : list segment) : t :=
  mkBuffer (block_size_ s) q (free_list_ s) (preserved_list_ s) (rpos_ s) (wpos_ s).
Definition with_free_list (s : t) (q : list (option block)) : t :=
  mkBuffer (block_size_ s) (buf_ s) q (preserved_list_ s) (rpos_ s) (wpos_ s).
Definition with_preserved_list (s : t) (q : list segment) : t :=
  mkBuffer (block_size_ s) (buf_ s) (free_list_ s) q (rpos_ s) (wpos_ s).
Definition with_rpos (s : t) (z : Z) : t :=
  mkBuffer (block_size_ s) (buf_ s) (free_list_ s) (preserved_list_ s) z (wpos_ s).
Definition with_wpos (s : t) (z : Z) : t :=
  mkBuffer (block_size_ s) (buf_ s) (free_list_ s) (preserved_list_ s) (rpos_ s) z.

Definition q_front {A} (q : list A) : res A :=
  match q with x :: _ => Ok x | [] => Fail Undefined end.

Definition q_back {A} (q : list A) : res A :=
  match last q with Some x => Ok x | None => Fail Undefined end.

Definition q_pop {A} (q : list A) : res (list A) :=
  match q with _ :: r => Ok r | [] => Fail Undefined end.

Definition q_push {A} (x : A) (q : list A) : list A := q ++ [x].

(** [q.back() = x] *)
Definition q_set_back {A} (x : A) (q : list A) : res (list A) :=
  match q with
  | [] => Fail Undefined
  | _ :: _ => Ok (removelast q ++ [x])
  end.

(** [BlockBuffer(ssize_t block_size)]; [BlockBuffer()] is [create pagesize (-1)]. *)
Definition create (pagesize : Z) (block_size : Z) : t :=
  let bs := if bool_decide (block_size = -1) then wrap pagesize else wrap block_size in
  mkBuffer bs [(Some (new_block bs), uncommitted)] [] [] 0 0.

Definition add_block (s : t) : res t :=
  (* buf_.back().second = wpos_; *)
  seg ← q_back (buf_ s);
  q1 ← q_set_back (seg.1, wpos_ s) (buf_ s);
  let s1 := with_wpos (with_buf s q1) 0 in
  if bool_decide (free_list_ s1 = []) then
    Ok (with_buf s1 (q_push (Some (new_block (block_size_ s1)), uncommitted) (buf_ s1)))
  else
    blk ← q_front (free_list_ s1);
    f ← q_pop (free_list_ s1);
    Ok (with_free_list (with_buf s1 (q_push (blk, uncommitted) (buf_ s1))) f).

(** [add_block_if_needed()] *)
Definition add_block_if_full (s : t) : res t :=
  if bool_decide (wpos_ s = block_size_ s) then add_block s else Ok s.

(** [add_block_if_needed(size_t cont_write_len)] *)
Definition add_block_if_needed (cont_write_len : Z) (s : t) : res t :=
  if bool_decide (cont_write_len > wrap (block_size_ s - wpos_ s))
  then add_block s else Ok s.

Definition copy_to_back (src : list byte) (s : t) : res t :=
  seg ← q_back (buf_ s);
  match seg.1 with
  | Some blk =>
    blk' ← blit blk (wpos_ s) src;
    q ← q_set_back (Some blk', seg.2) (buf_ s);
    Ok (with_buf s q)
  | None => Fail Undefined
  end.

Fixpoint write_loop (fuel : nat) (src : list byte) (s : t) : res t :=
  match src with
  | [] => Ok s
  | _ :: _ =>
    match fuel with
    | O => Fail Diverges
    | S fuel' =>
      s1 ← add_block_if_full s;
      let to_write := Z.min (wrap (len src)) (wrap (block_size_ s1 - wpos_ s1)) in
      if bool_decide (to_write = 0) then Fail Diverges else
      s2 ← copy_to_back (take (Z.to_nat to_write) src) s1;
      write_loop fuel' (drop (Z.to_nat to_write) src)
        (with_wpos s2 (wrap (wpos_ s2 + to_write)))
    end
  end.

(** [write(const char* write_start, const char* write_end)] *)
Definition write (src : list byte) (s : t) : res t :=
  write_loop (length src) src s.

(** [write<T>(const T&)] *)
Definition write_value (repr : list byte) (s : t) : res t := write repr s.

(** [write(const std::string&)] *)
Definition write_string (str : list byte) (s : t) : res t :=
  let size := len str in
  s1 ← write_value (size_t_bytes size) s;
  write str s1.

Definition pop_block (s : t) : res t :=
  seg ← q_front (buf_ s);
  q ← q_pop (buf_ s);
  Ok (with_rpos (with_buf (with_preserved_list s (q_push seg (preserved_list_ s))) q) 0).

Definition pop_block_if_needed (size : Z) (s : t) : res t :=
  seg ← q_front (buf_ s);
  if bool_decide (seg.2 ≠ uncommitted) && bool_decide (wrap (seg.2 - rpos_ s) < size)
  then pop_block s else Ok s.

Definition peek (n : Z) (s : t) : res (list byte) :=
  seg ← q_front (buf_ s);
  match seg.1 with
  | Some blk => slice blk (rpos_ s) n
  | None => Fail Undefined
  end.

(** [read<T>()] with [size = sizeof(T)], returning the bytes pointed to *)
Definition read (size : Z) (s : t) : res (list byte * t) :=
  s1 ← pop_block_if_needed size s;
  v ← peek size s1;
  Ok (v, with_rpos s1 (wrap (rpos_ s1 + size))).

(** [get_string()] *)
Definition get_string (s : t) : res (list byte * t) :=
  '(lenb, s1) ← read sizeof_size_t s;
  let length_ := le_value lenb in
  s2 ← pop_block_if_needed length_ s1;
  str ← peek length_ s2;
  Ok (str, with_rpos s2 (wrap (rpos_ s2 + length_))).

(** [write_cont(const char* write_start, const char* write_end)] *)
Definition write_cont (src : list byte) (s : t) : res t :=
  match src with
  | [] => Ok s
  | _ :: _ =>
    let to_write := wrap (len src) in
    (* assert(to_write <= block_size_); *)
    if bool_decide (to_write ≤ block_size_ s) then
      s1 ← add_block_if_needed to_write s;
      s2 ← copy_to_back src s1;
      Ok (with_wpos s2 (wrap (wpos_ s2 + to_write)))
    else Fail Aborted
  end.

Definition write_cont_value (repr : list byte) (s : t) : res t := write_cont repr s.

Definition write_cont_string (str : list byte) (s : t) : res t :=
  let size := len str in
  s1 ← write_cont_value (size_t_bytes size) s;
  write_cont str s1.

(** [input_from_fd(fd, cont)] *)
Fixpoint input_loop (script : list read_answer) (cont : bool)
    (total_len : Z) (s : t) : res (Z * t * trace) :=
  s1 ← add_block_if_full s;
  let count := wrap (block_size_ s1 - wpos_ s1) in
  match script with
  | [] => Fail NoInput
  | ReadErr :: rest =>
    if bool_decide (total_len = 0) then Ok (-1, s1, [-1])
    else Ok (total_len, s1, [-1])
  | ReadData data :: rest =>
    let got := stored count data in
    if bool_decide (len got = 0) then Ok (total_len, s1, [0])
    else
      s2 ← copy_to_back got s1;
      let s3 := with_wpos s2 (wrap (wpos_ s2 + len got)) in
      let total_len' := total_len + len got in
      if cont then Ok (total_len', s3, [len got])
      else '(r, s', tr) ← input_loop rest cont total_len' s3;
           Ok (r, s', len got :: tr)
  end.

Definition input_from_fd (script : list read_answer) (cont : bool) (s : t)
    : res (Z * t * trace) :=
  input_loop script cont 0 s.

(** [output_to_fd(fd)] *)
Fixpoint output_loop (script : list write_answer) (total_len : Z) (s : t)
    : res (Z * list byte * t * trace) :=
  seg ← q_front (buf_ s);
  let count := if bool_decide (seg.2 = uncommitted) then wrap (wpos_ s - rpos_ s)
               else wrap (seg.2 - rpos_ s) in
  match script with
  | [] => Fail NoInput
  | WriteErr :: rest =>
    if bool_decide (total_len = 0) then Ok (-1, [], s, [-1])
    else Ok (total_len, [], s, [-1])
  | WriteRoom room :: rest =>
    let n := taken count room in
    if bool_decide (n = 0) then Ok (total_len, [], s, [0])
    else
      bytes ← peek n s;
      let s1 := with_rpos s (wrap (rpos_ s + n)) in
      let total_len' := total_len + n in
      if bool_decide (seg.2 ≠ uncommitted) && bool_decide (rpos_ s1 = seg.2) then
        q ← q_pop (buf_ s1);
        let s2 := with_rpos (with_buf (with_preserved_list s1
                     (q_push seg (preserved_list_ s1))) q) 0 in
        if bool_decide (buf_ s2 = []) then Ok (total_len', bytes, s2, [n])
        else '(r, out, s', tr) ← output_loop rest total_len' s2;
             Ok (r, bytes ++ out, s', n :: tr)
      else '(r, out, s', tr) ← output_loop rest total_len' s1;
           Ok (r, bytes ++ out, s', n :: tr)
  end.

Definition output_to_fd (script : list write_answer) (s : t)
    : res (Z * list byte * t * trace) :=
  output_loop script 0 s.

(** [ensure_cont(size)]: the offset of the returned pointer in the tail block *)
Definition ensure_cont (size : Z) (s : t) : res (Z * t) :=
  s1 ← add_block_if_needed size s;
  _ ← q_back (buf_ s1);
  Ok (wpos_ s1, s1).

(** [empty() const] *)
Definition empty (s : t) : res bool :=
  seg ← q_front (buf_ s);
  Ok (bool_decide (seg.2 = uncommitted) && bool_decide (rpos_ s = wpos_ s)).

(** The loop of [clear_preserved(len)]: it reads [preserved_list_.front()]
    without asking whether the list is empty. *)
Fixpoint clear_loop (fuel : nat) (length_ : Z) (cleared_len : Z) (s : t) : res t :=
  seg ← q_front (preserved_list_ s);
  if bool_decide (wrap (seg.2 + cleared_len) ≤ length_) then
    p ← q_pop (preserved_list_ s);
    let s' := with_preserved_list (with_free_list s (q_push seg.1 (free_list_ s))) p in
    match fuel with
    | O => Fail Diverges
    | S fuel' => clear_loop fuel' length_ (wrap (cleared_len + seg.2)) s'
    end
  else Ok s.

Definition clear_preserved (length_ : Z) (s : t) : res t :=
  clear_loop (length (preserved_list_ s)) length_ 0 s.

End BlockBuffer.

(** ** The SPSC block buffer over lists

    The same buffer with its three queues as the lists of their payloads and
    without the pointer [wpos_], which always addresses the last segment.
    The verification proves that [SPSCBlockBuffer] implements it call by
    call, and reasons about the calls on this form. *)

Module ListBuffer.

Record t : Type := mkBuffer {
  block_size_ : Z;
  buf_ : list segment;
  free_list_ : list (option block);
  preserved_list_ : list segment;
  rpos_ : Z;
  wpos_private_ : Z;
  one_block_left_ : bool
}.

Definition with_buf (s : t) (q : list segment) : t :=
  mkBuffer (block_size_ s) q (free_list_ s) (preserved_list_ s) (rpos_ s)
    (wpos_private_ s) (one_block_left_ s).
Definition with_free_list (s : t) (q : list (option block)) : t :=
  mkBuffer (block_size_ s) (buf_ s) q (preserved_list_ s) (rpos_ s)
    (wpos_private_ s) (one_block_left_ s).
Definition with_preserved_list (s : t) (q : list segment) : t :=
  mkBuffer (block_size_ s) (buf_ s) (free_list_ s) q (rpos_ s)
    (wpos_private_ s) (one_block_left_ s).
Definition with_rpos (s : t) (z : Z) : t :=
  mkBuffer (block_size_ s) (buf_ s) (free_list_ s) (preserved_list_ s) z
    (wpos_private_ s) (one_block_left_ s).
Definition with_wpos_private (s : t) (z : Z) : t :=
  mkBuffer (block_size_ s) (buf_ s) (free_list_ s) (preserved_list_ s) (rpos_ s)
    z (one_block_left_ s).
Definition with_one_block_left (s : t) (b : bool) : t :=
  mkBuffer (block_size_ s) (buf_ s) (free_list_ s) (preserved_list_ s) (rpos_ s)
    (wpos_private_ s) b.

(** The last segment with the segments before it. *)
Definition unsnoc {A} (l : list A) : res (list A * A) :=
  match last l with
  | Some x => Ok (removelast l, x)
  | None => Fail Undefined
  end.

Definition front {A} (l : list A) : res A :=
  match l with x :: _ => Ok x | [] => Fail Undefined end.

Definition init (pagesize : Z) (block_size : Z) (s : t) : res t :=
  let bs := if bool_decide (block_size = -1) then wrap pagesize else wrap block_size in
  Ok (mkBuffer bs (buf_ s ++ [(Some (new_block bs), 0)]) (free_list_ s)
        (preserved_list_ s) 0 0 true).

Definition default_constructed : t := mkBuffer 0 [] [] [] 0 0 true.

(** [*wpos_ = wpos_private_] *)
Definition publish (s : t) : res t :=
  '(segs, seg) ← unsnoc (buf_ s);
  Ok (with_buf s (segs ++ [(seg.1, wpos_private_ s)])).

Definition notify := publish.

(** [*wpos_] *)
Definition published (s : t) : res Z :=
  '(_, seg) ← unsnoc (buf_ s); Ok seg.2.

Definition add_block (s : t) : res t :=
  s0 ← publish s;
  let s1 := with_wpos_private s0 0 in
  match free_list_ s1 with
  | [] => Ok (with_buf s1 (buf_ s1 ++ [(Some (new_block (block_size_ s1)), 0)]))
  | blk :: rest => Ok (with_free_list (with_buf s1 (buf_ s1 ++ [(blk, 0)])) rest)
  end.

Definition add_block_if_full (s : t) : res t :=
  if bool_decide (wpos_private_ s = block_size_ s) then add_block s else Ok s.

Definition add_block_if_needed (cont_write_len : Z) (s : t) : res t :=
  if bool_decide (cont_write_len > wrap (block_size_ s - wpos_private_ s))
  then add_block s else Ok s.

Definition copy_to_back (src : list byte) (s : t) : res t :=
  '(segs, seg) ← unsnoc (buf_ s);
  match seg.1 with
  | Some blk =>
    blk' ← blit blk (wpos_private_ s) src;
    Ok (with_buf s (segs ++ [(Some blk', seg.2)]))
  | None => Fail Undefined
  end.

Fixpoint write_loop (fuel : nat) (src : list byte) (s : t) : res t :=
  match src with
  | [] => Ok s
  | _ :: _ =>
    match fuel with
    | O => Fail Diverges
    | S fuel' =>
      s1 ← add_block_if_full s;
      let to_write := Z.min (wrap (len src)) (wrap (block_size_ s1 - wpos_private_ s1)) in
      if bool_decide (to_write = 0) then Fail Diverges else
      s2 ← copy_to_back (take (Z.to_nat to_write) src) s1;
      write_loop fuel' (drop (Z.to_nat to_write) src)
        (with_wpos_private s2 (wrap (wpos_private_ s2 + to_write)))
    end
  end.

Definition write (src : list byte) (do_notify : bool) (s : t) : res t :=
  s1 ← write_loop (length src) src s;
  if do_notify then notify s1 else Ok s1.

Definition write_value (repr : list byte) (do_notify : bool) (s : t) : res t :=
  write repr do_notify s.

Definition write_string (str : list byte) (do_notify : bool) (s : t) : res t :=
  let size := len str in
  s1 ← write_value (size_t_bytes size) false s;
  write str do_notify s1.

Definition check_one_block_left (s : t) : res bool :=
  _ ← front (buf_ s);
  Ok (bool_decide (length (buf_ s) = 1%nat)).

Definition front_end (s : t) : res Z :=
  seg ← front (buf_ s); Ok seg.2.

(** Defined for two segments or more, where the source calls it. *)
Definition pop_block (s : t) : res t :=
  match buf_ s with
  | seg :: (_ :: _) as rest =>
    let s1 := with_rpos (with_preserved_list (with_buf s rest)
                 (preserved_list_ s ++ [seg])) 0 in
    b ← check_one_block_left s1;
    Ok (with_one_block_left s1 b)
  | _ => Fail Undefined
  end.

Definition pop_block_if_needed (size : Z) (s : t) : res t :=
  if one_block_left_ s then
    one ← check_one_block_left s;
    if negb one then
      e ← front_end s;
      if bool_decide (wrap (e - rpos_ s) < size) then pop_block s else Ok s
    else Ok s
  else
    e ← front_end s;
    if bool_decide (wrap (e - rpos_ s) < size) then pop_block s else Ok s.

Definition peek (n : Z) (s : t) : res (list byte) :=
  seg ← front (buf_ s);
  match seg.1 with
  | Some blk => slice blk (rpos_ s) n
  | None => Fail Undefined
  end.

Definition clear_step (length_ : Z) (cleared_len : Z) (s : t) : res (option (Z * t)) :=
  match preserved_list_ s with
  | [] => Ok None
  | seg :: rest =>
    if bool_decide (wrap (seg.2 + cleared_len) ≤ length_) then
      Ok (Some (wrap (cleared_len + seg.2),
                with_preserved_list (with_free_list s (free_list_ s ++ [seg.1])) rest))
    else Ok None
  end.

Fixpoint clear_loop (fuel : nat) (length_ : Z) (cleared_len : Z) (s : t) : res t :=
  st ← clear_step length_ cleared_len s;
  match st with
  | None => Ok s
  | Some (cleared_len', s') =>
    match fuel with
    | O => Fail Diverges
    | S fuel' => clear_loop fuel' length_ cleared_len' s'
    end
  end.

Definition clear_preserved (length_ : Z) (s : t) : res t :=
  clear_loop (length (preserved_list_ s)) length_ 0 s.

Definition read (size : Z) (s : t) : res (list byte * t) :=
  s1 ← pop_block_if_needed size s;
  v ← peek size s1;
  Ok (v, with_rpos s1 (wrap (rpos_ s1 + size))).

Definition get (size : Z) (s : t) : res (list byte * t) :=
  '(v, s1) ← read size s;
  s2 ← clear_preserved size s1;
  Ok (v, s2).

Definition read_cont (length_ : Z) (s : t) : res (list byte * t) := read length_ s.

Definition get_cont (length_ : Z) (s : t) : res (list byte * t) :=
  '(v, s1) ← read length_ s;
  s2 ← clear_preserved length_ s1;
  Ok (v, s2).

Definition get_string (s : t) : res (list byte * t) :=
  '(lenb, s1) ← read sizeof_size_t s;
  let length_ := le_value lenb in
  s2 ← pop_block_if_needed length_ s1;
  str ← peek length_ s2;
  let s3 := with_rpos s2 (wrap (rpos_ s2 + length_)) in
  s4 ← clear_preserved (wrap (sizeof_size_t + length_)) s3;
  Ok (str, s4).

Definition write_cont (src : list byte) (do_notify : bool) (s : t) : res t :=
  match src with
  | [] => Ok s
  | _ :: _ =>
    let to_write := wrap (len src) in
    s1 ← add_block_if_needed to_write s;
    s2 ← copy_to_back src s1;
    let s3 := with_wpos_private s2 (wrap (wpos_private_ s2 + to_write)) in
    if do_notify then notify s3 else Ok s3
  end.

Definition write_cont_value (repr : list byte) (do_notify : bool) (s : t) : res t :=
  write_cont repr do_notify s.

Definition write_cont_string (str : list byte) (do_notify : bool) (s : t) : res t :=
  let size := len str in
  s1 ← write_cont_value (size_t_bytes size) false s;
  write_cont str do_notify s1.

Definition ensure_cont (size : Z) (s : t) : res (Z * t) :=
  s1 ← add_block_if_needed size s;
  Ok (wpos_private_ s1, s1).

Definition input_finish (total_len : Z) (s : t) : res (Z * t) :=
  if bool_decide (total_len > 0) then s' ← notify s; Ok (total_len, s')
  else Ok (total_len, s).

Fixpoint input_loop (script : list read_answer) (cont : bool) (max_len : Z)
    (total_len : Z) (s : t) : res (Z * t * trace) :=
  s1 ← add_block_if_full s;
  let room := wrap (block_size_ s1 - wpos_private_ s1) in
  let count := if bool_decide (max_len = -1) then room
               else Z.min (wrap (max_len - total_len)) room in
  match script with
  | [] => Fail NoInput
  | ReadErr :: rest =>
    if bool_decide (total_len = 0) then Ok (-1, s1, [-1])
    else '(r, s') ← input_finish total_len s1; Ok (r, s', [-1])
  | ReadData data :: rest =>
    let got := stored count data in
    if bool_decide (len got = 0) then
      '(r, s') ← input_finish total_len s1; Ok (r, s', [0])
    else
      s2 ← copy_to_back got s1;
      let total_len' := total_len + len got in
      let s3 := with_wpos_private s2 (wrap (wpos_private_ s2 + len got)) in
      if cont then '(r, s') ← input_finish total_len' s3; Ok (r, s', [len got])
      else '(r, s', tr) ← input_loop rest cont max_len total_len' s3;
           Ok (r, s', len got :: tr)
  end.

Definition input_from_fd (script : list read_answer) (cont : bool) (max_len : Z)
    (s : t) : res (Z * t * trace) :=
  input_loop script cont max_len 0 s.

Fixpoint output_loop (script : list write_answer) (total_len : Z) (s : t)
    : res (Z * list byte * t * trace) :=
  s1 ← pop_block_if_needed 1 s;
  e ← front_end s1;
  let count := wrap (e - rpos_ s1) in
  match script with
  | [] => Fail NoInput
  | WriteErr :: rest =>
    if bool_decide (total_len = 0) then Ok (-1, [], s1, [-1])
    else s' ← clear_preserved (wrap total_len) s1; Ok (total_len, [], s', [-1])
  | WriteRoom room :: rest =>
    let n := taken count room in
    if bool_decide (n = 0) then
      s' ← clear_preserved (wrap total_len) s1; Ok (total_len, [], s', [0])
    else
      bytes ← peek n s1;
      '(r, out, s', tr) ← output_loop rest (total_len + n)
                            (with_rpos s1 (wrap (rpos_ s1 + n)));
      Ok (r, bytes ++ out, s', n :: tr)
  end.

Definition output_to_fd (script : list write_answer) (s : t)
    : res (Z * list byte * t * trace) :=
  output_loop script 0 s.

Definition empty_const (s : t) : res bool :=
  if one_block_left_ s then
    one ← check_one_block_left s;
    if (one : bool) then e ← published s; Ok (bool_decide (rpos_ s = e))
    else Ok false
  else Ok false.

Definition empty (s : t) : res (bool * t) :=
  if one_block_left_ s then
    one ← check_one_block_left s;
    let s1 := with_one_block_left s one in
    if (one : bool) then e ← published s1; Ok (bool_decide (rpos_ s1 = e), s1)
    else Ok (false, s1)
  else Ok (false, s).

End ListBuffer.

(** ** The public interfaces as data *)

(** What a call hands back to its caller. *)
Inductive value : Type :=
  | VNone                                   (* void *)
  | VBytes (l : list byte)                  (* the bytes of a T, of a string *)
  | VInt (z : Z)                            (* ssize_t, or an offset *)
  | VBool (b : bool)
  | VPtr (node : option addr) (off : Z).    (* a pointer into a block *)

Module SPSCApi.
Import SPSCBlockBuffer.

(** The public member functions of [SPSCBlockBuffer] ([get_eventfd], a
    getter of the eventfd mode, apart). *)
Inductive call : Type :=
  | Init (pagesize block_size : Z)
  | Write (src : list byte) (do_notify : bool)
  | WriteValue (repr : list byte) (do_notify : bool)
  | WriteString (str : list byte) (do_notify : bool)
  | Read (size : Z)
  | Get (size : Z)
  | ReadCont (length_ : Z)
  | GetCont (length_ : Z)
  | GetString
  | WriteCont (src : list byte) (do_notify : bool)
  | WriteContValue (repr : list byte) (do_notify : bool)
  | WriteContString (str : list byte) (do_notify : bool)
  | InputFromFd (script : list read_answer) (cont : bool) (max_len : Z)
  | OutputToFd (script : list write_answer)
  | Notify
  | EnsureCont (size : Z)
  | EmptyConst
  | Empty
  | ClearPreserved (length_ : Z).

Definition unit_call (m : res t) : res (value * t) := s ← m; Ok (VNone, s).
Definition bytes_call (m : res (list byte * t)) : res (value * t) :=
  '(v, s) ← m; Ok (VBytes v, s).

Definition run (c : call) (s : t) : res (value * t) :=
  match c with
  | Init pagesize block_size => unit_call (init pagesize block_size s)
  | Write src n => unit_call (write src n s)
  | WriteValue repr n => unit_call (write_value repr n s)
  | WriteString str n => unit_call (write_string str n s)
  | Read size => bytes_call (read size s)
  | Get size => bytes_call (get size s)
  | ReadCont n => bytes_call (read_cont n s)
  | GetCont n => bytes_call (get_cont n s)
  | GetString => bytes_call (get_string s)
  | WriteCont src n => unit_call (write_cont src n s)
  | WriteContValue repr n => unit_call (write_cont_value repr n s)
  | WriteContString str n => unit_call (write_cont_string str n s)
  | InputFromFd script cont max_len =>
      '(r, s', _) ← input_from_fd script cont max_len s; Ok (VInt r, s')
  | OutputToFd script =>
      '(r, _, s', _) ← output_to_fd script s; Ok (VInt r, s')
  | Notify => unit_call (notify s)
  | EnsureCont size =>
      '(p, off, s') ← ensure_cont size s; Ok (VPtr p off, s')
  | EmptyConst => b ← empty_const s; Ok (VBool b, s)
  | Empty => '(b, s') ← empty s; Ok (VBool b, s')
  | ClearPreserved n => unit_call (clear_preserved n s)
  end.

(** The states a buffer goes through: [init] on a default-constructed
    buffer, then any calls that return. *)
Inductive reachable : t → Prop :=
  | reachable_init pagesize block_size s :
      init pagesize block_size default_constructed = Ok s → reachable s
  | reachable_call c v s s' :
      reachable s → run c s = Ok (v, s') → reachable s'.

End SPSCApi.

Module Shared.

(** The public member functions of [BlockBuffer], all of which the SPSC
    buffer has too, with [BlockBuffer]'s signatures (the SPSC buffer's extra
    arguments take their defaults: [notify = true], [max_len = -1]). *)
Inductive call : Type :=
  | Write (src : list byte)
  | WriteValue (repr : list byte)
  | WriteString (str : list byte)
  | Read (size : Z)
  | GetString
  | WriteCont (src : list byte)
  | WriteContValue (repr : list byte)
  | WriteContString (str : list byte)
  | EnsureCont (size : Z)
  | InputFromFd (script : list read_answer) (cont : bool)
  | OutputToFd (script : list write_answer)
  | Empty
  | ClearPreserved (length_ : Z).

Definition to_spsc (c : call) : SPSCApi.call :=
  match c with
  | Write src => SPSCApi.Write src true
  | WriteValue repr => SPSCApi.WriteValue repr true
  | WriteString str => SPSCApi.WriteString str true
  | Read size => SPSCApi.Read size
  | GetString => SPSCApi.GetString
  | WriteCont src => SPSCApi.WriteCont src true
  | WriteContValue repr => SPSCApi.WriteContValue repr true
  | WriteContString str => SPSCApi.WriteContString str true
  | EnsureCont size => SPSCApi.EnsureCont size
  | InputFromFd script cont => SPSCApi.InputFromFd script cont (-1)
  | OutputToFd script => SPSCApi.OutputToFd script
  | Empty => SPSCApi.Empty
  | ClearPreserved n => SPSCApi.ClearPreserved n
  end.

(** A pointer into the tail block is compared by its offset. *)
Definition observe (v : value) : value :=
  match v with VPtr _ off => VInt off | _ => v end.

Definition run_spsc (c : call) (s : SPSCBlockBuffer.t) : res (value * SPSCBlockBuffer.t) :=
  '(v, s') ← SPSCApi.run (to_spsc c) s; Ok (observe v, s').

Definition run_bb (c : call) (s : BlockBuffer.t) : res (value * BlockBuffer.t) :=
  match c with
  | Write src => s' ← BlockBuffer.write src s; Ok (VNone, s')
  | WriteValue repr => s' ← BlockBuffer.write_value repr s; Ok (VNone, s')
  | WriteString str => s' ← BlockBuffer.write_string str s; Ok (VNone, s')
  | Read size => '(v, s') ← BlockBuffer.read size s; Ok (VBytes v, s')
  | GetString => '(v, s') ← BlockBuffer.get_string s; Ok (VBytes v, s')
  | WriteCont src => s' ← BlockBuffer.write_cont src s; Ok (VNone, s')
  | WriteContValue repr => s' ← BlockBuffer.write_cont_value repr s; Ok (VNone, s')
  | WriteContString str => s' ← BlockBuffer.write_cont_string str s; Ok (VNone, s')
  | EnsureCont size => '(off, s') ← BlockBuffer.ensure_cont size s; Ok (VInt off, s')
  | InputFromFd script cont =>
      '(r, s', _) ← BlockBuffer.input_from_fd script cont s; Ok (VInt r, s')
  | OutputToFd script =>
      '(r, _, s', _) ← BlockBuffer.output_to_fd script s; Ok (VInt r, s')
  | Empty => b ← BlockBuffer.empty s; Ok (VBool b, s)
  | ClearPreserved n => s' ← BlockBuffer.clear_preserved n s; Ok (VNone, s')
  end.

(** A sequence of calls and the values they return. *)
Fixpoint runs {S} (step : call → S → res (value * S)) (cs : list call) (s : S)
    : res (list value * S) :=
  match cs with
  | [] => Ok ([], s)
  | c :: cs' =>
    '(v, s1) ← step c s;
    '(vs, s2) ← runs step cs' s1;
    Ok (v :: vs, s2)
  end.

Definition spsc_session (pagesize block_size : Z) (cs : list call) : res (list value) :=
  s ← SPSCBlockBuffer.create pagesize block_size;
  '(vs, _) ← runs run_spsc cs s; Ok vs.

Definition bb_session (pagesize block_size : Z) (cs : list call) : res (list value) :=
  '(vs, _) ← runs run_bb cs (BlockBuffer.create pagesize block_size); Ok vs.

End Shared.

Module ListApi.
Import ListBuffer.

Definition unit_call (m : res t) : res (value * t) := s ← m; Ok (VNone, s).
Definition bytes_call (m : res (list byte * t)) : res (value * t) :=
  '(v, s) ← m; Ok (VBytes v, s).

(** [SPSCApi.run] on the list form; a returned pointer is its offset. *)
Definition run (c : SPSCApi.call) (s : t) : res (value * t) :=
  match c with
  | SPSCApi.Init pagesize block_size => unit_call (init pagesize block_size s)
  | SPSCApi.Write src n => unit_call (write src n s)
  | SPSCApi.WriteValue repr n => unit_call (write_value repr n s)
  | SPSCApi.WriteString str n => unit_call (write_string str n s)
  | SPSCApi.Read size => bytes_call (read size s)
  | SPSCApi.Get size => bytes_call (get size s)
  | SPSCApi.ReadCont n => bytes_call (read_cont n s)
  | SPSCApi.GetCont n => bytes_call (get_cont n s)
  | SPSCApi.GetString => bytes_call (get_string s)
  | SPSCApi.WriteCont src n => unit_call (write_cont src n s)
  | SPSCApi.WriteContValue repr n => unit_call (write_cont_value repr n s)
  | SPSCApi.WriteContString str n => unit_call (write_cont_string str n s)
  | SPSCApi.InputFromFd script cont max_len =>
      '(r, s', _) ← input_from_fd script cont max_len s; Ok (VInt r, s')
  | SPSCApi.OutputToFd script =>
      '(r, _, s', _) ← output_to_fd script s; Ok (VInt r, s')
  | SPSCApi.Notify => unit_call (notify s)
  | SPSCApi.EnsureCont size =>
      '(off, s') ← ensure_cont size s; Ok (VInt off, s')
  | SPSCApi.EmptyConst => b ← empty_const s; Ok (VBool b, s)
  | SPSCApi.Empty => '(b, s') ← empty s; Ok (VBool b, s')
  | SPSCApi.ClearPreserved n => unit_call (clear_preserved n s)
  end.

End ListApi.

(** ** The pointer-level buffer against the list-level buffer: vocabulary *)

Module SPSCAbs.
Import SPSCQueue.
Import SPSCBlockBuffer.

(** The segments of [buf_] with their nodes, the blocks of [free_list_] and
    the segments of [preserved_list_], front first. *)
Definition buf_is (s : t) (es : list (addr * segment)) : Prop :=
  ∃ d fd fs, repr (buf_ s) d es fd fs.
Definition free_is (s : t) (fl : list (addr * option block)) : Prop :=
  ∃ d fd fs, repr (free_list_ s) d fl fd fs.
Definition pres_is (s : t) (pl : list (addr * segment)) : Prop :=
  ∃ d fd fs, repr (preserved_list_ s) d pl fd fs.

(** The members a step leaves alone. *)
Definition same_scalars (s s' : t) : Prop :=
  block_size_ s' = block_size_ s ∧ rpos_ s' = rpos_ s ∧
  wpos_private_ s' = wpos_private_ s ∧ one_block_left_ s' = one_block_left_ s.

(** [abs0 s a]: the queues of [s] hold the lists of [a], scalar members
    agree. *)
Definition abs0 (s : t) (a : ListBuffer.t) (es : list (addr * segment)) : Prop :=
  ∃ fl pl,
    buf_is s es ∧ es.*2 = ListBuffer.buf_ a ∧
    free_is s fl ∧ fl.*2 = ListBuffer.free_list_ a ∧
    pres_is s pl ∧ pl.*2 = ListBuffer.preserved_list_ a ∧
    block_size_ s = ListBuffer.block_size_ a ∧
    rpos_ s = ListBuffer.rpos_ a ∧
    wpos_private_ s = ListBuffer.wpos_private_ a ∧
    one_block_left_ s = ListBuffer.one_block_left_ a.

(** [abs s a]: moreover the segment list is not empty, [wpos_] points into
    its last node, and a cleared [one_block_left_] means more than one
    segment. *)
Definition abs (s : t) (a : ListBuffer.t) : Prop :=
  ∃ es, abs0 s a es ∧ es ≠ [] ∧ wpos_ s = last es.*1 ∧
        (one_block_left_ s = false → (1 < length es)%nat).

Definition simR {A B} (R : A → B → Prop) (m : res A) (m' : res B) : Prop :=
  match m, m' with
  | Ok x, Ok y => R x y
  | Fail f, Fail f' => f = f'
  | _, _ => False
  end.

Definition Rv {X} (p : X * t) (p' : X * ListBuffer.t) : Prop :=
  p.1 = p'.1 ∧ abs p.2 p'.2.

Definition Rstep (o : option (Z * t)) (o' : option (Z * ListBuffer.t)) : Prop :=
  match o, o' with
  | None, None => True
  | Some (c, s), Some (c', a) => c = c' ∧ abs s a
  | _, _ => False
  end.

Definition Rptr (p : option addr * Z * t) (p' : Z * ListBuffer.t) : Prop :=
  p.1.1 = wpos_ p.2 ∧ p.1.2 = p'.1 ∧ abs p.2 p'.2.

Definition Rin (p : Z * t * trace) (p' : Z * ListBuffer.t * trace) : Prop :=
  p.1.1 = p'.1.1 ∧ abs p.1.2 p'.1.2 ∧ p.2 = p'.2.

Definition Rout (p : Z * list byte * t * trace) (p' : Z * list byte * ListBuffer.t * trace)
    : Prop :=
  p.1.1.1 = p'.1.1.1 ∧ p.1.1.2 = p'.1.1.2 ∧ abs p.1.2 p'.1.2 ∧ p.2 = p'.2.

Definition Rrun (p : value * t) (p' : value * ListBuffer.t) : Prop :=
  Shared.observe p.1 = p'.1 ∧ abs p.2 p'.2.

End SPSCAbs.

(** ** Well-sized states and the result of a descriptor call *)

Module Consistency.

(** An allocated block of [bs] bytes. *)
Definition good_block (bs : Z) (b : option block) : Prop :=
  ∃ blk, b = Some blk ∧ len blk = bs.

(** A segment with such a block and a length within it. *)
Definition good_segment (bs : Z) (seg : segment) : Prop :=
  good_block bs seg.1 ∧ 0 ≤ seg.2 ≤ bs.

(** The sizes of a state given by its scalar members and the contents of
    its three queues: every block has [block_size_] bytes, every published
    length lies within its block, the write cursor lies within the tail
    block and past its published length, and the read cursor lies within
    the published part of the head segment. *)
Definition sizes_ok (bs rpos wpos_private : Z) (buf : list segment)
    (free : list (option block)) (pres : list segment) : Prop :=
  0 ≤ bs < 2 ^ 64 ∧ 0 ≤ wpos_private ≤ bs ∧
  Forall (good_segment bs) buf ∧ Forall (good_block bs) free ∧
  Forall (good_segment bs) pres ∧
  (∀ seg, last buf = Some seg → seg.2 ≤ wpos_private) ∧
  (∀ seg, head buf = Some seg → 0 ≤ rpos ≤ seg.2).

Definition consistent (s : SPSCBlockBuffer.t) : Prop :=
  sizes_ok (SPSCBlockBuffer.block_size_ s) (SPSCBlockBuffer.rpos_ s)
    (SPSCBlockBuffer.wpos_private_ s)
    (SPSCQueue.contents (SPSCBlockBuffer.buf_ s))
    (SPSCQueue.contents (SPSCBlockBuffer.free_list_ s))
    (SPSCQueue.contents (SPSCBlockBuffer.preserved_list_ s)).

Definition list_consistent (a : ListBuffer.t) : Prop :=
  sizes_ok (ListBuffer.block_size_ a) (ListBuffer.rpos_ a)
    (ListBuffer.wpos_private_ a) (ListBuffer.buf_ a)
    (ListBuffer.free_list_ a) (ListBuffer.preserved_list_ a).

(** The structure a list-level state has when a pointer-level state
    implements it, and a list-level state that also has its sizes. *)
Definition linv (a : ListBuffer.t) : Prop :=
  ListBuffer.buf_ a ≠ [] ∧
  (ListBuffer.one_block_left_ a = false → (1 < length (ListBuffer.buf_ a))%nat).

Definition lok (a : ListBuffer.t) : Prop := linv a ∧ list_consistent a.

(** What a descriptor call returns, against the trace of its system calls:
    -1 iff a system call failed and no byte was moved, and otherwise the
    number of bytes moved. *)
Definition fd_result (r : Z) (tr : trace) : Prop :=
  (r = -1 ↔ errored tr ∧ transferred tr = 0) ∧ (r ≠ -1 → r = transferred tr).

(** The same inside the loop, [total] bytes having been moved before. *)
Definition fd_result_from (total r : Z) (tr : trace) : Prop :=
  (r = -1 ↔ errored tr ∧ total + transferred tr = 0) ∧
  (r ≠ -1 → r = total + transferred tr).

(** A script on which the loop of [input_from_fd] ends: some [::read]
    fails or meets the end of the file. *)
Definition read_script_ends (script : list read_answer) : Prop :=
  ReadErr ∈ script ∨ ReadData [] ∈ script.

(** A script on which the loop of [output_to_fd] ends: some [::write]
    fails or takes nothing. *)
Definition write_script_ends (script : list write_answer) : Prop :=
  WriteErr ∈ script ∨ WriteRoom 0 ∈ script.

End Consistency.

(** ** Comparing the two buffers *)

Module Compare.

(** Two allocated blocks of [bs] bytes with the same first [n] bytes. *)
Definition agree (bs n : Z) (x y : option block) : Prop :=
  ∃ bx by_, x = Some bx ∧ y = Some by_ ∧ len bx = bs ∧ len by_ = bs ∧
            take (Z.to_nat n) bx = take (Z.to_nat n) by_.

(** A closed segment of the one against the same segment of the other. *)
Definition same_segment (bs : Z) (x y : segment) : Prop :=
  x.2 = y.2 ∧ agree bs x.2 x.1 y.1.

(** The list-level SPSC buffer [a] against the sequential buffer [b]: same
    sizes and cursors, as many segments, closed segments with the same
    length and the same bytes below it, tail blocks with the same bytes
    below the write cursor, [b]'s tail marked [(size_t)-1], and nothing on
    [b]'s freelist.  The lists of preserved and free blocks of [a] are
    not compared. *)
Definition related (a : ListBuffer.t) (b : BlockBuffer.t) : Prop :=
  Consistency.lok a ∧
  ListBuffer.block_size_ a = BlockBuffer.block_size_ b ∧
  ListBuffer.block_size_ a < 2 ^ 64 - 1 ∧
  ListBuffer.rpos_ a = BlockBuffer.rpos_ b ∧
  ListBuffer.wpos_private_ a = BlockBuffer.wpos_ b ∧
  BlockBuffer.free_list_ b = [] ∧
  ∃ segsa ta segsb tb,
    ListBuffer.buf_ a = segsa ++ [ta] ∧ BlockBuffer.buf_ b = segsb ++ [tb] ∧
    Forall2 (same_segment (ListBuffer.block_size_ a)) segsa segsb ∧
    tb.2 = BlockBuffer.uncommitted ∧
    agree (ListBuffer.block_size_ a) (ListBuffer.wpos_private_ a) ta.1 tb.1.

(** Everything written is published: [*wpos_ == wpos_private_]. *)
Definition published (a : ListBuffer.t) : Prop :=
  ∀ seg, last (ListBuffer.buf_ a) = Some seg → seg.2 = ListBuffer.wpos_private_ a.

(** A read of [n] bytes that stays within the published bytes of the head
    segment, once [pop_block_if_needed(n)] has run. *)
Definition readable (n : Z) (s : SPSCBlockBuffer.t) : Prop :=
  0 ≤ n ∧
  ∀ s1 e, SPSCBlockBuffer.pop_block_if_needed n s = Ok s1 →
          SPSCBlockBuffer.front_end s1 = Ok e →
          SPSCBlockBuffer.rpos_ s1 + n ≤ e.

(** The calls the comparison covers: everything but [output_to_fd] and
    [clear_preserved], with reads of written data only and [write_cont] of
    strings that are not empty. *)
Definition admissible (c : Shared.call) (s : SPSCBlockBuffer.t) : Prop :=
  match c with
  | Shared.WriteContString str => str ≠ []
  | Shared.Read size => readable size s
  | Shared.GetString =>
      readable sizeof_size_t s ∧
      ∀ lenb s1, SPSCBlockBuffer.read sizeof_size_t s = Ok (lenb, s1) →
                 readable (le_value lenb) s1
  | Shared.OutputToFd _ | Shared.ClearPreserved _ => False
  | _ => True
  end.

Fixpoint admissible_run (cs : list Shared.call) (s : SPSCBlockBuffer.t) : Prop :=
  match cs with
  | [] => True
  | c :: cs' =>
    admissible c s ∧
    ∀ v s', Shared.run_spsc c s = Ok (v, s') → admissible_run cs' s'
  end.

(** A session from the constructor whose calls are admissible, one after
    the other. *)
Definition admissible_session (pagesize block_size : Z) (cs : list Shared.call) : Prop :=
  ∃ s, SPSCBlockBuffer.create pagesize block_size = Ok s ∧ admissible_run cs s.

(** [readable] and [admissible] on the list form. *)
Definition list_readable (n : Z) (a : ListBuffer.t) : Prop :=
  0 ≤ n ∧
  ∀ a1 e, ListBuffer.pop_block_if_needed n a = Ok a1 →
          ListBuffer.front_end a1 = Ok e → ListBuffer.rpos_ a1 + n ≤ e.

Definition list_admissible (c : Shared.call) (a : ListBuffer.t) : Prop :=
  match c with
  | Shared.WriteContString str => str ≠ []
  | Shared.Read size => list_readable size a
  | Shared.GetString =>
      list_readable sizeof_size_t a ∧
      ∀ lenb a1, ListBuffer.read sizeof_size_t a = Ok (lenb, a1) →
                 list_readable (le_value lenb) a1
  | Shared.OutputToFd _ | Shared.ClearPreserved _ => False
  | _ => True
  end.

End Compare.

(** ** Sessions used as examples *)

Module Examples.
Import Shared.

Definition hello : list byte := [x68; x65; x6c; x6c; x6f].

(** Blocks of 16 bytes: four bytes written and read, then a string whose
    length prefix fills bytes 4..11 and whose payload begins at byte 12. *)
Definition straddling_string : list call :=
  [WriteValue (le_bytes 4 7); Read 4; WriteString hello; GetString].

(** Blocks of 16 bytes: the same string at the start of the first block. *)
Definition string_in_one_block : list call :=
  [WriteString hello; GetString; Empty].

(** Blocks of 8 bytes: two blocks filled, the first read to its end by a
    typed read, then [output_to_fd] on a descriptor with room. *)
Definition drained_head_output : list call :=
  [Write (le_bytes 8 7); Write (le_bytes 8 9); Read 8;
   OutputToFd [WriteRoom 100; WriteRoom 100]].

(** [write_cont] of the empty string, then [empty()]. *)
Definition empty_string_cont : list call := [WriteContString []; Empty].

(** Blocks of 8 bytes: two blocks filled and read, which preserves the
    first, then [clear_preserved(8)]. *)
Definition clear_after_reads : list call :=
  [Write (le_bytes 8 7); Write (le_bytes 8 9); Read 8; Read 8; ClearPreserved 8].

End Examples.

(** ** The buffer as a stream of bytes *)

Module Stream.

(** The published bytes of a segment: the first [second] bytes of its
    block. *)
Definition seg_bytes (seg : segment) : list byte :=
  match seg.1 with
  | Some blk => take (Z.to_nat seg.2) blk
  | None => []
  end.

(** The published bytes of a list of segments that a consumer at offset
    [rpos] of the head segment has not read: those of the head segment from
    [rpos] on, then those of the segments behind it, in order. *)
Definition unread_of (rpos : Z) (segs : list segment) : list byte :=
  drop (Z.to_nat rpos) (mjoin (seg_bytes <$> segs)).

Definition unread (s : SPSCBlockBuffer.t) : list byte :=
  unread_of (SPSCBlockBuffer.rpos_ s) (SPSCQueue.contents (SPSCBlockBuffer.buf_ s)).

Definition list_unread (a : ListBuffer.t) : list byte :=
  unread_of (ListBuffer.rpos_ a) (ListBuffer.buf_ a).

(** The bytes of a list of segments whose tail is written up to [wpos]:
    the published bytes of the segments before the tail, then the first
    [wpos] bytes of the tail block. *)
Definition written_of (wpos : Z) (segs : list segment) : list byte :=
  mjoin (seg_bytes <$> removelast segs) ++
  match last segs with
  | Some seg => seg_bytes (seg.1, wpos)
  | None => []
  end.

Definition list_written (a : ListBuffer.t) : list byte :=
  written_of (ListBuffer.wpos_private_ a) (ListBuffer.buf_ a).

(** Every byte written is published: [*wpos_ == wpos_private_]. *)
Definition all_published (s : SPSCBlockBuffer.t) : Prop :=
  ∀ seg, last (SPSCQueue.contents (SPSCBlockBuffer.buf_ s)) = Some seg →
         seg.2 = SPSCBlockBuffer.wpos_private_ s.

(** The bytes the [::read] calls of a script stored, given what they
    returned: the first [x] bytes of the data of each call that returned
    [x > 0]. *)
Definition stored_by (script : list read_answer) (tr : trace) : list byte :=
  mjoin (zip_with (λ ans x, match ans with
                            | ReadData data => take (Z.to_nat x) data
                            | ReadErr => []
                            end) script tr).

(** The sum of the published lengths of a list of segments. *)
Definition total_end (segs : list segment) : Z := foldr (λ seg acc, seg.2 + acc) 0 segs.

End Stream.

(** ** What a typed read skips *)

Module Skip.

(** The unread bytes of the head segment that [pop_block_if_needed(n)]
    leaves behind: all of them when they are fewer than [n] and another
    segment follows, none otherwise. *)
Definition skipped_of (n rpos : Z) (segs : list segment) : Z :=
  match segs with
  | seg :: _ :: _ => if bool_decide (seg.2 - rpos < n) then seg.2 - rpos else 0
  | _ => 0
  end.

Definition skipped (n : Z) (s : SPSCBlockBuffer.t) : Z :=
  skipped_of n (SPSCBlockBuffer.rpos_ s) (SPSCQueue.contents (SPSCBlockBuffer.buf_ s)).

End Skip.

(** ** States used as examples *)

Module Scenario.
Import SPSCBlockBuffer.

(** [SPSCBlockBuffer(16)] *)
Definition fresh : t :=
  match create 4096 16 with Ok s => s | Fail _ => default_constructed end.

(** ... after [write<uint32_t>(7)] *)
Definition after_write : t :=
  match write (le_bytes 4 7) true fresh with Ok s => s | Fail _ => fresh end.

(** [SPSCBlockBuffer(0)] *)
Definition no_room : t :=
  match create 4096 0 with Ok s => s | Fail _ => default_constructed end.

End Scenario.

(** ** Records written contiguously *)

Module Records.

(** [aligned lim rpos segs recs]: the records [recs] lie in the segments
    [segs] one after the other from offset [rpos] of the head segment,
    each whole within one segment, a segment holding records up to its
    published length (the tail segment: up to [lim]) and the next record
    then starting the next segment.  With no record left there is one
    segment, read to [lim]. *)
Inductive aligned (lim : Z) : Z → list segment → list (list byte) → Prop :=
  | aligned_nil rpos (seg : segment) :
      rpos = lim → aligned lim rpos [seg] []
  | aligned_here rpos (seg : segment) rest blk r recs :
      seg.1 = Some blk → slice blk rpos (len r) = Ok r →
      rpos + len r ≤ (if bool_decide (rest = []) then lim else seg.2) →
      aligned lim (rpos + len r) (seg :: rest) recs →
      aligned lim rpos (seg :: rest) (r :: recs)
  | aligned_next rpos (seg seg2 : segment) rest blk r recs :
      rpos = seg.2 → r ≠ [] →
      seg2.1 = Some blk → slice blk 0 (len r) = Ok r →
      len r ≤ (if bool_decide (rest = []) then lim else seg2.2) →
      aligned lim (len r) (seg2 :: rest) recs →
      aligned lim rpos (seg :: seg2 :: rest) (r :: recs).

Definition list_records (a : ListBuffer.t) (recs : list (list byte)) : Prop :=
  aligned (ListBuffer.wpos_private_ a) (ListBuffer.rpos_ a) (ListBuffer.buf_ a) recs.

(** What a client does with records: it writes a range or a string
    contiguously and publishes it, it reads [n] bytes in one piece, or it
    reads a string. *)
Inductive op : Type :=
  | Put (r : list byte)          (* write_cont(begin, end), write_cont<T>(v) *)
  | PutString (str : list byte)  (* write_cont(std::string) *)
  | Take (n : Z)                 (* read<T>(), read_cont(n) *)
  | TakeString.                  (* get_string() *)

Definition run_op (o : op) (s : SPSCBlockBuffer.t)
    : res (option (list byte) * SPSCBlockBuffer.t) :=
  match o with
  | Put r => s' ← SPSCBlockBuffer.write_cont r true s; Ok (None, s')
  | PutString str => s' ← SPSCBlockBuffer.write_cont_string str true s; Ok (None, s')
  | Take n => '(v, s') ← SPSCBlockBuffer.read_cont n s; Ok (Some v, s')
  | TakeString => '(v, s') ← SPSCBlockBuffer.get_string s; Ok (Some v, s')
  end.

(** The values the reads of a sequence of operations return, in order. *)
Fixpoint run_ops (ops : list op) (s : SPSCBlockBuffer.t)
    : res (list (list byte) * SPSCBlockBuffer.t) :=
  match ops with
  | [] => Ok ([], s)
  | o :: ops' =>
    '(v, s1) ← run_op o s;
    '(vs, s2) ← run_ops ops' s1;
    Ok (match v with Some x => x :: vs | None => vs end, s2)
  end.

(** The same operations on a first-in first-out queue of records.  A
    string is two records, its length as a [size_t] and its bytes.  [None]:
    a read found no record, or not the record it expects. *)
Fixpoint fifo (ops : list op) (q : list (list byte)) : option (list (list byte)) :=
  match ops with
  | [] => Some []
  | Put r :: ops' => fifo ops' (q ++ [r])
  | PutString str :: ops' => fifo ops' (q ++ [size_t_bytes (len str); str])
  | Take n :: ops' =>
    match q with
    | r :: q' => if bool_decide (len r = n) then (r ::.) <$> fifo ops' q' else None
    | [] => None
    end
  | TakeString :: ops' =>
    match q with
    | p :: r :: q' =>
      if bool_decide (len p = sizeof_size_t ∧ le_value p = len r)
      then (r ::.) <$> fifo ops' q' else None
    | _ => None
    end
  end.

(** The sizes [write_cont] is made for: a range that is not empty and no
    longer than a block; for a string, blocks that hold its length prefix
    as well. *)
Definition fits (bs : Z) (o : op) : Prop :=
  match o with
  | Put r => 0 < len r ≤ bs
  | PutString str => 0 < len str ≤ bs ∧ sizeof_size_t ≤ bs
  | Take _ | TakeString => True
  end.

End Records.

(** The pointer-level buffer holds the records [recs]: it implements a
    well-sized list-level buffer with everything published in which they
    are aligned. *)
Definition holds_records (s : SPSCBlockBuffer.t) (recs : list (list byte)) : Prop :=
  ∃ a, SPSCAbs.abs s a ∧ Consistency.lok a ∧ Compare.published a ∧
       Records.list_records a recs.

(** ** The linear buffer ([buffer.hpp])

    [Buffer<PosT>] is a [std::vector<char>] with a write cursor and a read
    cursor; [PosT] is [size_t] or [std::atomic<size_t>], which one thread
    cannot tell apart.  Nothing in the class grows the vector on a write
    or moves the cursors back: it is filled once.  Memory is unbounded in
    the model ([std::bad_alloc] and [std::length_error] do not occur). *)

Module Buffer.

Record t : Type := mkBuffer {
  buf_ : list byte;
  wpos_ : Z;
  rpos_ : Z
}.

Definition with_buf (s : t) (l : list byte) : t := mkBuffer l (wpos_ s) (rpos_ s).
Definition with_wpos (s : t) (z : Z) : t := mkBuffer (buf_ s) z (rpos_ s).
Definition with_rpos (s : t) (z : Z) : t := mkBuffer (buf_ s) (wpos_ s) z.

(** [Buffer()] *)
Definition create0 : t := mkBuffer [] 0 0.

(** [Buffer(size_t init_reserve)]: the vector holds [init_reserve] zero
    bytes. *)
Definition create (init_reserve : Z) : t :=
  mkBuffer (replicate (Z.to_nat init_reserve) x00) 0 0.

(** [std::vector::resize(n)] *)
Definition resize (n : Z) (l : list byte) : list byte :=
  take (Z.to_nat n) l ++ replicate (Z.to_nat n - length l) x00.

(** [reserve(len)]: in spite of its name it resizes. *)
Definition reserve (length_ : Z) (s : t) : t := with_buf s (resize length_ (buf_ s)).

Definition enlarge (length_ : Z) (s : t) : t :=
  with_buf s (resize (wrap (len (buf_ s) + length_)) (buf_ s)).

(** [reset(int len)]: the [int] converts to [size_t]. *)
Definition reset (length_ : Z) (s : t) : t :=
  with_rpos (with_wpos (reserve (wrap length_) s) 0) 0.

Definition capacity (s : t) : Z := len (buf_ s).
Definition size (s : t) : Z := wpos_ s.
Definition remaining (s : t) : Z := wrap (wpos_ s - rpos_ s).
Definition empty (s : t) : bool := bool_decide (wpos_ s = rpos_ s).
Definition get_wpos (s : t) : Z := wpos_ s.
Definition get_rpos (s : t) : Z := rpos_ s.
Definition inc_wpos (inc : Z) (s : t) : t := with_wpos s (wrap (wpos_ s + inc)).
Definition inc_rpos (inc : Z) (s : t) : t := with_rpos s (wrap (rpos_ s + inc)).

(** [&buf_[pos]]: [operator[]] needs an element at [pos].  The pointer is
    its offset. *)
Definition element_at (pos : Z) (s : t) : res Z :=
  if bool_decide (0 ≤ pos < len (buf_ s)) then Ok pos else Fail Undefined.

Definition get_rptr_at (pos : Z) (s : t) : res Z := element_at pos s.
Definition get_wptr_at (pos : Z) (s : t) : res Z := element_at pos s.
Definition get_rptr (s : t) : res Z := element_at (rpos_ s) s.
Definition get_wptr (s : t) : res Z := element_at (wpos_ s) s.

(** [write<T>(const T&)]: [std::copy] to [buf_.begin() + wpos_]; the
    vector is not grown, and copying past its end is undefined. *)
Definition write_value (repr : list byte) (s : t) : res t :=
  b ← blit (buf_ s) (wpos_ s) repr;
  Ok (with_wpos (with_buf s b) (wrap (wpos_ s + len repr))).

(** [write(const std::string&)] *)
Definition write_string (str : list byte) (s : t) : res t :=
  let size := len str in
  s1 ← write_value (size_t_bytes size) s;
  b ← blit (buf_ s1) (wpos_ s1) str;
  Ok (with_wpos (with_buf s1 b) (wrap (wpos_ s1 + len str))).

(** [read<T>()] with [size = sizeof(T)].  The call returns a pointer to
    [buf_[rpos_]]; the model returns the [size] bytes it points to. *)
Definition read (size : Z) (s : t) : res (list byte * t) :=
  _ ← element_at (rpos_ s) s;
  v ← slice (buf_ s) (rpos_ s) size;
  Ok (v, with_rpos s (wrap (rpos_ s + size))).

(** [get_string()] *)
Definition get_string (s : t) : res (list byte * t) :=
  '(lenb, s1) ← read sizeof_size_t s;
  let length_ := le_value lenb in
  _ ← element_at (rpos_ s1) s1;
  str ← slice (buf_ s1) (rpos_ s1) length_;
  Ok (str, with_rpos s1 (wrap (rpos_ s1 + length_))).

(** [input_from_fd(fd)]: one [::read] into the room behind [wpos_]; the
    value [::read] returned. *)
Definition input_from_fd (ans : read_answer) (s : t) : res (Z * t) :=
  _ ← get_wptr s;
  let count := wrap (capacity s - wpos_ s) in
  match ans with
  | ReadErr => Ok (-1, s)
  | ReadData data =>
    let got := stored count data in
    b ← blit (buf_ s) (wpos_ s) got;
    let s1 := with_buf s b in
    Ok (len got, if bool_decide (len got > 0)
                 then with_wpos s1 (wrap (wpos_ s1 + len got)) else s1)
  end.

(** [output_to_fd(fd)]: one [::write] of the bytes between the cursors;
    the value [::write] returned, and the bytes it took. *)
Definition output_to_fd (ans : write_answer) (s : t) : res (Z * list byte * t) :=
  _ ← get_rptr s;
  let count := wrap (size s - rpos_ s) in
  '(r, out, s1) ←
    match ans with
    | WriteErr => Ok (-1, [], s)
    | WriteRoom room =>
      let n := taken count room in
      bytes ← slice (buf_ s) (rpos_ s) n;
      Ok (n, bytes, if bool_decide (n > 0) then with_rpos s (wrap (rpos_ s + n)) else s)
    end;
  (* assert(rpos_ <= size()); *)
  if bool_decide (rpos_ s1 ≤ size s1) then Ok (r, out, s1) else Fail Aborted.

(** The cursors lie in the vector, the read cursor not past the write
    cursor. *)
Definition wf (s : t) : Prop :=
  0 ≤ rpos_ s ≤ wpos_ s ∧ wpos_ s ≤ len (buf_ s) ∧ len (buf_ s) < 2 ^ 64.

(** The bytes written and not read. *)
Definition pending (s : t) : list byte :=
  take (Z.to_nat (wpos_ s - rpos_ s)) (drop (Z.to_nat (rpos_ s)) (buf_ s)).

End Buffer.

(** ** The queue's destructor and the states a client can build *)

Module QueueLife.
Import SPSCQueue.

Section life.
Context {T : Type}.

(** [delete p] for a node pointer: [~Node] runs the destructor of the
    payload, then the storage is released.  The flag tells that the payload
    had been destroyed before, so that [~T] runs on it a second time. *)
Definition delete_node (p : option addr) (q : t T) : res (bool * t T) :=
  n ← load q p;
  match p with
  | Some a => Ok (bool_decide (obj n = None), with_heap q (delete a (heap q)))
  | None => Fail Undefined
  end.

(** [while (p != nullptr) { Node* tmp = p->next; delete p; p = tmp; }],
    with the nodes whose payload was destroyed twice, in order. *)
Fixpoint delete_list (fuel : nat) (p : option addr) (q : t T) : res (list addr * t T) :=
  match p with
  | None => Ok ([], q)
  | Some a =>
    match fuel with
    | O => Fail Diverges
    | S fuel' =>
      n ← load q p;
      '(again, q1) ← delete_node p q;
      '(l, q2) ← delete_list fuel' (next n) q1;
      Ok ((if again : bool then [a] else []) ++ l, q2)
    end
  end.

(** [~SPSCQueueBase()].  Every turn of a loop releases a node, so one more
    turn than there are nodes is enough for the loop to end or to fault. *)
Definition destroy (q : t T) : res (list addr * t T) :=
  '(l1, q1) ← delete_list (S (size (heap q))) (head_ q) q;
  let q1 := with_head q1 None in
  '(l2, q2) ← delete_list (S (size (heap q1))) (free_head_ q1) q1;
  Ok (l1 ++ l2, with_free_head q2 None).

(** [front() = y] and [back() = y]: assignment through the reference that
    [front] or [back] returns. *)
Definition assign_front (mode : Z) (y : T) (q : t T) : res (t T) :=
  p ← front_ptr mode q; _ ← read_obj q p; store_obj p (Some y) q.

Definition assign_back (y : T) (q : t T) : res (t T) :=
  _ ← read_obj q (back_ptr q); store_obj (back_ptr q) (Some y) q.

(** The queues a client gets from the constructor by [push] and, on a queue
    that is not empty, by [pop] and by assignments through [front] and
    [back]; the index counts the calls of [pop]. *)
Inductive built : nat → t T → Prop :=
  | built_new dflt : built 0 (new dflt)
  | built_push k q x q' : built k q → push x q = Ok q' → built k q'
  | built_pop k q mode q' :
      built k q → empty q = false → pop mode q = Ok q' → built (S k) q'
  | built_assign_front k q mode y q' :
      built k q → empty q = false → assign_front mode y q = Ok q' → built k q'
  | built_assign_back k q y q' :
      built k q → empty q = false → assign_back y q = Ok q' → built k q'.

(** The shape of a built queue: both lists end in a null [next], the heap
    holds the nodes of the two lists and nothing else, the payloads of the
    main list are alive, and the last node of the freelist holds a destroyed
    payload as soon as [pop] has run. *)
Definition sound (k : nat) (q : t T) (d : addr) (es : list (addr * T))
    (fd : addr) (fs : list addr) : Prop :=
  repr q d es fd fs ∧
  (∃ n, heap q !! default d (last es.*1) = Some n ∧ next n = None) ∧
  (∃ n, heap q !! default fd (last fs) = Some n ∧ next n = None) ∧
  dom (heap q) = list_to_set ((d :: es.*1) ++ fd :: fs) ∧
  is_Some (payload q d) ∧
  match k with
  | O => fs = [] ∧ is_Some (payload q fd)
  | S _ => payload q (default fd (last fs)) = None
  end.

(** The nodes whose payload is destroyed. *)
Definition dead (q : t T) (l : list addr) : list addr :=
  filter (λ a, payload q a = None) l.

End life.

(** A queue of numbers after [push(7)], and after [push(7); pop()]. *)
Definition pushed_once : t nat :=
  match push 7%nat (new 0%nat) with Ok q => q | Fail _ => new 0%nat end.

Definition popped_once : t nat :=
  match pop 0 pushed_once with Ok q => q | Fail _ => pushed_once end.

End QueueLife.

(** ** [empty()] while the producer runs *)

Module Interleaving.
Import SPSCBlockBuffer.

(** The non-const [empty()] reads the member [wpos_] twice: once in
    [check_one_block_left()], and once more as the address whose target it
    loads and compares with [rpos_].  [empty_interleaved between] is the call
    with the steps [between] of the producer thread falling after the first
    read and before the second; the producer never writes [rpos_] or
    [one_block_left_].  With no step between, it is [empty]. *)
Definition empty_interleaved (between : t → res t) (s : t) : res (bool * t) :=
  if one_block_left_ s then
    (* one_block_left_ = check_one_block_left() *)
    one ← check_one_block_left s;
    let s1 := with_one_block_left s one in
    if (one : bool) then
      s2 ← between s1;
      (* rpos_ == __atomic_load_n(wpos_, __ATOMIC_ACQUIRE) *)
      e ← load_end (wpos_ s2) (buf_ s2);
      Ok (bool_decide (rpos_ s2 = e), s2)
    else Ok (false, s1)
  else Ok (false, s).

End Interleaving.

(** ** More states of a buffer of 16-byte blocks *)

Module Scenes.
Import SPSCBlockBuffer.

(** [SPSCBlockBuffer(16)] after [write] of 16 bytes with [notify]: one
    block, full and published. *)
Definition full_block : t :=
  match write (replicate 16 x01) true Scenario.fresh with
  | Ok s => s | Fail _ => Scenario.fresh
  end.

(** [SPSCBlockBuffer(16)] after [write] of 40 bytes, which fill two blocks
    and half of a third ... *)
Definition three_blocks : t :=
  match write (replicate 40 x01) true Scenario.fresh with
  | Ok s => s | Fail _ => Scenario.fresh
  end.

(** ... after a read of the 16 bytes of the first block ... *)
Definition head_read : t :=
  match read 16 three_blocks with Ok (_, s) => s | Fail _ => three_blocks end.

(** ... after [pop_block()] there, which leaves two blocks ... *)
Definition head_popped : t :=
  match pop_block head_read with Ok s => s | Fail _ => head_read end.

(** ... and after a second read of 16 bytes instead, which runs that
    [pop_block()] and reads the second block. *)
Definition head_dropped : t :=
  match read 16 head_read with Ok (_, s) => s | Fail _ => head_read end.

End Scenes.

(** ** What the descriptor calls ask of the operating system *)

Module Descriptor.

(** The values the [::read] calls of [input_from_fd(fd, cont, max_len)]
    return on a script of answers, for blocks of [bs] bytes, the write
    cursor at [wp] and [total] bytes read so far in the call.  A call asks
    for the room left in the tail block, a full block being followed by a
    fresh one first, and for no more than [max_len] allows; it returns -1
    on a failure and otherwise the number of bytes at hand, up to what it
    asked for.  The loop ends with the first call that fails or returns 0,
    and with [cont] after one call. *)
Fixpoint read_trace (bs : Z) (cont : bool) (max_len : Z) (wp total : Z)
    (script : list read_answer) : trace :=
  match script with
  | [] => []
  | ReadErr :: _ => [-1]
  | ReadData data :: rest =>
    let wp1 := if bool_decide (wp = bs) then 0 else wp in
    let room := wrap (bs - wp1) in
    let count := if bool_decide (max_len = -1) then room
                 else Z.min (wrap (max_len - total)) room in
    let x := len (stored count data) in
    if bool_decide (x = 0) then [0]
    else if cont then [x]
    else x :: read_trace bs cont max_len (wp1 + x) (total + x) rest
  end.

(** The segment [output_to_fd] writes from, as the published lengths of the
    segments and the read cursor: a head segment with no byte left to read
    is left behind when another segment follows. *)
Definition write_head (ends : list Z) (rpos : Z) : list Z * Z :=
  match ends with
  | e :: ((_ :: _) as more) => if bool_decide (e - rpos < 1) then (more, 0) else (ends, rpos)
  | _ => (ends, rpos)
  end.

(** The values the [::write] calls of [output_to_fd(fd)] return on a script
    of answers, for segments with the published lengths [ends] and the read
    cursor at [rpos]: a call offers the published bytes of the head segment
    not yet read, and returns -1 on a failure and otherwise what the
    descriptor took of them.  The loop ends with the first call that fails
    or returns 0. *)
Fixpoint write_trace (ends : list Z) (rpos : Z) (script : list write_answer) : trace :=
  match script with
  | [] => []
  | WriteErr :: _ => [-1]
  | WriteRoom room :: rest =>
    let '(ends1, rpos1) := write_head ends rpos in
    let n := taken (default 0 (head ends1) - rpos1) room in
    if bool_decide (n = 0) then [0] else n :: write_trace ends1 (rpos1 + n) rest
  end.

End Descriptor.

(** * Verification *)

(** A bind that returns has a first step that returned. *)
Lemma Ok_inj {A} (a b : A) : Ok a = Ok b → a = b.
Proof. by intros [= ->]. Qed.

Lemma bind_Ok {A B} (m : res A) (k : A → res B) b :
  (m ≫= k) = Ok b ↔ ∃ a, m = Ok a ∧ k a = Ok b.
Proof.
  destruct m as [a|f]; simpl; split.
  - intros H; exists a; auto.
  - intros (a' & Ha & Hk); congruence.
  - discriminate.
  - intros (a' & Ha & _); discriminate.
Qed.

(** ** The node queue against its representation invariant *)

Module SPSCQueueFacts.
Import SPSCQueue.

Section facts.
Context {T : Type}.
Implicit Types (h : gmap addr (Node T)) (q : t T) (a b d fd : addr)
  (l fs : list addr) (es : list (addr * T)).

Lemma last_cons_default {A} (x y : A) (l : list A) :
  default x (last (y :: l)) = default y (last l).
Proof. rewrite last_cons. by destruct (last l). Qed.

Lemma last_default_elem {A} (x : A) (l : list A) : default x (last l) ∈ x :: l.
Proof.
  revert x; induction l as [|y l IH]; intros x; [left|].
  rewrite last_cons_default. right. apply IH.
Qed.

Lemma last_default_app {A} (x y : A) (l : list A) : default x (last (l ++ [y])) = y.
Proof. by rewrite last_snoc. Qed.

Lemma lseg_is_Some h a l x : lseg h a l → x ∈ a :: l → is_Some (h !! x).
Proof.
  revert a; induction l as [|b l IH]; intros a Hs Hx; simpl in Hs.
  - apply list_elem_of_singleton in Hx as ->. done.
  - destruct Hs as [(n & Hn & _) Hs].
    apply elem_of_cons in Hx as [->|Hx]; [by eexists|]. by apply (IH b).
Qed.

Lemma lseg_frame_last h h' a l :
  NoDup (a :: l) →
  (∀ x, x ∈ a :: l → x ≠ default a (last l) → next <$> h' !! x = next <$> h !! x) →
  is_Some (h' !! default a (last l)) →
  lseg h a l → lseg h' a l.
Proof.
  revert a; induction l as [|b l IH]; intros a Hnd Hfr Hlast Hs; simpl in *; [done|].
  destruct Hs as [(n & Hn & Hnb) Hs].
  apply NoDup_cons in Hnd as [Hna Hnd].
  rewrite last_cons_default in Hfr, Hlast.
  split.
  - assert (Ha : a ≠ default b (last l)).
    { intros ->. apply Hna, last_default_elem. }
    specialize (Hfr a (ltac:(left)) Ha). rewrite Hn in Hfr. simpl in Hfr.
    destruct (h' !! a) as [n'|]; simplify_eq/=. exists n'. split; [done|congruence].
  - apply IH; auto. intros x Hx Hne. apply Hfr; [by right|done].
Qed.

Lemma lseg_frame h h' a l :
  (∀ x, x ∈ a :: l → h' !! x = h !! x) → lseg h a l → lseg h' a l.
Proof.
  revert a; induction l as [|b l IH]; intros a Hfr Hs; simpl in *.
  - rewrite Hfr; [done|left].
  - destruct Hs as [(n & Hn & Hnb) Hs]. split.
    + exists n. rewrite Hfr; [done|left].
    + apply IH; [|done]. intros x Hx. apply Hfr. by right.
Qed.

Lemma lseg_app h a l1 l2 :
  lseg h a (l1 ++ l2) ↔ lseg h a l1 ∧ lseg h (default a (last l1)) l2.
Proof.
  revert a; induction l1 as [|b l1 IH]; intros a; simpl.
  - split; [|tauto]. intros Hs. split; [|done].
    apply (lseg_is_Some h a l2 a Hs). left.
  - rewrite last_cons_default, IH. tauto.
Qed.

Lemma lseg_snoc h a l b :
  lseg h a (l ++ [b]) ↔
  lseg h a l ∧ (∃ n, h !! default a (last l) = Some n ∧ next n = Some b) ∧ is_Some (h !! b).
Proof. rewrite lseg_app. simpl. tauto. Qed.

Lemma holds_frame h h' es :
  (∀ e, e ∈ es → h' !! e.1 = h !! e.1) → holds h es → holds h' es.
Proof.
  unfold holds. rewrite !Forall_forall. intros Hfr Hh e He.
  rewrite Hfr; auto.
Qed.

Lemma holds_lookup h es a x :
  holds h es → (a, x) ∈ es → ∃ n, h !! a = Some n ∧ obj n = Some x.
Proof. unfold holds. rewrite Forall_forall. intros Hh He. apply (Hh _ He). Qed.

Lemma load_Some q a n : heap q !! a = Some n → load q (Some a) = Ok n.
Proof. unfold load. by intros ->. Qed.

Lemma repr_new (dflt : T) : ∃ d fd, repr (new dflt) d [] fd [] ∧ d ≠ fd.
Proof.
  unfold new, alloc. simpl.
  set (d := fresh (dom (∅ : gmap addr (Node T)))).
  set (h1 := <[d := mkNode (Some dflt) None]> (∅ : gmap addr (Node T))).
  set (fd := fresh (dom h1)).
  assert (Hne : d ≠ fd).
  { intros Heq. pose proof (is_fresh (dom h1)) as Hf. fold fd in Hf. apply Hf.
    rewrite <- Heq. apply elem_of_dom. unfold h1. rewrite lookup_insert_eq. by eexists. }
  exists d, fd. split; [|done].
  unfold repr; simpl. split_and!; try done.
  - constructor.
  - apply NoDup_cons. split; [by rewrite list_elem_of_singleton|apply NoDup_singleton].
Qed.


Lemma holds_frame_obj h h' es :
  (∀ e, e ∈ es → obj <$> h' !! e.1 = obj <$> h !! e.1) → holds h es → holds h' es.
Proof.
  unfold holds. rewrite !Forall_forall. intros Hfr Hh e He.
  destruct (Hh e He) as (n & Hn & Ho). specialize (Hfr e He).
  rewrite Hn in Hfr. simpl in Hfr. destruct (h' !! e.1) as [n'|]; simplify_eq/=.
  exists n'. split; [done|congruence].
Qed.

Lemma repr_fresh q d es fd fs a :
  repr q d es fd fs → heap q !! a = None → a ∉ (d :: es.*1) ++ fd :: fs.
Proof.
  intros (_ & _ & _ & _ & Hm & Hf & _ & _) Hnone Hin.
  apply elem_of_app in Hin as [Hin|Hin].
  - destruct (lseg_is_Some _ _ _ _ Hm Hin) as [n Hn]. congruence.
  - destruct (lseg_is_Some _ _ _ _ Hf Hin) as [n Hn]. congruence.
Qed.

Lemma fst_snoc es a (x : T) : (es ++ [(a, x)]).*1 = es.*1 ++ [a].
Proof. by rewrite fmap_app. Qed.

Lemma fresh_None h : h !! fresh (dom h) = None.
Proof. apply not_elem_of_dom, is_fresh. Qed.

Lemma push_alloc q d es fd x :
  repr q d es fd [] →
  let a := fresh (dom (heap q)) in
  ∃ q', push x q = Ok q' ∧ repr q' d (es ++ [(a, x)]) fd [] ∧
        (a ∉ (d :: es.*1) ++ [fd]) ∧
        ∀ b, b ≠ a → obj <$> heap q' !! b = obj <$> heap q !! b.
Proof.
  intros Hr a. pose proof Hr as (Hh & Ht & Hfh & Hft & Hm & Hf & Hho & Hnd).
  assert (Ha : a ∉ (d :: es.*1) ++ [fd]) by (apply (repr_fresh q); [done|apply fresh_None]).
  pose proof Hnd as (Hn1 & Hn2 & Hn3)%NoDup_app.
  set (t := default d (last es.*1)) in *.
  assert (Htin : t ∈ d :: es.*1) by apply last_default_elem.
  destruct (lseg_is_Some _ _ _ _ Hm Htin) as [tn Htn].
  assert (Hta : t ≠ a). { intros ->. apply Ha, elem_of_app. by left. }
  unfold push, free_list_empty. rewrite Hfh, Hft. simpl.
  rewrite bool_decide_eq_true_2 by done.
  unfold alloc, store_next, load. fold a.
  repeat (progress (simpl; rewrite ?Ht, ?lookup_insert_eq, ?(lookup_insert_ne _ a t), ?Htn by done)).
  eexists. split; [reflexivity|]. split; [|split; [done|]].
  - unfold repr. rewrite fst_snoc, last_snoc. simpl. split_and!; try done.
    + apply lseg_snoc. split_and!.
      * eapply lseg_frame_last; [| | |exact Hm].
        -- done.
        -- intros y Hy Hne. fold t in Hne. rewrite lookup_insert_ne by done.
           rewrite lookup_insert_ne; [done|]. intros ->. apply Ha, elem_of_app. by left.
        -- fold t. rewrite lookup_insert_eq. by eexists.
      * fold t. rewrite lookup_insert_eq. by eexists.
      * rewrite lookup_insert_ne by done. rewrite lookup_insert_eq. by eexists.
    + assert (fd ≠ t).
      { intros ->. apply (Hn2 t Htin). left. }
      assert (fd ≠ a). { intros ->. apply Ha, elem_of_app. right. left. }
      rewrite !lookup_insert_ne by done. done.
    + apply Forall_app. split.
      * eapply holds_frame_obj; [|exact Hho]. intros e He.
        assert (e.1 ≠ a).
        { intros Heq. apply Ha, elem_of_app. left. right. rewrite <- Heq.
          apply list_elem_of_fmap. by exists e. }
        destruct (decide (e.1 = t)) as [->|].
        -- rewrite lookup_insert_eq, Htn. done.
        -- rewrite !lookup_insert_ne by done. done.
      * constructor; [|constructor]. simpl. rewrite lookup_insert_ne by done.
        rewrite lookup_insert_eq. by eexists.
    + rewrite <- app_assoc. simpl.
      change (d :: es.*1 ++ a :: [fd]) with ((d :: es.*1) ++ a :: [fd]).
      apply NoDup_app. split_and!; [done| |].
      * intros y Hy Hy'. apply elem_of_cons in Hy' as [->|Hy'].
        -- apply Ha, elem_of_app. by left.
        -- by apply (Hn2 y).
      * apply NoDup_cons. split; [|done]. intros Hin. apply Ha, elem_of_app. by right.
  - intros b Hb. simpl. destruct (decide (b = t)) as [->|].
    + rewrite lookup_insert_eq, Htn. done.
    + rewrite !lookup_insert_ne by done. done.
Qed.


Lemma push_recycle q d es fd f r x :
  repr q d es fd (f :: r) →
  ∃ q', push x q = Ok q' ∧ repr q' d (es ++ [(fd, x)]) f r ∧
        ∀ b, b ≠ fd → obj <$> heap q' !! b = obj <$> heap q !! b.
Proof.
  intros Hr. pose proof Hr as (Hh & Ht & Hfh & Hft & Hm & Hf & Hho & Hnd).
  pose proof Hnd as (Hn1 & Hn2 & Hn3)%NoDup_app.
  set (t := default d (last es.*1)) in *.
  assert (Htin : t ∈ d :: es.*1) by apply last_default_elem.
  destruct (lseg_is_Some _ _ _ _ Hm Htin) as [tn Htn].
  assert (Htfd : t ≠ fd). { intros ->. apply (Hn2 fd Htin). left. }
  destruct Hf as [(fn & Hfn & Hfnext) Hf'].
  apply NoDup_cons in Hn3 as [Hfdr Hn3].
  assert (Hftne : Some fd ≠ Some (default fd (last (f :: r)))).
  { intros [= Heq]. apply Hfdr. rewrite Heq, last_cons_default.
    apply last_default_elem. }
  unfold push, free_list_empty. rewrite Hfh, Hft.
  rewrite bool_decide_eq_false_2 by done.
  unfold store_next, load.
  repeat (progress (simpl; rewrite ?Ht, ?Hfh, ?lookup_insert_eq,
      ?(lookup_insert_ne _ t fd), ?(lookup_insert_ne _ fd t), ?Htn, ?Hfn, ?Hfnext by done)).
  eexists. split; [reflexivity|]. split.
  - unfold repr. rewrite fst_snoc, last_snoc. simpl. split_and!; try done.
    + by rewrite Hft, !last_cons_default.
    + apply lseg_snoc. split_and!.
      * eapply lseg_frame_last; [| | |exact Hm]; [done| |].
        -- intros y Hy Hne. fold t in Hne. rewrite lookup_insert_ne.
           ++ rewrite lookup_insert_ne by done. done.
           ++ intros ->. apply (Hn2 y Hy). left.
        -- fold t. rewrite lookup_insert_ne by done. rewrite lookup_insert_eq. by eexists.
      * fold t. rewrite lookup_insert_ne by done. rewrite lookup_insert_eq. by eexists.
      * rewrite lookup_insert_eq. by eexists.
    + eapply lseg_frame; [|exact Hf']. intros y Hy.
      assert (y ≠ fd). { intros ->. by apply Hfdr. }
      assert (y ≠ t). { intros ->. apply (Hn2 t Htin). by right. }
      rewrite !lookup_insert_ne by done. done.
    + apply Forall_app. split.
      * eapply holds_frame_obj; [|exact Hho]. intros e He.
        assert (Hein : e.1 ∈ d :: es.*1).
        { right. apply list_elem_of_fmap. by exists e. }
        assert (e.1 ≠ fd). { intros Heq. apply (Hn2 _ Hein). rewrite Heq. left. }
        rewrite lookup_insert_ne by done.
        destruct (decide (e.1 = t)) as [->|].
        -- rewrite lookup_insert_eq, Htn. done.
        -- rewrite !lookup_insert_ne by done. done.
      * constructor; [|constructor]. simpl. rewrite lookup_insert_eq. by eexists.
    + rewrite <- app_assoc. simpl.
      change (d :: es.*1 ++ fd :: f :: r) with ((d :: es.*1) ++ fd :: f :: r).
      apply NoDup_app. split_and!; [done| |].
      * intros y Hy Hy'. by apply (Hn2 y).
      * apply NoDup_cons. split; done.
  - intros b Hb. simpl. rewrite lookup_insert_ne by done.
    destruct (decide (b = t)) as [->|].
    + rewrite lookup_insert_eq, Htn. done.
    + rewrite !lookup_insert_ne by done. done.
Qed.


Lemma repr_nonempty_ne q d a x es fd fs :
  repr q d ((a, x) :: es) fd fs → head_ q ≠ tail_ q.
Proof.
  intros (Hh & Ht & _ & _ & _ & _ & _ & Hnd). rewrite Hh, Ht. intros [= Heq].
  apply NoDup_app in Hnd as (Hn1 & _). apply NoDup_cons in Hn1 as [Hd _].
  apply Hd. rewrite Heq at 1. simpl. rewrite last_cons_default. apply last_default_elem.
Qed.

Lemma empty_repr q d es fd fs : repr q d es fd fs → empty q = bool_decide (es = []).
Proof.
  intros Hr. destruct es as [|[a x] es].
  - destruct Hr as (Hh & Ht & _). unfold empty. rewrite Hh, Ht. simpl.
    by rewrite !bool_decide_eq_true_2.
  - unfold empty. rewrite bool_decide_eq_false_2 by (eapply repr_nonempty_ne; eauto).
    case_bool_decide; [discriminate|done].
Qed.

Lemma await_nonempty_repr mode q d a x es fd fs :
  repr q d ((a, x) :: es) fd fs → await_nonempty mode q = Ok ().
Proof.
  intros Hr. unfold await_nonempty. rewrite (empty_repr _ _ _ _ _ Hr).
  by destruct (bool_decide (mode = 1 ∨ mode = 2)).
Qed.

Lemma pop_repr mode q d a x es fd fs :
  repr q d ((a, x) :: es) fd fs →
  ∃ q', pop mode q = Ok q' ∧ repr q' a es fd (fs ++ [d]) ∧
        heap q' !! d = Some (mkNode None None) ∧
        ∀ b, b ≠ d → obj <$> heap q' !! b = obj <$> heap q !! b.
Proof.
  intros Hr. pose proof Hr as (Hh & Ht & Hfh & Hft & Hm & Hf & Hho & Hnd).
  pose proof Hnd as (Hn1 & Hn2 & Hn3)%NoDup_app.
  set (ft := default fd (last fs)) in *.
  assert (Hftin : ft ∈ fd :: fs) by apply last_default_elem.
  destruct (lseg_is_Some _ _ _ _ Hf Hftin) as [ftn Hftn].
  simpl in Hm. destruct Hm as [(dn & Hdn & Hdnext) Hm].
  assert (Hdft : d ≠ ft). { intros Heq. apply (Hn2 d); [left|]. by rewrite Heq. }
  apply NoDup_cons in Hn1 as [Hd Hn1].
  unfold pop. rewrite (await_nonempty_repr _ _ _ _ _ _ _ _ Hr).
  unfold store_next, store_obj, load.
  repeat (progress (simpl; rewrite ?Hh, ?Hft, ?lookup_insert_eq,
      ?(lookup_insert_ne _ ft d), ?(lookup_insert_ne _ d ft), ?Hftn, ?Hdn, ?Hdnext by done)).
  eexists. split; [reflexivity|]. split; [|split].
  - unfold repr. simpl. split_and!; try done.
    + rewrite Ht. simpl. by rewrite last_cons_default.
    + by rewrite last_snoc.
    + eapply lseg_frame; [|exact Hm]. intros y Hy.
      assert (y ≠ d). { intros ->. done. }
      assert (y ≠ ft). { intros ->. apply (Hn2 ft); [by right|done]. }
      rewrite !lookup_insert_ne by done. done.
    + apply lseg_snoc. split_and!.
      * eapply lseg_frame_last; [| | |exact Hf]; [done| |].
        -- intros y Hy Hne. fold ft in Hne.
           assert (y ≠ d). { intros ->. apply (Hn2 d); [left|done]. }
           rewrite !lookup_insert_ne by done. done.
        -- fold ft. rewrite !lookup_insert_ne by done. rewrite lookup_insert_eq. by eexists.
      * fold ft. rewrite !lookup_insert_ne by done. rewrite lookup_insert_eq. by eexists.
      * rewrite lookup_insert_eq. by eexists.
    + apply Forall_cons in Hho as [_ Hho].
      eapply holds_frame; [|exact Hho]. intros e He.
      assert (Hein : e.1 ∈ es.*1). { apply list_elem_of_fmap. by exists e. }
      assert (e.1 ≠ d). { intros Heq. apply Hd. rewrite <- Heq. by right. }
      assert (e.1 ≠ ft). { intros Heq. apply (Hn2 ft); [right; right; by rewrite <- Heq|done]. }
      rewrite !lookup_insert_ne by done. done.
    + assert (Hg : NoDup (((a :: es.*1) ++ fd :: fs) ++ [d])).
      { rewrite <- Permutation_cons_append. exact Hnd. }
      by rewrite <- app_assoc in Hg.
  - simpl. by rewrite !lookup_insert_eq.
  - intros b Hb. simpl. rewrite !(lookup_insert_ne _ d b) by done.
    destruct (decide (b = ft)) as [->|].
    + rewrite lookup_insert_eq, Hftn. done.
    + rewrite !lookup_insert_ne by done. done.
Qed.


Lemma push_repr q d es fd fs x :
  repr q d es fd fs →
  ∃ q' a fd' fs', push x q = Ok q' ∧ repr q' d (es ++ [(a, x)]) fd' fs' ∧
    (∀ b, b ≠ a → obj <$> heap q' !! b = obj <$> heap q !! b) ∧
    (a ∉ d :: es.*1) ∧
    ((fs = [] ∧ fd' = fd ∧ fs' = [] ∧ heap q !! a = None) ∨ (fs = fd' :: fs' ∧ a = fd)).
Proof.
  intros Hr. destruct fs as [|f r].
  - destruct (push_alloc q d es fd x Hr) as (q' & Hp & Hr' & Ha & Ho).
    exists q', (fresh (dom (heap q))), fd, []. split_and!; try done.
    + intros Hin. apply Ha, elem_of_app. by left.
    + left. split_and!; try done. apply fresh_None.
  - destruct (push_recycle q d es fd f r x Hr) as (q' & Hp & Hr' & Ho).
    exists q', fd, f, r. split_and!; try done; [|by right].
    destruct Hr as (_ & _ & _ & _ & _ & _ & _ & Hnd).
    apply NoDup_app in Hnd as (_ & Hn2 & _). intros Hin. apply (Hn2 fd Hin). left.
Qed.

Lemma front_ptr_repr mode q d a x es fd fs :
  repr q d ((a, x) :: es) fd fs → front_ptr mode q = Ok (Some a).
Proof.
  intros Hr. unfold front_ptr. rewrite (await_nonempty_repr _ _ _ _ _ _ _ _ Hr).
  destruct Hr as (Hh & _ & _ & _ & Hm & _). simpl in Hm.
  destruct Hm as [(dn & Hdn & Hdnext) _].
  unfold load. simpl. rewrite Hh, Hdn. simpl. by rewrite Hdnext.
Qed.

Lemma read_obj_repr q d es fd fs a x :
  repr q d es fd fs → (a, x) ∈ es → read_obj q (Some a) = Ok x.
Proof.
  intros (_ & _ & _ & _ & _ & _ & Hho & _) Hin.
  destruct (holds_lookup _ _ _ _ Hho Hin) as (n & Hn & Ho).
  unfold read_obj, load. rewrite Hn. simpl. by rewrite Ho.
Qed.

Lemma front_repr mode q d a x es fd fs :
  repr q d ((a, x) :: es) fd fs → front mode q = Ok x.
Proof.
  intros Hr. unfold front. rewrite (front_ptr_repr _ _ _ _ _ _ _ _ Hr). simpl.
  eapply read_obj_repr; [exact Hr|left].
Qed.

Lemma back_ptr_repr q d es fd fs a x :
  repr q d (es ++ [(a, x)]) fd fs → back_ptr q = Some a.
Proof.
  intros (_ & Ht & _). unfold back_ptr. by rewrite Ht, fst_snoc, last_snoc.
Qed.

Lemma back_repr q d es fd fs a x :
  repr q d (es ++ [(a, x)]) fd fs → back q = Ok x.
Proof.
  intros Hr. unfold back. rewrite (back_ptr_repr _ _ _ _ _ _ _ Hr).
  eapply read_obj_repr; [exact Hr|]. apply elem_of_app. right. left.
Qed.

(** Assigning the payload of an element leaves the lists as they are. *)
Lemma store_obj_repr q d es1 a x es2 fd fs y :
  repr q d (es1 ++ (a, x) :: es2) fd fs →
  ∃ q', store_obj (Some a) (Some y) q = Ok q' ∧
        repr q' d (es1 ++ (a, y) :: es2) fd fs ∧
        (∀ b, b ≠ a → heap q' !! b = heap q !! b).
Proof.
  intros Hr. pose proof Hr as (Hh & Ht & Hfh & Hft & Hm & Hf & Hho & Hnd).
  assert (Hfst : (es1 ++ (a, y) :: es2).*1 = (es1 ++ (a, x) :: es2).*1).
  { by rewrite !fmap_app. }
  assert (Hin : (a, x) ∈ es1 ++ (a, x) :: es2) by (apply elem_of_app; right; left).
  destruct (holds_lookup _ _ _ _ Hho Hin) as (n & Hn & Ho).
  unfold store_obj, load. rewrite Hn. simpl.
  eexists. split; [reflexivity|]. split.
  - unfold repr. rewrite Hfst. simpl. split_and!; try done.
    + eapply lseg_frame_last; [| | |exact Hm].
      * apply NoDup_app in Hnd. tauto.
      * intros z Hz _. destruct (decide (z = a)) as [->|].
        -- by rewrite lookup_insert_eq, Hn.
        -- by rewrite lookup_insert_ne.
      * destruct (decide (default d (last (es1 ++ (a, x) :: es2).*1) = a)) as [->|].
        -- rewrite lookup_insert_eq. by eexists.
        -- rewrite lookup_insert_ne by done.
           eapply lseg_is_Some; [exact Hm|apply last_default_elem].
    + eapply lseg_frame; [|exact Hf]. intros z Hz.
      rewrite lookup_insert_ne; [done|]. intros ->.
      apply NoDup_app in Hnd as (_ & Hn2 & _). apply (Hn2 z); [|done].
      right. apply list_elem_of_fmap. by exists (z, x).
    + unfold holds in *. apply Forall_app in Hho as [Hh1 Hh2].
      apply Forall_cons in Hh2 as [_ Hh2].
      apply NoDup_app in Hnd as (Hn1 & _). apply NoDup_cons in Hn1 as [_ Hn1].
      rewrite fmap_app in Hn1. simpl in Hn1.
      apply NoDup_app in Hn1 as (_ & Hx & Hn1). apply NoDup_cons in Hn1 as [Ha2 _].
      apply Forall_app. split; [|constructor].
      * eapply (holds_frame (heap q)); [|exact Hh1]. intros e He.
        rewrite lookup_insert_ne; [done|]. intros Heq.
        apply (Hx e.1); [apply list_elem_of_fmap; by exists e|]. rewrite <- Heq. left.
      * simpl. rewrite lookup_insert_eq. by eexists.
      * eapply (holds_frame (heap q)); [|exact Hh2]. intros e He.
        rewrite lookup_insert_ne; [done|]. intros Heq.
        apply Ha2. rewrite Heq. apply list_elem_of_fmap. by exists e.
  - intros b Hb. simpl. by rewrite lookup_insert_ne.
Qed.

Lemma walk_lseg h fuel a l :
  lseg h a l → NoDup (a :: l) → (length l ≤ fuel)%nat →
  walk h fuel a (default a (last l)) = l.
Proof.
  revert a fuel; induction l as [|b l IH]; intros a fuel Hs Hnd Hlen.
  - destruct fuel; simpl; by rewrite decide_True.
  - simpl in Hs. destruct Hs as [(n & Hn & Hnb) Hs].
    apply NoDup_cons in Hnd as [Ha Hnd].
    rewrite last_cons_default.
    assert (a ≠ default b (last l)). { intros ->. apply Ha, last_default_elem. }
    destruct fuel as [|fuel]; [simpl in Hlen; lia|].
    simpl. rewrite decide_False by done. rewrite Hn, Hnb. f_equal.
    apply IH; [done|done|simpl in Hlen; lia].
Qed.

Lemma length_le_size h l :
  NoDup l → (∀ x, x ∈ l → is_Some (h !! x)) → (length l ≤ size h)%nat.
Proof.
  intros Hnd Hin. rewrite <- size_dom.
  rewrite <- (size_list_to_set (C := gset addr) l) by done.
  apply subseteq_size. intros x Hx. apply elem_of_list_to_set in Hx.
  apply elem_of_dom. by apply Hin.
Qed.

Lemma nodes_repr q d es fd fs : repr q d es fd fs → nodes q = es.*1.
Proof.
  intros (Hh & Ht & _ & _ & Hm & _ & _ & Hnd).
  apply NoDup_app in Hnd as (Hn1 & _).
  unfold nodes, walk_from. rewrite Hh, Ht. apply walk_lseg; [done|done|].
  apply length_le_size.
  - by apply NoDup_cons in Hn1 as [_ ?].
  - intros x Hx. eapply lseg_is_Some; [exact Hm|by right].
Qed.

Lemma free_nodes_repr q d es fd fs : repr q d es fd fs → free_nodes q = fs.
Proof.
  intros (_ & _ & Hh & Ht & _ & Hm & _ & Hnd).
  apply NoDup_app in Hnd as (_ & _ & Hn1).
  unfold free_nodes, walk_from. rewrite Hh, Ht. apply walk_lseg; [done|done|].
  apply length_le_size.
  - by apply NoDup_cons in Hn1 as [_ ?].
  - intros x Hx. eapply lseg_is_Some; [exact Hm|by right].
Qed.

Lemma contents_repr q d es fd fs : repr q d es fd fs → contents q = es.*2.
Proof.
  intros Hr. unfold contents. rewrite (nodes_repr _ _ _ _ _ Hr).
  destruct Hr as (_ & _ & _ & _ & _ & _ & Hho & _).
  induction Hho as [|[a x] es (n & Hn & Ho) Hho IH]; [done|].
  simpl in Hn, Ho. rewrite !fmap_cons. simpl. unfold payload at 1.
  rewrite Hn. simpl. rewrite Ho. f_equal. exact IH.
Qed.

End facts.
End SPSCQueueFacts.

(** ** The queue is FIFO (claim C7) *)

Module QueueFifo.
Import SPSCQueue SPSCQueueFacts QueueClient.

Section fifo.
Context {T : Type}.
Implicit Types (q : t T) (xs : list T) (es : list (addr * T)).

Lemma push_all_repr xs q d es fd fs :
  repr q d es fd fs →
  ∃ q' es' fd' fs', push_all xs q = Ok q' ∧ repr q' d (es ++ es') fd' fs' ∧ es'.*2 = xs.
Proof.
  revert q es fd fs; induction xs as [|x xs IH]; intros q es fd fs Hr.
  - exists q, [], fd, fs. by rewrite app_nil_r.
  - destruct (push_repr q d es fd fs x Hr) as (q1 & a & fd1 & fs1 & Hp & Hr1 & _).
    destruct (IH _ _ _ _ Hr1) as (q' & es' & fd' & fs' & Hpa & Hr' & Hxs).
    exists q', ((a, x) :: es'), fd', fs'. simpl. rewrite Hp. simpl.
    split_and!; [done| |by f_equal].
    by rewrite <- app_assoc in Hr'.
Qed.

Lemma take_front_repr mode q d es es' fd fs :
  repr q d (es ++ es') fd fs →
  ∃ q' d', take_front mode (length es) q = Ok (es.*2, q') ∧
           repr q' d' es' fd (fs ++ removelast (d :: es.*1)).
Proof.
  revert q d fs; induction es as [|[a x] es IH]; intros q d fs Hr.
  - exists q, d. simpl. by rewrite app_nil_r.
  - simpl in Hr.
    destruct (pop_repr mode _ _ _ _ _ _ _ Hr) as (q1 & Hp & Hr1 & _).
    destruct (IH _ _ _ Hr1) as (q' & d' & Htf & Hr').
    exists q', d'. cbn [take_front length].
    rewrite (front_repr mode _ _ _ _ _ _ _ Hr). simpl. rewrite Hp. simpl.
    rewrite Htf. simpl. split; [done|].
    rewrite <- app_assoc in Hr'. exact Hr'.
Qed.

Lemma wf_contents_nil q d es fd fs : repr q d es fd fs → contents q = [] → es = [].
Proof.
  intros Hr Hc. rewrite (contents_repr _ _ _ _ _ Hr) in Hc.
  by apply fmap_nil_inv in Hc.
Qed.

(** C7, as the code has it.  In a well-formed queue [head_->next] is the
    front, [tail_] the back, and the queue is empty iff [head_ == tail_].
    Pushing [xs] on an empty queue and then taking [length xs] values by
    [front()]/[pop()] pairs yields [xs] in order and leaves the queue empty,
    with [length xs] more nodes on the freelist.  Each [pop] of a non-empty
    queue moves [head_] to [head_->next], appends the old [head_] node (and
    only it) to the freelist and destroys the payload stored in that old
    node; the payload of the element just removed stays alive in the node
    that is now [head_].  Each [push] on a well-formed queue, empty or not,
    leaves [head_] alone and puts the value behind the elements, in the node
    that becomes [tail_]: the node that was [free_head_] when the freelist
    holds a node besides its dummy, whose successor is then the dummy of the
    freelist, and a newly allocated node otherwise. *)
Theorem queue_fifo_dummy_head mode q :
  wf q →
  (empty q = true ↔ contents q = []) ∧
  (empty q = true ↔ head_ q = tail_ q) ∧
  (∀ x rest, contents q = x :: rest →
     front mode q = Ok x ∧
     (∃ hd, load q (head_ q) = Ok hd ∧ front_ptr mode q = Ok (next hd) ∧
            read_obj q (next hd) = Ok x) ∧
     (∃ y, last (x :: rest) = Some y ∧ back q = Ok y) ∧
     ∃ q' hd old, pop mode q = Ok q' ∧ wf q' ∧
       head_ q = Some old ∧ load q (head_ q) = Ok hd ∧ head_ q' = next hd ∧
       contents q' = rest ∧
       free_nodes q' = free_nodes q ++ [old] ∧
       payload q' old = None ∧
       (∃ a, next hd = Some a ∧ payload q' a = Some x)) ∧
  (contents q = [] → ∀ xs,
     ∃ q1 q2, push_all xs q = Ok q1 ∧ wf q1 ∧ contents q1 = xs ∧
       take_front mode (length xs) q1 = Ok (xs, q2) ∧ wf q2 ∧
       contents q2 = [] ∧ empty q2 = true ∧
       length (free_nodes q2) = (length (free_nodes q1) + length xs)%nat) ∧
  (∀ x, ∃ q' a, push x q = Ok q' ∧ wf q' ∧ contents q' = contents q ++ [x] ∧
     head_ q' = head_ q ∧ tail_ q' = Some a ∧ payload q' a = Some x ∧
     match free_nodes q with
     | [] => heap q !! a = None ∧ free_head_ q' = free_head_ q ∧ free_nodes q' = []
     | f :: fs => free_head_ q = Some a ∧ free_head_ q' = Some f ∧ free_nodes q' = fs
     end).
Proof.
  intros (d & es & fd & fs & Hr).
  pose proof (contents_repr _ _ _ _ _ Hr) as Hc.
  pose proof (free_nodes_repr _ _ _ _ _ Hr) as Hfn.
  split_and!.
  - rewrite (empty_repr _ _ _ _ _ Hr), Hc. rewrite bool_decide_eq_true.
    split; [by intros ->|apply fmap_nil_inv].
  - unfold empty. by rewrite bool_decide_eq_true.
  - intros x rest Hxr. rewrite Hc in Hxr.
    destruct es as [|[a x'] es]; [done|]. rewrite fmap_cons in Hxr.
    simpl in Hxr. injection Hxr as -> Hrest.
    pose proof Hr as (Hh & _ & _ & _ & Hm & _ & Hho & Hnd).
    simpl in Hm. destruct Hm as [(dn & Hdn & Hdnext) _].
    split_and!.
    + by apply (front_repr mode _ _ _ _ _ _ _ Hr).
    + exists dn. rewrite Hh. unfold load at 1. rewrite Hdn. split; [done|].
      rewrite Hdnext. split.
      * by apply (front_ptr_repr mode _ _ _ _ _ _ _ Hr).
      * eapply read_obj_repr; [exact Hr|left].
    + destruct (exists_last (l := (a, x) :: es)) as (es1 & [b y] & Hes); [done|].
      exists y. split.
      * assert (x :: rest = (es1 ++ [(b, y)]).*2) as ->.
        { rewrite <- Hes, <- Hrest. done. }
        rewrite fmap_app. simpl. by rewrite last_snoc.
      * rewrite Hes in Hr. by apply (back_repr _ _ _ _ _ _ _ Hr).
    + destruct (pop_repr mode _ _ _ _ _ _ _ Hr) as (q' & Hp & Hr' & Hd & Hobj).
      exists q', dn, d. split_and!; try done.
      * by exists a, es, fd, (fs ++ [d]).
      * rewrite Hh. unfold load. by rewrite Hdn.
      * destruct Hr' as (Hh' & _). by rewrite Hh', Hdnext.
      * by rewrite (contents_repr _ _ _ _ _ Hr').
      * by rewrite (free_nodes_repr _ _ _ _ _ Hr'), Hfn.
      * unfold payload. by rewrite Hd.
      * exists a. split; [done|]. unfold payload.
        assert (Had : a ≠ d).
        { intros ->. apply NoDup_app in Hnd as (Hn1 & _).
          apply NoDup_cons in Hn1 as [Hn1 _]. apply Hn1. left. }
        specialize (Hobj a Had).
        apply Forall_cons in Hho as [(n & Hn & Ho) _]. simpl in Hn, Ho.
        rewrite Hn in Hobj. simpl in Hobj.
        destruct (heap q' !! a) as [n'|]; simplify_eq/=. congruence.
  - intros Hnil xs. rewrite Hc in Hnil. apply fmap_nil_inv in Hnil as ->.
    destruct (push_all_repr xs _ _ _ _ _ Hr) as (q1 & es' & fd' & fs' & Hpa & Hr1 & Hxs).
    simpl in Hr1.
    assert (Hr1' : repr q1 d (es' ++ []) fd' fs') by by rewrite app_nil_r.
    destruct (take_front_repr mode _ _ _ _ _ _ Hr1') as (q2 & d' & Htf & Hr2).
    exists q1, q2. split_and!.
    + done.
    + by exists d, es', fd', fs'.
    + by rewrite (contents_repr _ _ _ _ _ Hr1).
    + by rewrite <- Hxs, length_fmap, Htf.
    + by eexists _, _, _, _.
    + by rewrite (contents_repr _ _ _ _ _ Hr2).
    + by rewrite (empty_repr _ _ _ _ _ Hr2).
    + rewrite (free_nodes_repr _ _ _ _ _ Hr2), (free_nodes_repr _ _ _ _ _ Hr1).
      rewrite length_app. f_equal. rewrite <- Hxs, length_fmap.
      clear. revert d. induction es' as [|e es' IH]; intros d; [done|].
      rewrite fmap_cons. change (removelast (d :: e.1 :: es'.*1)) with (d :: removelast (e.1 :: es'.*1)).
      cbn [length]. by rewrite IH.
  - intros x.
    destruct (push_repr q d es fd fs x Hr) as (q' & a & fd' & fs' & Hp & Hr' & _ & _ & Hcase).
    pose proof Hr as (Hh & _ & Hfh & _).
    pose proof Hr' as (Hh' & Ht' & Hfh' & _ & _ & _ & Hho' & _).
    exists q', a. split_and!.
    + done.
    + by exists d, (es ++ [(a, x)]), fd', fs'.
    + by rewrite (contents_repr _ _ _ _ _ Hr'), Hc, fmap_app.
    + by rewrite Hh, Hh'.
    + by rewrite Ht', fst_snoc, last_snoc.
    + apply Forall_app in Hho' as [_ Hlast]. rewrite Forall_singleton in Hlast.
      destruct Hlast as (n & Hn & Ho). simpl in Hn, Ho.
      unfold payload. rewrite Hn. simpl. done.
    + rewrite Hfn, (free_nodes_repr _ _ _ _ _ Hr').
      destruct Hcase as [(-> & -> & -> & Hnone)|(-> & ->)].
      * split_and!; [done|by rewrite Hfh, Hfh'|done].
      * split_and!; done.
Qed.

End fifo.

Lemma new_wf {T} (dflt : T) : wf (new dflt).
Proof. destruct (repr_new dflt) as (d & fd & Hr & _). by exists d, [], fd, []. Qed.

Lemma queue_fifo_witness :
  wf (new 0%nat) ∧
  ∃ q1 q2, push_all [1; 2; 3]%nat (new 0%nat) = Ok q1 ∧
           take_front 0 3 q1 = Ok ([1; 2; 3]%nat, q2) ∧ empty q2 = true.
Proof.
  split; [apply new_wf|].
  destruct (queue_fifo_dummy_head 0 (new 0%nat) (new_wf 0%nat)) as (_ & _ & _ & Hfifo & _).
  destruct (Hfifo eq_refl [1; 2; 3]%nat)
    as (q1 & q2 & Hpush & _ & _ & Htake & _ & _ & Hempty & _).
  exists q1, q2. split_and!; [exact Hpush|exact Htake|exact Hempty].
Defined.

(** C7 as stated fails on "destroys the payload" read as the payload of the
    removed element: after [push(7); pop()] on a new queue the node that
    held 7 is the new dummy [head_] and its object is still alive. *)
Lemma pop_leaves_front_payload_alive :
  ¬ (∀ q1 : t nat, push 7%nat (new 0%nat) = Ok q1 → pop_destroys_front 0 q1).
Proof.
  intros Hc.
  assert (∃ q1 a q', push 7%nat (new 0%nat) = Ok q1 ∧ front 0 q1 = Ok 7%nat ∧
            front_ptr 0 q1 = Ok (Some a) ∧ pop 0 q1 = Ok q' ∧
            head_ q' = Some a ∧ payload q' a = Some 7%nat)
    as (q1 & a & q' & Hpush & _ & Hfront & Hpop & _ & Hpay).
  { eexists _, _, _. split_and!; vm_compute; reflexivity. }
  specialize (Hc q1 Hpush a q' Hfront Hpop). congruence.
Qed.

End QueueFifo.

(** ** The SPSC block buffer: its queues as lists *)

Module SPSCFacts.
Import SPSCQueue SPSCQueueFacts.
Import SPSCBlockBuffer SPSCAbs.

Lemma buf_is_contents s es : buf_is s es → contents (buf_ s) = es.*2.
Proof. intros (d & fd & fs & Hr). by apply (contents_repr _ _ _ _ _ Hr). Qed.

Lemma buf_is_nodes s es : buf_is s es → nodes (buf_ s) = es.*1.
Proof. intros (d & fd & fs & Hr). by apply (nodes_repr _ _ _ _ _ Hr). Qed.

Lemma buf_is_NoDup s es : buf_is s es → NoDup es.*1.
Proof.
  intros (d & fd & fs & (_ & _ & _ & _ & _ & _ & _ & Hnd)).
  apply NoDup_app in Hnd as (Hn & _). by apply NoDup_cons in Hn as [_ ?].
Qed.

Lemma store_end_repr (q : SPSCQueue.t segment) d es1 a (seg : segment) es2 fd fs v :
  repr q d (es1 ++ (a, seg) :: es2) fd fs →
  ∃ q', store_end (Some a) v q = Ok q' ∧
        repr q' d (es1 ++ (a, (seg.1, v)) :: es2) fd fs.
Proof.
  intros Hr. unfold store_end.
  rewrite (read_obj_repr _ _ _ _ _ a seg Hr) by (apply elem_of_app; right; left).
  simpl. destruct (store_obj_repr _ _ _ _ _ _ _ _ (seg.1, v) Hr) as (q' & Hs & Hr' & _).
  by exists q'.
Qed.

Lemma load_end_repr (q : SPSCQueue.t segment) d es fd fs a (seg : segment) :
  repr q d es fd fs → (a, seg) ∈ es → load_end (Some a) q = Ok seg.2.
Proof. intros Hr Hin. unfold load_end. by rewrite (read_obj_repr _ _ _ _ _ a seg Hr Hin). Qed.

Lemma notify_spec s es a (seg : segment) :
  buf_is s (es ++ [(a, seg)]) → wpos_ s = Some a →
  ∃ s', notify s = Ok s' ∧ buf_is s' (es ++ [(a, (seg.1, wpos_private_ s))]) ∧
        free_list_ s' = free_list_ s ∧ preserved_list_ s' = preserved_list_ s ∧
        wpos_ s' = wpos_ s ∧ same_scalars s s'.
Proof.
  intros (d & fd & fs & Hr) Hw. unfold notify. rewrite Hw.
  destruct (store_end_repr _ _ _ _ _ _ _ _ (wpos_private_ s) Hr) as (q' & Hs & Hr').
  rewrite Hs. simpl. eexists. split; [reflexivity|].
  split_and!; try done. by exists d, fd, fs.
Qed.

Lemma add_block_spec s es a (seg : segment) fl :
  buf_is s (es ++ [(a, seg)]) → wpos_ s = Some a → free_is s fl →
  ∃ s' a' blk fl',
    add_block s = Ok s' ∧
    buf_is s' (es ++ [(a, (seg.1, wpos_private_ s)); (a', (blk, 0))]) ∧
    wpos_ s' = Some a' ∧ free_is s' fl' ∧
    ((fl = [] ∧ fl' = [] ∧ blk = Some (new_block (block_size_ s))) ∨
     (∃ fa, fl = (fa, blk) :: fl')) ∧
    preserved_list_ s' = preserved_list_ s ∧
    block_size_ s' = block_size_ s ∧ rpos_ s' = rpos_ s ∧
    wpos_private_ s' = 0 ∧ one_block_left_ s' = one_block_left_ s.
Proof.
  intros (d & fd & fs & Hr) Hw (dl & fdl & fsl & Hfl). unfold add_block. rewrite Hw.
  destruct (store_end_repr _ _ _ _ _ _ _ _ (wpos_private_ s) Hr) as (q1 & Hs & Hr1).
  rewrite Hs. simpl. rewrite (empty_repr _ _ _ _ _ Hfl).
  destruct fl as [|[fa fblk] fl'].
  - rewrite bool_decide_eq_true_2 by done. unfold emplace.
    destruct (push_repr _ _ _ _ _ (Some (new_block (block_size_ s)), 0) Hr1)
      as (q2 & a' & fd' & fs' & Hp & Hr2 & _).
    rewrite Hp. simpl. rewrite <- app_assoc in Hr2. simpl in Hr2.
    eexists _, a', _, []. split; [reflexivity|]. simpl.
    split_and!; try done.
    + by exists d, fd', fs'.
    + by rewrite (back_ptr_repr _ _ (es ++ [(a, (seg.1, wpos_private_ s))]) _ _ a' _)
        by (rewrite <- app_assoc; exact Hr2).
    + by exists dl, fdl, fsl.
    + by left.
  - rewrite bool_decide_eq_false_2 by done.
    rewrite (front_ptr_repr 0 _ _ _ _ _ _ _ Hfl). simpl.
    rewrite (read_obj_repr _ _ _ _ _ fa fblk Hfl) by left. simpl.
    destruct (store_obj_repr _ _ [] _ _ _ _ _ None Hfl) as (f1 & Hf1 & Hrf1 & _).
    rewrite Hf1. simpl. unfold emplace.
    destruct (push_repr _ _ _ _ _ (fblk, 0) Hr1)
      as (q2 & a' & fd' & fs' & Hp & Hr2 & _).
    rewrite Hp. simpl. rewrite <- app_assoc in Hr2. simpl in Hr2.
    simpl in Hrf1.
    destruct (pop_repr 0 _ _ _ _ _ _ _ Hrf1) as (f2 & Hf2 & Hrf2 & _).
    rewrite Hf2. simpl.
    eexists _, a', fblk, fl'. split; [reflexivity|]. simpl.
    split_and!; try done.
    + by exists d, fd', fs'.
    + by rewrite (back_ptr_repr _ _ (es ++ [(a, (seg.1, wpos_private_ s))]) _ _ a' _)
        by (rewrite <- app_assoc; exact Hr2).
    + by eexists _, _, _.
    + right. by exists fa.
Qed.


Lemma last_cons_Some {A} (x : A) (l : list A) : last (x :: l) = Some (default x (last l)).
Proof. rewrite last_cons. by destruct (last l). Qed.

Lemma last_fst_snoc {A B} (l : list (A * B)) a b : last (l ++ [(a, b)]).*1 = Some a.
Proof. rewrite fmap_app. simpl. by rewrite last_snoc. Qed.

Lemma nonempty_snoc {A} (l : list A) : l ≠ [] → ∃ l' x, l = l' ++ [x].
Proof.
  intros Hne. destruct (exists_last Hne) as (l' & x & ->). by exists l', x.
Qed.

Lemma check_one_block_left_spec s a1 (seg1 : segment) rest :
  buf_is s ((a1, seg1) :: rest) → wpos_ s = last (a1 :: rest.*1) →
  check_one_block_left s = Ok (bool_decide (rest = [])).
Proof.
  intros Hb Hw. pose proof (buf_is_NoDup _ _ Hb) as Hnd.
  destruct Hb as (d & fd & fs & Hr). unfold check_one_block_left.
  rewrite (front_ptr_repr 0 _ _ _ _ _ _ _ Hr). simpl. f_equal.
  rewrite Hw, last_cons_Some. destruct rest as [|[a2 seg2] rest]; simpl.
  - by rewrite !bool_decide_eq_true_2.
  - apply bool_decide_eq_false_2.
    intros [= Heq]. rewrite fmap_cons in Hnd. apply NoDup_cons in Hnd as [Hn _].
    apply Hn. rewrite Heq at 1. rewrite last_cons_default.
    apply last_default_elem.
Qed.

Lemma front_end_spec s a1 (seg1 : segment) rest :
  buf_is s ((a1, seg1) :: rest) → front_end s = Ok seg1.2.
Proof.
  intros (d & fd & fs & Hr). unfold front_end.
  by rewrite (front_repr 0 _ _ _ _ _ _ _ Hr).
Qed.

Lemma pop_block_spec s a1 (seg1 : segment) a2 (seg2 : segment) rest pl :
  buf_is s ((a1, seg1) :: (a2, seg2) :: rest) →
  wpos_ s = last (a1 :: a2 :: rest.*1) → pres_is s pl →
  ∃ s' pa, pop_block s = Ok s' ∧
    buf_is s' ((a2, seg2) :: rest) ∧ pres_is s' (pl ++ [(pa, seg1)]) ∧
    free_list_ s' = free_list_ s ∧ wpos_ s' = wpos_ s ∧ rpos_ s' = 0 ∧
    block_size_ s' = block_size_ s ∧ wpos_private_ s' = wpos_private_ s ∧
    one_block_left_ s' = bool_decide (rest = []).
Proof.
  intros Hb Hw (dp & fdp & fsp & Hp).
  destruct Hb as (d & fd & fs & Hr). unfold pop_block.
  rewrite (front_ptr_repr 0 _ _ _ _ _ _ _ Hr). simpl.
  rewrite (read_obj_repr _ _ _ _ _ a1 seg1 Hr) by left. simpl.
  destruct (push_repr _ _ _ _ _ seg1 Hp) as (pl' & pa & fdp' & fsp' & Hpush & Hp' & _).
  rewrite Hpush. simpl.
  destruct (store_obj_repr _ _ [] _ _ _ _ _ (None, seg1.2) Hr) as (q1 & Hq1 & Hr1 & _).
  rewrite Hq1. simpl. simpl in Hr1.
  destruct (pop_repr 0 _ _ _ _ _ _ _ Hr1) as (q2 & Hq2 & Hr2 & _).
  rewrite Hq2. simpl.
  set (s1 := with_rpos (with_preserved_list (with_buf s q2) pl') 0).
  assert (Hb1 : buf_is s1 ((a2, seg2) :: rest)) by (by eexists _, _, _).
  rewrite (check_one_block_left_spec s1 a2 seg2 rest Hb1).
  2:{ simpl. rewrite Hw. by rewrite last_cons_cons. }
  simpl. eexists _, pa. split; [reflexivity|]. simpl.
  split_and!; try done. by eexists _, _, _.
Qed.


(** *** The pointer-level buffer implements the list-level buffer *)

Lemma simR_bind {A A' B B'} (R : A → A' → Prop) (Q : B → B' → Prop)
    (m : res A) (m' : res A') (k : A → res B) (k' : A' → res B') :
  simR R m m' → (∀ x y, R x y → simR Q (k x) (k' y)) →
  simR Q (m ≫= k) (m' ≫= k').
Proof. destruct m, m'; simpl; intros Hm Hk; try done. by apply Hk. Qed.

Lemma simR_Ok {A B} (R : A → B → Prop) x y : R x y → simR R (Ok x) (Ok y).
Proof. done. Qed.

Lemma simR_eq_bind {A B B'} (Q : B → B' → Prop)
    (m m' : res A) (k : A → res B) (k' : A → res B') :
  simR eq m m' → (∀ x, simR Q (k x) (k' x)) → simR Q (m ≫= k) (m' ≫= k').
Proof. intros Hm Hk. eapply simR_bind; [exact Hm|]. by intros x y ->. Qed.

Lemma simR_Ok_inv {A B} (R : A → B → Prop) m m' x :
  simR R m m' → m = Ok x → ∃ y, m' = Ok y ∧ R x y.
Proof. intros Hs ->. destruct m'; simpl in Hs; [by eexists|done]. Qed.

Lemma unsnoc_snoc {A} (l : list A) x : ListBuffer.unsnoc (l ++ [x]) = Ok (l, x).
Proof. unfold ListBuffer.unsnoc. by rewrite last_snoc, removelast_last. Qed.

Lemma snd_snoc {A B} (l : list (A * B)) a b : (l ++ [(a, b)]).*2 = l.*2 ++ [b].
Proof. by rewrite fmap_app. Qed.

Lemma abs_snoc s a es :
  abs0 s a es → es ≠ [] →
  ∃ es' n (seg : segment), es = es' ++ [(n, seg)] ∧
     ListBuffer.buf_ a = es'.*2 ++ [seg].
Proof.
  intros (fl & pl & Hb & Hes & _) Hne.
  destruct (nonempty_snoc _ Hne) as (es' & [n seg] & ->).
  exists es', n, seg. split; [done|]. by rewrite <- Hes, snd_snoc.
Qed.

Lemma publish_sim s a : abs s a → simR abs (notify s) (ListBuffer.publish a).
Proof.
  intros (es & H0 & Hne & Hw & Hobl).
  destruct (abs_snoc _ _ _ H0 Hne) as (es' & n & seg & -> & Hbuf).
  destruct H0 as (fl & pl & Hb & Hes & Hf & Hfl & Hp & Hpl & Hbs & Hr & Hwp & Ho).
  rewrite last_fst_snoc in Hw.
  destruct (notify_spec s es' n seg Hb Hw) as (s' & Hn & Hb' & Hf' & Hp' & Hw' & Hsc).
  destruct Hsc as (Hbs' & Hr' & Hwp' & Ho').
  rewrite Hn. unfold ListBuffer.publish. rewrite Hbuf, unsnoc_snoc. simpl.
  exists (es' ++ [(n, (seg.1, wpos_private_ s))]). split_and!.
  - exists fl, pl. simpl. unfold free_is, pres_is. rewrite Hf', Hp'.
    split_and!; try done; try congruence.
    rewrite snd_snoc. simpl. by rewrite Hwp.
  - by destruct es'.
  - by rewrite last_fst_snoc, Hw'.
  - rewrite Ho'. intros Hx. specialize (Hobl Hx). by rewrite !length_app in *.
Qed.


Lemma add_block_sim s a : abs s a → simR abs (add_block s) (ListBuffer.add_block a).
Proof.
  intros (es & H0 & Hne & Hw & Hobl).
  destruct (abs_snoc _ _ _ H0 Hne) as (es' & n & seg & -> & Hbuf).
  destruct H0 as (fl & pl & Hb & Hes & Hf & Hfl & Hp & Hpl & Hbs & Hr & Hwp & Ho).
  rewrite last_fst_snoc in Hw.
  destruct (add_block_spec s es' n seg fl Hb Hw Hf)
    as (s' & n' & blk & fl' & Hab & Hb' & Hw' & Hf' & Hcase & Hp' & Hbs' & Hr' & Hwp' & Ho').
  rewrite Hab. unfold ListBuffer.add_block, ListBuffer.publish.
  rewrite Hbuf, unsnoc_snoc. simpl. rewrite <- Hfl.
  assert (Hlen : one_block_left_ s' = false →
     (1 < length (es' ++ [(n, (seg.1, wpos_private_ s)); (n', (blk, 0%Z))]))%nat).
  { intros _. rewrite length_app. simpl. lia. }
  assert (Hlast : wpos_ s' = last (es' ++ [(n, (seg.1, wpos_private_ s)); (n', (blk, 0))]).*1).
  { rewrite Hw'. change [(n, (seg.1, wpos_private_ s)); (n', (blk, 0))]
      with ([(n, (seg.1, wpos_private_ s))] ++ [(n', (blk, 0))]).
    by rewrite app_assoc, last_fst_snoc. }
  assert (Hsnd : (es' ++ [(n, (seg.1, wpos_private_ s)); (n', (blk, 0))]).*2
     = (es'.*2 ++ [(seg.1, ListBuffer.wpos_private_ a)]) ++ [(blk, 0)]).
  { rewrite fmap_app. simpl. rewrite Hwp. by rewrite <- app_assoc. }
  destruct Hcase as [(-> & -> & ->)|(fa & ->)]; simpl.
  - exists (es' ++ [(n, (seg.1, wpos_private_ s)); (n', (Some (new_block (block_size_ s)), 0))]).
    split_and!; [|by destruct es'|exact Hlast|exact Hlen].
    exists [], pl. simpl. unfold pres_is. rewrite Hp'. rewrite Hbs in Hsnd.
    split_and!; try done; try congruence.
  - exists (es' ++ [(n, (seg.1, wpos_private_ s)); (n', (blk, 0))]).
    split_and!; [|by destruct es'|exact Hlast|exact Hlen].
    exists fl', pl. simpl. unfold pres_is. rewrite Hp'.
    split_and!; try done; try congruence.
Qed.

Lemma abs_with_wpos_private s a z :
  abs s a → abs (with_wpos_private s z) (ListBuffer.with_wpos_private a z).
Proof.
  intros (es & (fl & pl & Hb & Hes & Hf & Hfl & Hp & Hpl & Hbs & Hr & Hwp & Ho) & Hne & Hw & Hobl).
  exists es. split_and!; try done. exists fl, pl. split_and!; done.
Qed.

Lemma abs_with_rpos s a z :
  abs s a → abs (with_rpos s z) (ListBuffer.with_rpos a z).
Proof.
  intros (es & (fl & pl & Hb & Hes & Hf & Hfl & Hp & Hpl & Hbs & Hr & Hwp & Ho) & Hne & Hw & Hobl).
  exists es. split_and!; try done. exists fl, pl. split_and!; done.
Qed.

Lemma abs_scalars s a :
  abs s a →
  block_size_ s = ListBuffer.block_size_ a ∧ rpos_ s = ListBuffer.rpos_ a ∧
  wpos_private_ s = ListBuffer.wpos_private_ a ∧
  one_block_left_ s = ListBuffer.one_block_left_ a.
Proof. intros (es & (fl & pl & H0) & _). tauto. Qed.

Lemma add_block_if_full_sim s a :
  abs s a → simR abs (add_block_if_full s) (ListBuffer.add_block_if_full a).
Proof.
  intros Ha. destruct (abs_scalars _ _ Ha) as (Hbs & Hr & Hwp & Ho).
  unfold add_block_if_full, ListBuffer.add_block_if_full. rewrite Hbs, Hwp.
  case_bool_decide; [by apply add_block_sim|done].
Qed.

Lemma add_block_if_needed_sim n s a :
  abs s a → simR abs (add_block_if_needed n s) (ListBuffer.add_block_if_needed n a).
Proof.
  intros Ha. destruct (abs_scalars _ _ Ha) as (Hbs & Hr & Hwp & Ho).
  unfold add_block_if_needed, ListBuffer.add_block_if_needed. rewrite Hbs, Hwp.
  case_bool_decide; [by apply add_block_sim|done].
Qed.

Lemma copy_to_back_sim src s a :
  abs s a → simR abs (copy_to_back src s) (ListBuffer.copy_to_back src a).
Proof.
  intros (es & H0 & Hne & Hw & Hobl).
  destruct (abs_snoc _ _ _ H0 Hne) as (es' & n & seg & -> & Hbuf).
  destruct H0 as (fl & pl & Hb & Hes & Hf & Hfl & Hp & Hpl & Hbs & Hr & Hwp & Ho).
  destruct Hb as (d & fd & fs & Hrep).
  unfold copy_to_back, ListBuffer.copy_to_back.
  rewrite Hbuf, unsnoc_snoc. simpl.
  rewrite (back_repr _ _ _ _ _ _ _ Hrep). simpl.
  destruct seg as [[blk|] e]; simpl; [|done].
  rewrite <- Hwp. destruct (blit blk (wpos_private_ s) src) as [blk'|f]; simpl; [|done].
  rewrite (back_ptr_repr _ _ _ _ _ _ _ Hrep).
  destruct (store_obj_repr _ _ _ _ _ [] _ _ (Some blk', e) Hrep) as (q' & Hs & Hrep' & _).
  rewrite Hs. simpl.
  exists (es' ++ [(n, (Some blk', e))]). split_and!.
  - exists fl, pl. simpl. split_and!; try done.
    + by exists d, fd, fs.
    + by rewrite snd_snoc.
  - by destruct es'.
  - simpl. rewrite Hw. by rewrite !last_fst_snoc.
  - simpl. intros Hx. specialize (Hobl Hx). by rewrite !length_app in *.
Qed.

Lemma abs_front s a es :
  abs0 s a es → es ≠ [] →
  ∃ n (seg : segment) rest, es = (n, seg) :: rest ∧ ListBuffer.buf_ a = seg :: rest.*2.
Proof.
  intros (fl & pl & Hb & Hes & _) Hne. destruct es as [|[n seg] rest]; [done|].
  exists n, seg, rest. split; [done|]. by rewrite <- Hes.
Qed.

Lemma check_one_block_left_sim s a :
  abs s a → simR eq (check_one_block_left s) (ListBuffer.check_one_block_left a).
Proof.
  intros (es & H0 & Hne & Hw & Hobl).
  destruct (abs_front _ _ _ H0 Hne) as (n & seg & rest & -> & Hbuf).
  destruct H0 as (fl & pl & Hb & Hes & _).
  rewrite (check_one_block_left_spec s n seg rest Hb Hw).
  unfold ListBuffer.check_one_block_left. rewrite Hbuf. simpl.
  by destruct rest.
Qed.

Lemma front_end_sim s a :
  abs s a → simR eq (front_end s) (ListBuffer.front_end a).
Proof.
  intros (es & H0 & Hne & Hw & Hobl).
  destruct (abs_front _ _ _ H0 Hne) as (n & seg & rest & -> & Hbuf).
  destruct H0 as (fl & pl & Hb & Hes & _).
  rewrite (front_end_spec s n seg rest Hb).
  unfold ListBuffer.front_end. by rewrite Hbuf.
Qed.

Lemma peek_sim k s a :
  abs s a → simR eq (peek k s) (ListBuffer.peek k a).
Proof.
  intros (es & H0 & Hne & Hw & Hobl).
  destruct (abs_front _ _ _ H0 Hne) as (n & seg & rest & -> & Hbuf).
  destruct H0 as (fl & pl & (d & fd & fs & Hrep) & Hes & Hf & Hfl & Hp & Hpl & Hbs & Hr & _).
  unfold peek, ListBuffer.peek. rewrite Hbuf. simpl.
  rewrite (front_repr 0 _ _ _ _ _ _ _ Hrep). simpl. rewrite Hr.
  destruct seg.1; [|done]. by destruct (slice _ _ _).
Qed.

Lemma pop_block_sim s a :
  abs s a → (1 < length (ListBuffer.buf_ a))%nat →
  simR abs (pop_block s) (ListBuffer.pop_block a).
Proof.
  intros (es & H0 & Hne & Hw & Hobl) Hlen.
  destruct H0 as (fl & pl & Hb & Hes & Hf & Hfl & Hp & Hpl & Hbs & Hr & Hwp & Ho).
  rewrite <- Hes, length_fmap in Hlen.
  destruct es as [|[n1 seg1] [|[n2 seg2] rest]]; simpl in Hlen; try lia.
  destruct (pop_block_spec s n1 seg1 n2 seg2 rest pl Hb Hw Hp)
    as (s' & pa & Hpb & Hb' & Hp' & Hfl' & Hw' & Hr' & Hbs' & Hwp' & Ho').
  rewrite Hpb. unfold ListBuffer.pop_block. rewrite <- Hes. simpl.
  exists ((n2, seg2) :: rest). split_and!.
  - exists fl, (pl ++ [(pa, seg1)]). simpl. unfold free_is. rewrite Hfl'.
    split_and!; try done; try congruence.
    + by rewrite snd_snoc, Hpl.
    + rewrite Ho'. by destruct rest.
  - done.
  - rewrite Hw', Hw. rewrite !fmap_cons. by rewrite last_cons_cons.
  - rewrite Ho'. intros Hx. apply bool_decide_eq_false in Hx.
    destruct rest; [done|]. simpl. lia.
Qed.

Lemma abs_obl_length s a :
  abs s a → ListBuffer.one_block_left_ a = false → (1 < length (ListBuffer.buf_ a))%nat.
Proof.
  intros (es & (fl & pl & Hb & Hes & Hf & Hfl & Hp & Hpl & Hbs & Hr & Hwp & Ho) & Hne & Hw & Hobl) Hx.
  rewrite <- Hes, length_fmap. apply Hobl. congruence.
Qed.

Lemma abs_nonempty s a : abs s a → ListBuffer.buf_ a ≠ [].
Proof.
  intros (es & (fl & pl & Hb & Hes & _) & Hne & _). rewrite <- Hes.
  by destruct es.
Qed.

Lemma pop_block_if_needed_sim size s a :
  abs s a → simR abs (pop_block_if_needed size s) (ListBuffer.pop_block_if_needed size a).
Proof.
  intros Ha. destruct (abs_scalars _ _ Ha) as (Hbs & Hr & Hwp & Ho).
  pose proof (abs_nonempty _ _ Ha) as Hne.
  unfold pop_block_if_needed, ListBuffer.pop_block_if_needed. rewrite Ho, Hr.
  destruct (ListBuffer.one_block_left_ a) eqn:Hobl.
  - pose proof (check_one_block_left_sim _ _ Ha) as Hc.
    destruct (check_one_block_left s) as [b|], (ListBuffer.check_one_block_left a) as [b'|] eqn:Hb';
      simpl in Hc; try done; subst; simpl; try done.
    destruct b'; simpl; [done|].
    eapply simR_eq_bind; [by apply front_end_sim|]. intros e.
    case_bool_decide; [|done]. apply pop_block_sim; [done|].
    unfold ListBuffer.check_one_block_left in Hb'.
    destruct (ListBuffer.buf_ a) as [|x [|y l]]; simpl in *; try done; lia.
  - eapply simR_eq_bind; [by apply front_end_sim|]. intros e.
    case_bool_decide; [|done]. apply pop_block_sim; [done|].
    by eapply abs_obl_length.
Qed.


Lemma clear_step_sim n c s a :
  abs s a → simR Rstep (clear_step n c s) (ListBuffer.clear_step n c a).
Proof.
  intros (es & H0 & Hne & Hw & Hobl).
  destruct H0 as (fl & pl & Hb & Hes & Hf & Hfl & Hp & Hpl & Hbs & Hr & Hwp & Ho).
  destruct Hp as (dp & fdp & fsp & Hrp). destruct Hf as (df & fdf & fsf & Hrf).
  unfold clear_step, ListBuffer.clear_step.
  rewrite (empty_repr _ _ _ _ _ Hrp), <- Hpl.
  destruct pl as [|[pa seg] rest]; simpl; [done|].
  rewrite (front_repr 0 _ _ _ _ _ _ _ Hrp). simpl.
  case_bool_decide; [|done].
  rewrite (front_ptr_repr 0 _ _ _ _ _ _ _ Hrp). simpl.
  destruct (push_repr _ _ _ _ _ seg.1 Hrf) as (f' & fa & fdf' & fsf' & Hpush & Hrf' & _).
  rewrite Hpush. simpl.
  destruct (store_obj_repr _ _ [] _ _ _ _ _ (None, seg.2) Hrp) as (p1 & Hp1 & Hrp1 & _).
  rewrite Hp1. simpl. simpl in Hrp1.
  destruct (pop_repr 0 _ _ _ _ _ _ _ Hrp1) as (p2 & Hp2 & Hrp2 & _).
  rewrite Hp2. simpl. split; [done|].
  exists es. split_and!; try done.
  exists (fl ++ [(fa, seg.1)]), rest. simpl. split_and!; try done.
  - by eexists _, _, _.
  - by rewrite snd_snoc, Hfl.
  - by eexists _, _, _.
Qed.

Lemma clear_loop_sim fuel n c s a :
  abs s a → simR abs (clear_loop fuel n c s) (ListBuffer.clear_loop fuel n c a).
Proof.
  revert c s a; induction fuel as [|fuel IH]; intros c s a Ha; simpl.
  - eapply simR_bind; [by apply clear_step_sim|].
    intros [[c1 s1]|] [[c2 a2]|]; simpl; try done.
  - eapply simR_bind; [by apply clear_step_sim|].
    intros [[c1 s1]|] [[c2 a2]|]; simpl; try done.
    intros [-> Ha']. by apply IH.
Qed.

Lemma clear_preserved_sim n s a :
  abs s a → simR abs (clear_preserved n s) (ListBuffer.clear_preserved n a).
Proof.
  intros Ha. unfold clear_preserved, ListBuffer.clear_preserved.
  assert (length (nodes (preserved_list_ s)) = length (ListBuffer.preserved_list_ a)) as ->.
  { destruct Ha as (es & (fl & pl & _ & _ & _ & _ & (d & fd & fs & Hrp) & Hpl & _) & _).
    by rewrite (nodes_repr _ _ _ _ _ Hrp), <- Hpl, !length_fmap. }
  by apply clear_loop_sim.
Qed.

Lemma write_loop_sim fuel src s a :
  abs s a → simR abs (write_loop fuel src s) (ListBuffer.write_loop fuel src a).
Proof.
  revert src s a; induction fuel as [|fuel IH]; intros src s a Ha;
    destruct src as [|b src]; simpl; try done.
  eapply simR_bind; [by apply add_block_if_full_sim|].
  intros s1 a1 Ha1. destruct (abs_scalars _ _ Ha1) as (Hbs & Hr & Hwp & Ho).
  rewrite Hbs, Hwp. case_bool_decide; [done|].
  eapply simR_bind; [by apply copy_to_back_sim|].
  intros s2 a2 Ha2. destruct (abs_scalars _ _ Ha2) as (Hbs2 & Hr2 & Hwp2 & Ho2).
  rewrite Hwp2. apply IH. by apply abs_with_wpos_private.
Qed.

Lemma notify_sim s a : abs s a → simR abs (notify s) (ListBuffer.notify a).
Proof. apply publish_sim. Qed.

Lemma write_sim src n s a :
  abs s a → simR abs (write src n s) (ListBuffer.write src n a).
Proof.
  intros Ha. unfold write, ListBuffer.write.
  eapply simR_bind; [by apply write_loop_sim|].
  intros s1 a1 Ha1. destruct n; [by apply notify_sim|done].
Qed.

Lemma write_string_sim str n s a :
  abs s a → simR abs (write_string str n s) (ListBuffer.write_string str n a).
Proof.
  intros Ha. unfold write_string, ListBuffer.write_string, write_value, ListBuffer.write_value.
  eapply simR_bind; [by apply write_sim|].
  intros s1 a1 Ha1. by apply write_sim.
Qed.

Lemma read_sim n s a :
  abs s a → simR Rv (read n s) (ListBuffer.read n a).
Proof.
  intros Ha. unfold read, ListBuffer.read.
  eapply simR_bind; [by apply pop_block_if_needed_sim|].
  intros s1 a1 Ha1. eapply simR_eq_bind; [by apply peek_sim|].
  intros v. destruct (abs_scalars _ _ Ha1) as (Hbs & Hr & Hwp & Ho).
  rewrite Hr. split; [done|]. by apply abs_with_rpos.
Qed.

Lemma get_sim n s a :
  abs s a → simR Rv (get n s) (ListBuffer.get n a).
Proof.
  intros Ha. unfold get, ListBuffer.get.
  eapply simR_bind; [by apply read_sim|].
  intros [v s1] [v' a1] [Hv Ha1]. simpl in *. subst v'.
  eapply simR_bind; [by apply clear_preserved_sim|].
  intros s2 a2 Ha2. by split.
Qed.

Lemma get_string_sim s a :
  abs s a → simR Rv (get_string s) (ListBuffer.get_string a).
Proof.
  intros Ha. unfold get_string, ListBuffer.get_string.
  eapply simR_bind; [by apply read_sim|].
  intros [v s1] [v' a1] [Hv Ha1]. simpl in *. subst v'.
  eapply simR_bind; [by apply pop_block_if_needed_sim|].
  intros s2 a2 Ha2. eapply simR_eq_bind; [by apply peek_sim|].
  intros str. destruct (abs_scalars _ _ Ha2) as (Hbs & Hr & Hwp & Ho). rewrite Hr.
  eapply simR_bind; [apply clear_preserved_sim; by apply abs_with_rpos|].
  intros s4 a4 Ha4. by split.
Qed.

Lemma write_cont_sim src n s a :
  abs s a → simR abs (write_cont src n s) (ListBuffer.write_cont src n a).
Proof.
  intros Ha. unfold write_cont, ListBuffer.write_cont. destruct src as [|b src]; [done|].
  eapply simR_bind; [by apply add_block_if_needed_sim|].
  intros s1 a1 Ha1. eapply simR_bind; [by apply copy_to_back_sim|].
  intros s2 a2 Ha2. destruct (abs_scalars _ _ Ha2) as (Hbs & Hr & Hwp & Ho). rewrite Hwp.
  destruct n; [|by apply abs_with_wpos_private].
  apply notify_sim. by apply abs_with_wpos_private.
Qed.

Lemma write_cont_string_sim str n s a :
  abs s a → simR abs (write_cont_string str n s) (ListBuffer.write_cont_string str n a).
Proof.
  intros Ha. unfold write_cont_string, ListBuffer.write_cont_string,
    write_cont_value, ListBuffer.write_cont_value.
  eapply simR_bind; [by apply write_cont_sim|].
  intros s1 a1 Ha1. by apply write_cont_sim.
Qed.


Lemma abs_back_ptr s a : abs s a → back_ptr (buf_ s) = wpos_ s.
Proof.
  intros (es & H0 & Hne & Hw & Hobl).
  destruct (abs_snoc _ _ _ H0 Hne) as (es' & n & seg & -> & Hbuf).
  destruct H0 as (fl & pl & (d & fd & fs & Hrep) & _).
  rewrite Hw, last_fst_snoc. by apply (back_ptr_repr _ _ _ _ _ _ _ Hrep).
Qed.

Lemma ensure_cont_sim n s a :
  abs s a → simR Rptr (ensure_cont n s) (ListBuffer.ensure_cont n a).
Proof.
  intros Ha. unfold ensure_cont, ListBuffer.ensure_cont.
  eapply simR_bind; [by apply add_block_if_needed_sim|].
  intros s1 a1 Ha1. destruct (abs_scalars _ _ Ha1) as (Hbs & Hr & Hwp & Ho).
  split_and!; simpl; [by apply (abs_back_ptr _ a1)|done|done].
Qed.

Lemma input_finish_sim total s a :
  abs s a → simR Rv (input_finish total s) (ListBuffer.input_finish total a).
Proof.
  intros Ha. unfold input_finish, ListBuffer.input_finish.
  case_bool_decide; [|by split].
  eapply simR_bind; [by apply notify_sim|]. intros s1 a1 Ha1. by split.
Qed.

Lemma input_loop_sim script cont max_len total s a :
  abs s a →
  simR Rin (input_loop script cont max_len total s)
           (ListBuffer.input_loop script cont max_len total a).
Proof.
  revert total s a; induction script as [|ans script IH]; intros total s a Ha; simpl.
  - eapply simR_bind; [by apply add_block_if_full_sim|]. done.
  - eapply simR_bind; [by apply add_block_if_full_sim|].
    intros s1 a1 Ha1. destruct (abs_scalars _ _ Ha1) as (Hbs & Hr & Hwp & Ho).
    rewrite Hbs, Hwp. destruct ans as [|data].
    + case_bool_decide; [by split_and!|].
      eapply simR_bind; [by apply input_finish_sim|].
      intros [r s2] [r' a2] [Hv Ha2]. simpl in *. subst. by split_and!.
    + case_bool_decide.
      * eapply simR_bind; [by apply input_finish_sim|].
        intros [r s2] [r' a2] [Hv Ha2]. simpl in *. subst. by split_and!.
      * eapply simR_bind; [by apply copy_to_back_sim|].
        intros s2 a2 Ha2. destruct (abs_scalars _ _ Ha2) as (Hbs2 & Hr2 & Hwp2 & Ho2).
        rewrite Hwp2. destruct cont.
        -- eapply simR_bind; [apply input_finish_sim; by apply abs_with_wpos_private|].
           intros [r s3] [r' a3] [Hv Ha3]. simpl in *. subst. by split_and!.
        -- eapply simR_bind; [apply IH; by apply abs_with_wpos_private|].
           intros [[r s3] tr] [[r' a3] tr'] (Hv & Ha3 & Htr). simpl in *. subst.
           by split_and!.
Qed.

Lemma output_loop_sim script total s a :
  abs s a →
  simR Rout (output_loop script total s) (ListBuffer.output_loop script total a).
Proof.
  revert total s a; induction script as [|ans script IH]; intros total s a Ha; simpl.
  - unfold pop_block_if_needed_and_available.
    eapply simR_bind; [by apply pop_block_if_needed_sim|].
    intros s1 a1 Ha1. eapply simR_eq_bind; [by apply front_end_sim|]. done.
  - unfold pop_block_if_needed_and_available.
    eapply simR_bind; [by apply pop_block_if_needed_sim|].
    intros s1 a1 Ha1. eapply simR_eq_bind; [by apply front_end_sim|].
    intros e. destruct (abs_scalars _ _ Ha1) as (Hbs & Hr & Hwp & Ho). rewrite Hr.
    destruct ans as [|room].
    + case_bool_decide; [by split_and!|].
      eapply simR_bind; [by apply clear_preserved_sim|].
      intros s2 a2 Ha2. by split_and!.
    + case_bool_decide.
      * eapply simR_bind; [by apply clear_preserved_sim|].
        intros s2 a2 Ha2. by split_and!.
      * eapply simR_eq_bind; [by apply peek_sim|]. intros bytes.
        eapply simR_bind; [apply IH; by apply abs_with_rpos|].
        intros [[[r out] s3] tr] [[[r' out'] a3] tr'] (Hv & Hout & Ha3 & Htr).
        simpl in *. subst. by split_and!.
Qed.

Lemma published_sim s a :
  abs s a → simR eq (load_end (wpos_ s) (buf_ s)) (ListBuffer.published a).
Proof.
  intros (es & H0 & Hne & Hw & Hobl).
  destruct (abs_snoc _ _ _ H0 Hne) as (es' & n & seg & -> & Hbuf).
  destruct H0 as (fl & pl & (d & fd & fs & Hrep) & _).
  rewrite Hw, last_fst_snoc.
  rewrite (load_end_repr _ _ _ _ _ n seg Hrep) by (apply elem_of_app; right; left).
  unfold ListBuffer.published. by rewrite Hbuf, unsnoc_snoc.
Qed.

Lemma empty_const_sim s a :
  abs s a → simR eq (empty_const s) (ListBuffer.empty_const a).
Proof.
  intros Ha. destruct (abs_scalars _ _ Ha) as (Hbs & Hr & Hwp & Ho).
  unfold empty_const, ListBuffer.empty_const. rewrite Ho, Hr.
  destruct (ListBuffer.one_block_left_ a); [|done].
  eapply simR_eq_bind; [by apply check_one_block_left_sim|]. intros [|]; [|done].
  eapply simR_eq_bind; [by apply published_sim|]. done.
Qed.

Lemma abs_with_one_block_left s a (b : bool) :
  abs s a → (b = false → (1 < length (ListBuffer.buf_ a))%nat) →
  abs (with_one_block_left s b) (ListBuffer.with_one_block_left a b).
Proof.
  intros (es & (fl & pl & Hb & Hes & Hf & Hfl & Hp & Hpl & Hbs & Hr & Hwp & Ho) & Hne & Hw & Hobl) Hlen.
  exists es. split_and!; try done.
  - exists fl, pl. split_and!; done.
  - simpl. intros Hx. specialize (Hlen Hx). by rewrite <- Hes, length_fmap in Hlen.
Qed.

Lemma check_one_block_left_false a :
  ListBuffer.buf_ a ≠ [] → ListBuffer.check_one_block_left a = Ok false →
  (1 < length (ListBuffer.buf_ a))%nat.
Proof.
  unfold ListBuffer.check_one_block_left.
  destruct (ListBuffer.buf_ a) as [|x [|y l]]; simpl; try done. lia.
Qed.

Lemma empty_sim s a :
  abs s a → simR Rv (empty s) (ListBuffer.empty a).
Proof.
  intros Ha. destruct (abs_scalars _ _ Ha) as (Hbs & Hr & Hwp & Ho).
  unfold empty, ListBuffer.empty. rewrite Ho.
  destruct (ListBuffer.one_block_left_ a); [|by split].
  pose proof (check_one_block_left_sim _ _ Ha) as Hc.
  destruct (check_one_block_left s) as [b|], (ListBuffer.check_one_block_left a) as [b'|] eqn:Hb';
    simpl in Hc; try done; subst; simpl; try done.
  assert (Ha1 : abs (with_one_block_left s b') (ListBuffer.with_one_block_left a b')).
  { apply abs_with_one_block_left; [done|]. intros ->.
    apply check_one_block_left_false; [by eapply abs_nonempty|done]. }
  destruct b'; [|by split].
  eapply simR_eq_bind; [by apply (published_sim _ _ Ha1)|].
  intros e. simpl. rewrite Hr. by split.
Qed.

Lemma repr_new_is {T} (dflt : T) : ∃ d fd fs, repr (SPSCQueue.new dflt) d [] fd fs.
Proof. destruct (repr_new dflt) as (d & fd & Hr & _). by exists d, fd, []. Qed.

Lemma abs0_default : abs0 default_constructed ListBuffer.default_constructed [].
Proof.
  exists [], []. unfold buf_is, free_is, pres_is. simpl.
  split_and!; try done; apply repr_new_is.
Qed.

(** [init] on a buffer whose segment list may still be empty. *)
Lemma init_sim pagesize block_size s a es :
  abs0 s a es →
  simR abs (init pagesize block_size s) (ListBuffer.init pagesize block_size a).
Proof.
  intros (fl & pl & (d & fd & fs & Hrep) & Hes & Hf & Hfl & Hp & Hpl & _).
  unfold init, ListBuffer.init, emplace.
  set (bs := if bool_decide (block_size = -1) then wrap pagesize else wrap block_size).
  destruct (push_repr _ _ _ _ _ (Some (new_block bs), 0) Hrep)
    as (q' & n & fd' & fs' & Hpush & Hrep' & _).
  rewrite Hpush. simpl.
  exists (es ++ [(n, (Some (new_block bs), 0))]). split_and!.
  - exists fl, pl. simpl. split_and!; try done.
    + by exists d, fd', fs'.
    + by rewrite snd_snoc, Hes.
  - by destruct es.
  - simpl. by rewrite (back_ptr_repr _ _ _ _ _ _ _ Hrep'), last_fst_snoc.
  - done.
Qed.

Lemma abs_abs0 s a : abs s a → ∃ es, abs0 s a es.
Proof. intros (es & H0 & _). by exists es. Qed.

(** Every public call of the pointer-level buffer does what the list-level
    buffer does: same failure, or same value and related states. *)
Lemma run_sim c s a :
  abs s a → simR Rrun (SPSCApi.run c s) (ListApi.run c a).
Proof.
  intros Ha. destruct c; unfold SPSCApi.run, ListApi.run,
    SPSCApi.unit_call, ListApi.unit_call, SPSCApi.bytes_call, ListApi.bytes_call,
    write_value, ListBuffer.write_value, read_cont, ListBuffer.read_cont,
    get_cont, ListBuffer.get_cont, write_cont_value, ListBuffer.write_cont_value,
    input_from_fd, ListBuffer.input_from_fd, output_to_fd, ListBuffer.output_to_fd.
  - destruct (abs_abs0 _ _ Ha) as (es & H0).
    eapply simR_bind; [by eapply init_sim|]. intros s1 a1 Ha1. by split.
  - eapply simR_bind; [by apply write_sim|]. intros s1 a1 Ha1. by split.
  - eapply simR_bind; [by apply write_sim|]. intros s1 a1 Ha1. by split.
  - eapply simR_bind; [by apply write_string_sim|]. intros s1 a1 Ha1. by split.
  - eapply simR_bind; [by apply read_sim|].
    intros [v s1] [v' a1] [Hv Ha1]; simpl in *; subst. by split.
  - eapply simR_bind; [by apply get_sim|].
    intros [v s1] [v' a1] [Hv Ha1]; simpl in *; subst. by split.
  - eapply simR_bind; [by apply read_sim|].
    intros [v s1] [v' a1] [Hv Ha1]; simpl in *; subst. by split.
  - eapply simR_bind; [by apply get_sim|].
    intros [v s1] [v' a1] [Hv Ha1]; simpl in *; subst. by split.
  - eapply simR_bind; [by apply get_string_sim|].
    intros [v s1] [v' a1] [Hv Ha1]; simpl in *; subst. by split.
  - eapply simR_bind; [by apply write_cont_sim|]. intros s1 a1 Ha1. by split.
  - eapply simR_bind; [by apply write_cont_sim|]. intros s1 a1 Ha1. by split.
  - eapply simR_bind; [by apply write_cont_string_sim|]. intros s1 a1 Ha1. by split.
  - eapply simR_bind; [by apply input_loop_sim|].
    intros [[r s1] tr] [[r' a1] tr'] (Hv & Ha1 & Htr); simpl in *; subst. by split.
  - eapply simR_bind; [by apply output_loop_sim|].
    intros [[[r out] s1] tr] [[[r' out'] a1] tr'] (Hv & Hout & Ha1 & Htr); simpl in *; subst.
    by split.
  - eapply simR_bind; [by apply notify_sim|]. intros s1 a1 Ha1. by split.
  - eapply simR_bind; [by apply ensure_cont_sim|].
    intros [[p off] s1] [off' a1] (Hp & Hoff & Ha1); simpl in *; subst. by split.
  - eapply simR_eq_bind; [by apply empty_const_sim|]. intros b. by split.
  - eapply simR_bind; [by apply empty_sim|].
    intros [v s1] [v' a1] [Hv Ha1]; simpl in *; subst. by split.
  - eapply simR_bind; [by apply clear_preserved_sim|]. intros s1 a1 Ha1. by split.
Qed.

End SPSCFacts.

(** ** Invariants of the SPSC block buffer (claims C8, C9, C2) *)

Module SPSCInvariants.
Import SPSCQueue SPSCQueueFacts.
Import SPSCBlockBuffer SPSCAbs SPSCFacts.

Lemma reachable_abs s : SPSCApi.reachable s → ∃ a, abs s a.
Proof.
  induction 1 as [pagesize block_size s Hinit|c v s s' Hreach [a Ha] Hrun].
  - pose proof (init_sim pagesize block_size _ _ _ abs0_default) as Hsim.
    destruct (simR_Ok_inv _ _ _ _ Hsim Hinit) as (a & _ & Ha). by exists a.
  - pose proof (run_sim c s a Ha) as Hsim.
    destruct (simR_Ok_inv _ _ _ _ Hsim Hrun) as ([v' a'] & _ & _ & Ha'). by exists a'.
Qed.

Lemma abs_contents s a : abs s a → contents (buf_ s) = ListBuffer.buf_ a.
Proof.
  intros (es & (fl & pl & Hb & Hes & _) & _). by rewrite (buf_is_contents _ _ Hb).
Qed.

Lemma abs_wpos_last s a : abs s a → wpos_ s = last (nodes (buf_ s)).
Proof.
  intros (es & (fl & pl & Hb & Hes & _) & _ & Hw & _). by rewrite (buf_is_nodes _ _ Hb).
Qed.

Lemma abs_wpos_Some s a : abs s a → is_Some (wpos_ s).
Proof.
  intros (es & _ & Hne & Hw & _). rewrite Hw.
  destruct (nonempty_snoc _ Hne) as (es' & [n seg] & ->). rewrite last_fst_snoc. by eexists.
Qed.

(** C8.  In every state the buffer goes through — after [init] and after
    every public call that returns — the segment list [buf_] is not empty
    and [wpos_] addresses the [second] of its tail node: it is [&buf_.back()]'s
    node, the last node of the list, and not null. *)
Theorem buf_nonempty_wpos_at_tail s :
  SPSCApi.reachable s →
  contents (buf_ s) ≠ [] ∧
  wpos_ s = back_ptr (buf_ s) ∧
  wpos_ s = last (nodes (buf_ s)) ∧
  is_Some (wpos_ s).
Proof.
  intros Hreach. destruct (reachable_abs s Hreach) as (a & Ha).
  split_and!.
  - rewrite (abs_contents _ _ Ha). by eapply abs_nonempty.
  - symmetry. by eapply abs_back_ptr.
  - by eapply abs_wpos_last.
  - by eapply abs_wpos_Some.
Qed.

Lemma buf_nonempty_wpos_at_tail_witness :
  ∃ s, SPSCApi.reachable s ∧ contents (buf_ s) ≠ [] ∧ wpos_ s = back_ptr (buf_ s).
Proof.
  destruct (init 4096 16 default_constructed) as [s|] eqn:Hinit; [|by vm_compute in Hinit].
  assert (Hreach : SPSCApi.reachable s) by (by eapply SPSCApi.reachable_init).
  exists s. split; [exact Hreach|].
  destruct (buf_nonempty_wpos_at_tail s Hreach) as (Hne & Hback & _).
  split; [exact Hne|exact Hback].
Defined.

Lemma pop_block_reevaluates s s' :
  pop_block s = Ok s' → check_one_block_left s' = Ok (one_block_left_ s').
Proof.
  unfold pop_block. intros H.
  do 5 (apply bind_Ok in H as (? & _ & H)).
  apply bind_Ok in H as (b & Hb & H). injection H as <-. exact Hb.
Qed.

(** C9.  In every reachable state, [one_block_left_ == false] implies that
    the segment list holds more than one segment; and [pop_block], the only
    place that pops [buf_], ends with [one_block_left_] equal to a fresh
    [check_one_block_left()], which in a reachable state says whether
    exactly one segment is left. *)
Theorem one_block_left_hysteresis s :
  SPSCApi.reachable s →
  (one_block_left_ s = false → (1 < length (contents (buf_ s)))%nat) ∧
  check_one_block_left s = Ok (bool_decide (length (contents (buf_ s)) = 1%nat)) ∧
  (∀ s', pop_block s = Ok s' →
     check_one_block_left s' = Ok (one_block_left_ s') ∧
     (length (contents (buf_ s')) = length (contents (buf_ s)) - 1)%nat).
Proof.
  intros Hreach. destruct (reachable_abs s Hreach) as (a & Ha).
  pose proof (abs_contents _ _ Ha) as Hc. rewrite Hc. split_and!.
  - intros Hx. eapply abs_obl_length; [done|].
    destruct (abs_scalars _ _ Ha) as (_ & _ & _ & Ho). congruence.
  - pose proof (check_one_block_left_sim _ _ Ha) as Hsim.
    pose proof (abs_nonempty _ _ Ha) as Hne.
    unfold ListBuffer.check_one_block_left in Hsim.
    destruct (ListBuffer.buf_ a) as [|x l]; [done|]. simpl in Hsim.
    destruct (check_one_block_left s); simpl in Hsim; [by subst|done].
  - intros s' Hpop. split; [by eapply pop_block_reevaluates|].
    unfold pop_block in Hpop.
    destruct Ha as (es & (fl & pl & (d & fd & fs & Hrep) & Hes & _) & Hne & _).
    destruct es as [|[n seg] es]; [done|].
    rewrite (front_ptr_repr 0 _ _ _ _ _ _ _ Hrep) in Hpop. simpl in Hpop.
    rewrite (read_obj_repr _ _ _ _ _ n seg Hrep) in Hpop by left. simpl in Hpop.
    apply bind_Ok in Hpop as (plq & _ & Hpop).
    destruct (store_obj_repr _ _ [] _ _ _ _ _ (None, seg.2) Hrep) as (q1 & Hq1 & Hrep1 & _).
    rewrite Hq1 in Hpop. simpl in Hpop, Hrep1.
    destruct (pop_repr 0 _ _ _ _ _ _ _ Hrep1) as (q2 & Hq2 & Hrep2 & _).
    rewrite Hq2 in Hpop. simpl in Hpop.
    apply bind_Ok in Hpop as (b & _ & Hpop). injection Hpop as <-. simpl.
    rewrite (contents_repr _ _ _ _ _ Hrep2), <- Hes, !length_fmap. simpl. lia.
Qed.

Lemma head_read_reachable :
  SPSCApi.reachable Scenes.head_read ∧ SPSCApi.reachable Scenes.head_dropped.
Proof.
  assert (H0 : SPSCApi.reachable Scenario.fresh).
  { apply (SPSCApi.reachable_init 4096 16). by vm_compute. }
  assert (H1 : SPSCApi.reachable Scenes.three_blocks).
  { apply (SPSCApi.reachable_call (SPSCApi.Write (replicate 40 x01) true) VNone
             Scenario.fresh); [done|by vm_compute]. }
  assert (H2 : SPSCApi.reachable Scenes.head_read).
  { apply (SPSCApi.reachable_call (SPSCApi.Read 16) (VBytes (replicate 16 x01))
             Scenes.three_blocks); [done|by vm_compute]. }
  split; [done|].
  apply (SPSCApi.reachable_call (SPSCApi.Read 16) (VBytes (replicate 16 x01))
           Scenes.head_read); [done|by vm_compute].
Qed.

Lemma one_block_left_hysteresis_witness :
  SPSCApi.reachable Scenes.head_dropped ∧
  one_block_left_ Scenes.head_dropped = false ∧
  (1 < length (contents (buf_ Scenes.head_dropped)))%nat ∧
  SPSCApi.reachable Scenes.head_read ∧
  length (contents (buf_ Scenes.head_read)) = 3%nat ∧
  pop_block Scenes.head_read = Ok Scenes.head_popped ∧
  check_one_block_left Scenes.head_popped = Ok false ∧
  one_block_left_ Scenes.head_popped = false ∧
  length (contents (buf_ Scenes.head_popped)) = 2%nat.
Proof.
  destruct head_read_reachable as [Hr2 Hr3].
  assert (Hflag : one_block_left_ Scenes.head_dropped = false) by (by vm_compute).
  assert (Hlen : length (contents (buf_ Scenes.head_read)) = 3%nat) by (by vm_compute).
  assert (Hpop : pop_block Scenes.head_read = Ok Scenes.head_popped) by (by vm_compute).
  assert (Hflag' : one_block_left_ Scenes.head_popped = false) by (by vm_compute).
  destruct (one_block_left_hysteresis Scenes.head_dropped Hr3) as (Hinv & _).
  destruct (one_block_left_hysteresis Scenes.head_read Hr2) as (_ & _ & Hpops).
  destruct (Hpops Scenes.head_popped Hpop) as (Hcheck & Hlen').
  rewrite Hflag' in Hcheck. rewrite Hlen in Hlen'.
  split_and!; [exact Hr3|exact Hflag|exact (Hinv Hflag)|exact Hr2|exact Hlen|exact Hpop
              |exact Hcheck|exact Hflag'|exact Hlen'].
Defined.

Lemma list_empty_const a segs (seg : segment) :
  ListBuffer.buf_ a = segs ++ [seg] →
  (ListBuffer.one_block_left_ a = false → (1 < length (ListBuffer.buf_ a))%nat) →
  ListBuffer.empty_const a =
    Ok (bool_decide (length (ListBuffer.buf_ a) = 1%nat ∧ ListBuffer.rpos_ a = seg.2)) ∧
  ∃ a', ListBuffer.empty a =
    Ok (bool_decide (length (ListBuffer.buf_ a) = 1%nat ∧ ListBuffer.rpos_ a = seg.2), a') ∧
    ListBuffer.buf_ a' = ListBuffer.buf_ a ∧ ListBuffer.rpos_ a' = ListBuffer.rpos_ a.
Proof.
  intros Hbuf Hobl. destruct a as [bs buf fl pl rp wp obl]. simpl in *. subst buf.
  unfold ListBuffer.empty_const, ListBuffer.empty, ListBuffer.check_one_block_left,
    ListBuffer.published. simpl.
  destruct obl.
  - destruct segs as [|x segs]; simpl.
    + split; [f_equal; apply bool_decide_ext; tauto|].
      eexists. split; [do 2 f_equal; apply bool_decide_ext; tauto|split; reflexivity].
    + assert (Hlen : length (segs ++ [seg]) ≠ 0%nat) by (rewrite length_app; simpl; lia).
      rewrite !(bool_decide_eq_false_2 (S _ = 1%nat)) by lia.
      split; [f_equal; symmetry; apply bool_decide_eq_false_2; lia|].
      eexists. split; [do 2 f_equal; symmetry; apply bool_decide_eq_false_2; lia|split; reflexivity].
  - specialize (Hobl eq_refl).
    split; [f_equal; symmetry; apply bool_decide_eq_false_2; lia|].
    eexists. split; [do 2 f_equal; symmetry; apply bool_decide_eq_false_2; lia|split; reflexivity].
Qed.

(** X20.  Between two calls, with no producer call running meanwhile: in
    every reachable state [*wpos_] can be loaded, and [empty()], in its
    const and its non-const form, returns true exactly when the segment
    list holds one segment and [rpos_] equals [*wpos_]. *)
Theorem empty_iff_one_segment_drained s :
  SPSCApi.reachable s →
  ∃ e s', load_end (wpos_ s) (buf_ s) = Ok e ∧
    empty_const s = Ok (bool_decide (length (contents (buf_ s)) = 1%nat ∧ rpos_ s = e)) ∧
    empty s = Ok (bool_decide (length (contents (buf_ s)) = 1%nat ∧ rpos_ s = e), s') ∧
    contents (buf_ s') = contents (buf_ s) ∧ rpos_ s' = rpos_ s.
Proof.
  intros Hreach. destruct (reachable_abs s Hreach) as (a & Ha).
  pose proof (abs_contents _ _ Ha) as Hc. rewrite Hc.
  pose proof (published_sim _ _ Ha) as Hpub.
  pose proof (empty_const_sim _ _ Ha) as Hec.
  pose proof (empty_sim _ _ Ha) as He.
  pose proof (abs_nonempty _ _ Ha) as Hne.
  pose proof (abs_obl_length _ _ Ha) as Hobl.
  destruct (abs_scalars _ _ Ha) as (_ & Hr & _ & _). rewrite Hr.
  destruct (nonempty_snoc _ Hne) as (segs & seg & Hbuf).
  destruct (list_empty_const a segs seg Hbuf Hobl) as (Hlec & a' & Hle & Hbuf' & Hr').
  unfold ListBuffer.published in Hpub. rewrite Hbuf, unsnoc_snoc in Hpub. simpl in Hpub.
  rewrite Hlec in Hec. rewrite Hle in He.
  destruct (load_end (wpos_ s) (buf_ s)) as [e|]; simpl in Hpub; [subst e|done].
  destruct (empty_const s) as [b|]; simpl in Hec; [subst b|done].
  destruct (empty s) as [[b s']|]; simpl in He; [|done].
  destruct He as [Hb Ha']. simpl in Hb, Ha'. subst b.
  exists seg.2, s'. split_and!; try done.
  - by rewrite (abs_contents _ _ Ha').
  - destruct (abs_scalars _ _ Ha') as (_ & -> & _). done.
Qed.

Lemma empty_iff_one_segment_drained_witness :
  ∃ s, SPSCApi.reachable s ∧ empty_const s = Ok true.
Proof.
  destruct (init 4096 16 default_constructed) as [s|] eqn:Hinit; [|by vm_compute in Hinit].
  assert (Hreach : SPSCApi.reachable s) by (by eapply SPSCApi.reachable_init).
  exists s. split; [exact Hreach|].
  destruct (empty_iff_one_segment_drained s Hreach) as (e & s' & Hload & Hec & _).
  rewrite Hec. f_equal.
  assert (Hs : is_Ok (init 4096 16 default_constructed)) by (by exists s).
  clear Hec. revert Hload. injection Hinit as <-.
  vm_compute. intros [= <-]. reflexivity.
Defined.

End SPSCInvariants.

(** ** The list-level buffer keeps its sizes *)

Module ListFacts.
Import ListBuffer Consistency.

Lemma wrap_small z : 0 ≤ z < 2 ^ 64 → wrap z = z.
Proof. intros H. unfold wrap. by apply Z.mod_small. Qed.

Lemma wrap_range z : 0 ≤ wrap z < 2 ^ 64.
Proof. unfold wrap. apply Z.mod_pos_bound. lia. Qed.

Lemma len_nonneg {A} (l : list A) : 0 ≤ len l.
Proof. unfold len. lia. Qed.

Lemma len_app {A} (l k : list A) : len (l ++ k) = len l + len k.
Proof. unfold len. rewrite length_app. lia. Qed.

Lemma len_take {A} (l : list A) n : 0 ≤ n → len (take (Z.to_nat n) l) = Z.min n (len l).
Proof. intros Hn. unfold len. rewrite length_take. lia. Qed.

Lemma len_new_block n : 0 ≤ n → len (new_block n) = n.
Proof. intros Hn. unfold len, new_block. rewrite length_replicate. lia. Qed.

Lemma blit_Ok blk off src :
  0 ≤ off → off + len src ≤ len blk →
  ∃ blk', blit blk off src = Ok blk' ∧ len blk' = len blk ∧
          slice blk' off (len src) = Ok src ∧
          take (Z.to_nat off) blk' = take (Z.to_nat off) blk.
Proof.
  intros Hoff Hfit. unfold blit. rewrite bool_decide_eq_true_2 by lia.
  eexists. split; [reflexivity|].
  assert (Hlt : (Z.to_nat off ≤ length blk)%nat).
  { unfold len in Hfit. lia. }
  split_and!.
  - unfold len in *. rewrite !length_app, length_take, length_drop. lia.
  - unfold slice. rewrite bool_decide_eq_true_2.
    + f_equal. rewrite drop_app_length'; [|rewrite length_take; lia].
      unfold len. rewrite Nat2Z.id. by rewrite take_app_length.
    + unfold len in *. rewrite !length_app, length_take, length_drop. lia.
  - rewrite take_app_length'; [done|]. rewrite length_take. lia.
Qed.

Lemma slice_Ok blk off n :
  0 ≤ off → 0 ≤ n → off + n ≤ len blk →
  ∃ bytes, slice blk off n = Ok bytes ∧ len bytes = n.
Proof.
  intros Hoff Hn Hfit. unfold slice. rewrite bool_decide_eq_true_2 by lia.
  eexists. split; [reflexivity|]. unfold len in *.
  rewrite length_take, length_drop. lia.
Qed.


Lemma head_snoc_ne {A} (l : list A) x : l ≠ [] → head (l ++ [x]) = head l.
Proof. by destruct l. Qed.

Lemma publish_ok a :
  lok a →
  ∃ segs seg, buf_ a = segs ++ [seg] ∧
    publish a = Ok (with_buf a (segs ++ [(seg.1, wpos_private_ a)])) ∧
    lok (with_buf a (segs ++ [(seg.1, wpos_private_ a)])).
Proof.
  intros [[Hne Hobl] (Hbs & Hwp & Hbuf & Hfree & Hpres & Hlast & Hhead)].
  destruct (exists_last Hne) as (segs & seg & Heq).
  exists segs, seg. split; [done|]. unfold publish. rewrite Heq.
  unfold unsnoc. rewrite last_snoc, removelast_last. simpl. split; [done|].
  rewrite Heq in *. split; [split|]; simpl.
  - by destruct segs.
  - intros Hx. specialize (Hobl Hx). by rewrite !length_app in *.
  - unfold list_consistent, sizes_ok. simpl. split_and!; try done; try lia.
    + apply Forall_app in Hbuf as [Hb1 Hb2]. apply Forall_app. split; [done|].
      apply Forall_cons in Hb2 as [[Hg _] _]. constructor; [|constructor].
      split; [done|]. simpl. lia.
    + intros seg'. rewrite last_snoc. intros [= <-]. simpl. lia.
    + intros seg' Hh. destruct segs as [|x segs]; simpl in *.
      * injection Hh as <-. simpl. specialize (Hhead seg eq_refl).
        specialize (Hlast seg eq_refl). lia.
      * by apply Hhead.
Qed.

Lemma add_block_ok a :
  lok a →
  ∃ segs seg blk a',
    buf_ a = segs ++ [seg] ∧ add_block a = Ok a' ∧ lok a' ∧
    buf_ a' = segs ++ [(seg.1, wpos_private_ a); (Some blk, 0)] ∧
    len blk = block_size_ a ∧
    ((free_list_ a = [] ∧ blk = new_block (block_size_ a) ∧ free_list_ a' = []) ∨
     (free_list_ a = Some blk :: free_list_ a')) ∧
    wpos_private_ a' = 0 ∧ block_size_ a' = block_size_ a ∧ rpos_ a' = rpos_ a ∧
    preserved_list_ a' = preserved_list_ a ∧ one_block_left_ a' = one_block_left_ a.
Proof.
  intros Hok. destruct (publish_ok a Hok) as (segs & seg & Heq & Hpub & Hok').
  unfold add_block. rewrite Hpub. clear Hpub Hok.
  destruct a as [bs buf fl pl rp wp obl]. simpl in *. subst buf.
  destruct Hok' as [[Hne Hobl] (Hbs & Hwp & Hbuf & Hfree & Hpres & Hlast & Hhead)].
  unfold with_buf, with_wpos_private, with_free_list in *. simpl in *.
  assert (Hgen : ∀ blk fl', len blk = bs → Forall (good_block bs) fl' →
    lok (mkBuffer bs ((segs ++ [(seg.1, wp)]) ++ [(Some blk, 0)]) fl' pl rp 0 obl)).
  { intros blk fl' Hblk Hfl. split; [split|]; simpl.
    - by destruct segs.
    - intros _. rewrite !length_app. simpl. lia.
    - unfold list_consistent, sizes_ok. simpl. split_and!; try done; try lia.
      + apply Forall_app. split; [done|]. constructor; [|constructor].
        split; [by exists blk|simpl; lia].
      + intros seg'. rewrite last_snoc. intros [= <-]. simpl. lia.
      + intros seg' Hh. rewrite head_snoc_ne in Hh by (by destruct segs).
        by apply Hhead. }
  destruct fl as [|fb fl].
  - exists segs, seg, (new_block bs). eexists. split; [done|].
    split; [reflexivity|]. split_and!; simpl; try done.
    + apply Hgen; [apply len_new_block; lia|constructor].
    + by rewrite <- app_assoc.
    + apply len_new_block. lia.
    + by left.
  - apply Forall_cons in Hfree as [(blk & -> & Hblk) Hfree].
    exists segs, seg, blk. eexists. split; [done|].
    split; [reflexivity|]. split_and!; simpl; try done.
    + by apply Hgen.
    + by rewrite <- app_assoc.
    + by right.
Qed.

Lemma add_block_if_full_ok a :
  lok a →
  ∃ a', add_block_if_full a = Ok a' ∧ lok a' ∧
    block_size_ a' = block_size_ a ∧ rpos_ a' = rpos_ a ∧
    (wpos_private_ a' < block_size_ a' ∨ block_size_ a' = 0) ∧
    (length (buf_ a) ≤ length (buf_ a'))%nat.
Proof.
  intros Hok. unfold add_block_if_full. case_bool_decide as Hfull.
  - destruct (add_block_ok a Hok)
      as (segs & seg & blk & a' & Heq & Hab & Hok' & Hbuf & _ & _ & Hwp & Hbs & Hr & _).
    exists a'. split_and!; try done.
    + rewrite Hwp, Hbs. destruct Hok as [_ (Hb & _)]. lia.
    + rewrite Heq, Hbuf, !length_app. simpl. lia.
  - exists a. split_and!; try done.
    destruct Hok as [_ (Hb & Hwp & _)]. lia.
Qed.

(** Copying bytes that fit in the tail block and moving the cursor. *)
Lemma copy_advance_ok a src :
  lok a → wpos_private_ a + len src ≤ block_size_ a →
  ∃ segs blk e blk' a',
    buf_ a = segs ++ [(Some blk, e)] ∧
    copy_to_back src a = Ok a' ∧
    blit blk (wpos_private_ a) src = Ok blk' ∧
    a' = with_buf a (segs ++ [(Some blk', e)]) ∧
    lok (with_wpos_private a' (wrap (wpos_private_ a' + len src))) ∧
    wrap (wpos_private_ a' + len src) = wpos_private_ a + len src ∧
    slice blk' (wpos_private_ a) (len src) = Ok src ∧ len blk = block_size_ a.
Proof.
  intros [[Hne Hobl] (Hbs & Hwp & Hbuf & Hfree & Hpres & Hlast & Hhead)] Hfit.
  destruct (exists_last Hne) as (segs & [b e] & Heq).
  pose proof Hbuf as Hbuf'. rewrite Heq in Hbuf'.
  apply Forall_app in Hbuf' as [Hb1 Hb2].
  apply Forall_cons in Hb2 as [[(blk & Hblk & Hlen) He] _]. simpl in Hblk, He. subst b.
  pose proof (len_nonneg src) as Hsrc.
  destruct (blit_Ok blk (wpos_private_ a) src) as (blk' & Hblit & Hlen' & Hslice & _); [lia|lia|].
  exists segs, blk, e, blk'. eexists. split; [done|].
  unfold copy_to_back, unsnoc. rewrite Heq, last_snoc, removelast_last. simpl.
  rewrite Hblit. simpl. split; [reflexivity|]. split; [done|]. split; [reflexivity|].
  simpl. rewrite wrap_small by lia. split; [|done].
  rewrite Heq in *. split; [split|]; simpl.
  - by destruct segs.
  - intros Hx. specialize (Hobl Hx). by rewrite !length_app in *.
  - unfold list_consistent, sizes_ok. simpl. split_and!; try done; try lia.
    + apply Forall_app. split; [done|]. constructor; [|constructor].
      split; [exists blk'; split; [done|lia]|done].
    + intros seg'. rewrite last_snoc. intros [= <-]. simpl.
      specialize (Hlast (Some blk, e)). rewrite last_snoc in Hlast.
      specialize (Hlast eq_refl). simpl in Hlast. lia.
    + intros seg' Hh. destruct segs as [|x segs]; simpl in *.
      * injection Hh as <-. by apply (Hhead (Some blk, e)).
      * by apply Hhead.
Qed.


Lemma input_finish_ok total a :
  lok a → ∃ a', input_finish total a = Ok (total, a') ∧ lok a'.
Proof.
  intros Hok. unfold input_finish. case_bool_decide; [|by exists a].
  destruct (publish_ok a Hok) as (segs & seg & Heq & Hpub & Hok').
  unfold notify. rewrite Hpub. simpl. by eexists.
Qed.

Lemma transferred_cons x tr : transferred (x :: tr) = Z.max 0 x + transferred tr.
Proof. done. Qed.

Lemma transferred_nonneg tr : 0 ≤ transferred tr.
Proof. induction tr as [|x tr IH]; [done|]. rewrite transferred_cons. lia. Qed.

Lemma errored_cons x tr : errored (x :: tr) ↔ x < 0 ∨ errored tr.
Proof.
  unfold errored. split.
  - intros (y & Hy & Hneg). apply elem_of_cons in Hy as [->|Hy]; [by left|].
    right. by exists y.
  - intros [Hx|(y & Hy & Hneg)]; [exists x|exists y]; split; try done; [left|by right].
Qed.

Lemma errored_nil : ¬ errored [].
Proof. intros (y & Hy & _). by apply elem_of_nil in Hy. Qed.

Lemma fd_result_single_error : fd_result_from 0 (-1) [-1].
Proof.
  split; [|done]. split; [|done]. intros _. split; [|done].
  apply errored_cons. left. lia.
Qed.

Lemma fd_result_stop total x :
  0 ≤ total → x ≤ 0 → (x < 0 → 0 < total) → fd_result_from total total [x].
Proof.
  intros Ht Hx Hpos. unfold fd_result_from. rewrite transferred_cons. simpl.
  replace (Z.max 0 x) with 0 by lia. split; [|intros _; change (transferred []) with 0; lia].
  change (transferred []) with 0.
  split; [lia|]. intros [He Hz]. apply errored_cons in He as [He|He]; [lia|].
  by apply errored_nil in He.
Qed.

Lemma fd_result_last total x :
  0 ≤ total → 0 < x → fd_result_from total (total + x) [x].
Proof.
  intros Ht Hx. unfold fd_result_from. rewrite transferred_cons.
  change (transferred []) with 0. split; [|lia]. split; [lia|]. lia.
Qed.

Lemma fd_result_step total x r tr :
  0 ≤ total → 0 < x → fd_result_from (total + x) r tr → fd_result_from total r (x :: tr).
Proof.
  intros Ht Hx [Hiff Hne]. pose proof (transferred_nonneg tr) as Hnn.
  unfold fd_result_from. rewrite transferred_cons. split.
  - split; [|lia]. intros Hr. apply Hiff in Hr as [_ Hr]. lia.
  - intros Hr. rewrite (Hne Hr). lia.
Qed.

Lemma input_loop_ok script cont max_len total a :
  lok a → 0 ≤ total → read_script_ends script →
  ∃ r a' tr, input_loop script cont max_len total a = Ok (r, a', tr) ∧ lok a' ∧
             fd_result_from total r tr.
Proof.
  revert total a; induction script as [|ans script IH]; intros total a Hok Ht Hends.
  { destruct Hends as [H|H]; by apply elem_of_nil in H. }
  simpl. destruct (add_block_if_full_ok a Hok) as (a1 & Hab & Hok1 & Hbs1 & Hr1 & Hwp1 & _).
  rewrite Hab. simpl.
  pose proof Hok1 as [_ (Hbs & Hwp & _)].
  set (room := wrap (block_size_ a1 - wpos_private_ a1)).
  assert (Hroom : room = block_size_ a1 - wpos_private_ a1) by (apply wrap_small; lia).
  set (count := if bool_decide (max_len = -1) then room
                else Z.min (wrap (max_len - total)) room).
  assert (Hcount : 0 ≤ count ≤ room).
  { unfold count. pose proof (wrap_range (max_len - total)). case_bool_decide; lia. }
  destruct ans as [|data].
  - case_bool_decide as Hz.
    + subst total. eexists _, _, _. split; [reflexivity|]. split; [done|].
      apply fd_result_single_error.
    + destruct (input_finish_ok total a1 Hok1) as (a2 & Hfin & Hok2).
      rewrite Hfin. simpl. eexists _, _, _. split; [reflexivity|]. split; [done|].
      apply fd_result_stop; lia.
  - set (got := stored count data).
    assert (Hgot : len got = Z.min count (len data)).
    { unfold got, stored. apply len_take. lia. }
    case_bool_decide as Hz.
    + destruct (input_finish_ok total a1 Hok1) as (a2 & Hfin & Hok2).
      rewrite Hfin. simpl. eexists _, _, _. split; [reflexivity|]. split; [done|].
      apply fd_result_stop; lia.
    + pose proof (len_nonneg got) as Hgn.
      destruct (copy_advance_ok a1 got Hok1) as (segs & blk & e & blk' & a2 & Heq & Hcopy & _ & _ & Hok3 & Hw3 & _);
        [lia|].
      rewrite Hcopy. simpl. destruct cont.
      * destruct (input_finish_ok (total + len got) _ Hok3) as (a4 & Hfin & Hok4).
        rewrite Hfin. simpl. eexists _, _, _. split; [reflexivity|]. split; [done|].
        apply fd_result_last; lia.
      * assert (Hends' : read_script_ends script).
        { destruct Hends as [H|H]; apply elem_of_cons in H as [H|H]; try done.
          - by left.
          - exfalso. injection H as <-. change (len []) with 0 in Hgot. lia.
          - by right. }
        destruct (IH (total + len got) _ Hok3 ltac:(lia) Hends') as (r & a4 & tr & Hloop & Hok4 & Hres).
        rewrite Hloop. simpl. eexists _, _, _. split; [reflexivity|]. split; [done|].
        apply fd_result_step; [lia|lia|done].
Qed.


Lemma pop_block_if_needed_ok size a :
  lok a →
  ∃ a', pop_block_if_needed size a = Ok a' ∧ lok a' ∧
    block_size_ a' = block_size_ a ∧ wpos_private_ a' = wpos_private_ a ∧
    free_list_ a' = free_list_ a ∧
    ((a' = a) ∨
     (∃ seg rest, buf_ a = seg :: rest ∧ rest ≠ [] ∧ wrap (seg.2 - rpos_ a) < size ∧
        buf_ a' = rest ∧ preserved_list_ a' = preserved_list_ a ++ [seg] ∧
        rpos_ a' = 0)).
Proof.
  intros Hok. pose proof Hok as [[Hne Hobl] (Hbs & Hwp & Hbuf & Hfree & Hpres & Hlast & Hhead)].
  destruct a as [bs buf fl pl rp wp obl]. simpl in *.
  destruct buf as [|seg rest]; [done|].
  assert (Hpop : rest ≠ [] → wrap (seg.2 - rp) < size →
    ∃ a', pop_block (mkBuffer bs (seg :: rest) fl pl rp wp obl) = Ok a' ∧ lok a' ∧
      block_size_ a' = bs ∧ wpos_private_ a' = wp ∧ free_list_ a' = fl ∧
      (a' = mkBuffer bs (seg :: rest) fl pl rp wp obl ∨
       ∃ seg' rest', seg :: rest = seg' :: rest' ∧ rest' ≠ [] ∧
         wrap (seg'.2 - rp) < size ∧ buf_ a' = rest' ∧
         preserved_list_ a' = pl ++ [seg'] ∧ rpos_ a' = 0)).
  { intros Hrest Hlt. destruct rest as [|seg2 rest]; [done|].
    unfold pop_block, check_one_block_left. simpl.
    eexists. split; [reflexivity|]. split_and!; try done.
    - split; [split|]; simpl; [done| |].
      + intros Hx. apply bool_decide_eq_false in Hx. destruct rest; simpl in *; [done|lia].
      + apply Forall_cons in Hbuf as [Hseg Hbuf].
        unfold list_consistent, sizes_ok. simpl. split_and!; try done; try lia.
        * apply Forall_app. split; [done|]. by constructor.
        * intros s' [= <-]. apply Forall_cons in Hbuf as [[_ He] _]. lia.
    - right. exists seg, (seg2 :: rest). by split_and!. }
  unfold pop_block_if_needed, check_one_block_left, front_end. simpl.
  destruct obl.
  - destruct rest as [|seg2 rest]; simpl.
    + eexists. split; [reflexivity|]. split_and!; try done. by left.
    + case_bool_decide as Hlt.
      * by apply Hpop.
      * eexists. split; [reflexivity|]. split_and!; try done. by left.
  - specialize (Hobl eq_refl). simpl in Hobl.
    case_bool_decide as Hlt.
    + apply Hpop; [|done]. destruct rest; [simpl in Hobl; lia|done].
    + eexists. split; [reflexivity|]. split_and!; try done. by left.
Qed.

Lemma clear_loop_ok fuel n c a :
  lok a → (length (preserved_list_ a) ≤ fuel)%nat →
  ∃ a', clear_loop fuel n c a = Ok a' ∧ lok a' ∧
    buf_ a' = buf_ a ∧ block_size_ a' = block_size_ a ∧ rpos_ a' = rpos_ a ∧
    wpos_private_ a' = wpos_private_ a ∧ one_block_left_ a' = one_block_left_ a.
Proof.
  revert c a; induction fuel as [|fuel IH]; intros c a Hok Hlen.
  - simpl. unfold clear_step. destruct (preserved_list_ a); [|simpl in Hlen; lia].
    simpl. by exists a.
  - pose proof Hok as [[Hne Hobl] (Hbs & Hwp & Hbuf & Hfree & Hpres & Hlast & Hhead)].
    destruct a as [bs buf fl pl rp wp obl]. simpl in *.
    unfold clear_step. simpl. destruct pl as [|seg pl]; simpl; [by eexists|].
    case_bool_decide; simpl; [|by eexists].
    apply Forall_cons in Hpres as [[Hblk He] Hpres].
    edestruct (IH (wrap (c + seg.2)) (mkBuffer bs buf (fl ++ [seg.1]) pl rp wp obl))
      as (a' & Hloop & Hok' & Hrest).
    + split; [done|]. unfold list_consistent, sizes_ok. simpl. split_and!; try done; try lia.
      apply Forall_app. split; [done|]. by constructor.
    + simpl in *. lia.
    + exists a'. destruct Hrest as (? & ? & ? & ? & ?).
      split_and!; [exact Hloop|done..].
Qed.

Lemma clear_preserved_ok n a :
  lok a →
  ∃ a', clear_preserved n a = Ok a' ∧ lok a' ∧
    buf_ a' = buf_ a ∧ block_size_ a' = block_size_ a ∧ rpos_ a' = rpos_ a ∧
    wpos_private_ a' = wpos_private_ a ∧ one_block_left_ a' = one_block_left_ a.
Proof. intros Hok. by apply clear_loop_ok. Qed.

Lemma lok_advance_rpos a seg rest n :
  lok a → buf_ a = seg :: rest → 0 ≤ n → rpos_ a + n ≤ seg.2 →
  lok (with_rpos a (wrap (rpos_ a + n))).
Proof.
  intros [[Hne Hobl] (Hbs & Hwp & Hbuf & Hfree & Hpres & Hlast & Hhead)] Heq Hn Hle.
  specialize (Hhead seg). rewrite Heq in Hhead. specialize (Hhead eq_refl).
  assert (He : 0 ≤ seg.2 ≤ block_size_ a).
  { rewrite Heq in Hbuf. by apply Forall_cons in Hbuf as [[_ ?] _]. }
  rewrite wrap_small by lia.
  split; [done|]. unfold list_consistent, sizes_ok. simpl.
  split_and!; try done; try lia.
  rewrite Heq. intros s' [= <-]. lia.
Qed.

Lemma output_loop_ok script total a :
  lok a → 0 ≤ total → write_script_ends script →
  ∃ r out a' tr, output_loop script total a = Ok (r, out, a', tr) ∧ lok a' ∧
                 fd_result_from total r tr ∧ len out = transferred tr.
Proof.
  revert total a; induction script as [|ans script IH]; intros total a Hok Ht Hends.
  { destruct Hends as [H|H]; by apply elem_of_nil in H. }
  simpl. destruct (pop_block_if_needed_ok 1 a Hok) as (a1 & Hpop & Hok1 & _).
  rewrite Hpop. simpl.
  pose proof Hok1 as [[Hne Hobl] (Hbs & Hwp & Hbuf & Hfree & Hpres & Hlast & Hhead)].
  destruct (buf_ a1) as [|seg rest] eqn:Hbuf1; [done|].
  unfold front_end. rewrite Hbuf1. simpl.
  specialize (Hhead seg eq_refl).
  pose proof Hbuf as Hbuf'. apply Forall_cons in Hbuf' as [[(blk & Hblk & Hlen) He] _].
  assert (Hcount : wrap (seg.2 - rpos_ a1) = seg.2 - rpos_ a1) by (apply wrap_small; lia).
  rewrite Hcount.
  destruct ans as [|room].
  - case_bool_decide as Hz.
    + subst total. eexists _, _, _, _. split; [reflexivity|]. split; [done|].
      split; [apply fd_result_single_error|done].
    + destruct (clear_preserved_ok (wrap total) a1 Hok1) as (a2 & Hclr & Hok2 & _).
      rewrite Hclr. simpl. eexists _, _, _, _. split; [reflexivity|]. split; [done|].
      split; [apply fd_result_stop; lia|done].
  - set (n := taken (seg.2 - rpos_ a1) room).
    assert (Hn : 0 ≤ n ≤ seg.2 - rpos_ a1) by (unfold n, taken; lia).
    case_bool_decide as Hz.
    + destruct (clear_preserved_ok (wrap total) a1 Hok1) as (a2 & Hclr & Hok2 & _).
      rewrite Hclr. simpl. eexists _, _, _, _. split; [reflexivity|]. split; [done|].
      split; [apply fd_result_stop; lia|done].
    + unfold peek. rewrite Hbuf1. simpl. rewrite Hblk.
      destruct (slice_Ok blk (rpos_ a1) n) as (bytes & Hslice & Hbytes); [lia|lia|lia|].
      rewrite Hslice. simpl.
      assert (Hends' : write_script_ends script).
      { destruct Hends as [H|H]; apply elem_of_cons in H as [H|H]; try done.
        - by left.
        - exfalso. injection H as <-. unfold n, taken in Hz. lia.
        - by right. }
      assert (Hok2 : lok (with_rpos a1 (wrap (rpos_ a1 + n)))).
      { eapply lok_advance_rpos; [done|exact Hbuf1|lia|lia]. }
      destruct (IH (total + n) _ Hok2 ltac:(lia) Hends') as (r & out & a3 & tr & Hloop & Hok3 & Hres & Hout).
      rewrite Hloop. simpl. eexists _, _, _, _. split; [reflexivity|]. split; [done|].
      split; [apply fd_result_step; [lia|lia|done]|].
      rewrite len_app, transferred_cons, Hout, Hbytes. lia.
Qed.


Lemma write_cont_ok a src (do_notify : bool) :
  lok a → 0 < len src ≤ block_size_ a →
  ∃ a' segs tail blk blk',
    buf_ a = segs ++ [tail] ∧ write_cont src do_notify a = Ok a' ∧ lok a' ∧
    let fits := bool_decide (len src ≤ block_size_ a - wpos_private_ a) in
    let start := if fits then wpos_private_ a else 0 in
    buf_ a' = (if fits then segs else segs ++ [(tail.1, wpos_private_ a)]) ++
              [(Some blk', if do_notify then start + len src
                           else if fits then tail.2 else 0)] ∧
    (if fits then tail.1 = Some blk
     else (free_list_ a = [] ∧ blk = new_block (block_size_ a)) ∨
          (∃ fl', free_list_ a = Some blk :: fl')) ∧
    blit blk start src = Ok blk' ∧
    slice blk' start (len src) = Ok src ∧
    wpos_private_ a' = start + len src ∧ start + len src ≤ block_size_ a ∧
    block_size_ a' = block_size_ a.
Proof.
  intros Hok Hsrc.
  pose proof Hok as [_ (Hbs & Hwp & _)].
  unfold write_cont. destruct src as [|b0 src0] eqn:Hs; [unfold len in Hsrc; simpl in Hsrc; lia|].
  rewrite <- Hs in *. clear Hs b0 src0.
  rewrite (wrap_small (len src)) by lia.
  unfold add_block_if_needed. rewrite (wrap_small (block_size_ a - wpos_private_ a)) by lia.
  case_bool_decide as Hgt.
  - (* a fresh segment *)
    rewrite bool_decide_eq_false_2 by lia.
    destruct (add_block_ok a Hok)
      as (segs & tail & blk & a1 & Heq & Hab & Hok1 & Hbuf1 & Hlen & Hfl & Hwp1 & Hbs1 & Hr1 & _).
    rewrite Hab. simpl.
    destruct (copy_advance_ok a1 src Hok1) as (segs2 & blk2 & e2 & blk' & a2 & Heq2 & Hcopy & Hblit & Ha2 & Hok3 & Hw3 & Hslice & _);
      [lia|].
    rewrite Hbuf1 in Heq2.
    change [(tail.1, wpos_private_ a); (Some blk, 0)]
      with ([(tail.1, wpos_private_ a)] ++ [(Some blk, 0)]) in Heq2.
    rewrite app_assoc in Heq2. apply app_inj_tail in Heq2 as [<- [= <- <-]].
    rewrite Hcopy. simpl. rewrite Hwp1 in Hblit, Hw3, Hslice.
    assert (Hfl' : (free_list_ a = [] ∧ blk = new_block (block_size_ a)) ∨
                   (∃ fl', free_list_ a = Some blk :: fl')).
    { destruct Hfl as [(? & ? & ?)|?]; [by left|right; by eexists]. }
    destruct do_notify.
    + destruct (publish_ok _ Hok3) as (segs3 & seg3 & Heq3 & Hpub & Hok4).
      unfold notify. rewrite Hpub. subst a2. simpl in *.
      apply app_inj_tail in Heq3 as [<- <-]. simpl.
      eexists _, segs, tail, blk, blk'. split; [done|]. split; [reflexivity|].
      split; [done|]. simpl. rewrite Hw3. split_and!; try done; try lia.
    + subst a2. simpl in *.
      eexists _, segs, tail, blk, blk'. split; [done|]. split; [reflexivity|].
      split; [done|]. simpl. rewrite Hw3. split_and!; try done; try lia.
  - (* the tail has room *)
    rewrite bool_decide_eq_true_2 by lia. simpl.
    destruct (copy_advance_ok a src Hok) as (segs & blk & e & blk' & a2 & Heq & Hcopy & Hblit & Ha2 & Hok3 & Hw3 & Hslice & _);
      [lia|].
    rewrite Hcopy. simpl.
    destruct do_notify.
    + destruct (publish_ok _ Hok3) as (segs3 & seg3 & Heq3 & Hpub & Hok4).
      unfold notify. rewrite Hpub. subst a2. simpl in *.
      apply app_inj_tail in Heq3 as [<- <-]. simpl.
      eexists _, segs, (Some blk, e), blk, blk'. split; [done|]. split; [reflexivity|].
      split; [done|]. simpl. rewrite Hw3. split_and!; try done; try lia.
    + subst a2. simpl in *.
      eexists _, segs, (Some blk, e), blk, blk'. split; [done|]. split; [reflexivity|].
      split; [done|]. simpl. rewrite Hw3. split_and!; try done; try lia.
Qed.

Lemma pop_block_if_needed_cases n a seg rest :
  lok a → ListBuffer.buf_ a = seg :: rest →
  ListBuffer.pop_block_if_needed n a =
    if bool_decide (rest ≠ [] ∧ seg.2 - ListBuffer.rpos_ a < n)
    then Ok (ListBuffer.with_one_block_left
               (ListBuffer.with_rpos
                  (ListBuffer.with_preserved_list (ListBuffer.with_buf a rest)
                     (ListBuffer.preserved_list_ a ++ [seg])) 0)
               (bool_decide (length rest = 1%nat)))
    else Ok a.
Proof.
  intros ((_ & Hobl) & (Hbs & _ & Hgood & _ & _ & _ & Hhead)) Hbuf.
  rewrite Hbuf in *. specialize (Hhead seg eq_refl).
  apply Forall_cons in Hgood as ((_ & Hrg) & _).
  unfold ListBuffer.pop_block_if_needed, ListBuffer.check_one_block_left,
    ListBuffer.front_end, ListBuffer.pop_block. rewrite Hbuf. simpl.
  rewrite (wrap_small (seg.2 - _)) by lia.
  destruct rest as [|s2 rest].
  - rewrite (bool_decide_eq_false_2 (_ ∧ _)) by (by intros [? _]).
    destruct (ListBuffer.one_block_left_ a) eqn:Ho; [done|].
    specialize (Hobl eq_refl). simpl in Hobl. lia.
  - rewrite (bool_decide_ext (s2 :: rest ≠ [] ∧ seg.2 - ListBuffer.rpos_ a < n)
               (seg.2 - ListBuffer.rpos_ a < n)) by (split; [tauto|done]).
    simpl.
    by destruct (ListBuffer.one_block_left_ a),
         (bool_decide (seg.2 - ListBuffer.rpos_ a < n)).
Qed.

(** The values the system calls of the descriptor loops return. *)

Lemma add_block_if_full_exact a :
  lok a →
  ∃ a1, add_block_if_full a = Ok a1 ∧ lok a1 ∧ block_size_ a1 = block_size_ a ∧
        wpos_private_ a1 =
          (if bool_decide (wpos_private_ a = block_size_ a) then 0 else wpos_private_ a).
Proof.
  intros Hok. unfold add_block_if_full. case_bool_decide as Hfull.
  - destruct (add_block_ok a Hok)
      as (segs & seg & blk & a1 & _ & Hadd & Hok1 & _ & _ & _ & Hwp1 & Hbs1 & _).
    by exists a1.
  - by exists a.
Qed.

Lemma input_loop_trace script cont max_len total a r a' tr :
  lok a → 0 ≤ total →
  input_loop script cont max_len total a = Ok (r, a', tr) →
  tr = Descriptor.read_trace (block_size_ a) cont max_len (wpos_private_ a) total script.
Proof.
  revert total a r a' tr; induction script as [|ans script IH];
    intros total a r a' tr Hok Ht Hrun.
  { simpl in Hrun. destruct (add_block_if_full a); done. }
  simpl in Hrun.
  destruct (add_block_if_full_exact a Hok) as (a1 & Hab & Hok1 & Hbs1 & Hwp1).
  rewrite Hab in Hrun. simpl in Hrun.
  pose proof Hok1 as [_ (Hbs & Hwp & _)].
  destruct ans as [|data].
  - simpl. destruct (bool_decide (total = 0)).
    + by injection Hrun as _ _ <-.
    + destruct (input_finish_ok total a1 Hok1) as (a2 & Hfin & _).
      rewrite Hfin in Hrun. simpl in Hrun. by injection Hrun as _ _ <-.
  - simpl. rewrite <- Hwp1, <- Hbs1. clear Hwp1.
    set (room := wrap (block_size_ a1 - wpos_private_ a1)) in *.
    assert (Hroom : room = block_size_ a1 - wpos_private_ a1) by (apply wrap_small; lia).
    set (count := if bool_decide (max_len = -1) then room
                  else Z.min (wrap (max_len - total)) room) in *.
    assert (Hcount : 0 ≤ count ≤ room).
    { unfold count. pose proof (wrap_range (max_len - total)).
      destruct (bool_decide (max_len = -1)); lia. }
    set (got := stored count data) in *.
    assert (Hgot : len got = Z.min count (len data)).
    { unfold got, stored. apply len_take. lia. }
    destruct (bool_decide (len got = 0)) eqn:Hz.
    + destruct (input_finish_ok total a1 Hok1) as (a2 & Hfin & _).
      rewrite Hfin in Hrun. simpl in Hrun. by injection Hrun as _ _ <-.
    + apply bool_decide_eq_false in Hz. pose proof (len_nonneg got) as Hgn.
      destruct (copy_advance_ok a1 got Hok1)
        as (segs & blk & e & blk' & a2 & Heq & Hcopy & _ & Ha2 & Hok3 & Hw3 & _); [lia|].
      rewrite Hcopy in Hrun. simpl in Hrun. destruct cont.
      * destruct (input_finish_ok (total + len got) _ Hok3) as (a4 & Hfin & _).
        rewrite Hfin in Hrun. simpl in Hrun. by injection Hrun as _ _ <-.
      * apply bind_Ok in Hrun as ([[r1 a4] tr1] & Hloop & Hrun).
        injection Hrun as _ _ <-. f_equal.
        rewrite (IH (total + len got) _ _ _ _ Hok3 ltac:(lia) Hloop).
        simpl. rewrite Hw3. subst a2. simpl. done.
Qed.

Lemma output_loop_trace script total a r out a' tr :
  lok a → 0 ≤ total →
  output_loop script total a = Ok (r, out, a', tr) →
  tr = Descriptor.write_trace (snd <$> buf_ a) (rpos_ a) script.
Proof.
  revert total a r out a' tr; induction script as [|ans script IH];
    intros total a r out a' tr Hok Ht Hrun.
  { simpl in Hrun. destruct (pop_block_if_needed 1 a) as [a1|]; [|done].
    simpl in Hrun. destruct (front_end a1); done. }
  simpl in Hrun.
  destruct (pop_block_if_needed_ok 1 a Hok) as (a1 & Hpop & Hok1 & _).
  rewrite Hpop in Hrun. simpl in Hrun.
  assert (Hhead : Descriptor.write_head (snd <$> buf_ a) (rpos_ a) =
                  (snd <$> buf_ a1, rpos_ a1)).
  { pose proof Hok as ((Hne & _) & _).
    destruct (buf_ a) as [|seg rest] eqn:Hbuf; [done|].
    rewrite (pop_block_if_needed_cases 1 a seg rest Hok Hbuf) in Hpop.
    unfold Descriptor.write_head. rewrite !fmap_cons.
    destruct rest as [|s2 rest].
    - rewrite bool_decide_eq_false_2 in Hpop by (by intros [? _]).
      injection Hpop as <-. by rewrite Hbuf.
    - rewrite fmap_cons.
      rewrite (bool_decide_ext (s2 :: rest ≠ [] ∧ seg.2 - rpos_ a < 1)
                 (seg.2 - rpos_ a < 1)) in Hpop by (split; [tauto|done]).
      case_bool_decide.
      + injection Hpop as <-. done.
      + injection Hpop as <-. by rewrite Hbuf. }
  pose proof Hok1 as [[Hne Hobl] (Hbs & Hwp & Hbuf & Hfree & Hpres & Hlast & Hhd)].
  destruct (buf_ a1) as [|seg rest] eqn:Hbuf1; [done|].
  unfold front_end in Hrun. rewrite Hbuf1 in Hrun. simpl in Hrun.
  specialize (Hhd seg eq_refl).
  pose proof Hbuf as Hbuf'. apply Forall_cons in Hbuf' as [[(blk & Hblk & Hlen) He] _].
  rewrite (wrap_small (seg.2 - rpos_ a1)) in Hrun by lia.
  destruct ans as [|room].
  - simpl. destruct (bool_decide (total = 0)).
    + by injection Hrun as _ _ _ <-.
    + destruct (clear_preserved_ok (wrap total) a1 Hok1) as (a2 & Hclr & _).
      rewrite Hclr in Hrun. simpl in Hrun. by injection Hrun as _ _ _ <-.
  - cbn [Descriptor.write_trace]. rewrite Hhead. rewrite fmap_cons. cbn [head default].
    change (id seg.2) with seg.2.
    set (n := taken (seg.2 - rpos_ a1) room) in *.
    assert (Hn : 0 ≤ n ≤ seg.2 - rpos_ a1) by (unfold n, taken; lia).
    destruct (bool_decide (n = 0)) eqn:Hz.
    + destruct (clear_preserved_ok (wrap total) a1 Hok1) as (a2 & Hclr & _).
      rewrite Hclr in Hrun. simpl in Hrun. by injection Hrun as _ _ _ <-.
    + apply bool_decide_eq_false in Hz. unfold peek in Hrun. rewrite Hbuf1 in Hrun. simpl in Hrun. rewrite Hblk in Hrun.
      destruct (slice_Ok blk (rpos_ a1) n) as (bytes & Hslice & _); [lia|lia|lia|].
      rewrite Hslice in Hrun. simpl in Hrun.
      assert (Hok2 : lok (with_rpos a1 (wrap (rpos_ a1 + n)))).
      { eapply lok_advance_rpos; [done|exact Hbuf1|lia|lia]. }
      apply bind_Ok in Hrun as ([[[r1 out1] a3] tr1] & Hloop & Hrun).
      injection Hrun as _ _ _ <-. f_equal.
      rewrite (IH (total + n) _ _ _ _ _ Hok2 ltac:(lia) Hloop). simpl.
      rewrite Hbuf1, fmap_cons. rewrite (wrap_small (rpos_ a1 + n)); [done|].
      pose proof Hok1 as (_ & (? & _)). lia.
Qed.

End ListFacts.

(** ** Descriptor calls and contiguous writes (claims C4, C5) *)

Module SPSCCalls.
Import SPSCQueue SPSCQueueFacts.
Import SPSCBlockBuffer SPSCAbs SPSCFacts SPSCInvariants Consistency ListFacts.

Lemma abs_free_contents s a : abs s a → contents (free_list_ s) = ListBuffer.free_list_ a.
Proof.
  intros (es & (fl & pl & _ & _ & (d & fd & fs & Hr) & Hfl & _) & _).
  by rewrite (contents_repr _ _ _ _ _ Hr).
Qed.

Lemma abs_preserved_contents s a :
  abs s a → contents (preserved_list_ s) = ListBuffer.preserved_list_ a.
Proof.
  intros (es & (fl & pl & _ & _ & _ & _ & (d & fd & fs & Hr) & Hpl & _) & _).
  by rewrite (contents_repr _ _ _ _ _ Hr).
Qed.

Lemma abs_consistent s a : abs s a → (consistent s ↔ list_consistent a).
Proof.
  intros Ha. unfold consistent, list_consistent.
  rewrite (abs_contents _ _ Ha), (abs_free_contents _ _ Ha), (abs_preserved_contents _ _ Ha).
  destruct (abs_scalars _ _ Ha) as (-> & -> & -> & _). done.
Qed.

Lemma abs_lok s a : abs s a → consistent s → lok a.
Proof.
  intros Ha Hc. split; [split|].
  - by eapply abs_nonempty.
  - by eapply abs_obl_length.
  - by apply (abs_consistent _ _ Ha).
Qed.

Lemma simR_Ok_inv_r {A B} (R : A → B → Prop) m m' y :
  simR R m m' → m' = Ok y → ∃ x, m = Ok x ∧ R x y.
Proof. intros Hs ->. destruct m; simpl in Hs; [by eexists|done]. Qed.

Lemma fd_result_from_0 r tr : fd_result_from 0 r tr → fd_result r tr.
Proof. unfold fd_result_from, fd_result. by rewrite Z.add_0_l. Qed.

Lemma fd_result_first_error r : fd_result r [-1] → r = -1.
Proof.
  intros [Hiff _]. apply Hiff. split; [|done]. exists (-1). split; [left|lia].
Qed.

Lemma fd_result_first_nothing r : fd_result r [0] → r = 0.
Proof.
  intros [Hiff Hne]. destruct (decide (r = -1)) as [Hr|Hr]; [|by apply Hne].
  apply Hiff in Hr as [(x & Hx & Hneg) _].
  apply list_elem_of_singleton in Hx. lia.
Qed.

(** C4.  On a reachable, well-sized buffer and a script on which the loop
    ends, [input_from_fd] and [output_to_fd] return.  The system calls they
    make are answered by the script, from its first answer on, and return
    the values [read_trace] and [write_trace] list; the value of the call
    is -1 iff a system call failed with no byte moved in this call, and
    otherwise the number of bytes moved (an error after a partial transfer
    included).  So it is -1 when the first system call fails, and 0 when
    the first [::read] meets the end of the file or the first [::write]
    takes nothing. *)
Theorem fd_calls_return_minus_one_iff s :
  SPSCApi.reachable s → consistent s →
  (∀ script cont max_len, read_script_ends script →
     ∃ r s' tr, input_from_fd script cont max_len s = Ok (r, s', tr) ∧
                tr = Descriptor.read_trace (block_size_ s) cont max_len
                       (wpos_private_ s) 0 script ∧
                fd_result r tr ∧ consistent s' ∧
                (head script = Some ReadErr → r = -1) ∧
                (head script = Some (ReadData []) → r = 0)) ∧
  (∀ script, write_script_ends script →
     ∃ r out s' tr, output_to_fd script s = Ok (r, out, s', tr) ∧
                    tr = Descriptor.write_trace (snd <$> contents (buf_ s)) (rpos_ s) script ∧
                    fd_result r tr ∧ len out = transferred tr ∧ consistent s' ∧
                    (head script = Some WriteErr → r = -1) ∧
                    (head script = Some (WriteRoom 0) → r = 0)).
Proof.
  intros Hreach Hc. destruct (reachable_abs s Hreach) as (a & Ha).
  pose proof (abs_lok _ _ Ha Hc) as Hok.
  destruct (abs_scalars _ _ Ha) as (Hbs & Hrp & Hwp & _).
  rewrite (abs_contents _ _ Ha), Hbs, Hrp, Hwp. split.
  - intros script cont max_len Hends.
    destruct (input_loop_ok script cont max_len 0 a Hok ltac:(lia) Hends)
      as (r & a' & tr & Hloop & Hok' & Hres).
    pose proof (input_loop_trace _ _ _ _ _ _ _ _ Hok (Z.le_refl 0) Hloop) as Htr.
    pose proof (input_loop_sim script cont max_len 0 s a Ha) as Hsim.
    destruct (simR_Ok_inv_r _ _ _ _ Hsim Hloop) as ([[r' s'] tr'] & Hrun & Hr & Ha' & Htr').
    simpl in Hr, Ha', Htr'. subst r' tr'.
    apply fd_result_from_0 in Hres.
    exists r, s', tr. split; [done|]. split; [done|].
    split; [done|]. split; [apply (abs_consistent _ _ Ha'), Hok'|].
    split.
    + intros Hhd. destruct script as [|ans rest]; [done|]. injection Hhd as ->.
      simpl in Htr. rewrite Htr in Hres. by apply fd_result_first_error.
    + intros Hhd. destruct script as [|ans rest]; [done|]. injection Hhd as ->.
      cbn [Descriptor.read_trace] in Htr. unfold stored in Htr.
      rewrite take_nil in Htr. change (len (@nil byte)) with 0 in Htr.
      rewrite bool_decide_eq_true_2 in Htr by done.
      rewrite Htr in Hres. by apply fd_result_first_nothing.
  - intros script Hends.
    destruct (output_loop_ok script 0 a Hok ltac:(lia) Hends)
      as (r & out & a' & tr & Hloop & Hok' & Hres & Hout).
    pose proof (output_loop_trace _ _ _ _ _ _ _ Hok (Z.le_refl 0) Hloop) as Htr.
    pose proof (output_loop_sim script 0 s a Ha) as Hsim.
    destruct (simR_Ok_inv_r _ _ _ _ Hsim Hloop)
      as ([[[r' out'] s'] tr'] & Hrun & Hr & Ho & Ha' & Htr').
    simpl in Hr, Ho, Ha', Htr'. subst r' out' tr'.
    apply fd_result_from_0 in Hres.
    exists r, out, s', tr. split; [done|]. split; [done|].
    split; [done|]. split; [done|]. split; [apply (abs_consistent _ _ Ha'), Hok'|].
    split.
    + intros Hhd. destruct script as [|ans rest]; [done|]. injection Hhd as ->.
      simpl in Htr. rewrite Htr in Hres. by apply fd_result_first_error.
    + intros Hhd. destruct script as [|ans rest]; [done|]. injection Hhd as ->.
      cbn [Descriptor.write_trace] in Htr.
      destruct (Descriptor.write_head _ _) as [ends1 rpos1].
      assert (Hn : taken (default 0 (head ends1) - rpos1) 0 = 0) by (unfold taken; lia).
      rewrite Hn in Htr. simpl in Htr. rewrite Htr in Hres.
      by apply fd_result_first_nothing.
Qed.


Lemma sizes_ok_fresh bs :
  0 ≤ bs < 2 ^ 64 → sizes_ok bs 0 0 [(Some (new_block bs), 0)] [] [].
Proof.
  intros Hbs. unfold sizes_ok. split_and!; try done; try lia.
  - constructor; [|constructor]. split; [|simpl; lia].
    exists (new_block bs). split; [done|]. apply len_new_block. lia.
  - intros seg [= <-]. simpl. lia.
  - intros seg [= <-]. simpl. lia.
Qed.

(** A buffer made by [init] with a block size in range is well-sized. *)
Lemma init_consistent pagesize block_size s :
  block_size ≠ -1 → 0 ≤ block_size < 2 ^ 64 →
  init pagesize block_size default_constructed = Ok s → consistent s.
Proof.
  intros Hne Hbs Hinit.
  pose proof (init_sim pagesize block_size _ _ _ abs0_default) as Hsim.
  destruct (simR_Ok_inv _ _ _ _ Hsim Hinit) as (a & Ha & Habs).
  apply (abs_consistent _ _ Habs). unfold ListBuffer.init in Ha. injection Ha as <-.
  unfold list_consistent. simpl.
  rewrite bool_decide_eq_false_2 by done. rewrite wrap_small by done.
  by apply sizes_ok_fresh.
Qed.

Lemma fresh_well_sized :
  SPSCApi.reachable Scenario.fresh ∧ consistent Scenario.fresh.
Proof.
  assert (Hinit : init 4096 16 default_constructed = Ok Scenario.fresh) by (by vm_compute).
  split; [by eapply SPSCApi.reachable_init|].
  eapply (init_consistent 4096 16); [done|lia|exact Hinit].
Qed.

Lemma fd_calls_return_witness :
  SPSCApi.reachable Scenario.fresh ∧ consistent Scenario.fresh ∧
  (∃ s', input_from_fd [ReadData [x01; x02]; ReadErr] false (-1) Scenario.fresh
         = Ok (2, s', [2; -1])) ∧
  (∃ s', input_from_fd [ReadErr] false (-1) Scenario.fresh = Ok (-1, s', [-1])) ∧
  (∃ out s', output_to_fd [WriteErr] Scenario.fresh = Ok (-1, out, s', [-1])).
Proof.
  destruct fresh_well_sized as [Hreach Hc].
  split; [exact Hreach|]. split; [exact Hc|].
  destruct (fd_calls_return_minus_one_iff Scenario.fresh Hreach Hc) as [Hin Hout].
  split_and!.
  - destruct (Hin [ReadData [x01; x02]; ReadErr] false (-1))
      as (r & s' & tr & Hrun & Htr & (Hiff & Hne) & _).
    { left. right. left. }
    vm_compute in Htr. subst tr. exists s'. rewrite Hrun. do 3 f_equal.
    apply Hne. intros Hr. apply Hiff in Hr as [_ Hr]. by vm_compute in Hr.
  - destruct (Hin [ReadErr] false (-1)) as (r & s' & tr & Hrun & Htr & _ & _ & Hr & _).
    { left. left. }
    vm_compute in Htr. subst tr. exists s'. rewrite Hrun. by rewrite (Hr eq_refl).
  - destruct (Hout [WriteErr]) as (r & out & s' & tr & Hrun & Htr & _ & _ & _ & Hr & _).
    { left. left. }
    vm_compute in Htr. subst tr. exists out, s'. rewrite Hrun. by rewrite (Hr eq_refl).
Defined.

(** C5.  On a reachable, well-sized buffer, [write_cont] of a range of
    [0 < n <= block_size_] bytes returns.  If the tail block has room
    ([n <= block_size_ - wpos_private_]) the bytes go to the tail block at
    the old [wpos_private_].  Otherwise the old tail keeps its block
    untouched and gets [wpos_private_] as its published length, and a fresh
    segment (a block from the freelist, else a new one) is linked behind it;
    the bytes go to the fresh block at offset 0.  Either way the [n] bytes
    lie in one block at [start .. start + n), within the block, and
    [wpos_private_] ends as [start + n]. *)
Theorem write_cont_lands_in_one_segment s src (do_notify : bool) :
  SPSCApi.reachable s → consistent s → 0 < len src ≤ block_size_ s →
  ∃ s' segs tail blk blk',
    contents (buf_ s) = segs ++ [tail] ∧
    write_cont src do_notify s = Ok s' ∧
    let fits := bool_decide (len src ≤ block_size_ s - wpos_private_ s) in
    let start := if fits then wpos_private_ s else 0 in
    contents (buf_ s') =
      (if fits then segs else segs ++ [(tail.1, wpos_private_ s)]) ++
      [(Some blk', if do_notify then start + len src
                   else if fits then tail.2 else 0)] ∧
    (if fits then tail.1 = Some blk
     else (contents (free_list_ s) = [] ∧ blk = new_block (block_size_ s)) ∨
          (∃ fl', contents (free_list_ s) = Some blk :: fl')) ∧
    blit blk start src = Ok blk' ∧
    slice blk' start (len src) = Ok src ∧
    wpos_private_ s' = start + len src ∧ start + len src ≤ block_size_ s ∧
    consistent s'.
Proof.
  intros Hreach Hc Hsrc. destruct (reachable_abs s Hreach) as (a & Ha).
  pose proof (abs_lok _ _ Ha Hc) as Hok.
  destruct (abs_scalars _ _ Ha) as (Hbs & Hr & Hwp & Ho).
  rewrite Hbs in Hsrc.
  destruct (write_cont_ok a src do_notify Hok Hsrc)
    as (a' & segs & tail & blk & blk' & Heq & Hrun & Hok' & Hbuf' & Hblk & Hblit & Hslice & Hwp' & Hfit & Hbs').
  pose proof (write_cont_sim src do_notify s a Ha) as Hsim.
  destruct (simR_Ok_inv_r _ _ _ _ Hsim Hrun) as (s' & Hrun' & Ha').
  destruct (abs_scalars _ _ Ha') as (Hbs2 & Hr2 & Hwp2 & Ho2).
  exists s', segs, tail, blk, blk'.
  rewrite (abs_contents _ _ Ha), (abs_contents _ _ Ha'), (abs_free_contents _ _ Ha).
  rewrite Hbs, Hwp, Hwp2. cbv zeta in *.
  split; [done|]. split; [done|]. split; [done|]. split; [done|].
  split; [done|]. split; [done|]. split; [done|]. split; [done|].
  apply (abs_consistent _ _ Ha'). apply Hok'.
Qed.

Lemma write_cont_lands_in_one_segment_witness :
  ∃ s, SPSCApi.reachable s ∧ consistent s ∧
    ∃ s', write_cont [x68; x69] true s = Ok s' ∧ wpos_private_ s' = 2.
Proof.
  destruct (init 4096 16 default_constructed) as [s|] eqn:Hinit; [|by vm_compute in Hinit].
  assert (Hreach : SPSCApi.reachable s) by (by eapply SPSCApi.reachable_init).
  assert (Hc : consistent s) by (eapply (init_consistent 4096 16); [done|lia|exact Hinit]).
  assert (Hbs : block_size_ s = 16 ∧ wpos_private_ s = 0).
  { unfold init in Hinit. apply bind_Ok in Hinit as (q & _ & Hinit).
    injection Hinit as <-. done. }
  destruct Hbs as [Hbs Hwp].
  exists s. split; [exact Hreach|]. split; [exact Hc|].
  destruct (write_cont_lands_in_one_segment s [x68; x69] true Hreach Hc)
    as (s' & segs & tail & blk & blk' & _ & Hrun & _ & _ & _ & _ & Hwp' & _).
  { rewrite Hbs. unfold len. simpl. lia. }
  exists s'. split; [exact Hrun|].
  rewrite Hwp'. rewrite Hbs, Hwp. reflexivity.
Defined.

End SPSCCalls.

(** ** The sequential buffer against the SPSC buffer (claims C1, C3, C6, C10) *)

Module BufferCompare.
Import Consistency ListFacts Compare.

Lemma wrap_le z : 0 ≤ z → wrap z ≤ z.
Proof. intros Hz. unfold wrap. apply Z.mod_le; lia. Qed.

Lemma agree_le bs n m x y : m ≤ n → agree bs n x y → agree bs m x y.
Proof.
  intros Hle (bx & by_ & -> & -> & Hx & Hy & Htake).
  exists bx, by_. split_and!; try done.
  assert (Hmin : Z.to_nat m = (Z.to_nat m `min` Z.to_nat n)%nat) by lia.
  rewrite Hmin, <- !take_take. by rewrite Htake.
Qed.

Lemma agree_slice bs e x y off n bx by_ :
  agree bs e x y → x = Some bx → y = Some by_ →
  0 ≤ off → 0 ≤ n → off + n ≤ e →
  slice bx off n = slice by_ off n.
Proof.
  intros (bx' & by' & -> & -> & Hx & Hy & Htake) [= <-] [= <-] Hoff Hn Hfit.
  unfold slice. rewrite Hx, Hy. case_bool_decide; [|done]. f_equal.
  assert (Hk : ∀ l : list byte,
    take (Z.to_nat n) (drop (Z.to_nat off) l) =
    take (Z.to_nat n) (drop (Z.to_nat off) (take (Z.to_nat e) l))).
  { intros l. rewrite !take_drop_commute, take_take. do 2 f_equal. lia. }
  rewrite (Hk bx'), (Hk by'). by rewrite Htake.
Qed.

Lemma agree_blit bs wp x y bx by_ src bx' :
  agree bs wp x y → x = Some bx → y = Some by_ →
  blit bx wp src = Ok bx' →
  ∃ by', blit by_ wp src = Ok by' ∧
         agree bs (wp + len src) (Some bx') (Some by').
Proof.
  intros (bx0 & by0 & -> & -> & Hx & Hy & Htake) [= <-] [= <-] Hb.
  unfold blit in *. rewrite Hx in Hb. rewrite Hy.
  case_bool_decide as Hfit; [|done]. injection Hb as <-.
  eexists. split; [reflexivity|].
  assert (Hlx : (Z.to_nat wp ≤ length bx0)%nat) by (unfold len in *; lia).
  assert (Hly : (Z.to_nat wp ≤ length by0)%nat) by (unfold len in *; lia).
  eexists _, _. split_and!; try reflexivity.
  - unfold len in *. rewrite !length_app, length_take, length_drop. lia.
  - unfold len in *. rewrite !length_app, length_take, length_drop. lia.
  - rewrite !app_assoc.
    assert (Hn : Z.to_nat (wp + len src) = length (take (Z.to_nat wp) bx0 ++ src)).
    { rewrite length_app, length_take. unfold len. lia. }
    rewrite Hn at 1. rewrite take_app_length.
    assert (Hn' : Z.to_nat (wp + len src) = length (take (Z.to_nat wp) by0 ++ src)).
    { rewrite length_app, length_take. unfold len. lia. }
    rewrite Hn'. rewrite take_app_length. by rewrite Htake.
Qed.

Lemma related_lok a b : related a b → lok a.
Proof. by intros (H & _). Qed.

(** The tail segments of two related states. *)
Lemma related_tail a b segs seg :
  related a b → ListBuffer.buf_ a = segs ++ [seg] →
  ∃ segsb tb, BlockBuffer.buf_ b = segsb ++ [tb] ∧
    Forall2 (same_segment (ListBuffer.block_size_ a)) segs segsb ∧
    tb.2 = BlockBuffer.uncommitted ∧
    agree (ListBuffer.block_size_ a) (ListBuffer.wpos_private_ a) seg.1 tb.1.
Proof.
  intros (_ & _ & _ & _ & _ & _ & segsa & ta & segsb & tb & Ha & Hb & Hf & Ht & Hag) Hbuf.
  rewrite Hbuf in Ha. apply app_inj_tail in Ha as [-> ->]. by exists segsb, tb.
Qed.

Lemma q_back_snoc {A} (l : list A) x : BlockBuffer.q_back (l ++ [x]) = Ok x.
Proof. unfold BlockBuffer.q_back. by rewrite last_snoc. Qed.

Lemma q_set_back_snoc {A} (l : list A) x y :
  BlockBuffer.q_set_back y (l ++ [x]) = Ok (l ++ [y]).
Proof.
  unfold BlockBuffer.q_set_back. destruct (l ++ [x]) eqn:E.
  - by destruct l.
  - by rewrite <- E, removelast_last.
Qed.

Lemma related_add_block a b :
  related a b →
  ∃ a' b', ListBuffer.add_block a = Ok a' ∧ BlockBuffer.add_block b = Ok b' ∧
           related a' b' ∧ published a'.
Proof.
  intros Hrel. pose proof Hrel as (Hlok & Hbs & Hlt & Hr & Hw & Hfree & _).
  destruct (add_block_ok a Hlok)
    as (segs & seg & blk & a' & Hbuf & Hadd & Hlok' & Hbuf' & Hlen & _ &
        Hwp' & Hbs' & Hr' & _).
  destruct (related_tail a b segs seg Hrel Hbuf) as (segsb & tb & Hb & Hf & Ht & Hag).
  exists a'. eexists. split; [done|].
  unfold BlockBuffer.add_block. rewrite Hb, q_back_snoc. simpl.
  rewrite q_set_back_snoc. simpl. rewrite Hfree. simpl.
  split; [reflexivity|]. split.
  - split_and!; simpl; try done; try congruence.
    exists (segs ++ [(seg.1, ListBuffer.wpos_private_ a)]), (Some blk, 0).
    eexists (segsb ++ [(tb.1, BlockBuffer.wpos_ b)]), _.
    split_and!.
    + rewrite Hbuf'. by rewrite <- app_assoc.
    + unfold BlockBuffer.q_push. reflexivity.
    + rewrite Hbs'. apply Forall2_app; [done|]. constructor; [|constructor].
      split; simpl; [congruence|done].
    + done.
    + simpl. rewrite Hwp', Hbs'. destruct Hlok as (_ & (Hbs0 & _)).
      exists blk, (new_block (BlockBuffer.block_size_ b)). split_and!; try done.
      rewrite <- Hbs. apply len_new_block. lia.
  - intros s. rewrite Hbuf'.
    change (segs ++ [(seg.1, ListBuffer.wpos_private_ a); (Some blk, 0)])
      with (segs ++ [(seg.1, ListBuffer.wpos_private_ a)] ++ [(Some blk, 0)]).
    rewrite app_assoc, last_snoc. intros [= <-]. simpl. congruence.
Qed.

Lemma related_add_block_if_full a b :
  related a b →
  ∃ a' b', ListBuffer.add_block_if_full a = Ok a' ∧
           BlockBuffer.add_block_if_full b = Ok b' ∧
           related a' b' ∧ (published a → published a').
Proof.
  intros Hrel. pose proof Hrel as (_ & Hbs & _ & _ & Hw & _).
  unfold ListBuffer.add_block_if_full, BlockBuffer.add_block_if_full.
  rewrite <- Hbs, <- Hw. case_bool_decide.
  - destruct (related_add_block a b Hrel) as (a' & b' & ? & ? & ? & ?).
    by exists a', b'.
  - by exists a, b.
Qed.

Lemma related_add_block_if_needed n a b :
  related a b →
  ∃ a' b', ListBuffer.add_block_if_needed n a = Ok a' ∧
           BlockBuffer.add_block_if_needed n b = Ok b' ∧
           related a' b' ∧ (published a → published a').
Proof.
  intros Hrel. pose proof Hrel as (_ & Hbs & _ & _ & Hw & _).
  unfold ListBuffer.add_block_if_needed, BlockBuffer.add_block_if_needed.
  rewrite <- Hbs, <- Hw. case_bool_decide.
  - destruct (related_add_block a b Hrel) as (a' & b' & ? & ? & ? & ?).
    by exists a', b'.
  - by exists a, b.
Qed.

(** Copying [src] to the write cursor and advancing it by [len src]. *)
Lemma related_copy_advance a b src :
  related a b →
  ListBuffer.wpos_private_ a + len src ≤ ListBuffer.block_size_ a →
  ∃ a' b', ListBuffer.copy_to_back src a = Ok a' ∧
           BlockBuffer.copy_to_back src b = Ok b' ∧
           ListBuffer.wpos_private_ a' = ListBuffer.wpos_private_ a ∧
           BlockBuffer.wpos_ b' = BlockBuffer.wpos_ b ∧
           related
             (ListBuffer.with_wpos_private a'
                (wrap (ListBuffer.wpos_private_ a' + len src)))
             (BlockBuffer.with_wpos b' (wrap (BlockBuffer.wpos_ b' + len src))).
Proof.
  intros Hrel Hfit. pose proof Hrel as (Hlok & Hbs & Hlt & Hr & Hw & Hfree & _).
  destruct (copy_advance_ok a src Hlok Hfit)
    as (segs & blk & e & blk' & a' & Hbuf & Hcopy & Hblit & -> & Hlok' & Hwrap & _ & Hlen).
  destruct (related_tail a b segs _ Hrel Hbuf) as (segsb & tb & Hb & Hf & Ht & Hag).
  simpl in Hag. pose proof Hag as (bx & by_ & [= <-] & Htb & _).
  destruct (agree_blit _ _ _ _ _ _ _ _ Hag eq_refl Htb Hblit) as (by' & Hblit' & Hag').
  eexists _, _. split; [done|].
  unfold BlockBuffer.copy_to_back. rewrite Hb, q_back_snoc. simpl.
  rewrite Htb. rewrite <- Hw, Hblit'. simpl. rewrite q_set_back_snoc. simpl.
  split; [reflexivity|]. split; [done|]. split; [done|].
  split_and!; simpl; try done.
  - by rewrite Hw.
  - exists segs, (Some blk', e). eexists segsb, _. split_and!; try done.
    simpl in *. by rewrite Hwrap.
Qed.

Lemma related_publish a b :
  related a b →
  ∃ a', ListBuffer.publish a = Ok a' ∧ related a' b ∧ published a'.
Proof.
  intros Hrel. pose proof Hrel as (Hlok & Hbs & Hlt & Hr & Hw & Hfree & _).
  destruct (publish_ok a Hlok) as (segs & seg & Hbuf & Hpub & Hlok').
  destruct (related_tail a b segs _ Hrel Hbuf) as (segsb & tb & Hb & Hf & Ht & Hag).
  eexists. split; [done|]. split.
  - split_and!; simpl; try done.
    exists segs, (seg.1, ListBuffer.wpos_private_ a), segsb, tb. by split_and!.
  - intros s. simpl. rewrite last_snoc. by intros [= <-].
Qed.

Lemma related_write_loop fuel : ∀ src a b a',
  related a b → ListBuffer.write_loop fuel src a = Ok a' →
  ∃ b', BlockBuffer.write_loop fuel src b = Ok b' ∧ related a' b'.
Proof.
  induction fuel as [|fuel IH]; intros src a b a' Hrel Hrun.
  - destruct src; [|done]. injection Hrun as <-. by exists b.
  - destruct src as [|x src]; [injection Hrun as <-; by exists b|].
    simpl in Hrun. simpl.
    destruct (related_add_block_if_full a b Hrel) as (a1 & b1 & Ha1 & Hb1 & Hrel1 & _).
    rewrite Ha1 in Hrun. rewrite Hb1. simpl in *.
    pose proof Hrel1 as (Hlok1 & Hbs & Hlt & Hr & Hw & Hfree & _).
    rewrite <- Hbs, <- Hw.
    set (to_write := Z.min (wrap (len (x :: src)))
           (wrap (ListBuffer.block_size_ a1 - ListBuffer.wpos_private_ a1))) in *.
    case_bool_decide as Hz; [done|].
    destruct Hlok1 as (_ & (Hbs0 & Hwp0 & _)).
    assert (Hroom : wrap (ListBuffer.block_size_ a1 - ListBuffer.wpos_private_ a1)
                    = ListBuffer.block_size_ a1 - ListBuffer.wpos_private_ a1).
    { apply wrap_small. lia. }
    pose proof (wrap_le (len (x :: src)) (len_nonneg _)) as Hle.
    pose proof (wrap_range (len (x :: src))) as Hrg.
    assert (Hlen : len (take (Z.to_nat to_write) (x :: src)) = to_write).
    { rewrite len_take by lia. lia. }
    destruct (related_copy_advance a1 b1 (take (Z.to_nat to_write) (x :: src)) Hrel1)
      as (a2 & b2 & Ha2 & Hb2 & Hwa & Hwb & Hrel2); [lia|].
    rewrite Ha2 in Hrun. rewrite Hb2. simpl in *. rewrite Hlen in Hrel2.
    by apply (IH _ _ _ _ Hrel2).
Qed.

Lemma related_write src a b a' :
  related a b → ListBuffer.write src true a = Ok a' →
  ∃ b', BlockBuffer.write src b = Ok b' ∧ related a' b' ∧ published a'.
Proof.
  intros Hrel Hrun. unfold ListBuffer.write in Hrun.
  apply bind_Ok in Hrun as (a1 & Hloop & Hpub).
  destruct (related_write_loop _ _ _ _ _ Hrel Hloop) as (b' & Hb & Hrel1).
  destruct (related_publish _ _ Hrel1) as (a2 & Ha2 & Hrel2 & Hp).
  unfold ListBuffer.notify in Hpub. rewrite Ha2 in Hpub. injection Hpub as <-.
  by exists b'.
Qed.

Lemma related_write_string str a b a' :
  related a b → ListBuffer.write_string str true a = Ok a' →
  ∃ b', BlockBuffer.write_string str b = Ok b' ∧ related a' b' ∧ published a'.
Proof.
  intros Hrel Hrun. unfold ListBuffer.write_string, ListBuffer.write_value in Hrun.
  apply bind_Ok in Hrun as (a1 & Hsize & Hstr).
  unfold ListBuffer.write in Hsize at 1.
  apply bind_Ok in Hsize as (a0 & Hloop & [= <-]).
  destruct (related_write_loop _ _ _ _ _ Hrel Hloop) as (b1 & Hb1 & Hrel1).
  destruct (related_write _ _ _ _ Hrel1 Hstr) as (b' & Hb' & Hrel' & Hp).
  exists b'. split; [|done].
  unfold BlockBuffer.write_string, BlockBuffer.write_value.
  unfold BlockBuffer.write in *. by rewrite Hb1.
Qed.

Lemma copy_to_back_fits a src a' :
  lok a → ListBuffer.copy_to_back src a = Ok a' →
  ListBuffer.wpos_private_ a + len src ≤ ListBuffer.block_size_ a.
Proof.
  intros Hlok Hrun. destruct (publish_ok a Hlok) as (segs & seg & Hbuf & _).
  unfold ListBuffer.copy_to_back in Hrun.
  rewrite Hbuf, SPSCFacts.unsnoc_snoc in Hrun. simpl in Hrun.
  destruct Hlok as (_ & (_ & _ & Hgood & _)).
  rewrite Hbuf in Hgood. apply Forall_app in Hgood as (_ & Hg).
  apply Forall_singleton in Hg as ((blk & Hblk & Hlen) & _).
  rewrite Hblk in Hrun. apply bind_Ok in Hrun as (blk' & Hblit & _).
  unfold blit in Hblit. case_bool_decide; [|done]. lia.
Qed.

Lemma related_write_cont_any (do_notify : bool) src a b a' :
  related a b → ListBuffer.write_cont src do_notify a = Ok a' →
  ∃ b', BlockBuffer.write_cont src b = Ok b' ∧ related a' b' ∧
        (src = [] → a' = a) ∧ (src ≠ [] → do_notify = true → published a').
Proof.
  intros Hrel Hrun. destruct src as [|x src].
  - injection Hrun as <-. by exists b.
  - unfold ListBuffer.write_cont in Hrun. unfold BlockBuffer.write_cont.
    destruct (related_add_block_if_needed (wrap (len (x :: src))) a b Hrel)
      as (a1 & b1 & Ha1 & Hb1 & Hrel1 & _).
    rewrite Ha1 in Hrun. simpl in Hrun.
    apply bind_Ok in Hrun as (a2 & Hcopy & Hpub).
    pose proof (copy_to_back_fits _ _ _ (related_lok _ _ Hrel1) Hcopy) as Hfit.
    pose proof Hrel1 as (Hlok1 & Hbs1 & Hlt1 & _).
    destruct Hlok1 as (_ & (Hbs0 & Hwp0 & _)).
    assert (Hsame : ListBuffer.block_size_ a1 = ListBuffer.block_size_ a).
    { revert Ha1. unfold ListBuffer.add_block_if_needed. case_bool_decide.
      - intros Hadd. destruct (add_block_ok a (related_lok _ _ Hrel))
          as (? & ? & ? & a'' & _ & Hadd' & _ & _ & _ & _ & _ & Hbs' & _).
        congruence.
      - congruence. }
    assert (Hw : wrap (len (x :: src)) = len (x :: src)).
    { apply wrap_small. pose proof (len_nonneg (x :: src)). lia. }
    pose proof Hrel as (_ & Hbs & _).
    rewrite bool_decide_eq_true_2 by (rewrite Hw; lia).
    rewrite Hb1. simpl.
    destruct (related_copy_advance a1 b1 (x :: src) Hrel1 Hfit)
      as (a2' & b2 & Ha2 & Hb2 & Hwa & Hwb & Hrel2).
    rewrite Hcopy in Ha2. injection Ha2 as <-.
    rewrite Hb2. simpl. rewrite Hw in *.
    destruct do_notify.
    + destruct (related_publish _ _ Hrel2) as (a3 & Ha3 & Hrel3 & Hp3).
      unfold ListBuffer.notify in Hpub. rewrite Ha3 in Hpub. injection Hpub as <-.
      eexists. by split.
    + injection Hpub as <-. eexists. by split.
Qed.

Lemma related_write_cont src a b a' :
  related a b → published a → ListBuffer.write_cont src true a = Ok a' →
  ∃ b', BlockBuffer.write_cont src b = Ok b' ∧ related a' b' ∧ published a'.
Proof.
  intros Hrel Hp Hrun.
  destruct (related_write_cont_any _ _ _ _ _ Hrel Hrun) as (b' & Hb & Hrel' & He & Hne).
  exists b'. split_and!; [done..|].
  destruct src; [by rewrite He|by apply Hne].
Qed.

Lemma related_write_cont_string str a b a' :
  related a b → str ≠ [] → ListBuffer.write_cont_string str true a = Ok a' →
  ∃ b', BlockBuffer.write_cont_string str b = Ok b' ∧ related a' b' ∧ published a'.
Proof.
  intros Hrel Hstr Hrun.
  unfold ListBuffer.write_cont_string, ListBuffer.write_cont_value in Hrun.
  apply bind_Ok in Hrun as (a1 & Hsize & Hrun).
  destruct (related_write_cont_any _ _ _ _ _ Hrel Hsize) as (b1 & Hb1 & Hrel1 & _).
  destruct (related_write_cont_any _ _ _ _ _ Hrel1 Hrun) as (b' & Hb' & Hrel' & _ & Hp).
  exists b'. split_and!; [|done|by apply Hp].
  unfold BlockBuffer.write_cont_string, BlockBuffer.write_cont_value.
  by rewrite Hb1.
Qed.

Lemma related_ensure_cont n a b off a' :
  related a b → published a → ListBuffer.ensure_cont n a = Ok (off, a') →
  ∃ b', BlockBuffer.ensure_cont n b = Ok (off, b') ∧ related a' b' ∧ published a'.
Proof.
  intros Hrel Hp Hrun. unfold ListBuffer.ensure_cont in Hrun.
  unfold BlockBuffer.ensure_cont.
  destruct (related_add_block_if_needed n a b Hrel) as (a1 & b1 & Ha1 & Hb1 & Hrel1 & Hp1).
  rewrite Ha1 in Hrun. injection Hrun as <- <-. rewrite Hb1. simpl.
  pose proof Hrel1 as (_ & _ & _ & _ & Hw & _ & _ & _ & segsb & tb & _ & Hb & _).
  rewrite Hb, q_back_snoc. simpl. rewrite Hw. eexists. split; [done|]. auto.
Qed.

(** The head segments of two related states: the only segment of both, or a
    closed segment of both. *)
Lemma related_head a b :
  related a b →
  ∃ seg rest hb restb,
    ListBuffer.buf_ a = seg :: rest ∧ BlockBuffer.buf_ b = hb :: restb ∧
    agree (ListBuffer.block_size_ a) seg.2 seg.1 hb.1 ∧
    0 ≤ ListBuffer.rpos_ a ≤ seg.2 ∧ seg.2 ≤ ListBuffer.block_size_ a ∧
    ((rest = [] ∧ restb = [] ∧ hb.2 = BlockBuffer.uncommitted) ∨
     (rest ≠ [] ∧ restb ≠ [] ∧ hb.2 = seg.2)).
Proof.
  intros (Hlok & Hbs & Hlt & Hr & Hw & Hfree &
          segsa & ta & segsb & tb & Ha & Hb & Hf & Ht & Hag).
  destruct Hlok as (_ & (_ & _ & Hgood & _ & _ & Hlast & Hhead)).
  destruct Hf as [|seg hb segsa' segsb' (He & Hag') Hf'].
  - simpl in *. exists ta, [], tb, []. rewrite Ha in *.
    specialize (Hlast ta eq_refl). specialize (Hhead ta eq_refl).
    apply Forall_singleton in Hgood as (_ & Hrg).
    split_and!; try done; try lia; [|by left].
    by apply (agree_le _ (ListBuffer.wpos_private_ a)).
  - simpl in *. exists seg, (segsa' ++ [ta]), hb, (segsb' ++ [tb]). rewrite Ha in *.
    specialize (Hhead seg eq_refl).
    apply Forall_cons in Hgood as ((_ & Hrg) & _).
    split_and!; try done; try lia.
    right. split_and!; [by destruct segsa'|by destruct segsb'|done].
Qed.

Lemma related_pop_block_if_needed n a b :
  related a b →
  ∃ a' b', ListBuffer.pop_block_if_needed n a = Ok a' ∧
           BlockBuffer.pop_block_if_needed n b = Ok b' ∧
           related a' b' ∧ (published a → published a').
Proof.
  intros Hrel.
  destruct (pop_block_if_needed_ok n a (related_lok _ _ Hrel))
    as (a' & Hpop & Hlok' & Hbs' & Hwp' & _).
  exists a'.
  pose proof Hrel as (Hlok & Hbs & Hlt & Hr & Hw & Hfree &
          segsa & ta & segsb & tb & Ha & Hb & Hf & Ht & Hag).
  destruct Hlok as ((_ & Hobl) & (_ & _ & Hgood & _)).
  unfold BlockBuffer.pop_block_if_needed. rewrite Hb.
  destruct Hf as [|seg hb segsa' segsb' (He & Hag') Hf'].
  - simpl in *. rewrite Ht. rewrite bool_decide_eq_false_2 by (intros ?; done).
    simpl. exists b. split; [done|]. split; [done|].
    unfold ListBuffer.pop_block_if_needed, ListBuffer.check_one_block_left,
      ListBuffer.front_end in Hpop. rewrite Ha in Hpop.
    destruct (ListBuffer.one_block_left_ a) eqn:Ho.
    + simpl in Hpop. injection Hpop as <-. by split.
    + specialize (Hobl eq_refl). rewrite Ha in Hobl. simpl in Hobl. lia.
  - simpl in *. rewrite Ha in Hgood.
    apply Forall_cons in Hgood as ((_ & Hrg) & _).
    rewrite bool_decide_eq_true_2
      by (rewrite <- He; unfold BlockBuffer.uncommitted; lia).
    rewrite <- He, <- Hr. simpl.
    assert (Hcase : ListBuffer.pop_block_if_needed n a =
      if bool_decide (wrap (seg.2 - ListBuffer.rpos_ a) < n)
      then ListBuffer.pop_block a else Ok a).
    { unfold ListBuffer.pop_block_if_needed, ListBuffer.check_one_block_left,
        ListBuffer.front_end. rewrite Ha. simpl.
      rewrite bool_decide_eq_false_2
        by (rewrite length_app; simpl; lia).
      by destruct (ListBuffer.one_block_left_ a). }
    pose proof Hpop as Hpop0. rewrite Hcase in Hpop. case_bool_decide.
    + unfold ListBuffer.pop_block in Hpop. rewrite Ha in Hpop.
      destruct (segsa' ++ [ta]) as [|s l] eqn:E; [by destruct segsa'|].
      simpl in Hpop. injection Hpop as <-.
      unfold BlockBuffer.pop_block. rewrite Hb. simpl.
      eexists. split; [exact Hpop0|]. split; [reflexivity|]. split.
      * split_and!; simpl in *; try done.
        exists segsa', ta, segsb', tb. by split_and!.
      * intros Hp sg. simpl. intros Hl. apply Hp. rewrite Ha. by rewrite last_cons, Hl.
    + injection Hpop as <-. exists b. split_and!; try done.
Qed.

Lemma related_peek n a b e :
  related a b → ListBuffer.front_end a = Ok e →
  0 ≤ n → ListBuffer.rpos_ a + n ≤ e →
  ∃ v, ListBuffer.peek n a = Ok v ∧ BlockBuffer.peek n b = Ok v.
Proof.
  intros Hrel He Hn Hfit.
  destruct (related_head a b Hrel)
    as (seg & rest & hb & restb & Ha & Hb & Hag & Hrp & Hle & _).
  pose proof Hrel as (_ & _ & _ & Hr & _).
  unfold ListBuffer.front_end in He. rewrite Ha in He. injection He as <-.
  unfold ListBuffer.peek, BlockBuffer.peek. rewrite Ha, Hb. simpl.
  pose proof Hag as (bx & by_ & Hx & Hy & Hlx & Hly & _).
  rewrite Hx, Hy, <- Hr.
  destruct (slice_Ok bx (ListBuffer.rpos_ a) n) as (v & Hv & _); [lia..|].
  exists v. split; [done|].
  by rewrite <- (agree_slice _ _ _ _ _ _ _ _ Hag Hx Hy) by lia.
Qed.

Lemma related_advance_rpos n a b e :
  related a b → ListBuffer.front_end a = Ok e →
  0 ≤ n → ListBuffer.rpos_ a + n ≤ e →
  related (ListBuffer.with_rpos a (wrap (ListBuffer.rpos_ a + n)))
          (BlockBuffer.with_rpos b (wrap (BlockBuffer.rpos_ b + n))).
Proof.
  intros Hrel He Hn Hfit.
  pose proof Hrel as (Hlok & Hbs & Hlt & Hr & Hw & Hfree & Hsegs).
  unfold ListBuffer.front_end in He.
  destruct (ListBuffer.buf_ a) as [|seg rest] eqn:Ha; [done|]. injection He as <-.
  split_and!; simpl; try done.
  - by apply (lok_advance_rpos a seg rest).
  - by rewrite Hr.
  - by rewrite Ha.
Qed.

Lemma published_with_rpos a z : published a → published (ListBuffer.with_rpos a z).
Proof. done. Qed.

Lemma related_read n a b v a' :
  related a b → list_readable n a → ListBuffer.read n a = Ok (v, a') →
  ∃ b', BlockBuffer.read n b = Ok (v, b') ∧ related a' b' ∧
        (published a → published a').
Proof.
  intros Hrel (Hn & Hread) Hrun. unfold ListBuffer.read in Hrun.
  unfold BlockBuffer.read.
  destruct (related_pop_block_if_needed n a b Hrel) as (a1 & b1 & Ha1 & Hb1 & Hrel1 & Hp1).
  rewrite Ha1 in Hrun. rewrite Hb1. simpl in *.
  destruct (related_head a1 b1 Hrel1) as (seg & rest & _ & _ & Hbuf & _).
  assert (He : ListBuffer.front_end a1 = Ok seg.2).
  { unfold ListBuffer.front_end. by rewrite Hbuf. }
  specialize (Hread a1 seg.2 Ha1 He).
  destruct (related_peek n a1 b1 _ Hrel1 He Hn Hread) as (v' & Hv & Hv').
  rewrite Hv in Hrun. injection Hrun as <- <-. rewrite Hv'. simpl.
  eexists. split; [done|]. split; [|done].
  by apply (related_advance_rpos n a1 b1 seg.2).
Qed.

Lemma related_get_string a b v a' :
  related a b → list_readable sizeof_size_t a →
  (∀ lenb a1, ListBuffer.read sizeof_size_t a = Ok (lenb, a1) →
              list_readable (le_value lenb) a1) →
  ListBuffer.get_string a = Ok (v, a') →
  ∃ b', BlockBuffer.get_string b = Ok (v, b') ∧ related a' b' ∧
        (published a → published a').
Proof.
  intros Hrel Hr1 Hr2 Hrun. unfold ListBuffer.get_string in Hrun.
  unfold BlockBuffer.get_string.
  apply bind_Ok in Hrun as ([lenb a1] & Hread & Hrun).
  destruct (related_read _ _ _ _ _ Hrel Hr1 Hread) as (b1 & Hb1 & Hrel1 & Hp1).
  rewrite Hb1. simpl. destruct (Hr2 _ _ Hread) as (Hn & Hfit).
  destruct (related_pop_block_if_needed (le_value lenb) a1 b1 Hrel1)
    as (a2 & b2 & Ha2 & Hb2 & Hrel2 & Hp2).
  rewrite Ha2 in Hrun. rewrite Hb2. simpl in *.
  destruct (related_head a2 b2 Hrel2) as (seg & rest & _ & _ & Hbuf & _).
  assert (He : ListBuffer.front_end a2 = Ok seg.2).
  { unfold ListBuffer.front_end. by rewrite Hbuf. }
  specialize (Hfit a2 seg.2 Ha2 He).
  destruct (related_peek _ a2 b2 _ Hrel2 He Hn Hfit) as (v' & Hv & Hv').
  rewrite Hv in Hrun. rewrite Hv'. simpl in *.
  pose proof (related_advance_rpos _ a2 b2 seg.2 Hrel2 He Hn Hfit) as Hrel3.
  destruct (clear_preserved_ok (wrap (sizeof_size_t + le_value lenb)) _
              (related_lok _ _ Hrel3))
    as (a4 & Hclear & Hlok4 & Hbuf4 & Hbs4 & Hrp4 & Hwp4 & _).
  rewrite Hclear in Hrun. injection Hrun as <- <-.
  eexists. split; [done|].
  destruct Hrel3 as (_ & Hbs & Hlt & Hr & Hw & Hfree & Hsegs). split.
  - split_and!; try congruence. by rewrite Hbuf4, Hbs4, Hwp4.
  - intros Hp sg. rewrite Hbuf4, Hwp4. apply (Hp2 (Hp1 Hp)).
Qed.

Lemma related_with_one_block_left a b (o : bool) :
  related a b → (o = false → (1 < length (ListBuffer.buf_ a))%nat) →
  related (ListBuffer.with_one_block_left a o) b.
Proof.
  intros (((Hne & Hobl) & Hcons) & Hrest) Ho. split; [|done]. by split.
Qed.

Lemma related_empty a b r a' :
  related a b → published a → ListBuffer.empty a = Ok (r, a') →
  BlockBuffer.empty b = Ok r ∧ related a' b ∧ published a'.
Proof.
  intros Hrel Hp Hrun.
  destruct (related_head a b Hrel)
    as (seg & rest & hb & restb & Ha & Hb & Hag & Hrp & Hle & Hcase).
  pose proof Hrel as (((Hne & Hobl) & Hcons) & Hbs & Hlt & Hr & Hw & Hfree & Hsegs).
  unfold BlockBuffer.empty. rewrite Hb. simpl.
  unfold ListBuffer.empty, ListBuffer.check_one_block_left, ListBuffer.published in Hrun.
  rewrite Ha in Hrun. simpl in Hrun.
  destruct Hcase as [(-> & -> & Hu)|(Hrest & Hrestb & He)].
  - rewrite Hu, bool_decide_eq_true_2 by done. simpl.
    destruct (ListBuffer.one_block_left_ a) eqn:Ho.
    + simpl in Hrun. rewrite Ha in Hrun. simpl in Hrun. injection Hrun as <- <-.
      pose proof (Hp seg) as Hs. rewrite Ha in Hs. specialize (Hs eq_refl).
      split; [|split].
      * do 2 f_equal. apply bool_decide_ext. rewrite Hs. split; congruence.
      * by apply related_with_one_block_left.
      * done.
    + specialize (Hobl eq_refl). rewrite Ha in Hobl. simpl in Hobl. lia.
  - rewrite bool_decide_eq_false_2
      by (rewrite He; unfold BlockBuffer.uncommitted; lia). simpl.
    destruct (ListBuffer.one_block_left_ a) eqn:Ho.
    + rewrite bool_decide_eq_false_2 in Hrun by (destruct rest; simpl; [done|lia]).
      simpl in Hrun. injection Hrun as <- <-. split; [done|]. split; [|done].
      apply related_with_one_block_left; [done|]. intros _.
      rewrite Ha. destruct rest; simpl; [done|lia].
    + injection Hrun as <- <-. by split.
Qed.

Lemma related_input_finish total a b r a' :
  related a b → (total = 0 → published a) → 0 ≤ total →
  ListBuffer.input_finish total a = Ok (r, a') →
  r = total ∧ related a' b ∧ published a'.
Proof.
  intros Hrel Hp Htot Hrun. unfold ListBuffer.input_finish in Hrun.
  case_bool_decide.
  - destruct (related_publish a b Hrel) as (a1 & Ha1 & Hrel1 & Hp1).
    unfold ListBuffer.notify in Hrun. rewrite Ha1 in Hrun.
    injection Hrun as <- <-. by split.
  - injection Hrun as <- <-. split_and!; [done..|]. apply Hp. lia.
Qed.

Lemma related_input_loop script : ∀ cont total a b r a' tr,
  related a b → (total = 0 → published a) → 0 ≤ total →
  ListBuffer.input_loop script cont (-1) total a = Ok (r, a', tr) →
  ∃ b', BlockBuffer.input_loop script cont total b = Ok (r, b', tr) ∧
        related a' b' ∧ published a'.
Proof.
  induction script as [|ans script IH]; intros cont total a b r a' tr Hrel Hp Htot Hrun;
    destruct (related_add_block_if_full a b Hrel) as (a1 & b1 & Ha1 & Hb1 & Hrel1 & Hp1).
  - simpl in Hrun. by rewrite Ha1 in Hrun.
  - simpl in Hrun. simpl. rewrite Ha1 in Hrun. rewrite Hb1. simpl in *.
    pose proof Hrel1 as (Hlok1 & Hbs & Hlt & Hr & Hw & Hfree & _).
    destruct Hlok1 as (_ & (Hbs0 & Hwp0 & _)).
    rewrite <- Hbs, <- Hw.
    assert (Hroom : wrap (ListBuffer.block_size_ a1 - ListBuffer.wpos_private_ a1)
                    = ListBuffer.block_size_ a1 - ListBuffer.wpos_private_ a1).
    { apply wrap_small. lia. }
    destruct ans as [|data].
    + case_bool_decide as Hz.
      * injection Hrun as <- <- <-. exists b1. split_and!; auto.
      * apply bind_Ok in Hrun as ([r0 a0] & Hfin & [= <- <- <-]).
        destruct (related_input_finish _ _ _ _ _ Hrel1 (λ H, Hp1 (Hp H)) Htot Hfin)
          as (-> & Hrel' & Hp').
        by exists b1.
    + set (got := stored (wrap (ListBuffer.block_size_ a1 - ListBuffer.wpos_private_ a1))
                    data) in *.
      case_bool_decide as Hz.
      * apply bind_Ok in Hrun as ([r0 a0] & Hfin & [= <- <- <-]).
        destruct (related_input_finish _ _ _ _ _ Hrel1 (λ H, Hp1 (Hp H)) Htot Hfin)
          as (-> & Hrel' & Hp').
        by exists b1.
      * assert (Hgot : len got ≤ ListBuffer.block_size_ a1 - ListBuffer.wpos_private_ a1).
        { unfold got, stored. rewrite len_take by (rewrite Hroom; lia). lia. }
        pose proof (len_nonneg got) as Hgot0.
        destruct (related_copy_advance a1 b1 got Hrel1) as
          (a2 & b2 & Ha2 & Hb2 & Hwa & Hwb & Hrel2); [lia|].
        rewrite Ha2 in Hrun. rewrite Hb2. simpl in *.
        assert (Htot2 : 0 ≤ total + len got) by lia.
        assert (Hp2 : total + len got = 0 →
                      published (ListBuffer.with_wpos_private a2
                        (wrap (ListBuffer.wpos_private_ a2 + len got)))) by lia.
        destruct cont.
        -- apply bind_Ok in Hrun as ([r0 a0] & Hfin & [= <- <- <-]).
           destruct (related_input_finish _ _ _ _ _ Hrel2 Hp2 Htot2 Hfin)
             as (-> & Hrel' & Hp').
           eexists. by split.
        -- apply bind_Ok in Hrun as ([[r0 a0] tr0] & Hrec & [= <- <- <-]).
           destruct (IH _ _ _ _ _ _ _ Hrel2 Hp2 Htot2 Hrec)
             as (b' & Hb' & Hrel' & Hp').
           rewrite Hb'. simpl. by exists b'.
Qed.

Lemma abs_readable n s a :
  SPSCAbs.abs s a → readable n s → list_readable n a.
Proof.
  intros Ha (Hn & Hread). split; [done|]. intros a1 e Hpop He.
  destruct (SPSCCalls.simR_Ok_inv_r _ _ _ _ (SPSCFacts.pop_block_if_needed_sim n s a Ha) Hpop)
    as (s1 & Hs1 & Ha1).
  destruct (SPSCCalls.simR_Ok_inv_r _ _ _ _ (SPSCFacts.front_end_sim s1 a1 Ha1) He)
    as (e' & He' & ->).
  destruct (SPSCFacts.abs_scalars _ _ Ha1) as (_ & <- & _). by apply Hread.
Qed.

Lemma abs_admissible c s a :
  SPSCAbs.abs s a → admissible c s → list_admissible c a.
Proof.
  intros Ha Hadm. destruct c; simpl in *; try done.
  - by apply (abs_readable _ s).
  - destruct Hadm as (H1 & H2). split; [by apply (abs_readable _ s)|].
    intros lenb a1 Hread.
    destruct (SPSCCalls.simR_Ok_inv_r _ _ _ _ (SPSCFacts.read_sim sizeof_size_t s a Ha) Hread)
      as ([lenb' s1] & Hs1 & Hv & Ha1). simpl in *. subst lenb'.
    apply (abs_readable _ s1); [done|]. by apply H2.
Qed.

(** One admissible call on the list form and on the sequential buffer. *)
Lemma list_bb_step c a b v a' :
  related a b → published a → list_admissible c a →
  ListApi.run (Shared.to_spsc c) a = Ok (v, a') →
  ∃ b', Shared.run_bb c b = Ok (v, b') ∧ related a' b' ∧ published a'.
Proof.
  intros Hrel Hp Hadm Hrun.
  destruct c; simpl in Hadm; try done; simpl in Hrun; simpl;
    unfold ListApi.unit_call, ListApi.bytes_call, ListBuffer.write_value,
      BlockBuffer.write_value in *.
  - apply bind_Ok in Hrun as (a1 & Hw & [= <- <-]).
    destruct (related_write _ _ _ _ Hrel Hw) as (b' & -> & ? & ?). by exists b'.
  - apply bind_Ok in Hrun as (a1 & Hw & [= <- <-]).
    destruct (related_write _ _ _ _ Hrel Hw) as (b' & -> & ? & ?). by exists b'.
  - apply bind_Ok in Hrun as (a1 & Hw & [= <- <-]).
    destruct (related_write_string _ _ _ _ Hrel Hw) as (b' & -> & ? & ?). by exists b'.
  - apply bind_Ok in Hrun as ([v0 a1] & Hr & [= <- <-]).
    destruct (related_read _ _ _ _ _ Hrel Hadm Hr) as (b' & -> & ? & ?).
    exists b'. auto.
  - apply bind_Ok in Hrun as ([v0 a1] & Hr & [= <- <-]). destruct Hadm as (H1 & H2).
    destruct (related_get_string _ _ _ _ Hrel H1 H2 Hr) as (b' & -> & ? & ?).
    exists b'. auto.
  - apply bind_Ok in Hrun as (a1 & Hw & [= <- <-]).
    destruct (related_write_cont _ _ _ _ Hrel Hp Hw) as (b' & -> & ? & ?). by exists b'.
  - apply bind_Ok in Hrun as (a1 & Hw & [= <- <-]).
    unfold ListBuffer.write_cont_value, BlockBuffer.write_cont_value in *.
    destruct (related_write_cont _ _ _ _ Hrel Hp Hw) as (b' & -> & ? & ?). by exists b'.
  - apply bind_Ok in Hrun as (a1 & Hw & [= <- <-]).
    destruct (related_write_cont_string _ _ _ _ Hrel Hadm Hw) as (b' & -> & ? & ?).
    by exists b'.
  - apply bind_Ok in Hrun as ([off a1] & He & [= <- <-]).
    destruct (related_ensure_cont _ _ _ _ _ Hrel Hp He) as (b' & -> & ? & ?). by exists b'.
  - apply bind_Ok in Hrun as ([[r a1] tr] & Hi & [= <- <-]).
    unfold ListBuffer.input_from_fd in Hi. unfold BlockBuffer.input_from_fd.
    destruct (related_input_loop _ _ _ _ _ _ _ _ Hrel (λ _, Hp) (Z.le_refl 0) Hi)
      as (b' & -> & ? & ?). by exists b'.
  - apply bind_Ok in Hrun as ([r a1] & He & [= <- <-]).
    destruct (related_empty _ _ _ _ Hrel Hp He) as (-> & ? & ?). by exists b.
Qed.

(** One admissible call on the SPSC buffer and on the sequential buffer. *)
Lemma spsc_bb_step c s a b v s' :
  SPSCAbs.abs s a → related a b → published a → admissible c s →
  Shared.run_spsc c s = Ok (v, s') →
  ∃ a' b', Shared.run_bb c b = Ok (v, b') ∧
           SPSCAbs.abs s' a' ∧ related a' b' ∧ published a'.
Proof.
  intros Ha Hrel Hp Hadm Hrun. unfold Shared.run_spsc in Hrun.
  apply bind_Ok in Hrun as ([v0 s0] & Hrun & [= <- <-]).
  destruct (SPSCFacts.simR_Ok_inv _ _ _ _ (SPSCFacts.run_sim (Shared.to_spsc c) s a Ha) Hrun)
    as ([v1 a'] & Hl & Hv & Ha'). simpl in *. subst v1.
  destruct (list_bb_step c a b _ a' Hrel Hp (abs_admissible _ _ _ Ha Hadm) Hl)
    as (b' & ? & ? & ?).
  by exists a', b'.
Qed.

Lemma spsc_bb_runs cs : ∀ s a b vs s',
  SPSCAbs.abs s a → related a b → published a → admissible_run cs s →
  Shared.runs Shared.run_spsc cs s = Ok (vs, s') →
  ∃ b', Shared.runs Shared.run_bb cs b = Ok (vs, b').
Proof.
  induction cs as [|c cs IH]; intros s a b vs s' Ha Hrel Hp Hadm Hrun.
  - injection Hrun as <- <-. by exists b.
  - simpl in Hrun. destruct Hadm as (Hc & Hrest).
    apply bind_Ok in Hrun as ([v s1] & Hstep & Hrun).
    apply bind_Ok in Hrun as ([vs1 s2] & Hruns & [= <- <-]).
    destruct (spsc_bb_step _ _ _ _ _ _ Ha Hrel Hp Hc Hstep)
      as (a1 & b1 & Hb1 & Ha1 & Hrel1 & Hp1).
    destruct (IH _ _ _ _ _ Ha1 Hrel1 Hp1 (Hrest _ _ Hstep) Hruns) as (b' & Hb').
    exists b'. simpl. rewrite Hb1. simpl. by rewrite Hb'.
Qed.

(** The two constructors give related states. *)
Lemma create_related pagesize block_size s :
  block_size ≠ -1 → 0 ≤ block_size < 2 ^ 64 - 1 →
  SPSCBlockBuffer.create pagesize block_size = Ok s →
  ∃ a, SPSCAbs.abs s a ∧ related a (BlockBuffer.create pagesize block_size) ∧
       published a.
Proof.
  intros Hne Hbs Hinit. unfold SPSCBlockBuffer.create in Hinit.
  pose proof (SPSCFacts.init_sim pagesize block_size _ _ _ SPSCFacts.abs0_default) as Hsim.
  destruct (SPSCFacts.simR_Ok_inv _ _ _ _ Hsim Hinit) as (a & Hinit' & Ha).
  exists a. split; [done|].
  assert (Hlok : lok a).
  { apply (SPSCCalls.abs_lok s a Ha).
    apply (SPSCCalls.init_consistent pagesize block_size); [done|lia|done]. }
  unfold ListBuffer.init in Hinit'. injection Hinit' as <-.
  rewrite bool_decide_eq_false_2 in * by done. simpl in *.
  unfold BlockBuffer.create. rewrite bool_decide_eq_false_2 by done.
  rewrite wrap_small in * by lia. split.
  - split_and!; simpl; try done; try lia.
    exists [], (Some (new_block block_size), 0), [], (Some (new_block block_size),
      BlockBuffer.uncommitted).
    split_and!; try done. simpl.
    exists (new_block block_size), (new_block block_size).
    split_and!; try done; apply len_new_block; lia.
  - intros seg. simpl. by intros [= <-].
Qed.

Ltac run_call :=
  let H := fresh "Hrun" in
  intros ? ? H; vm_compute in H; injection H as <- <-.

Ltac check_readable :=
  let Hpop := fresh "Hpop" in
  let Hend := fresh "Hend" in
  split; [by vm_compute|]; intros ? ? Hpop Hend;
  vm_compute in Hpop; injection Hpop as <-;
  vm_compute in Hend; injection Hend as <-; by vm_compute.

(** Claim C1, refuted at a string that straddles two blocks.  With blocks
    of 16 bytes and four bytes written and read before, [write(hello)]
    puts the length prefix at bytes 4..11 of the first block, the bytes
    [hell] at its bytes 12..15 and the byte [o] at the start of a second
    block; [get_string()] reads the prefix, finds only four bytes left in
    the first block, drops it, and returns five bytes from the start of the
    second block: [o] and four bytes that were never written. *)
Theorem write_string_get_string_straddles :
  Shared.spsc_session 4096 16 Examples.straddling_string =
    Ok [VNone; VBytes (le_bytes 4 7); VNone; VBytes [x6f; x00; x00; x00; x00]] ∧
  [x6f; x00; x00; x00; x00] ≠ Examples.hello.
Proof. split; [by vm_compute|done]. Qed.

(** Claim C3, refuted on a buffer that preserves nothing.  For every [n],
    [clear_preserved(n)] on a new SPSC buffer returns, and on a new
    sequential buffer it reads [front()] of the empty preserved list. *)
Theorem clear_preserved_differs_on_empty_list (n : Z) :
  Shared.spsc_session 4096 16 [Shared.ClearPreserved n] = Ok [VNone] ∧
  Shared.bb_session 4096 16 [Shared.ClearPreserved n] = Fail Undefined.
Proof. split; reflexivity. Qed.

(** Claim C10, refuted.  [BlockBuffer::clear_preserved(n)] on an empty
    preserved list reads its [front()], whatever [n]; and on a preserved
    list it empties it reads the [front()] of what is left: after two
    blocks of 8 bytes were written and read, [clear_preserved(8)] frees the
    one preserved block and then reads [front()] of the empty list, where
    the SPSC buffer returns. *)
Theorem clear_preserved_reads_front_of_empty_list :
  (∀ b n, BlockBuffer.clear_preserved n (BlockBuffer.with_preserved_list b [])
          = Fail Undefined) ∧
  Shared.bb_session 4096 8 Examples.clear_after_reads = Fail Undefined ∧
  Shared.spsc_session 4096 8 Examples.clear_after_reads =
    Ok [VNone; VNone; VBytes (le_bytes 8 7); VBytes (le_bytes 8 9); VNone].
Proof. split; [done|]. split; by vm_compute. Qed.

(** C6, refuted.  Blocks of 8 bytes, two blocks written, the first read to
    its end by [read<uint64_t>()], then [output_to_fd] on a descriptor with
    room: [output_to_fd] of the SPSC buffer leaves the drained head block
    behind and writes the 8 bytes of the next block, and [output_to_fd] of
    the sequential buffer, which looks for a drained head block only after
    a [::write] that took something, asks [::write] for 0 bytes and returns
    0 with the 8 bytes still unsent. *)
Lemma output_to_fd_differs_after_drained_head :
  Shared.spsc_session 4096 8 Examples.drained_head_output =
    Ok [VNone; VNone; VBytes (le_bytes 8 7); VInt 8] ∧
  Shared.bb_session 4096 8 Examples.drained_head_output =
    Ok [VNone; VNone; VBytes (le_bytes 8 7); VInt 0].
Proof. split; by vm_compute. Qed.

(** Why the comparison below leaves out [write_cont] of the empty string: the SPSC
    buffer writes the length prefix without publishing it and returns from
    the write of the empty payload before [notify()], so its [empty()] still
    answers true, and the sequential buffer's answers false. *)
Lemma empty_differs_after_empty_string :
  Shared.spsc_session 4096 16 Examples.empty_string_cont = Ok [VNone; VBool true] ∧
  Shared.bb_session 4096 16 Examples.empty_string_cont = Ok [VNone; VBool false].
Proof. split; by vm_compute. Qed.

(** X21.  From the constructors with the same explicit block
    size below [(size_t)-1], on every sequence of calls of [write] (of a
    range, a typed value or a string), [read<T>], [get_string],
    [write_cont] (of a range, a typed value or a string that is not empty),
    [ensure_cont], [input_from_fd] and [empty] whose reads stay within the
    bytes written, when the calls of the SPSC buffer (driven by one thread,
    each call run to its end) return, the calls of the sequential buffer
    return, with the same values, a pointer into the tail block as its
    offset. *)
Theorem shared_calls_agree_when_admissible pagesize block_size cs vs :
  0 ≤ block_size < 2 ^ 64 - 1 →
  admissible_session pagesize block_size cs →
  Shared.spsc_session pagesize block_size cs = Ok vs →
  Shared.bb_session pagesize block_size cs = Ok vs.
Proof.
  intros Hbs (s & Hinit & Hadm) Hrun. unfold Shared.spsc_session in Hrun.
  rewrite Hinit in Hrun. simpl in Hrun.
  apply bind_Ok in Hrun as ([vs' s'] & Hruns & [= <-]).
  destruct (create_related pagesize block_size s) as (a & Ha & Hrel & Hp);
    [lia|done|done|].
  destruct (spsc_bb_runs cs _ _ _ _ _ Ha Hrel Hp Hadm Hruns) as (b' & Hb').
  unfold Shared.bb_session. by rewrite Hb'.
Qed.

Lemma shared_calls_agree_witness :
  Shared.bb_session 4096 16 Examples.string_in_one_block =
    Ok [VNone; VBytes Examples.hello; VBool true].
Proof.
  apply (shared_calls_agree_when_admissible 4096 16 Examples.string_in_one_block).
  - lia.
  - eexists. split; [reflexivity|]. split; [done|]. run_call.
    split; [split; [check_readable|]|].
    + intros ? ? Hread. vm_compute in Hread. injection Hread as <- <-. check_readable.
    + run_call. split; [done|]. run_call. done.
  - by vm_compute.
Defined.

End BufferCompare.

(** ** The list-level buffer as a stream of bytes *)

Module StreamFacts.
Import Consistency ListFacts Compare Stream.

Lemma seg_bytes_length bs (seg : segment) :
  good_segment bs seg → len (seg_bytes seg) = seg.2.
Proof.
  intros ((blk & Hblk & Hlen) & Hrg). unfold seg_bytes. rewrite Hblk.
  rewrite len_take by lia. lia.
Qed.

Lemma written_of_snoc wpos segs (seg : segment) :
  written_of wpos (segs ++ [seg]) = mjoin (seg_bytes <$> segs) ++ seg_bytes (seg.1, wpos).
Proof. unfold written_of. by rewrite removelast_last, last_snoc. Qed.

Lemma join_snoc (segs : list segment) (seg : segment) :
  mjoin (seg_bytes <$> (segs ++ [seg])) = mjoin (seg_bytes <$> segs) ++ seg_bytes seg.
Proof. rewrite fmap_app, join_app. simpl. by rewrite app_nil_r. Qed.

(** On a published state the written bytes are the published bytes. *)
Lemma published_written a :
  lok a → published a →
  list_written a = mjoin (seg_bytes <$> ListBuffer.buf_ a).
Proof.
  intros Hlok Hp. destruct (publish_ok a Hlok) as (segs & seg & Hbuf & _).
  unfold list_written. rewrite Hbuf, written_of_snoc, join_snoc.
  specialize (Hp seg). rewrite Hbuf, last_snoc in Hp. specialize (Hp eq_refl).
  rewrite <- Hp. by destruct seg.
Qed.

(** The read cursor lies within the published bytes. *)
Lemma rpos_within a :
  lok a → 0 ≤ ListBuffer.rpos_ a ≤ len (mjoin (seg_bytes <$> ListBuffer.buf_ a)).
Proof.
  intros ((Hne & _) & (Hbs & _ & Hgood & _ & _ & _ & Hhead)).
  destruct (ListBuffer.buf_ a) as [|seg rest]; [done|].
  specialize (Hhead seg eq_refl). apply Forall_cons in Hgood as (Hg & _).
  simpl. rewrite len_app, (seg_bytes_length _ _ Hg). unfold len. lia.
Qed.

Lemma rpos_within_written a :
  lok a → 0 ≤ ListBuffer.rpos_ a ≤ len (list_written a).
Proof.
  intros Hlok. pose proof Hlok as ((Hne & _) & (Hbs & Hwp & Hgood & _ & _ & Hlast & Hhead)).
  destruct (publish_ok a Hlok) as (segs & seg & Hbuf & _).
  unfold list_written. rewrite Hbuf, written_of_snoc in *.
  apply Forall_app in Hgood as (Hgs & Hg). rewrite Forall_singleton in Hg.
  assert (Hg' : good_segment (ListBuffer.block_size_ a) (seg.1, ListBuffer.wpos_private_ a)).
  { destruct Hg as (Hb & _). split; [done|]. simpl. lia. }
  rewrite len_app, (seg_bytes_length _ _ Hg'). simpl.
  destruct segs as [|s0 segs].
  - simpl in *. specialize (Hhead seg eq_refl). specialize (Hlast seg eq_refl).
    unfold len. simpl. lia.
  - simpl in *. specialize (Hhead s0 eq_refl). apply Forall_cons in Hgs as (Hg0 & _).
    rewrite len_app, (seg_bytes_length _ _ Hg0). unfold len. lia.
Qed.

Lemma drop_app_within {A} n (l k : list A) :
  0 ≤ n ≤ len l → drop (Z.to_nat n) (l ++ k) = drop (Z.to_nat n) l ++ k.
Proof. intros Hn. apply drop_app_le. unfold len in Hn. lia. Qed.

(** [add_block] keeps the written bytes. *)
Lemma add_block_written a a' :
  lok a → ListBuffer.add_block a = Ok a' →
  list_written a' = list_written a ∧ ListBuffer.rpos_ a' = ListBuffer.rpos_ a ∧
  ListBuffer.block_size_ a' = ListBuffer.block_size_ a ∧ lok a' ∧ published a'.
Proof.
  intros Hlok Hadd.
  destruct (add_block_ok a Hlok)
    as (segs & seg & blk & a'' & Hbuf & Hadd' & Hlok' & Hbuf' & Hlen & _ & Hwp' & Hbs' & Hr' & _).
  rewrite Hadd in Hadd'. injection Hadd' as <-.
  split_and!; try done.
  - unfold list_written. rewrite Hbuf, Hbuf', Hwp'.
    change (segs ++ [(seg.1, ListBuffer.wpos_private_ a); (Some blk, 0)])
      with (segs ++ [(seg.1, ListBuffer.wpos_private_ a)] ++ [(Some blk, 0)]).
    rewrite app_assoc, !written_of_snoc, join_snoc. simpl.
    unfold seg_bytes at 3. simpl. by rewrite app_nil_r.
  - intros s. rewrite Hbuf'.
    change (segs ++ [(seg.1, ListBuffer.wpos_private_ a); (Some blk, 0)])
      with (segs ++ [(seg.1, ListBuffer.wpos_private_ a)] ++ [(Some blk, 0)]).
    rewrite app_assoc, last_snoc. intros [= <-]. simpl. lia.
Qed.

Lemma blit_take blk off src blk' :
  blit blk off src = Ok blk' →
  take (Z.to_nat (off + len src)) blk' = take (Z.to_nat off) blk ++ src.
Proof.
  unfold blit. case_bool_decide as Hfit; [|done]. intros [= <-].
  assert (Hn : Z.to_nat (off + len src) = length (take (Z.to_nat off) blk ++ src)).
  { rewrite length_app, length_take. unfold len in *. lia. }
  rewrite app_assoc, Hn. by rewrite take_app_length.
Qed.

(** Copying at the write cursor and advancing it appends to the written
    bytes. *)
Lemma copy_advance_written a src :
  lok a → ListBuffer.wpos_private_ a + len src ≤ ListBuffer.block_size_ a →
  ∃ a', ListBuffer.copy_to_back src a = Ok a' ∧
    let a2 := ListBuffer.with_wpos_private a' (wrap (ListBuffer.wpos_private_ a' + len src)) in
    lok a2 ∧ list_written a2 = list_written a ++ src ∧
    ListBuffer.wpos_private_ a2 = ListBuffer.wpos_private_ a + len src ∧
    ListBuffer.rpos_ a2 = ListBuffer.rpos_ a ∧
    ListBuffer.block_size_ a2 = ListBuffer.block_size_ a.
Proof.
  intros Hlok Hfit.
  destruct (copy_advance_ok a src Hlok Hfit)
    as (segs & blk & e & blk' & a' & Hbuf & Hcopy & Hblit & -> & Hlok' & Hwrap & _ & Hlen).
  eexists. split; [done|]. simpl in *. split_and!; try done.
  unfold list_written. simpl. rewrite Hbuf, Hwrap, !written_of_snoc.
  unfold seg_bytes; simpl. rewrite (blit_take _ _ _ _ Hblit). by rewrite app_assoc.
Qed.

(** The loop of [write] returns when blocks are not empty, and appends the
    range to the written bytes. *)
Lemma write_loop_written fuel : ∀ src a,
  lok a → 0 < ListBuffer.block_size_ a → len src < 2 ^ 64 →
  (length src ≤ fuel)%nat →
  ∃ a', ListBuffer.write_loop fuel src a = Ok a' ∧ lok a' ∧
        list_written a' = list_written a ++ src ∧
        ListBuffer.rpos_ a' = ListBuffer.rpos_ a ∧
        ListBuffer.block_size_ a' = ListBuffer.block_size_ a.
Proof.
  induction fuel as [|fuel IH]; intros src a Hlok Hbs Hlen Hfuel.
  - destruct src; [|simpl in Hfuel; lia]. exists a. simpl. by rewrite app_nil_r.
  - destruct src as [|x src]; [exists a; simpl; by rewrite app_nil_r|].
    simpl.
    assert (Hfull : ∃ a1, ListBuffer.add_block_if_full a = Ok a1 ∧ lok a1 ∧
              list_written a1 = list_written a ∧
              ListBuffer.rpos_ a1 = ListBuffer.rpos_ a ∧
              ListBuffer.block_size_ a1 = ListBuffer.block_size_ a ∧
              ListBuffer.wpos_private_ a1 < ListBuffer.block_size_ a1).
    { unfold ListBuffer.add_block_if_full. case_bool_decide as Hw.
      - destruct (add_block_ok a Hlok)
          as (? & ? & ? & a1 & _ & Hadd & _ & _ & _ & _ & Hwp1 & Hbs1 & _).
        destruct (add_block_written a a1 Hlok Hadd) as (? & ? & ? & ? & _).
        exists a1. split_and!; try done. lia.
      - exists a. split_and!; try done.
        destruct Hlok as (_ & (_ & ? & _)). lia. }
    destruct Hfull as (a1 & -> & Hlok1 & Hw1 & Hr1 & Hbs1 & Hroom). simpl.
    pose proof Hlok1 as (_ & (Hbs0 & Hwp0 & _)).
    rewrite (wrap_small (ListBuffer.block_size_ a1 - _)) by lia.
    pose proof (len_nonneg (x :: src)) as Hl0.
    rewrite (wrap_small (len (x :: src))) by lia.
    assert (Hpos : 0 < len (x :: src)) by (unfold len; simpl; lia).
    set (to_write := Z.min (len (x :: src))
           (ListBuffer.block_size_ a1 - ListBuffer.wpos_private_ a1)).
    rewrite bool_decide_eq_false_2 by lia.
    assert (Htake : len (take (Z.to_nat to_write) (x :: src)) = to_write).
    { rewrite len_take by lia. lia. }
    destruct (copy_advance_written a1 (take (Z.to_nat to_write) (x :: src)) Hlok1)
      as (a2 & -> & Hlok2 & Hw2 & Hwp2 & Hr2 & Hbs2); [lia|]. simpl.
    rewrite Htake in *.
    destruct (IH (drop (Z.to_nat to_write) (x :: src)) _ Hlok2) as
      (a' & Hrun & Hlok' & Hw' & Hr' & Hbs').
    + simpl in *. lia.
    + unfold len in *. rewrite length_drop. lia.
    + rewrite length_drop. simpl in *. lia.
    + exists a'. split; [exact Hrun|]. split; [done|]. split_and!.
      * rewrite Hw', Hw2, Hw1, <- app_assoc. by rewrite take_drop.
      * simpl in *. congruence.
      * simpl in *. congruence.
Qed.

Lemma publish_written a :
  lok a →
  ∃ a', ListBuffer.publish a = Ok a' ∧ lok a' ∧ published a' ∧
        list_written a' = list_written a ∧
        ListBuffer.rpos_ a' = ListBuffer.rpos_ a ∧
        ListBuffer.block_size_ a' = ListBuffer.block_size_ a ∧
        ListBuffer.wpos_private_ a' = ListBuffer.wpos_private_ a.
Proof.
  intros Hlok. destruct (publish_ok a Hlok) as (segs & seg & Hbuf & Hpub & Hlok').
  eexists. split; [done|]. split_and!; try done.
  - intros sg. simpl. rewrite last_snoc. by intros [= <-].
  - unfold list_written. simpl. by rewrite Hbuf, !written_of_snoc.
Qed.

(** Between two published states, appending to the written bytes appends
    to the unread bytes. *)
Lemma unread_appended a a' x :
  lok a → published a → lok a' → published a' →
  ListBuffer.rpos_ a' = ListBuffer.rpos_ a →
  list_written a' = list_written a ++ x →
  list_unread a' = list_unread a ++ x.
Proof.
  intros Hlok Hp Hlok' Hp' Hr Hw. unfold list_unread, unread_of.
  rewrite <- (published_written a' Hlok' Hp'), <- (published_written a Hlok Hp), Hw, Hr.
  apply drop_app_within. rewrite (published_written a Hlok Hp). by apply rpos_within.
Qed.

Lemma list_write_appends src a :
  lok a → published a → 0 < ListBuffer.block_size_ a → len src < 2 ^ 64 →
  ∃ a', ListBuffer.write src true a = Ok a' ∧ lok a' ∧ published a' ∧
        list_unread a' = list_unread a ++ src ∧
        ListBuffer.block_size_ a' = ListBuffer.block_size_ a.
Proof.
  intros Hlok Hp Hbs Hlen.
  destruct (write_loop_written (length src) src a Hlok Hbs Hlen (le_n _))
    as (a1 & Hloop & Hlok1 & Hw1 & Hr1 & Hbs1).
  destruct (publish_written a1 Hlok1) as (a2 & Hpub & Hlok2 & Hp2 & Hw2 & Hr2 & Hbs2 & _).
  exists a2. unfold ListBuffer.write, ListBuffer.notify. rewrite Hloop. simpl.
  split; [done|]. split_and!; try done; [|congruence].
  apply unread_appended; try done; congruence.
Qed.

Lemma list_write_string_appends str a :
  lok a → published a → 0 < ListBuffer.block_size_ a → len str < 2 ^ 64 →
  ∃ a', ListBuffer.write_string str true a = Ok a' ∧ lok a' ∧ published a' ∧
        list_unread a' = list_unread a ++ size_t_bytes (len str) ++ str ∧
        ListBuffer.block_size_ a' = ListBuffer.block_size_ a.
Proof.
  intros Hlok Hp Hbs Hlen.
  destruct (write_loop_written 8 (size_t_bytes (len str)) a Hlok Hbs)
    as (a1 & Hloop & Hlok1 & Hw1 & Hr1 & Hbs1); [done|done|].
  destruct (write_loop_written (length str) str a1 Hlok1) as
    (a2 & Hloop2 & Hlok2 & Hw2 & Hr2 & Hbs2); [lia|done|done|].
  destruct (publish_written a2 Hlok2) as (a3 & Hpub & Hlok3 & Hp3 & Hw3 & Hr3 & Hbs3 & _).
  exists a3. unfold ListBuffer.write_string, ListBuffer.write_value, ListBuffer.write,
    ListBuffer.notify.
  change (length (size_t_bytes (len str))) with 8%nat. rewrite Hloop. simpl.
  rewrite Hloop2. simpl. split; [done|]. split_and!; try done; [|congruence].
  apply unread_appended; try done; [congruence|].
  rewrite Hw3, Hw2, Hw1. by rewrite <- app_assoc.
Qed.

(** With blocks of no bytes the loop of [write] never exits. *)
Lemma list_write_diverges src (do_notify : bool) a :
  lok a → ListBuffer.block_size_ a = 0 → src ≠ [] →
  ListBuffer.write src do_notify a = Fail Diverges.
Proof.
  intros Hlok Hbs Hsrc. destruct src as [|x src]; [done|].
  unfold ListBuffer.write. simpl.
  pose proof Hlok as (_ & (_ & Hwp & _)).
  unfold ListBuffer.add_block_if_full. rewrite bool_decide_eq_true_2 by lia.
  destruct (add_block_ok a Hlok)
    as (? & ? & ? & a1 & _ & -> & _ & _ & _ & _ & Hwp1 & Hbs1 & _).
  simpl. rewrite Hwp1, Hbs1, Hbs. simpl.
  rewrite bool_decide_eq_true_2; [done|].
  change (wrap (0 - 0)) with 0. pose proof (wrap_range (len (x :: src))). lia.
Qed.

Lemma list_write_cont_appends src a :
  lok a → published a → 0 < len src ≤ ListBuffer.block_size_ a →
  ∃ a', ListBuffer.write_cont src true a = Ok a' ∧ lok a' ∧ published a' ∧
        list_unread a' = list_unread a ++ src ∧
        ListBuffer.block_size_ a' = ListBuffer.block_size_ a.
Proof.
  intros Hlok Hp Hsrc. destruct src as [|x src]; [unfold len in Hsrc; simpl in Hsrc; lia|].
  unfold ListBuffer.write_cont.
  pose proof Hlok as (_ & (Hbs0 & Hwp0 & _)).
  rewrite (wrap_small (len (x :: src))) by lia.
  assert (Hneed : ∃ a1, ListBuffer.add_block_if_needed (len (x :: src)) a = Ok a1 ∧ lok a1 ∧
              list_written a1 = list_written a ∧
              ListBuffer.rpos_ a1 = ListBuffer.rpos_ a ∧
              ListBuffer.block_size_ a1 = ListBuffer.block_size_ a ∧
              ListBuffer.wpos_private_ a1 + len (x :: src) ≤ ListBuffer.block_size_ a1).
  { unfold ListBuffer.add_block_if_needed.
    rewrite (wrap_small (ListBuffer.block_size_ a - _)) by lia.
    case_bool_decide as Hw.
    - destruct (add_block_ok a Hlok)
        as (? & ? & ? & a1 & _ & Hadd & _ & _ & _ & _ & Hwp1 & Hbs1 & _).
      destruct (add_block_written a a1 Hlok Hadd) as (? & ? & ? & ? & _).
      exists a1. split_and!; try done. lia.
    - exists a. split_and!; try done. lia. }
  destruct Hneed as (a1 & -> & Hlok1 & Hw1 & Hr1 & Hbs1 & Hroom). simpl.
  destruct (copy_advance_written a1 (x :: src) Hlok1 Hroom)
    as (a2 & -> & Hlok2 & Hw2 & Hwp2 & Hr2 & Hbs2). simpl.
  destruct (publish_written _ Hlok2) as (a3 & Hpub & Hlok3 & Hp3 & Hw3 & Hr3 & Hbs3 & _).
  unfold ListBuffer.notify. rewrite Hpub. exists a3. split; [done|].
  split_and!; try done.
  - apply unread_appended; try done; [simpl in *; congruence|].
    rewrite Hw3, Hw2, Hw1. done.
  - simpl in *. congruence.
Qed.

(** [pop_block_if_needed(n)] pops exactly when another segment follows the
    head and the head holds fewer than [n] unread bytes. *)
Lemma pop_block_if_needed_unread n a a' :
  lok a → ListBuffer.pop_block_if_needed n a = Ok a' →
  lok a' ∧
  list_unread a' = drop (Z.to_nat (Skip.skipped_of n (ListBuffer.rpos_ a) (ListBuffer.buf_ a)))
                     (list_unread a) ∧
  0 ≤ Skip.skipped_of n (ListBuffer.rpos_ a) (ListBuffer.buf_ a).
Proof.
  intros Hlok Hpop.
  destruct (pop_block_if_needed_ok n a Hlok) as (a'' & Hpop' & Hlok' & _).
  rewrite Hpop in Hpop'. injection Hpop' as <-. split; [done|].
  pose proof Hlok as ((Hne & _) & (Hbs & _ & Hgood & _ & _ & _ & Hhead)).
  destruct (ListBuffer.buf_ a) as [|seg rest] eqn:Hbuf; [done|].
  rewrite (pop_block_if_needed_cases n a seg rest Hlok Hbuf) in Hpop.
  specialize (Hhead seg eq_refl). apply Forall_cons in Hgood as (Hg & _).
  pose proof (seg_bytes_length _ _ Hg) as Hlen.
  unfold Skip.skipped_of. destruct rest as [|s2 rest].
  - rewrite bool_decide_eq_false_2 in Hpop by (by intros [? _]).
    injection Hpop as <-. done.
  - case_bool_decide as Hc.
    + destruct Hc as [_ Hc]. rewrite bool_decide_eq_true_2 by done.
      injection Hpop as <-. split; [|lia].
      unfold list_unread, unread_of. rewrite Hbuf. simpl.
      rewrite drop_drop.
      replace (Z.to_nat (ListBuffer.rpos_ a) + Z.to_nat (seg.2 - ListBuffer.rpos_ a))%nat
        with (length (seg_bytes seg)) by (unfold len in Hlen; lia).
      by rewrite drop_app_length.
    + rewrite bool_decide_eq_false_2 by (intros ?; apply Hc; by split).
      injection Hpop as <-. done.
Qed.

(** Reading [n] bytes that the head segment holds: the next [n] unread
    bytes. *)
Lemma peek_advance_unread n a seg rest :
  lok a → ListBuffer.buf_ a = seg :: rest → 0 ≤ n →
  ListBuffer.rpos_ a + n ≤ seg.2 →
  ∃ v, ListBuffer.peek n a = Ok v ∧ v = take (Z.to_nat n) (list_unread a) ∧ len v = n ∧
       list_unread (ListBuffer.with_rpos a (wrap (ListBuffer.rpos_ a + n))) =
         drop (Z.to_nat n) (list_unread a) ∧
       lok (ListBuffer.with_rpos a (wrap (ListBuffer.rpos_ a + n))).
Proof.
  intros Hlok Hbuf Hn Hfit.
  pose proof (lok_advance_rpos a seg rest n Hlok Hbuf Hn Hfit) as Hlok'.
  pose proof Hlok as (_ & (Hbs & _ & Hgood & _ & _ & _ & Hhead)).
  rewrite Hbuf in *. specialize (Hhead seg eq_refl).
  apply Forall_cons in Hgood as (Hg & _).
  pose proof (seg_bytes_length _ _ Hg) as Hlen.
  destruct Hg as ((blk & Hblk & Hblen) & Hrg).
  unfold ListBuffer.peek. rewrite Hbuf. simpl. rewrite Hblk.
  unfold slice. rewrite bool_decide_eq_true_2 by lia.
  eexists. split; [reflexivity|].
  unfold list_unread, unread_of. simpl. rewrite Hbuf. simpl.
  rewrite (wrap_small (_ + n)) by lia.
  unfold seg_bytes in *. rewrite Hblk in *.
  set (r := Z.to_nat (ListBuffer.rpos_ a)). set (m := Z.to_nat n).
  set (e := Z.to_nat seg.2) in *.
  assert (Hre : (r + m ≤ e)%nat) by lia.
  assert (Hel : (e ≤ length blk)%nat) by (unfold len in Hblen; lia).
  split_and!; try done.
  - rewrite drop_app_le by (rewrite length_take; lia).
    rewrite take_app_le by (rewrite length_drop, length_take; lia).
    rewrite !take_drop_commute, take_take. do 2 f_equal. lia.
  - unfold len. rewrite length_take, length_drop. lia.
  - rewrite drop_drop. f_equal. lia.
  - by rewrite (wrap_small (_ + n)) in Hlok' by lia.
Qed.

Lemma list_read_stream n a :
  lok a → list_readable n a →
  ∃ v a', ListBuffer.read n a = Ok (v, a') ∧ lok a' ∧ len v = n ∧
    let k := Z.to_nat (Skip.skipped_of n (ListBuffer.rpos_ a) (ListBuffer.buf_ a)) in
    v = take (Z.to_nat n) (drop k (list_unread a)) ∧
    list_unread a' = drop (k + Z.to_nat n) (list_unread a).
Proof.
  intros Hlok (Hn & Hread).
  destruct (pop_block_if_needed_ok n a Hlok) as (a1 & Hpop & Hlok1 & _).
  destruct (pop_block_if_needed_unread n a a1 Hlok Hpop) as (_ & Hu1 & Hk).
  unfold ListBuffer.read. rewrite Hpop. simpl.
  pose proof Hlok1 as ((Hne1 & _) & _).
  destruct (ListBuffer.buf_ a1) as [|seg rest] eqn:Hbuf; [done|].
  assert (He : ListBuffer.front_end a1 = Ok seg.2).
  { unfold ListBuffer.front_end. by rewrite Hbuf. }
  specialize (Hread a1 seg.2 Hpop He).
  destruct (peek_advance_unread n a1 seg rest Hlok1 Hbuf Hn Hread)
    as (v & -> & Hv & Hlen & Hu2 & Hlok2).
  simpl. exists v, (ListBuffer.with_rpos a1 (wrap (ListBuffer.rpos_ a1 + n))).
  split; [done|]. split; [done|]. split; [done|]. cbv zeta. split.
  - by rewrite Hv, Hu1.
  - rewrite Hu2, Hu1, drop_drop. done.
Qed.

Lemma skipped_one a : lok a → Skip.skipped_of 1 (ListBuffer.rpos_ a) (ListBuffer.buf_ a) = 0.
Proof.
  intros (_ & (_ & _ & _ & _ & _ & _ & Hhead)). unfold Skip.skipped_of.
  destruct (ListBuffer.buf_ a) as [|seg [|s2 rest]]; try done.
  specialize (Hhead seg eq_refl). case_bool_decide; lia.
Qed.

Lemma clear_preserved_unread n a a' :
  lok a → ListBuffer.clear_preserved n a = Ok a' →
  lok a' ∧ list_unread a' = list_unread a.
Proof.
  intros Hlok Hrun.
  destruct (clear_preserved_ok n a Hlok) as (a'' & Hrun' & Hlok' & Hbuf & _ & Hr & _).
  rewrite Hrun in Hrun'. injection Hrun' as <-. split; [done|].
  unfold list_unread. by rewrite Hbuf, Hr.
Qed.

(** [output_to_fd] hands the unread bytes to [::write] in order and takes
    them off the buffer. *)
Lemma list_output_stream script : ∀ total a r out a' tr,
  lok a → ListBuffer.output_loop script total a = Ok (r, out, a', tr) →
  lok a' ∧ out ++ list_unread a' = list_unread a.
Proof.
  induction script as [|ans script IH]; intros total a r out a' tr Hlok Hrun.
  - simpl in Hrun. apply bind_Ok in Hrun as (a1 & _ & Hrun).
    by apply bind_Ok in Hrun as (e & _ & Hrun).
  - simpl in Hrun. apply bind_Ok in Hrun as (a1 & Hpop & Hrun).
    apply bind_Ok in Hrun as (e & He & Hrun).
    destruct (pop_block_if_needed_unread 1 a a1 Hlok Hpop) as (Hlok1 & Hu1 & _).
    rewrite (skipped_one a Hlok) in Hu1. change (Z.to_nat 0) with 0%nat in Hu1.
    rewrite drop_0 in Hu1. rewrite <- Hu1.
    unfold ListBuffer.front_end in He.
    destruct (ListBuffer.buf_ a1) as [|seg rest] eqn:Hbuf; [done|]. injection He as <-.
    pose proof Hlok1 as (_ & (Hbs & _ & Hgood & _ & _ & _ & Hhead)).
    rewrite Hbuf in *. specialize (Hhead seg eq_refl).
    apply Forall_cons in Hgood as ((_ & Hrg) & _).
    rewrite (wrap_small (seg.2 - _)) in Hrun by lia.
    destruct ans as [|room].
    + case_bool_decide.
      * by injection Hrun as <- <- <- <-.
      * apply bind_Ok in Hrun as (a2 & Hclear & [= <- <- <- <-]).
        by apply (clear_preserved_unread _ _ _ Hlok1 Hclear).
    + set (n := taken (seg.2 - ListBuffer.rpos_ a1) room) in *.
      assert (Hn : 0 ≤ n ≤ seg.2 - ListBuffer.rpos_ a1) by (unfold n, taken; lia).
      case_bool_decide as Hz.
      * apply bind_Ok in Hrun as (a2 & Hclear & [= <- <- <- <-]).
        by apply (clear_preserved_unread _ _ _ Hlok1 Hclear).
      * apply bind_Ok in Hrun as (bytes & Hpeek & Hrun).
        apply bind_Ok in Hrun as ([[[r0 out0] a0] tr0] & Hrec & [= <- <- <- <-]).
        destruct (peek_advance_unread n a1 seg rest Hlok1 Hbuf) as
          (v & Hv & -> & _ & Hu2 & Hlok2); [lia..|].
        rewrite Hpeek in Hv. injection Hv as ->.
        destruct (IH _ _ _ _ _ _ Hlok2 Hrec) as (Hlok' & Hout).
        split; [done|]. rewrite <- app_assoc, Hout, Hu2. apply take_drop.
Qed.

Lemma add_block_if_full_written a :
  lok a →
  ∃ a1, ListBuffer.add_block_if_full a = Ok a1 ∧ lok a1 ∧
        list_written a1 = list_written a ∧
        ListBuffer.rpos_ a1 = ListBuffer.rpos_ a ∧
        ListBuffer.block_size_ a1 = ListBuffer.block_size_ a ∧
        (published a → published a1).
Proof.
  intros Hlok. unfold ListBuffer.add_block_if_full. case_bool_decide as Hw.
  - destruct (add_block_ok a Hlok) as (? & ? & ? & a1 & _ & Hadd & _).
    destruct (add_block_written a a1 Hlok Hadd) as (? & ? & ? & ? & ?).
    exists a1. by split_and!.
  - exists a. by split_and!.
Qed.

Lemma input_finish_written total a r a' :
  lok a → 0 ≤ total → (total = 0 → published a) →
  ListBuffer.input_finish total a = Ok (r, a') →
  lok a' ∧ published a' ∧ list_written a' = list_written a ∧
  ListBuffer.rpos_ a' = ListBuffer.rpos_ a ∧
  ListBuffer.block_size_ a' = ListBuffer.block_size_ a.
Proof.
  intros Hlok Htot Hp Hrun. unfold ListBuffer.input_finish in Hrun. case_bool_decide.
  - destruct (publish_written a Hlok) as (a1 & Hpub & ? & ? & ? & ? & ? & _).
    unfold ListBuffer.notify in Hrun. rewrite Hpub in Hrun. injection Hrun as <- <-.
    by split_and!.
  - injection Hrun as <- <-. split_and!; try done. apply Hp. lia.
Qed.

Lemma stored_by_cons_data data script x tr :
  stored_by (ReadData data :: script) (x :: tr) =
    take (Z.to_nat x) data ++ stored_by script tr.
Proof. done. Qed.

Lemma stored_by_nil script : stored_by script [] = [].
Proof. by destruct script. Qed.

Lemma stored_by_err script x : stored_by (ReadErr :: script) [x] = [].
Proof. unfold stored_by. simpl. by destruct script. Qed.

Lemma stored_by_last data script x :
  stored_by (ReadData data :: script) [x] = take (Z.to_nat x) data.
Proof. rewrite stored_by_cons_data, stored_by_nil. by rewrite app_nil_r. Qed.

(** [input_from_fd] appends what the [::read] calls stored, and publishes
    it. *)
Lemma list_input_stream script : ∀ cont max_len total a r a' tr,
  lok a → 0 ≤ total → (total = 0 → published a) →
  ListBuffer.input_loop script cont max_len total a = Ok (r, a', tr) →
  lok a' ∧ published a' ∧
  list_written a' = list_written a ++ stored_by script tr ∧
  ListBuffer.rpos_ a' = ListBuffer.rpos_ a ∧
  ListBuffer.block_size_ a' = ListBuffer.block_size_ a.
Proof.
  induction script as [|ans script IH]; intros cont max_len total a r a' tr Hlok Htot Hp Hrun;
    destruct (add_block_if_full_written a Hlok) as (a1 & Ha1 & Hlok1 & Hw1 & Hr1 & Hbs1 & Hp1).
  - simpl in Hrun. by rewrite Ha1 in Hrun.
  - simpl in Hrun. rewrite Ha1 in Hrun. simpl in Hrun.
    pose proof Hlok1 as (_ & (Hbs0 & Hwp0 & _)).
    rewrite (wrap_small (ListBuffer.block_size_ a1 - _)) in Hrun by lia.
    set (count := if bool_decide (max_len = -1)
                  then ListBuffer.block_size_ a1 - ListBuffer.wpos_private_ a1
                  else Z.min (wrap (max_len - total))
                         (ListBuffer.block_size_ a1 - ListBuffer.wpos_private_ a1)) in *.
    assert (Hcount : 0 ≤ count ≤ ListBuffer.block_size_ a1 - ListBuffer.wpos_private_ a1).
    { unfold count. pose proof (wrap_range (max_len - total)).
      destruct (bool_decide (max_len = -1)); lia. }
    destruct ans as [|data].
    + case_bool_decide as Hz.
      * injection Hrun as <- <- <-. rewrite Hw1, Hr1, Hbs1.
        split_and!; try done; [by apply Hp1, Hp|]. by rewrite stored_by_err, app_nil_r.
      * apply bind_Ok in Hrun as ([r0 a0] & Hfin & [= <- <- <-]).
        assert (Hp0 : total = 0 → published a1) by (intros ?; lia).
        destruct (input_finish_written _ _ _ _ Hlok1 Htot Hp0 Hfin)
          as (? & ? & Hw & Hr & Hbs).
        rewrite Hw, Hr, Hbs, Hw1, Hr1, Hbs1. split_and!; try done.
        by rewrite stored_by_err, app_nil_r.
    + set (got := stored count data) in *.
      case_bool_decide as Hz.
      * apply bind_Ok in Hrun as ([r0 a0] & Hfin & [= <- <- <-]).
        destruct (input_finish_written _ _ _ _ Hlok1 Htot (λ H, Hp1 (Hp H)) Hfin)
          as (? & ? & Hw & Hr & Hbs).
        rewrite Hw, Hr, Hbs, Hw1, Hr1, Hbs1. split_and!; try done.
        rewrite stored_by_last. change (Z.to_nat 0) with 0%nat. by rewrite take_0, app_nil_r.
      * assert (Hgot : len got = Z.min count (len data)).
        { unfold got, stored. apply len_take. lia. }
        pose proof (len_nonneg data) as Hd.
        assert (Hsame : take (Z.to_nat (len got)) data = got).
        { rewrite Hgot. unfold got, stored.
          destruct (Z.le_ge_cases count (len data)).
          - by rewrite Z.min_l.
          - rewrite Z.min_r by done. rewrite !take_ge; [done|unfold len in *; lia..]. }
        destruct (copy_advance_written a1 got Hlok1) as
          (a2 & Ha2 & Hlok2 & Hw2 & Hwp2 & Hr2 & Hbs2); [lia|].
        rewrite Ha2 in Hrun. simpl in Hrun.
        assert (Htot2 : 0 ≤ total + len got) by lia.
        assert (Hp2 : total + len got = 0 →
                      published (ListBuffer.with_wpos_private a2
                        (wrap (ListBuffer.wpos_private_ a2 + len got)))) by (intros ?; lia).
        destruct cont.
        -- apply bind_Ok in Hrun as ([r0 a0] & Hfin & [= <- <- <-]).
           destruct (input_finish_written _ _ _ _ Hlok2 Htot2 Hp2 Hfin)
             as (? & ? & Hw & Hr & Hbs).
           rewrite Hw, Hr, Hbs, Hw2, Hw1. simpl in *. rewrite Hr2, Hbs2, Hr1, Hbs1.
           split_and!; try done.
           by rewrite stored_by_last, Hsame.
        -- apply bind_Ok in Hrun as ([[r0 a0] tr0] & Hrec & [= <- <- <-]).
           destruct (IH _ _ _ _ _ _ _ Hlok2 Htot2 Hp2 Hrec)
             as (? & ? & Hw & Hr & Hbs).
           rewrite Hw, Hr, Hbs, Hw2, Hw1. simpl in *. rewrite Hr2, Hbs2, Hr1, Hbs1.
           split_and!; try done.
           rewrite stored_by_cons_data, Hsame. by rewrite <- app_assoc.
Qed.

Lemma total_end_nonneg (segs : list segment) :
  Forall (λ seg : segment, 0 ≤ seg.2) segs → 0 ≤ total_end segs.
Proof. induction 1; simpl; lia. Qed.

(** The loop of [clear_preserved]: it frees the longest prefix of the
    preserved segments whose lengths, added to [c], stay within [n]. *)
Lemma list_clear_loop fuel : ∀ n c a,
  0 ≤ c → Forall (λ seg : segment, 0 ≤ seg.2) (ListBuffer.preserved_list_ a) →
  c + total_end (ListBuffer.preserved_list_ a) < 2 ^ 64 →
  (length (ListBuffer.preserved_list_ a) ≤ fuel)%nat →
  ∃ k a', ListBuffer.clear_loop fuel n c a = Ok a' ∧
    (k ≤ length (ListBuffer.preserved_list_ a))%nat ∧
    ListBuffer.preserved_list_ a' = drop k (ListBuffer.preserved_list_ a) ∧
    ListBuffer.free_list_ a' =
      ListBuffer.free_list_ a ++ (fst <$> take k (ListBuffer.preserved_list_ a)) ∧
    ((0 < k)%nat → c + total_end (take k (ListBuffer.preserved_list_ a)) ≤ n) ∧
    ((k < length (ListBuffer.preserved_list_ a))%nat →
       n < c + total_end (take (S k) (ListBuffer.preserved_list_ a))) ∧
    ListBuffer.buf_ a' = ListBuffer.buf_ a ∧
    ListBuffer.rpos_ a' = ListBuffer.rpos_ a ∧
    ListBuffer.wpos_private_ a' = ListBuffer.wpos_private_ a ∧
    ListBuffer.block_size_ a' = ListBuffer.block_size_ a ∧
    ListBuffer.one_block_left_ a' = ListBuffer.one_block_left_ a.
Proof.
  induction fuel as [|fuel IH]; intros n c a Hc Hpos Hsum Hfuel;
    destruct a as [bs buf fl pl rp wp obl]; simpl in *.
  - destruct pl; [|simpl in Hfuel; lia]. exists 0%nat. eexists.
    split; [reflexivity|]. simpl. rewrite app_nil_r. split_and!; try done; lia.
  - destruct pl as [|seg rest].
    + exists 0%nat. eexists. split; [reflexivity|]. simpl. rewrite app_nil_r.
      split_and!; try done; lia.
    + apply Forall_cons in Hpos as (Hseg & Hrest).
      pose proof (total_end_nonneg rest Hrest) as Hnn. simpl in Hsum.
      unfold ListBuffer.clear_step. simpl.
      rewrite (wrap_small (seg.2 + c)) by lia.
      case_bool_decide as Hle.
      * simpl. rewrite (wrap_small (c + seg.2)) by lia.
        destruct (IH n (c + seg.2)
                    (ListBuffer.mkBuffer bs buf (fl ++ [seg.1]) rest rp wp obl))
          as (k & a' & Hrun & Hk & Hp' & Hf' & Hin & Hout & Hrest');
          simpl in *; [lia|done|lia|lia|].
        exists (S k), a'. split; [exact Hrun|]. simpl.
        split_and!; try tauto; try lia.
        -- rewrite Hf', <- app_assoc. done.
        -- intros _. destruct k; [simpl; lia|]. specialize (Hin ltac:(lia)). lia.
      * exists 0%nat. eexists. split; [reflexivity|]. simpl. rewrite app_nil_r.
        split_and!; try done; lia.
Qed.

Lemma list_ensure_cont size a :
  lok a → 0 ≤ size →
  ∃ a', ListBuffer.ensure_cont size a = Ok (ListBuffer.wpos_private_ a', a') ∧ lok a' ∧
    (size ≤ ListBuffer.block_size_ a →
       ListBuffer.wpos_private_ a' + size ≤ ListBuffer.block_size_ a) ∧
    (ListBuffer.block_size_ a < size →
       ListBuffer.wpos_private_ a' = 0 ∧
       length (ListBuffer.buf_ a') = S (length (ListBuffer.buf_ a))) ∧
    list_written a' = list_written a ∧
    ListBuffer.rpos_ a' = ListBuffer.rpos_ a ∧
    ListBuffer.block_size_ a' = ListBuffer.block_size_ a ∧
    (published a → published a').
Proof.
  intros Hlok Hsize. unfold ListBuffer.ensure_cont, ListBuffer.add_block_if_needed.
  pose proof Hlok as (_ & (Hbs0 & Hwp0 & _)).
  rewrite (wrap_small (ListBuffer.block_size_ a - _)) by lia.
  case_bool_decide as Hw.
  - destruct (add_block_ok a Hlok)
      as (segs & seg & blk & a1 & Hbuf & Hadd & _ & Hbuf' & _ & _ & Hwp1 & Hbs1 & _).
    destruct (add_block_written a a1 Hlok Hadd) as (? & ? & ? & ? & ?).
    rewrite Hadd. simpl. exists a1. split; [done|]. split_and!; try done; try lia.
    intros _. split; [done|]. rewrite Hbuf, Hbuf', !length_app. simpl. lia.
  - simpl. exists a. split; [done|]. split_and!; try done; lia.
Qed.

End StreamFacts.

(** ** The SPSC block buffer as a stream of bytes *)

Module SPSCStream.
Import SPSCQueue SPSCQueueFacts.
Import SPSCBlockBuffer SPSCAbs SPSCFacts SPSCInvariants Consistency ListFacts.
Import Compare Stream StreamFacts SPSCCalls.

Lemma abs_unread s a : abs s a → unread s = list_unread a.
Proof.
  intros Ha. unfold unread, list_unread. rewrite (abs_contents _ _ Ha).
  by destruct (abs_scalars _ _ Ha) as (_ & -> & _).
Qed.

Lemma abs_published s a : abs s a → (all_published s ↔ published a).
Proof.
  intros Ha. unfold all_published, published. rewrite (abs_contents _ _ Ha).
  by destruct (abs_scalars _ _ Ha) as (_ & _ & -> & _).
Qed.

Lemma abs_skipped n s a :
  abs s a → Skip.skipped n s = Skip.skipped_of n (ListBuffer.rpos_ a) (ListBuffer.buf_ a).
Proof.
  intros Ha. unfold Skip.skipped. rewrite (abs_contents _ _ Ha).
  by destruct (abs_scalars _ _ Ha) as (_ & -> & _).
Qed.

(** The states of the examples. *)
Lemma fresh_ok :
  create 4096 16 = Ok Scenario.fresh ∧ SPSCApi.reachable Scenario.fresh ∧
  consistent Scenario.fresh ∧ all_published Scenario.fresh.
Proof.
  assert (Hc : create 4096 16 = Ok Scenario.fresh) by (by vm_compute).
  split; [done|]. split; [by eapply SPSCApi.reachable_init|].
  split; [by apply (init_consistent 4096 16)|].
  intros seg Hlast. vm_compute in Hlast. by injection Hlast as <-.
Qed.

Lemma write_ok s src :
  SPSCApi.reachable s → consistent s → all_published s →
  0 < block_size_ s → len src < 2 ^ 64 →
  ∃ s', write src true s = Ok s' ∧ unread s' = unread s ++ src ∧
        consistent s' ∧ all_published s' ∧ block_size_ s' = block_size_ s.
Proof.
  intros Hreach Hc Hp Hbs Hlen. destruct (reachable_abs s Hreach) as (a & Ha).
  pose proof (abs_lok _ _ Ha Hc) as Hok.
  destruct (abs_scalars _ _ Ha) as (Hbs' & _). rewrite Hbs' in Hbs.
  destruct (list_write_appends src a Hok (proj1 (abs_published _ _ Ha) Hp) Hbs Hlen)
    as (a' & Hrun & Hok' & Hp' & Hu & Hbs2).
  destruct (simR_Ok_inv_r _ _ _ _ (write_sim src true s a Ha) Hrun) as (s' & Hrun' & Ha').
  exists s'. split; [done|].
  rewrite (abs_unread _ _ Ha), (abs_unread _ _ Ha'). split; [done|].
  split; [apply (abs_consistent _ _ Ha'), Hok'|].
  split; [by apply (abs_published _ _ Ha')|].
  destruct (abs_scalars _ _ Ha') as (-> & _). congruence.
Qed.

Lemma after_write_ok :
  write (le_bytes 4 7) true Scenario.fresh = Ok Scenario.after_write ∧
  SPSCApi.reachable Scenario.after_write ∧
  consistent Scenario.after_write ∧ all_published Scenario.after_write.
Proof.
  destruct fresh_ok as (_ & Hreach & Hc & Hp).
  assert (Hw : write (le_bytes 4 7) true Scenario.fresh = Ok Scenario.after_write)
    by (by vm_compute).
  split; [done|]. split.
  - apply (SPSCApi.reachable_call (SPSCApi.Write (le_bytes 4 7) true) VNone Scenario.fresh);
      [done|]. by vm_compute.
  - destruct (write_ok Scenario.fresh (le_bytes 4 7) Hreach Hc Hp) as
      (s' & Hrun & _ & Hc' & Hp' & _); [by vm_compute..|].
    rewrite Hw in Hrun. injection Hrun as <-. done.
Qed.

(** X1.  On a reachable, well-sized buffer with blocks of at least one
    byte and everything published, [write] of a range (and so [write<T>] of
    a value) returns and appends exactly the bytes of the range, in order,
    to the unread bytes, however the blocks split them; [write] of a string
    appends its length as a [size_t] and then its bytes. *)
Theorem write_appends_to_unread s src :
  SPSCApi.reachable s → consistent s → all_published s →
  0 < block_size_ s → len src < 2 ^ 64 →
  (∃ s', write src true s = Ok s' ∧ unread s' = unread s ++ src ∧
         consistent s' ∧ all_published s') ∧
  (∃ s', write_string src true s = Ok s' ∧
         unread s' = unread s ++ size_t_bytes (len src) ++ src ∧
         consistent s' ∧ all_published s').
Proof.
  intros Hreach Hc Hp Hbs Hlen. split.
  - destruct (write_ok s src Hreach Hc Hp Hbs Hlen) as (s' & ? & ? & ? & ? & _).
    by exists s'.
  - destruct (reachable_abs s Hreach) as (a & Ha).
    pose proof (abs_lok _ _ Ha Hc) as Hok.
    destruct (abs_scalars _ _ Ha) as (Hbs' & _). rewrite Hbs' in Hbs.
    destruct (list_write_string_appends src a Hok (proj1 (abs_published _ _ Ha) Hp) Hbs Hlen)
      as (a' & Hrun & Hok' & Hp' & Hu & _).
    destruct (simR_Ok_inv_r _ _ _ _ (write_string_sim src true s a Ha) Hrun)
      as (s' & Hrun' & Ha').
    exists s'. split; [done|].
    rewrite (abs_unread _ _ Ha), (abs_unread _ _ Ha'). split; [done|].
    split; [apply (abs_consistent _ _ Ha'), Hok'|]. by apply (abs_published _ _ Ha').
Qed.

Lemma write_appends_to_unread_witness :
  ∃ s', write Examples.hello true Scenario.fresh = Ok s' ∧
        unread s' = unread Scenario.fresh ++ Examples.hello.
Proof.
  destruct fresh_ok as (_ & Hreach & Hc & Hp).
  destruct (write_appends_to_unread Scenario.fresh Examples.hello Hreach Hc Hp)
    as ((s' & Hrun & Hu & _) & _); [by vm_compute..|].
  by exists s'.
Defined.

(** X2.  On a reachable, well-sized buffer with everything published,
    [write_cont] of a range that is not empty and no longer than a block
    appends exactly its bytes to the unread bytes: closing the tail block
    early leaves no gap in what the consumer reads. *)
Theorem write_cont_appends_to_unread s src :
  SPSCApi.reachable s → consistent s → all_published s →
  0 < len src ≤ block_size_ s →
  ∃ s', write_cont src true s = Ok s' ∧ unread s' = unread s ++ src ∧
        consistent s' ∧ all_published s'.
Proof.
  intros Hreach Hc Hp Hlen. destruct (reachable_abs s Hreach) as (a & Ha).
  pose proof (abs_lok _ _ Ha Hc) as Hok.
  destruct (abs_scalars _ _ Ha) as (Hbs' & _). rewrite Hbs' in Hlen.
  destruct (list_write_cont_appends src a Hok (proj1 (abs_published _ _ Ha) Hp) Hlen)
    as (a' & Hrun & Hok' & Hp' & Hu & _).
  destruct (simR_Ok_inv_r _ _ _ _ (write_cont_sim src true s a Ha) Hrun) as (s' & Hrun' & Ha').
  exists s'. split; [done|].
  rewrite (abs_unread _ _ Ha), (abs_unread _ _ Ha'). split; [done|].
  split; [apply (abs_consistent _ _ Ha'), Hok'|]. by apply (abs_published _ _ Ha').
Qed.

Lemma write_cont_appends_to_unread_witness :
  ∃ s', write_cont Examples.hello true Scenario.after_write = Ok s' ∧
        unread s' = unread Scenario.after_write ++ Examples.hello.
Proof.
  destruct after_write_ok as (_ & Hreach & Hc & Hp).
  destruct (write_cont_appends_to_unread Scenario.after_write Examples.hello Hreach Hc Hp)
    as (s' & Hrun & Hu & _); [by vm_compute|].
  by exists s'.
Defined.

(** X3.  On a reachable, well-sized buffer and a script on which the loop
    ends, [output_to_fd] returns, and the bytes it handed to [::write] are
    the first unread bytes, in order; they are no longer unread, and no
    other byte is lost. *)
Theorem output_to_fd_takes_unread_prefix s script :
  SPSCApi.reachable s → consistent s → write_script_ends script →
  ∃ r out s' tr, output_to_fd script s = Ok (r, out, s', tr) ∧
                 out ++ unread s' = unread s ∧ consistent s'.
Proof.
  intros Hreach Hc Hends. destruct (reachable_abs s Hreach) as (a & Ha).
  pose proof (abs_lok _ _ Ha Hc) as Hok.
  destruct (output_loop_ok script 0 a Hok ltac:(lia) Hends)
    as (r & out & a' & tr & Hloop & Hok' & _).
  destruct (list_output_stream _ _ _ _ _ _ _ Hok Hloop) as (_ & Hout).
  destruct (simR_Ok_inv_r _ _ _ _ (output_loop_sim script 0 s a Ha) Hloop)
    as ([[[r' out'] s'] tr'] & Hrun & Hr & Ho & Ha' & Htr).
  simpl in *. subst. exists r, out, s', tr. split; [done|].
  rewrite (abs_unread _ _ Ha), (abs_unread _ _ Ha'). split; [done|].
  apply (abs_consistent _ _ Ha'), Hok'.
Qed.

Lemma output_to_fd_takes_unread_prefix_witness :
  ∃ r out s' tr,
    output_to_fd [WriteRoom 3; WriteErr] Scenario.after_write = Ok (r, out, s', tr) ∧
    out ++ unread s' = unread Scenario.after_write.
Proof.
  destruct after_write_ok as (_ & Hreach & Hc & _).
  destruct (output_to_fd_takes_unread_prefix Scenario.after_write [WriteRoom 3; WriteErr]
              Hreach Hc) as (r & out & s' & tr & Hrun & Hout & _).
  { left. right. left. }
  by exists r, out, s', tr.
Defined.

Lemma input_stored_len script : ∀ cont max_len total a r a' tr,
  ListBuffer.input_loop script cont max_len total a = Ok (r, a', tr) →
  len (stored_by script tr) = transferred tr.
Proof.
  induction script as [|ans script IH]; intros cont max_len total a r a' tr Hrun.
  - simpl in Hrun. by apply bind_Ok in Hrun as (a1 & _ & Hrun).
  - simpl in Hrun. apply bind_Ok in Hrun as (a1 & _ & Hrun).
    set (count := if bool_decide (max_len = -1)
                  then wrap (ListBuffer.block_size_ a1 - ListBuffer.wpos_private_ a1)
                  else Z.min (wrap (max_len - total))
                         (wrap (ListBuffer.block_size_ a1 - ListBuffer.wpos_private_ a1)))
      in *.
    assert (Hcount : 0 ≤ count).
    { unfold count. pose proof (wrap_range (max_len - total)).
      pose proof (wrap_range (ListBuffer.block_size_ a1 - ListBuffer.wpos_private_ a1)).
      destruct (bool_decide (max_len = -1)); lia. }
    destruct ans as [|data].
    + assert (tr = [-1]) as ->.
      { case_bool_decide; [by injection Hrun as <- <- <-|].
        by apply bind_Ok in Hrun as ([r0 a0] & _ & [= <- <- <-]). }
      by rewrite stored_by_err.
    + set (got := stored count data) in *.
      assert (Hgot : len got = Z.min count (len data)).
      { unfold got, stored. apply len_take. lia. }
      pose proof (len_nonneg data) as Hd.
      assert (Hsame : take (Z.to_nat (len got)) data = got).
      { rewrite Hgot. unfold got, stored.
        destruct (Z.le_ge_cases count (len data)).
        - by rewrite Z.min_l.
        - rewrite Z.min_r by done. rewrite !take_ge; [done|unfold len in *; lia..]. }
      case_bool_decide as Hz.
      * apply bind_Ok in Hrun as ([r0 a0] & _ & [= <- <- <-]).
        by rewrite stored_by_last.
      * apply bind_Ok in Hrun as (a2 & _ & Hrun). destruct cont.
        -- apply bind_Ok in Hrun as ([r0 a0] & _ & [= <- <- <-]).
           rewrite stored_by_last, Hsame. unfold transferred. simpl. lia.
        -- apply bind_Ok in Hrun as ([[r0 a0] tr0] & Hrec & [= <- <- <-]).
           rewrite stored_by_cons_data, Hsame, len_app, transferred_cons.
           rewrite (IH _ _ _ _ _ _ _ Hrec). lia.
Qed.

(** X4.  On a reachable, well-sized buffer with everything published and a
    script on which the loop ends, [input_from_fd] returns; the unread
    bytes grow by exactly the bytes its [::read] calls stored, in order,
    all of them published, and their number is the sum of the positive
    values [::read] returned. *)
Theorem input_from_fd_appends_stored s script cont max_len :
  SPSCApi.reachable s → consistent s → all_published s → read_script_ends script →
  ∃ r s' tr, input_from_fd script cont max_len s = Ok (r, s', tr) ∧
             unread s' = unread s ++ stored_by script tr ∧
             len (stored_by script tr) = transferred tr ∧
             consistent s' ∧ all_published s'.
Proof.
  intros Hreach Hc Hp Hends. destruct (reachable_abs s Hreach) as (a & Ha).
  pose proof (abs_lok _ _ Ha Hc) as Hok.
  pose proof (proj1 (abs_published _ _ Ha) Hp) as Hpa.
  destruct (input_loop_ok script cont max_len 0 a Hok ltac:(lia) Hends)
    as (r & a' & tr & Hloop & _).
  destruct (list_input_stream _ _ _ _ _ _ _ _ Hok (Z.le_refl 0) (λ _, Hpa) Hloop)
    as (Hok' & Hp' & Hw & Hr & _).
  destruct (simR_Ok_inv_r _ _ _ _ (input_loop_sim script cont max_len 0 s a Ha) Hloop)
    as ([[r' s'] tr'] & Hrun & Hr' & Ha' & Htr).
  simpl in *. subst. exists r, s', tr. split; [done|].
  rewrite (abs_unread _ _ Ha), (abs_unread _ _ Ha'). split_and!.
  - by apply unread_appended.
  - by apply (input_stored_len _ _ _ _ _ _ _ _ Hloop).
  - apply (abs_consistent _ _ Ha'), Hok'.
  - by apply (abs_published _ _ Ha').
Qed.

Lemma input_from_fd_appends_stored_witness :
  ∃ r s' tr,
    input_from_fd [ReadData Examples.hello; ReadErr] false (-1) Scenario.after_write
      = Ok (r, s', tr) ∧
    unread s' = unread Scenario.after_write
                  ++ stored_by [ReadData Examples.hello; ReadErr] tr.
Proof.
  destruct after_write_ok as (_ & Hreach & Hc & Hp).
  destruct (input_from_fd_appends_stored Scenario.after_write
              [ReadData Examples.hello; ReadErr] false (-1) Hreach Hc Hp)
    as (r & s' & tr & Hrun & Hu & _).
  { left. right. left. }
  by exists r, s', tr.
Defined.

(** X5.  On a reachable, well-sized buffer, a typed read of [n] bytes that
    the head segment holds once [pop_block_if_needed(n)] has run returns
    [n] unread bytes, in order.  They are the next unread bytes unless the
    head segment held fewer than [n] of them while another segment
    followed: then its unread bytes, [skipped n s] of them, are dropped
    unread and the read starts in the next segment.  [get<T>] returns the
    same bytes and leaves the same bytes unread. *)
Theorem read_takes_unread_after_skip s n :
  SPSCApi.reachable s → consistent s → readable n s →
  let k := Z.to_nat (Skip.skipped n s) in
  ∃ v s', read n s = Ok (v, s') ∧ len v = n ∧
          v = take (Z.to_nat n) (drop k (unread s)) ∧
          unread s' = drop (k + Z.to_nat n) (unread s) ∧
          consistent s' ∧
          ∃ s'', get n s = Ok (v, s'') ∧ unread s'' = unread s' ∧ consistent s''.
Proof.
  intros Hreach Hc Hread k. destruct (reachable_abs s Hreach) as (a & Ha).
  pose proof (abs_lok _ _ Ha Hc) as Hok.
  destruct (list_read_stream n a Hok (BufferCompare.abs_readable _ _ _ Ha Hread))
    as (v & a' & Hrun & Hok' & Hlen & Hv & Hu).
  destruct (simR_Ok_inv_r _ _ _ _ (read_sim n s a Ha) Hrun)
    as ([v' s'] & Hrun' & Hv' & Ha'). simpl in *. subst v'.
  exists v, s'. split; [done|]. split; [done|].
  unfold k. rewrite (abs_skipped _ _ _ Ha), (abs_unread _ _ Ha), (abs_unread _ _ Ha').
  split; [done|]. split; [done|].
  split; [apply (abs_consistent _ _ Ha'), Hok'|].
  destruct (clear_preserved_ok n a' Hok') as (a2 & Hclear & Hok2 & _).
  destruct (clear_preserved_unread n a' a2 Hok' Hclear) as (_ & Hu2).
  assert (Hget : ListBuffer.get n a = Ok (v, a2)).
  { unfold ListBuffer.get. rewrite Hrun. simpl. by rewrite Hclear. }
  destruct (simR_Ok_inv_r _ _ _ _ (get_sim n s a Ha) Hget)
    as ([v' s2] & Hget' & Hv' & Ha2). simpl in *. subst v'.
  exists s2. split; [done|]. rewrite (abs_unread _ _ Ha2).
  split; [done|]. apply (abs_consistent _ _ Ha2), Hok2.
Qed.

Lemma read_takes_unread_after_skip_witness :
  ∃ v s', read 4 Scenario.after_write = Ok (v, s') ∧
          v = take 4 (drop (Z.to_nat (Skip.skipped 4 Scenario.after_write))
                        (unread Scenario.after_write)).
Proof.
  destruct after_write_ok as (_ & Hreach & Hc & _).
  destruct (read_takes_unread_after_skip Scenario.after_write 4 Hreach Hc)
    as (v & s' & Hrun & _ & Hv & _).
  { split; [lia|]. intros s1 e Hpop Hend.
    vm_compute in Hpop. injection Hpop as <-.
    vm_compute in Hend. injection Hend as <-. by vm_compute. }
  by exists v, s'.
Defined.

(** X6.  On a reachable, well-sized buffer [ensure_cont(size)] returns a
    pointer into the tail block at the write cursor.  For a size of at
    most a block, [size] bytes fit in the block from there.  For a larger
    size every call links another block and returns its start, with only
    [block_size_] bytes behind it. *)
Theorem ensure_cont_room s size :
  SPSCApi.reachable s → consistent s → 0 ≤ size →
  ∃ p off s', ensure_cont size s = Ok (p, off, s') ∧
    p = wpos_ s' ∧ off = wpos_private_ s' ∧ consistent s' ∧
    (size ≤ block_size_ s → off + size ≤ block_size_ s) ∧
    (block_size_ s < size →
       off = 0 ∧ length (contents (buf_ s')) = S (length (contents (buf_ s)))).
Proof.
  intros Hreach Hc Hsize. destruct (reachable_abs s Hreach) as (a & Ha).
  pose proof (abs_lok _ _ Ha Hc) as Hok.
  destruct (list_ensure_cont size a Hok Hsize)
    as (a' & Hrun & Hok' & Hfit & Hbig & _).
  destruct (simR_Ok_inv_r _ _ _ _ (ensure_cont_sim size s a Ha) Hrun)
    as ([[p off] s'] & Hrun' & Hp & Hoff & Ha'). simpl in *.
  exists p, off, s'. split; [done|]. split; [done|].
  destruct (abs_scalars _ _ Ha) as (Hbs & _).
  destruct (abs_scalars _ _ Ha') as (_ & _ & Hwp & _).
  rewrite (abs_contents _ _ Ha), (abs_contents _ _ Ha'), Hbs, Hwp, Hoff.
  split; [done|]. split; [apply (abs_consistent _ _ Ha'), Hok'|]. by split.
Qed.

Lemma ensure_cont_room_witness :
  ∃ p off s', ensure_cont 13 Scenario.after_write = Ok (p, off, s') ∧
              off + 13 ≤ block_size_ Scenario.after_write.
Proof.
  destruct after_write_ok as (_ & Hreach & Hc & _).
  destruct (ensure_cont_room Scenario.after_write 13 Hreach Hc)
    as (p & off & s' & Hrun & _ & _ & _ & Hfit & _); [lia|].
  exists p, off, s'. split; [exact Hrun|]. apply Hfit. by vm_compute.
Defined.

Lemma clear_loop_frame fuel : ∀ n c s s',
  clear_loop fuel n c s = Ok s' →
  buf_ s' = buf_ s ∧ rpos_ s' = rpos_ s ∧ wpos_ s' = wpos_ s ∧
  wpos_private_ s' = wpos_private_ s ∧ block_size_ s' = block_size_ s ∧
  one_block_left_ s' = one_block_left_ s.
Proof.
  induction fuel as [|fuel IH]; intros n c s s' Hrun; simpl in Hrun;
    apply bind_Ok in Hrun as ([[c1 s1]|] & Hstep & Hrun); try done;
    try (by injection Hrun as <-).
  destruct (IH _ _ _ _ Hrun) as (-> & -> & -> & -> & -> & ->).
  unfold clear_step in Hstep. destruct (SPSCQueue.empty (preserved_list_ s)); [done|].
  apply bind_Ok in Hstep as (seg & _ & Hstep). case_bool_decide; [|done].
  apply bind_Ok in Hstep as (fp & _ & Hstep).
  apply bind_Ok in Hstep as (fl & _ & Hstep).
  apply bind_Ok in Hstep as (p1 & _ & Hstep).
  apply bind_Ok in Hstep as (p2 & _ & Hstep).
  by injection Hstep as <- <-.
Qed.

(** X7.  On a reachable, well-sized buffer whose preserved lengths do not
    add up to [2^64], [clear_preserved(n)] returns.  It takes the longest
    prefix of the preserved segments whose lengths add up to at most [n]
    off the preserved list and appends their blocks, in order, to the
    freelist; the segment list, the cursors and every other member are as
    before. *)
Theorem clear_preserved_frees_prefix s n :
  SPSCApi.reachable s → consistent s → 0 ≤ n →
  total_end (contents (preserved_list_ s)) < 2 ^ 64 →
  ∃ k s', clear_preserved n s = Ok s' ∧
    (k ≤ length (contents (preserved_list_ s)))%nat ∧
    contents (preserved_list_ s') = drop k (contents (preserved_list_ s)) ∧
    contents (free_list_ s') =
      contents (free_list_ s) ++ (fst <$> take k (contents (preserved_list_ s))) ∧
    total_end (take k (contents (preserved_list_ s))) ≤ n ∧
    ((k < length (contents (preserved_list_ s)))%nat →
       n < total_end (take (S k) (contents (preserved_list_ s)))) ∧
    buf_ s' = buf_ s ∧ rpos_ s' = rpos_ s ∧ wpos_ s' = wpos_ s ∧
    wpos_private_ s' = wpos_private_ s ∧ block_size_ s' = block_size_ s ∧
    one_block_left_ s' = one_block_left_ s.
Proof.
  intros Hreach Hc Hn Hsum. destruct (reachable_abs s Hreach) as (a & Ha).
  pose proof (abs_lok _ _ Ha Hc) as Hok.
  rewrite (abs_preserved_contents _ _ Ha), (abs_free_contents _ _ Ha) in *.
  assert (Hpos : Forall (λ seg : segment, 0 ≤ seg.2) (ListBuffer.preserved_list_ a)).
  { destruct Hok as (_ & (_ & _ & _ & _ & Hpres & _)).
    eapply Forall_impl; [exact Hpres|]. intros seg (_ & ?). lia. }
  destruct (list_clear_loop (length (ListBuffer.preserved_list_ a)) n 0 a
              (Z.le_refl 0) Hpos ltac:(lia) (le_n _))
    as (k & a' & Hrun & Hk & Hp' & Hf' & Hin & Hout & _).
  destruct (simR_Ok_inv_r _ _ _ _ (clear_preserved_sim n s a Ha) Hrun) as (s' & Hrun' & Ha').
  exists k, s'. split; [done|].
  rewrite (abs_preserved_contents _ _ Ha'), (abs_free_contents _ _ Ha').
  split; [done|]. split; [done|]. split; [done|]. split.
  { destruct k; [simpl; lia|]. specialize (Hin ltac:(lia)). lia. }
  split; [intros Hlt; specialize (Hout Hlt); lia|].
  by apply (clear_loop_frame _ _ _ _ _ Hrun').
Qed.

(** A read within the written bytes keeps the sizes. *)
Lemma read_ok s n v s' :
  SPSCApi.reachable s → consistent s → readable n s → read n s = Ok (v, s') →
  consistent s'.
Proof.
  intros Hreach Hc Hread Hrun. destruct (reachable_abs s Hreach) as (a & Ha).
  pose proof (abs_lok _ _ Ha Hc) as Hok.
  destruct (list_read_stream n a Hok (BufferCompare.abs_readable _ _ _ Ha Hread))
    as (v1 & a' & Hrun1 & Hok' & _).
  destruct (simR_Ok_inv_r _ _ _ _ (read_sim n s a Ha) Hrun1)
    as ([v2 s2] & Hrun2 & _ & Ha').
  rewrite Hrun in Hrun2. injection Hrun2 as <- <-.
  apply (abs_consistent _ _ Ha'), Hok'.
Qed.

Ltac readable_here :=
  split; [lia|]; intros s1 e Hpop Hend;
  vm_compute in Hpop; injection Hpop as <-;
  vm_compute in Hend; injection Hend as <-; by vm_compute.

Lemma head_dropped_ok :
  SPSCApi.reachable Scenes.head_dropped ∧ consistent Scenes.head_dropped.
Proof.
  destruct fresh_ok as (_ & Hreach & Hc & Hp).
  assert (H1 : SPSCApi.reachable Scenes.three_blocks ∧ consistent Scenes.three_blocks).
  { split.
    - apply (SPSCApi.reachable_call (SPSCApi.Write (replicate 40 x01) true) VNone
               Scenario.fresh); [done|by vm_compute].
    - destruct (write_ok Scenario.fresh (replicate 40 x01) Hreach Hc Hp)
        as (s' & Hrun & _ & Hc' & _); [by vm_compute..|].
      assert (Hw : write (replicate 40 x01) true Scenario.fresh = Ok Scenes.three_blocks)
        by (by vm_compute).
      rewrite Hw in Hrun. apply Ok_inj in Hrun. rewrite Hrun. exact Hc'. }
  destruct H1 as [Hr1 Hc1].
  assert (H2 : SPSCApi.reachable Scenes.head_read ∧ consistent Scenes.head_read).
  { split.
    - apply (SPSCApi.reachable_call (SPSCApi.Read 16) (VBytes (replicate 16 x01))
               Scenes.three_blocks); [done|by vm_compute].
    - apply (read_ok Scenes.three_blocks 16 (replicate 16 x01)); [done|done| |by vm_compute].
      readable_here. }
  destruct H2 as [Hr2 Hc2]. split.
  - apply (SPSCApi.reachable_call (SPSCApi.Read 16) (VBytes (replicate 16 x01))
             Scenes.head_read); [done|by vm_compute].
  - apply (read_ok Scenes.head_read 16 (replicate 16 x01)); [done|done| |by vm_compute].
    readable_here.
Qed.

Lemma clear_preserved_frees_prefix_witness :
  length (contents (preserved_list_ Scenes.head_dropped)) = 1%nat ∧
  contents (free_list_ Scenes.head_dropped) = [] ∧
  ∃ s', clear_preserved 16 Scenes.head_dropped = Ok s' ∧
        contents (preserved_list_ s') = [] ∧
        contents (free_list_ s') = fst <$> contents (preserved_list_ Scenes.head_dropped).
Proof.
  destruct head_dropped_ok as (Hreach & Hc).
  assert (Hlen : length (contents (preserved_list_ Scenes.head_dropped)) = 1%nat)
    by (by vm_compute).
  assert (Hfree : contents (free_list_ Scenes.head_dropped) = []) by (by vm_compute).
  split; [exact Hlen|]. split; [exact Hfree|].
  destruct (clear_preserved_frees_prefix Scenes.head_dropped 16 Hreach Hc)
    as (k & s' & Hrun & Hk & Hp & Hf & _ & Hmax & _); [lia|by vm_compute|].
  exists s'. split; [exact Hrun|].
  assert (Hk1 : k = 1%nat).
  { destruct k as [|[|k]]; [|done|rewrite Hlen in Hk; lia].
    exfalso. rewrite Hlen in Hmax. specialize (Hmax ltac:(lia)).
    revert Hmax. by vm_compute. }
  subst k. rewrite Hp, Hf, Hfree.
  destruct (contents (preserved_list_ Scenes.head_dropped)) as [|seg [|seg2 l]];
    try discriminate Hlen. split; reflexivity.
Defined.

(** X8.  With blocks of no bytes, [write] of a range that is not empty
    never returns: every turn of its loop links a block and copies
    nothing. *)
Theorem write_never_returns_without_room s src (do_notify : bool) :
  SPSCApi.reachable s → consistent s → block_size_ s = 0 → src ≠ [] →
  write src do_notify s = Fail Diverges.
Proof.
  intros Hreach Hc Hbs Hsrc. destruct (reachable_abs s Hreach) as (a & Ha).
  pose proof (abs_lok _ _ Ha Hc) as Hok.
  destruct (abs_scalars _ _ Ha) as (Hbs' & _). rewrite Hbs' in Hbs.
  pose proof (list_write_diverges src do_notify a Hok Hbs Hsrc) as Hrun.
  pose proof (write_sim src do_notify s a Ha) as Hsim. rewrite Hrun in Hsim.
  destruct (write src do_notify s); simpl in Hsim; [done|by subst].
Qed.

Lemma write_never_returns_without_room_witness :
  write Examples.hello true Scenario.no_room = Fail Diverges.
Proof.
  assert (Hcr : create 4096 0 = Ok Scenario.no_room) by (by vm_compute).
  apply write_never_returns_without_room.
  - by eapply SPSCApi.reachable_init.
  - by apply (init_consistent 4096 0).
  - by vm_compute.
  - done.
Defined.

End SPSCStream.

(** ** Records written contiguously come back whole *)

Module RecordFacts.
Import Consistency ListFacts Compare Stream StreamFacts Records.

(** [blit] at [lim] leaves what lies below [lim] as it is. *)
Lemma blit_below blk lim src blk' off n v :
  blit blk lim src = Ok blk' → slice blk off n = Ok v → off + n ≤ lim →
  slice blk' off n = Ok v.
Proof.
  unfold blit, slice. case_bool_decide as Hb; [|done]. intros [= <-].
  case_bool_decide as Hs; [|done]. intros [= <-] Hle.
  rewrite bool_decide_eq_true_2.
  - f_equal. rewrite !take_drop_commute. f_equal.
    rewrite take_app_le by (rewrite length_take; unfold len in *; lia).
    rewrite take_take. f_equal. lia.
  - unfold len in *. rewrite !length_app, length_take, length_drop. lia.
Qed.

Lemma snoc_singleton {A} (x y : A) l : [x] = l ++ [y] → l = [] ∧ x = y.
Proof. destruct l as [|z [|? ?]]; simpl; intros [= ]; by subst. Qed.

Lemma bool_decide_snoc_nil {A} (l : list A) x :
  bool_decide (l ++ [x] = []) = false.
Proof. apply bool_decide_eq_false_2. by destruct l. Qed.

(** A record written behind the others in the tail block. *)
Lemma aligned_append_fits lim rpos L recs :
  aligned lim rpos L recs →
  ∀ segs blk e e' blk' r,
    L = segs ++ [(Some blk, e)] → blit blk lim r = Ok blk' →
    slice blk' lim (len r) = Ok r →
    aligned (lim + len r) rpos (segs ++ [(Some blk', e')]) (recs ++ [r]).
Proof.
  induction 1 as [rpos seg Hr|rpos seg rest blk0 r0 recs Hblk Hsl Hlim Hal IH
                  |rpos seg seg2 rest blk0 r0 recs Hr Hne Hblk Hsl Hlim Hal IH];
    intros segs blk e e' blk' r Heq Hblit Hslice.
  - apply snoc_singleton in Heq as (-> & ->). subst rpos. simpl.
    eapply aligned_here; [done|done| |by apply aligned_nil].
    try rewrite bool_decide_eq_true_2 by done. simpl. lia.
  - destruct segs as [|s0 segs'].
    + simpl in Heq. injection Heq as -> ->. simpl in *. injection Hblk as <-.
      try rewrite bool_decide_eq_true_2 in Hlim by done.
      pose proof (len_nonneg r).
      eapply aligned_here; [done| | |by apply (IH [] blk e)].
      * simpl. by apply (blit_below _ _ _ _ _ _ _ Hblit Hsl).
      * try rewrite bool_decide_eq_true_2 by done. simpl. lia.
    + simpl in Heq. injection Heq as -> ->. simpl.
      rewrite bool_decide_snoc_nil in Hlim.
      eapply aligned_here; [done|done|by rewrite bool_decide_snoc_nil|].
      by apply (IH (s0 :: segs') blk e).
  - destruct segs as [|s0 [|s1 segs2]]; simpl in Heq; try (by destruct rest).
    + injection Heq as -> -> ->. simpl in *. injection Hblk as <-.
      try rewrite bool_decide_eq_true_2 in Hlim by done.
      pose proof (len_nonneg r).
      eapply aligned_next; [done|done|done| | |by apply (IH [] blk e)].
      * simpl. by apply (blit_below _ _ _ _ _ _ _ Hblit Hsl).
      * try rewrite bool_decide_eq_true_2 by done. simpl. lia.
    + injection Heq as -> -> ->. simpl.
      rewrite bool_decide_snoc_nil in Hlim.
      eapply aligned_next; [done|done|done|done|by rewrite bool_decide_snoc_nil|].
      by apply (IH (s1 :: segs2) blk e).
Qed.

(** A record written at the start of a new tail block, the old tail
    closed at [lim]. *)
Lemma aligned_append_spill lim rpos L recs :
  aligned lim rpos L recs →
  ∀ segs b e e' blk' r,
    L = segs ++ [(b, e)] → slice blk' 0 (len r) = Ok r → r ≠ [] →
    aligned (len r) rpos (segs ++ [(b, lim); (Some blk', e')]) (recs ++ [r]).
Proof.
  induction 1 as [rpos seg Hr|rpos seg rest blk0 r0 recs Hblk Hsl Hlim Hal IH
                  |rpos seg seg2 rest blk0 r0 recs Hr Hne Hblk Hsl Hlim Hal IH];
    intros segs b e e' blk' r Heq Hslice Hr0.
  - apply snoc_singleton in Heq as (-> & ->). subst rpos. simpl.
    eapply aligned_next; [done|done|done|done| |by apply aligned_nil].
    try rewrite bool_decide_eq_true_2 by done. simpl. lia.
  - destruct segs as [|s0 segs'].
    + simpl in Heq. injection Heq as -> ->. simpl in *.
      try rewrite bool_decide_eq_true_2 in Hlim by done.
      eapply aligned_here; [done|done| |by apply (IH [] b e)].
      try rewrite bool_decide_eq_false_2 by done. simpl. done.
    + simpl in Heq. injection Heq as -> ->. simpl.
      rewrite bool_decide_snoc_nil in Hlim.
      eapply aligned_here; [done|done| |by apply (IH (s0 :: segs') b e)].
      rewrite bool_decide_eq_false_2; [done|by destruct segs'].
  - destruct segs as [|s0 [|s1 segs2]]; simpl in Heq; try (by destruct rest).
    + injection Heq as -> -> ->. simpl in *.
      try rewrite bool_decide_eq_true_2 in Hlim by done.
      eapply aligned_next; [done|done|done|done| |by apply (IH [] b e)].
      try rewrite bool_decide_eq_false_2 by done. simpl. done.
    + injection Heq as -> -> ->. simpl.
      rewrite bool_decide_snoc_nil in Hlim.
      eapply aligned_next; [done|done|done|done| |by apply (IH (s1 :: segs2) b e)].
      rewrite bool_decide_eq_false_2; [done|by destruct segs2].
Qed.

Lemma Z_of_byte_of_Z z : Z_of_byte (byte_of_Z z) = z mod 256.
Proof.
  unfold Z_of_byte, byte_of_Z.
  assert (Hrg : 0 ≤ z mod 256 < 256) by (apply Z.mod_pos_bound; lia).
  destruct (Byte.of_N (Z.to_N (z mod 256))) as [b|] eqn:Hb.
  - rewrite (Byte.to_of_N _ Hb). lia.
  - apply Byte.of_N_None_iff in Hb. lia.
Qed.

Lemma le_value_le_bytes k : ∀ n, 0 ≤ n < 256 ^ Z.of_nat k → le_value (le_bytes k n) = n.
Proof.
  induction k as [|k IH]; intros n Hn.
  - simpl in *. lia.
  - simpl. rewrite Z_of_byte_of_Z, IH.
    + pose proof (Z.div_mod n 256). lia.
    + rewrite Nat2Z.inj_succ, Z.pow_succ_r in Hn by lia.
      split; [apply Z.div_pos; lia|]. apply Z.div_lt_upper_bound; lia.
Qed.

Lemma le_value_size_t n : 0 ≤ n < 2 ^ 64 → le_value (size_t_bytes n) = n.
Proof. intros Hn. apply le_value_le_bytes. by change (256 ^ Z.of_nat 8) with (2 ^ 64). Qed.

Lemma publish_frame a a' :
  ListBuffer.publish a = Ok a' →
  ListBuffer.rpos_ a' = ListBuffer.rpos_ a.
Proof.
  unfold ListBuffer.publish. intros H.
  apply bind_Ok in H as ([segs seg] & _ & H). by injection H as <-.
Qed.

Lemma write_cont_frame src (n : bool) a a' :
  ListBuffer.write_cont src n a = Ok a' → ListBuffer.rpos_ a' = ListBuffer.rpos_ a.
Proof.
  unfold ListBuffer.write_cont. destruct src as [|x src]; [by intros [= <-]|].
  intros H. apply bind_Ok in H as (a1 & Hadd & H).
  apply bind_Ok in H as (a2 & Hcopy & H).
  assert (H1 : ListBuffer.rpos_ a1 = ListBuffer.rpos_ a).
  { unfold ListBuffer.add_block_if_needed, ListBuffer.add_block in Hadd.
    case_bool_decide; [|by injection Hadd as <-].
    apply bind_Ok in Hadd as (a0 & Hp & Hadd). apply publish_frame in Hp.
    simpl in Hadd. destruct (ListBuffer.free_list_ a0); by injection Hadd as <-. }
  assert (H2 : ListBuffer.rpos_ a2 = ListBuffer.rpos_ a1).
  { unfold ListBuffer.copy_to_back in Hcopy.
    apply bind_Ok in Hcopy as ([segs seg] & _ & Hcopy).
    destruct seg.1; [|done]. apply bind_Ok in Hcopy as (blk' & _ & Hcopy).
    by injection Hcopy as <-. }
  destruct n.
  - apply publish_frame in H. simpl in H. congruence.
  - injection H as <-. simpl. congruence.
Qed.

(** [write_cont] puts a record behind the records of the buffer. *)
Lemma list_write_cont_record r (n : bool) a recs :
  lok a → list_records a recs → 0 < len r ≤ ListBuffer.block_size_ a →
  ∃ a', ListBuffer.write_cont r n a = Ok a' ∧ lok a' ∧
        list_records a' (recs ++ [r]) ∧ (n = true → published a') ∧
        ListBuffer.block_size_ a' = ListBuffer.block_size_ a.
Proof.
  intros Hlok Hrec Hlen.
  destruct (write_cont_ok a r n Hlok Hlen)
    as (a' & segs & tail & blk & blk' & Hbuf & Hrun & Hlok' & Hbuf' & Hblk & Hblit &
        Hslice & Hwp' & _ & Hbs').
  exists a'. split; [done|]. split; [done|].
  pose proof (write_cont_frame _ _ _ _ Hrun) as Hr.
  cbv zeta in *. unfold list_records in *. rewrite Hr, Hwp', Hbuf'. rewrite Hbuf in Hrec.
  destruct tail as [tb te]. simpl in *.
  split_and!; [| |done].
  - case_bool_decide as Hfits.
    + subst tb. by eapply aligned_append_fits.
    + rewrite <- app_assoc. simpl. rewrite Z.add_0_l.
      eapply aligned_append_spill; [done|done|done|].
      intros ->. unfold len in Hlen. simpl in Hlen. lia.
  - intros -> sg. rewrite Hbuf', last_snoc. intros [= <-]. simpl. lia.
Qed.

Lemma list_write_cont_string_records str a recs :
  lok a → list_records a recs → 0 < len str ≤ ListBuffer.block_size_ a →
  sizeof_size_t ≤ ListBuffer.block_size_ a →
  ∃ a', ListBuffer.write_cont_string str true a = Ok a' ∧ lok a' ∧ published a' ∧
        list_records a' (recs ++ [size_t_bytes (len str); str]) ∧
        ListBuffer.block_size_ a' = ListBuffer.block_size_ a.
Proof.
  intros Hlok Hrec Hlen Hbs.
  destruct (list_write_cont_record (size_t_bytes (len str)) false a recs Hlok Hrec)
    as (a1 & Hrun1 & Hlok1 & Hrec1 & _ & Hbs1); [done|].
  destruct (list_write_cont_record str true a1 _ Hlok1 Hrec1)
    as (a2 & Hrun2 & Hlok2 & Hrec2 & Hp2 & Hbs2); [lia|].
  exists a2. unfold ListBuffer.write_cont_string, ListBuffer.write_cont_value.
  rewrite Hrun1. simpl. split; [done|]. split; [done|]. split; [by apply Hp2|].
  split; [by rewrite <- app_assoc in Hrec2|congruence].
Qed.

(** A read of the length of the first record returns the record. *)
Lemma list_read_record a r recs :
  lok a → published a → list_records a (r :: recs) →
  ∃ a', ListBuffer.read (len r) a = Ok (r, a') ∧ lok a' ∧ published a' ∧
        list_records a' recs ∧
        ListBuffer.block_size_ a' = ListBuffer.block_size_ a.
Proof.
  intros Hlok Hp Hrec. unfold list_records in *.
  pose proof Hlok as (_ & (Hbs0 & _ & Hgood & _ & _ & _ & Hhead)).
  pose proof (len_nonneg r) as Hr0.
  inversion Hrec as [|rpos seg rest blk r0 recs0 Hblk Hsl Hlim Hal Hrp Hbuf
                     |rpos seg seg2 rest blk r0 recs0 Hrp Hne Hblk Hsl Hlim Hal Hrp' Hbuf];
    subst; symmetry in Hbuf.
  - rewrite Hbuf in Hgood, Hhead. specialize (Hhead seg eq_refl).
    apply Forall_cons in Hgood as ((_ & Hrg) & _).
    assert (Hfit : ListBuffer.rpos_ a + len r ≤ seg.2).
    { destruct rest; simpl in Hlim; [|done].
      specialize (Hp seg). rewrite Hbuf in Hp. specialize (Hp eq_refl). lia. }
    unfold ListBuffer.read.
    rewrite (pop_block_if_needed_cases (len r) a seg rest Hlok Hbuf).
    rewrite bool_decide_eq_false_2 by (intros [_ ?]; lia). simpl.
    unfold ListBuffer.peek. rewrite Hbuf. simpl. rewrite Hblk, Hsl. simpl.
    eexists. split; [reflexivity|]. rewrite (wrap_small (_ + len r)) by lia.
    split_and!; simpl; try done.
    + pose proof (lok_advance_rpos a seg rest (len r) Hlok Hbuf Hr0 Hfit) as H.
      by rewrite (wrap_small (_ + len r)) in H by lia.
    + by rewrite Hbuf.
  - rewrite Hbuf in Hgood. apply Forall_cons in Hgood as ((_ & Hrg) & Hgood).
    apply Forall_cons in Hgood as ((_ & Hrg2) & _).
    assert (Hpos : 0 < len r).
    { destruct r; [done|]. unfold len. simpl. lia. }
    assert (Hfit : len r ≤ seg2.2).
    { destruct rest; simpl in Hlim; [|done].
      specialize (Hp seg2). rewrite Hbuf in Hp. specialize (Hp eq_refl). lia. }
    destruct (pop_block_if_needed_ok (len r) a Hlok) as (a1 & Hpop & Hlok1 & _).
    unfold ListBuffer.read. rewrite Hpop. simpl.
    rewrite (pop_block_if_needed_cases (len r) a seg (seg2 :: rest) Hlok Hbuf) in Hpop.
    rewrite bool_decide_eq_true_2 in Hpop by (split; [done|lia]).
    injection Hpop as <-.
    unfold ListBuffer.peek. simpl. rewrite Hblk, Hsl. simpl.
    eexists. split; [reflexivity|]. rewrite (wrap_small (0 + len r)) by lia.
    split_and!; simpl; try done.
    + match type of Hlok1 with lok ?x =>
        pose proof (lok_advance_rpos x seg2 rest (len r) Hlok1 eq_refl Hr0) as H end.
      simpl in H. rewrite (wrap_small (0 + len r)) in H by lia. apply H. lia.
    + intros sg Hl. apply Hp. rewrite Hbuf. simpl in Hl. by rewrite last_cons, Hl.
Qed.

(** [get_string] of a length prefix and the record it announces returns
    the record. *)
Lemma list_get_string_record a p r recs :
  lok a → published a → list_records a (p :: r :: recs) →
  len p = sizeof_size_t → le_value p = len r →
  ∃ a', ListBuffer.get_string a = Ok (r, a') ∧ lok a' ∧ published a' ∧
        list_records a' recs ∧
        ListBuffer.block_size_ a' = ListBuffer.block_size_ a.
Proof.
  intros Hlok Hp Hrec Hlen Hval.
  destruct (list_read_record a p (r :: recs) Hlok Hp Hrec)
    as (a1 & Hread1 & Hlok1 & Hp1 & Hrec1 & Hbs1).
  destruct (list_read_record a1 r recs Hlok1 Hp1 Hrec1)
    as (a2 & Hread2 & Hlok2 & Hp2 & Hrec2 & Hbs2).
  unfold ListBuffer.get_string. rewrite <- Hlen, Hread1. simpl. rewrite Hval.
  unfold ListBuffer.read in Hread2.
  apply bind_Ok in Hread2 as (x & -> & Hread2). simpl.
  apply bind_Ok in Hread2 as (v & -> & [= -> <-]). simpl.
  match goal with |- context [ListBuffer.clear_preserved ?n ?y] =>
    destruct (clear_preserved_ok n y Hlok2) as (a4 & -> & Hlok4 & Hbuf4 & Hbs4 & Hr4 & Hwp4 & _)
  end.
  simpl. exists a4. split; [done|]. split; [done|].
  unfold published, list_records in *. rewrite Hbuf4, Hwp4, Hr4, Hbs4.
  split; [done|]. split; [done|]. simpl in *. congruence.
Qed.

End RecordFacts.

Module SPSCRecords.
Import SPSCQueue SPSCQueueFacts.
Import SPSCBlockBuffer SPSCAbs SPSCFacts SPSCInvariants Consistency ListFacts.
Import Compare Stream StreamFacts SPSCCalls SPSCStream Records RecordFacts.

Lemma holds_records_consistent s q : holds_records s q → consistent s.
Proof. intros (a & Ha & Hlok & _). apply (abs_consistent _ _ Ha), Hlok. Qed.

(** A buffer whose [empty()] is true, with everything published, holds no
    record. *)
Lemma holds_records_empty s :
  SPSCApi.reachable s → consistent s → all_published s → empty_const s = Ok true →
  holds_records s [].
Proof.
  intros Hreach Hc Hp He. destruct (reachable_abs s Hreach) as (a & Ha).
  pose proof (abs_lok _ _ Ha Hc) as Hok.
  pose proof (proj1 (abs_published _ _ Ha) Hp) as Hpa.
  exists a. split; [done|]. split; [done|]. split; [done|].
  pose proof (empty_const_sim s a Ha) as Hsim. rewrite He in Hsim.
  destruct (ListBuffer.empty_const a) as [b|] eqn:Hl; simpl in Hsim; [subst b|done].
  unfold ListBuffer.empty_const, ListBuffer.check_one_block_left, ListBuffer.published in Hl.
  destruct (ListBuffer.one_block_left_ a); [|done].
  destruct (ListBuffer.buf_ a) as [|seg [|s2 rest]] eqn:Hbuf; simpl in Hl; try done.
  injection Hl as Hl. apply bool_decide_eq_true in Hl.
  unfold list_records. rewrite Hbuf. apply aligned_nil.
  specialize (Hpa seg). rewrite Hbuf in Hpa. specialize (Hpa eq_refl). congruence.
Qed.

Lemma run_op_fifo o s q :
  holds_records s q → fits (block_size_ s) o →
  match o with
  | Put r => ∃ s', run_op o s = Ok (None, s') ∧ holds_records s' (q ++ [r]) ∧
                   block_size_ s' = block_size_ s
  | PutString str =>
      ∃ s', run_op o s = Ok (None, s') ∧
            holds_records s' (q ++ [size_t_bytes (len str); str]) ∧
            block_size_ s' = block_size_ s
  | Take n =>
      ∀ r q', q = r :: q' → len r = n →
        ∃ s', run_op o s = Ok (Some r, s') ∧ holds_records s' q' ∧
              block_size_ s' = block_size_ s
  | TakeString =>
      ∀ p r q', q = p :: r :: q' → len p = sizeof_size_t → le_value p = len r →
        ∃ s', run_op o s = Ok (Some r, s') ∧ holds_records s' q' ∧
              block_size_ s' = block_size_ s
  end.
Proof.
  intros (a & Ha & Hlok & Hp & Hrec) Hfits.
  destruct (abs_scalars _ _ Ha) as (Hbs & _).
  destruct o as [r|str|n|]; simpl in Hfits; rewrite ?Hbs in Hfits.
  - destruct (list_write_cont_record r true a q Hlok Hrec Hfits)
      as (a' & Hrun & Hlok' & Hrec' & Hp' & Hbs').
    destruct (simR_Ok_inv_r _ _ _ _ (write_cont_sim r true s a Ha) Hrun)
      as (s' & Hrun' & Ha').
    exists s'. simpl. rewrite Hrun'. split; [done|].
    destruct (abs_scalars _ _ Ha') as (-> & _). split; [|congruence].
    exists a'. split_and!; try done. by apply Hp'.
  - destruct Hfits as (Hlen & Hpre).
    destruct (list_write_cont_string_records str a q Hlok Hrec Hlen Hpre)
      as (a' & Hrun & Hlok' & Hp' & Hrec' & Hbs').
    destruct (simR_Ok_inv_r _ _ _ _ (write_cont_string_sim str true s a Ha) Hrun)
      as (s' & Hrun' & Ha').
    exists s'. simpl. rewrite Hrun'. split; [done|].
    destruct (abs_scalars _ _ Ha') as (-> & _). split; [|congruence].
    by exists a'.
  - intros r q' -> <-.
    destruct (list_read_record a r q' Hlok Hp Hrec)
      as (a' & Hrun & Hlok' & Hp' & Hrec' & Hbs').
    destruct (simR_Ok_inv_r _ _ _ _ (read_sim (len r) s a Ha) Hrun)
      as ([v s'] & Hrun' & Hv & Ha'). simpl in *. subst v.
    exists s'. unfold read_cont. rewrite Hrun'. split; [done|].
    destruct (abs_scalars _ _ Ha') as (-> & _). split; [|congruence].
    by exists a'.
  - intros p r q' -> Hlen Hval.
    destruct (list_get_string_record a p r q' Hlok Hp Hrec Hlen Hval)
      as (a' & Hrun & Hlok' & Hp' & Hrec' & Hbs').
    destruct (simR_Ok_inv_r _ _ _ _ (get_string_sim s a Ha) Hrun)
      as ([v s'] & Hrun' & Hv & Ha'). simpl in *. subst v.
    exists s'. rewrite Hrun'. split; [done|].
    destruct (abs_scalars _ _ Ha') as (-> & _). split; [|congruence].
    by exists a'.
Qed.

Lemma run_ops_fifo ops : ∀ s q outs,
  holds_records s q → Forall (fits (block_size_ s)) ops →
  fifo ops q = Some outs →
  ∃ s' q', run_ops ops s = Ok (outs, s') ∧ holds_records s' q'.
Proof.
  induction ops as [|o ops IH]; intros s q outs Hq Hfits Hfifo.
  - injection Hfifo as <-. by exists s, q.
  - apply Forall_cons in Hfits as (Hfit & Hfits).
    pose proof (run_op_fifo o s q Hq Hfit) as Hstep.
    destruct o as [r|str|n|]; simpl in Hfifo.
    + destruct Hstep as (s1 & Hrun & Hq1 & Hbs). rewrite <- Hbs in Hfits.
      destruct (IH _ _ _ Hq1 Hfits Hfifo) as (s' & q' & Hruns & Hq').
      exists s', q'. split; [|done].
      change (run_ops (Put r :: ops) s)
        with ('(v, s1) ← run_op (Put r) s; '(vs, s2) ← run_ops ops s1;
              Ok (match v with Some x => x :: vs | None => vs end, s2)).
      rewrite Hrun. simpl. by rewrite Hruns.
    + destruct Hstep as (s1 & Hrun & Hq1 & Hbs). rewrite <- Hbs in Hfits.
      destruct (IH _ _ _ Hq1 Hfits Hfifo) as (s' & q' & Hruns & Hq').
      exists s', q'. split; [|done].
      change (run_ops (PutString str :: ops) s)
        with ('(v, s1) ← run_op (PutString str) s; '(vs, s2) ← run_ops ops s1;
              Ok (match v with Some x => x :: vs | None => vs end, s2)).
      rewrite Hrun. simpl. by rewrite Hruns.
    + destruct q as [|r q1]; [done|]. case_bool_decide as Hn; [|done].
      destruct (fifo ops q1) as [outs1|] eqn:Hf; [|done]. injection Hfifo as <-.
      destruct (Hstep r q1 eq_refl Hn) as (s1 & Hrun & Hq1 & Hbs). rewrite <- Hbs in Hfits.
      destruct (IH _ _ _ Hq1 Hfits Hf) as (s' & q' & Hruns & Hq').
      exists s', q'. split; [|done].
      change (run_ops (Take n :: ops) s)
        with ('(v, s1) ← run_op (Take n) s; '(vs, s2) ← run_ops ops s1;
              Ok (match v with Some x => x :: vs | None => vs end, s2)).
      rewrite Hrun. simpl. by rewrite Hruns.
    + destruct q as [|p [|r q1]]; try done. case_bool_decide as Hn; [|done].
      destruct Hn as (Hlen & Hval).
      destruct (fifo ops q1) as [outs1|] eqn:Hf; [|done]. injection Hfifo as <-.
      destruct (Hstep p r q1 eq_refl Hlen Hval) as (s1 & Hrun & Hq1 & Hbs).
      rewrite <- Hbs in Hfits.
      destruct (IH _ _ _ Hq1 Hfits Hf) as (s' & q' & Hruns & Hq').
      exists s', q'. split; [|done].
      change (run_ops (TakeString :: ops) s)
        with ('(v, s1) ← run_op TakeString s; '(vs, s2) ← run_ops ops s1;
              Ok (match v with Some x => x :: vs | None => vs end, s2)).
      rewrite Hrun. simpl. by rewrite Hruns.
Qed.

(** X9.  A buffer used with [write_cont] is a first-in first-out queue of
    records.  From a reachable, well-sized buffer with everything
    published whose [empty()] is true, take any sequence of [write_cont]
    of ranges, typed values and strings (none empty, none longer than a
    block), of [read<T>] / [read_cont] and of [get_string], in which every
    read asks for the length of the oldest record not yet read: every call
    returns, and the reads return the records whole, in the order they
    were written, however the records fell on the blocks. *)
Theorem contiguous_records_are_fifo s ops outs :
  SPSCApi.reachable s → consistent s → all_published s → empty_const s = Ok true →
  Forall (fits (block_size_ s)) ops → fifo ops [] = Some outs →
  ∃ s', run_ops ops s = Ok (outs, s') ∧ consistent s'.
Proof.
  intros Hreach Hc Hp He Hfits Hfifo.
  destruct (run_ops_fifo ops s [] outs (holds_records_empty s Hreach Hc Hp He) Hfits Hfifo)
    as (s' & q' & Hrun & Hq').
  exists s'. split; [done|]. by apply (holds_records_consistent s' q').
Qed.

Lemma contiguous_records_are_fifo_witness :
  ∃ s', run_ops [Put Examples.hello; PutString Examples.hello; Take 5; TakeString]
          Scenario.fresh = Ok ([Examples.hello; Examples.hello], s').
Proof.
  destruct fresh_ok as (_ & Hreach & Hc & Hp).
  destruct (contiguous_records_are_fifo Scenario.fresh
              [Put Examples.hello; PutString Examples.hello; Take 5; TakeString]
              [Examples.hello; Examples.hello] Hreach Hc Hp) as (s' & Hrun & _).
  - by vm_compute.
  - repeat constructor; by vm_compute.
  - by vm_compute.
  - by exists s'.
Defined.

End SPSCRecords.

(** ** The empty string written contiguously *)

Module EmptyString.
Import SPSCQueue SPSCQueueFacts.
Import SPSCBlockBuffer SPSCAbs SPSCFacts SPSCInvariants Consistency ListFacts.
Import Compare Stream StreamFacts SPSCCalls SPSCStream RecordFacts.

Lemma blit_take_below blk lim src blk' n :
  blit blk lim src = Ok blk' → n ≤ lim →
  take (Z.to_nat n) blk' = take (Z.to_nat n) blk.
Proof.
  unfold blit. case_bool_decide as Hb; [|done]. intros [= <-] Hn.
  rewrite take_app_le by (rewrite length_take; unfold len in *; lia).
  rewrite take_take. f_equal. lia.
Qed.

(** [write_cont] without [notify]: the bytes are written, and what is
    published is as before. *)
Lemma list_write_cont_unpublished src a :
  lok a → published a → 0 < len src ≤ ListBuffer.block_size_ a →
  ∃ a', ListBuffer.write_cont src false a = Ok a' ∧ lok a' ∧
        list_unread a' = list_unread a ∧ ¬ published a' ∧
        list_written a' = list_written a ++ src.
Proof.
  intros Hlok Hp Hlen.
  destruct (write_cont_ok a src false Hlok Hlen)
    as (a' & segs & tail & blk & blk' & Hbuf & Hrun & Hlok' & Hbuf' & Hblk & Hblit &
        Hslice & Hwp' & _ & Hbs').
  exists a'. split; [done|]. split; [done|].
  pose proof (write_cont_frame _ _ _ _ Hrun) as Hr.
  pose proof (Hp tail) as Hpt. rewrite Hbuf, last_snoc in Hpt. specialize (Hpt eq_refl).
  pose proof Hlok as (_ & (_ & Hwp0 & _)).
  cbv zeta in *. destruct tail as [tb te]. simpl in *. subst te.
  case_bool_decide as Hfits.
  - subst tb. split_and!.
    + unfold list_unread, unread_of. rewrite Hr, Hbuf, Hbuf', !join_snoc.
      unfold seg_bytes. simpl.
      by rewrite (blit_take_below _ _ _ _ _ Hblit (Z.le_refl _)).
    + intros Hp'. specialize (Hp' (Some blk', ListBuffer.wpos_private_ a)).
      rewrite Hbuf', last_snoc in Hp'. specialize (Hp' eq_refl). simpl in Hp'. lia.
    + unfold list_written. rewrite Hbuf, Hbuf', Hwp', !written_of_snoc.
      unfold seg_bytes. simpl. by rewrite (blit_take _ _ _ _ Hblit), app_assoc.
  - split_and!.
    + unfold list_unread, unread_of. rewrite Hr, Hbuf, Hbuf', !join_snoc.
      unfold seg_bytes at 3. simpl. by rewrite app_nil_r.
    + intros Hp'. specialize (Hp' (Some blk', 0)).
      rewrite Hbuf', last_snoc in Hp'. specialize (Hp' eq_refl). simpl in Hp'. lia.
    + unfold list_written. rewrite Hbuf, Hbuf', Hwp', !written_of_snoc, join_snoc.
      unfold seg_bytes at 3 4. simpl.
      pose proof (blit_take _ _ _ _ Hblit) as Ht. simpl in Ht. by rewrite Ht.
Qed.

(** X10.  On a reachable, well-sized buffer with everything published and
    blocks that hold a [size_t], [write_cont] of the empty string returns
    with the length prefix written and not published, although [notify] was
    asked for: the write of the empty payload returns before [notify()].
    The unread bytes are as before, and a later [notify()] adds the eight
    bytes of the prefix to them. *)
Theorem write_cont_empty_string_not_published s :
  SPSCApi.reachable s → consistent s → all_published s →
  sizeof_size_t ≤ block_size_ s →
  ∃ s', write_cont_string [] true s = Ok s' ∧
        unread s' = unread s ∧ ¬ all_published s' ∧ consistent s' ∧
        ∃ s'', notify s' = Ok s'' ∧ unread s'' = unread s ++ size_t_bytes 0 ∧
               all_published s''.
Proof.
  intros Hreach Hc Hp Hbs. destruct (reachable_abs s Hreach) as (a & Ha).
  pose proof (abs_lok _ _ Ha Hc) as Hok.
  pose proof (proj1 (abs_published _ _ Ha) Hp) as Hpa.
  destruct (abs_scalars _ _ Ha) as (Hbs' & _). rewrite Hbs' in Hbs.
  destruct (list_write_cont_unpublished (size_t_bytes 0) a Hok Hpa)
    as (a' & Hrun & Hok' & Hu & Hnp & Hw); [done|].
  assert (Hrun2 : ListBuffer.write_cont_string [] true a = Ok a').
  { unfold ListBuffer.write_cont_string, ListBuffer.write_cont_value.
    change (len []) with 0. by rewrite Hrun. }
  destruct (simR_Ok_inv_r _ _ _ _ (write_cont_string_sim [] true s a Ha) Hrun2)
    as (s' & Hrun' & Ha').
  exists s'. split; [done|].
  rewrite (abs_unread _ _ Ha), (abs_unread _ _ Ha'). split; [done|].
  split; [by rewrite (abs_published _ _ Ha')|].
  split; [apply (abs_consistent _ _ Ha'), Hok'|].
  destruct (publish_written a' Hok') as (a2 & Hpub & Hok2 & Hp2 & Hw2 & Hr2 & _).
  destruct (simR_Ok_inv_r _ _ _ _ (notify_sim s' a' Ha') Hpub) as (s2 & Hn & Ha2).
  exists s2. split; [done|]. rewrite (abs_unread _ _ Ha2).
  split; [|by apply (abs_published _ _ Ha2)].
  apply unread_appended; try done.
  - rewrite Hr2. by apply (write_cont_frame _ _ _ _ Hrun).
  - by rewrite Hw2.
Qed.

Lemma write_cont_empty_string_not_published_witness :
  ∃ s', write_cont_string [] true Scenario.fresh = Ok s' ∧
        unread s' = unread Scenario.fresh ∧ ¬ all_published s'.
Proof.
  destruct fresh_ok as (_ & Hreach & Hc & Hp).
  destruct (write_cont_empty_string_not_published Scenario.fresh Hreach Hc Hp)
    as (s' & Hrun & Hu & Hnp & _); [by vm_compute|].
  by exists s'.
Defined.

End EmptyString.

(** ** The linear buffer *)

Module BufferFacts.
Import Buffer ListFacts.

Lemma blit_pending buf wpos rpos src b :
  0 ≤ rpos ≤ wpos → blit buf wpos src = Ok b →
  len b = len buf ∧
  take (Z.to_nat (wpos + len src - rpos)) (drop (Z.to_nat rpos) b) =
    take (Z.to_nat (wpos - rpos)) (drop (Z.to_nat rpos) buf) ++ src.
Proof.
  intros Hr Hblit. unfold blit in Hblit. case_bool_decide as Hfit; [|done].
  injection Hblit as <-. unfold len in *. split.
  - rewrite !length_app, length_take, length_drop. lia.
  - rewrite drop_app_le by (rewrite length_take; lia).
    rewrite app_assoc.
    rewrite take_app_length'.
    + by rewrite take_drop_commute, Nat.add_comm, <- Z2Nat.inj_add, Z.sub_add by lia.
    + rewrite length_app, length_drop, length_take. lia.
Qed.

Lemma write_value_ok s repr :
  wf s → wpos_ s + len repr ≤ capacity s →
  ∃ s', write_value repr s = Ok s' ∧ wf s' ∧ pending s' = pending s ++ repr ∧
        capacity s' = capacity s ∧ rpos_ s' = rpos_ s ∧
        wpos_ s' = wpos_ s + len repr.
Proof.
  intros (Hr & Hw & Hcap) Hfit. unfold capacity in *.
  pose proof (len_nonneg repr) as Hl.
  destruct (blit_Ok (buf_ s) (wpos_ s) repr) as (b & Hblit & Hlen & _); [lia..|].
  destruct (blit_pending _ _ (rpos_ s) _ _ Hr Hblit) as (_ & Hp).
  unfold write_value. rewrite Hblit. simpl. eexists. split; [reflexivity|].
  rewrite (wrap_small (_ + len repr)) by lia.
  unfold wf, pending. simpl. rewrite Hlen. split_and!; try done; try lia.
Qed.

(** X11.  The linear buffer never grows on a write.  On a buffer whose
    cursors are in order, [write<T>] and [write(std::string)] return
    exactly when the bytes fit behind the write cursor in the vector as it
    is, and they then append the bytes of the value, for a string its
    length as a [size_t] and then its bytes, to the bytes written and not
    read; when they do not fit, the copy runs past the vector. *)
Theorem linear_write_within_capacity s repr :
  wf s → len repr < 2 ^ 64 →
  (wpos_ s + len repr ≤ capacity s →
     ∃ s', write_value repr s = Ok s' ∧ wf s' ∧ pending s' = pending s ++ repr ∧
           capacity s' = capacity s) ∧
  (capacity s < wpos_ s + len repr → write_value repr s = Fail Undefined) ∧
  (wpos_ s + sizeof_size_t + len repr ≤ capacity s →
     ∃ s', write_string repr s = Ok s' ∧ wf s' ∧
           pending s' = pending s ++ size_t_bytes (len repr) ++ repr ∧
           capacity s' = capacity s) ∧
  (capacity s < wpos_ s + sizeof_size_t + len repr →
     write_string repr s = Fail Undefined).
Proof.
  intros Hwf Hlen. pose proof Hwf as (Hr & Hw & Hcap).
  pose proof (len_nonneg repr) as Hl. unfold capacity in *.
  assert (H8 : len (size_t_bytes (len repr)) = 8) by done.
  unfold sizeof_size_t. split_and!.
  - intros Hfit. destruct (write_value_ok s repr Hwf Hfit) as (s' & ? & ? & ? & ? & _).
    by exists s'.
  - intros Hover. unfold write_value, blit.
    by rewrite bool_decide_eq_false_2 by lia.
  - intros Hfit.
    destruct (write_value_ok s (size_t_bytes (len repr)) Hwf) as
      (s1 & Hrun1 & Hwf1 & Hp1 & Hcap1 & Hr1 & Hw1); [unfold capacity; lia|].
    destruct (write_value_ok s1 repr Hwf1) as (s2 & Hrun2 & Hwf2 & Hp2 & Hcap2 & _);
      [unfold capacity in *; lia|].
    unfold write_string. rewrite Hrun1. simpl.
    unfold write_value in Hrun2. exists s2. split; [exact Hrun2|].
    split; [done|]. split; [by rewrite Hp2, Hp1, <- app_assoc|].
    unfold capacity in *. congruence.
  - intros Hover. unfold write_string.
    destruct (Z.le_gt_cases (wpos_ s + 8) (len (buf_ s))) as [Hpre|Hpre].
    + destruct (write_value_ok s (size_t_bytes (len repr)) Hwf) as
        (s1 & Hrun1 & Hwf1 & Hp1 & Hcap1 & Hr1 & Hw1); [unfold capacity; lia|].
      rewrite Hrun1. simpl. unfold blit. unfold capacity in *.
      by rewrite bool_decide_eq_false_2 by lia.
    + unfold write_value, blit. by rewrite bool_decide_eq_false_2 by lia.
Qed.

Lemma linear_write_within_capacity_witness :
  ∃ s', write_string Examples.hello (create 16) = Ok s' ∧
        pending s' = pending (create 16) ++ size_t_bytes 5 ++ Examples.hello.
Proof.
  destruct (linear_write_within_capacity (create 16) Examples.hello)
    as (_ & _ & Hstr & _); [by vm_compute..|].
  destruct Hstr as (s' & Hrun & _ & Hp & _); [by vm_compute|].
  by exists s'.
Defined.

Lemma pending_take_drop s n :
  wf s → 0 ≤ n → rpos_ s + n ≤ wpos_ s →
  slice (buf_ s) (rpos_ s) n = Ok (take (Z.to_nat n) (pending s)) ∧
  pending (with_rpos s (rpos_ s + n)) = drop (Z.to_nat n) (pending s).
Proof.
  intros (Hr & Hw & Hcap) Hn Hfit. unfold slice, pending. simpl.
  rewrite bool_decide_eq_true_2 by lia. split.
  - f_equal. rewrite take_take. f_equal. lia.
  - replace (Z.to_nat (rpos_ s + n)) with (Z.to_nat (rpos_ s) + Z.to_nat n)%nat by lia.
    rewrite <- drop_drop, take_drop_commute. do 2 f_equal. lia.
Qed.

(** X12.  [read<T>] on a buffer whose cursors are in order, with the read
    cursor at an element of the vector: when [sizeof(T)] bytes were
    written and not read it returns them, the oldest first.  It does not
    look at the write cursor: when fewer were written and the vector is
    long enough it returns all the same, with bytes nobody wrote, and
    leaves the read cursor past the write cursor, so that [remaining()]
    wraps around and [empty()] is false. *)
Theorem linear_read_next_bytes s n :
  wf s → 0 < n →
  (rpos_ s + n ≤ wpos_ s →
     ∃ s', read n s = Ok (take (Z.to_nat n) (pending s), s') ∧ wf s' ∧
           pending s' = drop (Z.to_nat n) (pending s)) ∧
  (wpos_ s < rpos_ s + n ≤ capacity s →
     ∃ v s', read n s = Ok (v, s') ∧ rpos_ s' = rpos_ s + n ∧
             remaining s' = 2 ^ 64 - (rpos_ s + n - wpos_ s) ∧ empty s' = false).
Proof.
  intros Hwf Hn. pose proof Hwf as (Hr & Hw & Hcap). unfold capacity. split.
  - intros Hfit. destruct (pending_take_drop s n Hwf ltac:(lia) Hfit) as (Hs & Hp).
    unfold read, element_at. rewrite bool_decide_eq_true_2 by lia. simpl.
    rewrite Hs. simpl. rewrite (wrap_small (_ + n)) by lia.
    eexists. split; [reflexivity|]. split; [|done].
    unfold wf. simpl. lia.
  - intros Hover. destruct (slice_Ok (buf_ s) (rpos_ s) n) as (v & Hs & _); [lia..|].
    unfold read, element_at. rewrite bool_decide_eq_true_2 by lia. simpl.
    rewrite Hs. simpl. rewrite (wrap_small (_ + n)) by lia.
    eexists _, _. split; [reflexivity|]. simpl. split; [done|].
    unfold remaining, empty. simpl. split.
    + unfold wrap.
      replace (wpos_ s - (rpos_ s + n)) with
        ((2 ^ 64 - (rpos_ s + n - wpos_ s)) + (-1) * 2 ^ 64) by lia.
      rewrite Z.mod_add by lia. apply Z.mod_small. lia.
    + apply bool_decide_eq_false_2. lia.
Qed.

Lemma linear_read_next_bytes_witness :
  ∃ v s', read 4 (create 16) = Ok (v, s') ∧ rpos_ s' = 4 ∧
          remaining s' = 2 ^ 64 - 4.
Proof.
  destruct (linear_read_next_bytes (create 16) 4) as (_ & Hpast);
    [by vm_compute|lia|].
  destruct Hpast as (v & s' & Hrun & Hr & Hrem & _); [by vm_compute|].
  by exists v, s'.
Defined.

Lemma pending_len s : wf s → len (pending s) = wpos_ s - rpos_ s.
Proof.
  intros (Hr & Hw & Hcap). unfold pending, len in *.
  rewrite length_take, length_drop. lia.
Qed.

Lemma take_len_app {A} (l k : list A) : take (Z.to_nat (len l)) (l ++ k) = l.
Proof. unfold len. rewrite Nat2Z.id. apply take_app_length. Qed.

Lemma drop_len_app {A} (l k : list A) : drop (Z.to_nat (len l)) (l ++ k) = k.
Proof. unfold len. rewrite Nat2Z.id. apply drop_app_length. Qed.

Lemma get_string_pending s str rest :
  wf s → pending s = size_t_bytes (len str) ++ str ++ rest → len str < 2 ^ 64 →
  rpos_ s + sizeof_size_t < capacity s →
  ∃ s', get_string s = Ok (str, s') ∧ wf s' ∧ pending s' = rest.
Proof.
  intros Hwf Hp Hlen Hcap'. pose proof Hwf as (Hr & Hw & Hcap).
  pose proof (pending_len s Hwf) as Hpl. rewrite Hp, !len_app in Hpl.
  change (len (size_t_bytes (len str))) with 8 in Hpl.
  pose proof (len_nonneg str) as Hs0. pose proof (len_nonneg rest) as Hr0.
  unfold sizeof_size_t, capacity in *.
  destruct (pending_take_drop s 8 Hwf ltac:(lia) ltac:(lia)) as (Hs1 & Hp1).
  rewrite Hp in Hs1, Hp1.
  change (take (Z.to_nat 8) (size_t_bytes (len str) ++ str ++ rest))
    with (size_t_bytes (len str)) in Hs1.
  change (drop (Z.to_nat 8) (size_t_bytes (len str) ++ str ++ rest))
    with (str ++ rest) in Hp1.
  pose proof (RecordFacts.le_value_size_t (len str) ltac:(lia)) as Hval.
  set (p := size_t_bytes (len str)) in *. clearbody p.
  unfold get_string, read, element_at, sizeof_size_t.
  rewrite bool_decide_eq_true_2 by lia. simpl.
  rewrite Hs1. simpl. rewrite (wrap_small (_ + 8)) by lia.
  rewrite bool_decide_eq_true_2 by lia. simpl. rewrite Hval.
  set (s1 := with_rpos s (rpos_ s + 8)) in *.
  assert (Hwf1 : wf s1) by (unfold wf, s1; simpl; lia).
  destruct (pending_take_drop s1 (len str) Hwf1 Hs0) as (Hs2 & Hp2);
    [unfold s1; simpl; lia|].
  rewrite Hp1 in Hs2, Hp2. rewrite take_len_app in Hs2. rewrite drop_len_app in Hp2.
  replace (buf_ s) with (buf_ s1) by done.
  replace (rpos_ s + 8) with (rpos_ s1) by done.
  rewrite Hs2. simpl. rewrite (wrap_small (_ + len str)) by (unfold s1; simpl; lia).
  eexists. split; [reflexivity|]. split; [|exact Hp2].
  unfold wf, s1. simpl. lia.
Qed.

(** X13.  On a linear buffer with nothing left to read and room for the
    length prefix and the bytes, [write(std::string)] followed by
    [get_string()] returns the string.  One case apart: the empty string
    whose prefix ends where the vector ends; [get_string()] then takes the
    address of [buf_[rpos_]] with [rpos_] equal to the size of the vector,
    an element that does not exist. *)
Theorem linear_string_round_trip s str :
  wf s → rpos_ s = wpos_ s → len str < 2 ^ 64 →
  wpos_ s + sizeof_size_t + len str ≤ capacity s →
  ∃ s1, write_string str s = Ok s1 ∧
    (wpos_ s + sizeof_size_t < capacity s →
       ∃ s2, get_string s1 = Ok (str, s2) ∧ wf s2 ∧ pending s2 = [] ∧ empty s2 = true) ∧
    (wpos_ s + sizeof_size_t = capacity s → get_string s1 = Fail Undefined).
Proof.
  intros Hwf Hdr Hlen Hfit.
  destruct (linear_write_within_capacity s str Hwf Hlen) as (_ & _ & Hstr & _).
  destruct (Hstr Hfit) as (s1 & Hrun & Hwf1 & Hp1 & Hcap1).
  assert (Hnil : pending s = []).
  { unfold pending. rewrite Hdr, Z.sub_diag. apply take_0. }
  rewrite Hnil in Hp1. simpl in Hp1.
  assert (Hr1 : rpos_ s1 = rpos_ s ∧ wpos_ s1 = wpos_ s + 8 + len str).
  { unfold write_string, write_value in Hrun.
    apply bind_Ok in Hrun as (s0 & Hrun0 & Hrun).
    apply bind_Ok in Hrun0 as (b0 & _ & [= <-]).
    apply bind_Ok in Hrun as (b1 & _ & [= <-]). simpl.
    pose proof Hwf as (? & ? & ?). pose proof (len_nonneg str). unfold capacity, sizeof_size_t in *.
    change (len (size_t_bytes (len str))) with 8.
    rewrite (wrap_small (wpos_ s + 8)) by lia. rewrite wrap_small by lia. done. }
  destruct Hr1 as (Hr1 & Hw1).
  exists s1. split; [done|]. split.
  - intros Hroom.
    destruct (get_string_pending s1 str [] Hwf1) as (s2 & Hget & Hwf2 & Hp2);
      [by rewrite app_nil_r|done|rewrite Hr1, Hdr, Hcap1; lia|].
    exists s2. split; [done|]. split; [done|]. split; [done|].
    pose proof (pending_len s2 Hwf2) as Hl. rewrite Hp2 in Hl.
    apply bool_decide_eq_true_2. change (len []) with 0 in Hl. lia.
  - intros Hend. pose proof (len_nonneg str) as Hs0.
    assert (Hstr0 : len str = 0) by lia.
    pose proof Hwf1 as (? & ? & ?). unfold capacity, sizeof_size_t in *.
    destruct (pending_take_drop s1 8 Hwf1 ltac:(lia) ltac:(lia)) as (Hs1 & _).
    unfold get_string, read, element_at, sizeof_size_t.
    rewrite bool_decide_eq_true_2 by lia. simpl. rewrite Hs1. simpl.
    rewrite (wrap_small (_ + 8)) by lia.
    by rewrite bool_decide_eq_false_2 by lia.
Qed.

Lemma linear_string_round_trip_witness :
  ∃ s1 s2, write_string Examples.hello (create 16) = Ok s1 ∧
           get_string s1 = Ok (Examples.hello, s2).
Proof.
  destruct (linear_string_round_trip (create 16) Examples.hello)
    as (s1 & Hrun & Hget & _); [by vm_compute..|].
  destruct Hget as (s2 & Hget & _); [by vm_compute|].
  by exists s1, s2.
Defined.

(** X14.  The descriptor calls of the linear buffer, on a buffer whose
    cursors are in order.  [input_from_fd] with room behind the write
    cursor stores what [::read] delivers, up to the room, behind the bytes
    written, and returns their number; [output_to_fd] with the read cursor
    at an element hands [::write] the oldest bytes not read, takes off what
    it accepted, and its assertion holds.  With the write cursor at the end
    of the vector [input_from_fd], and with the read cursor at the end of
    the vector [output_to_fd], take the address of an element that does not
    exist: a buffer filled and emptied once can do neither. *)
Theorem linear_fd_calls s :
  wf s →
  (wpos_ s < capacity s → ∀ data,
     let got := take (Z.to_nat (capacity s - wpos_ s)) data in
     ∃ s', input_from_fd (ReadData data) s = Ok (len got, s') ∧ wf s' ∧
           pending s' = pending s ++ got) ∧
  (wpos_ s = capacity s → ∀ ans, input_from_fd ans s = Fail Undefined) ∧
  (rpos_ s < capacity s → ∀ room,
     let n := Z.min (Z.of_nat room) (wpos_ s - rpos_ s) in
     ∃ s', output_to_fd (WriteRoom room) s = Ok (n, take (Z.to_nat n) (pending s), s') ∧
           wf s' ∧ pending s' = drop (Z.to_nat n) (pending s)) ∧
  (rpos_ s = capacity s → ∀ ans, output_to_fd ans s = Fail Undefined).
Proof.
  intros Hwf. pose proof Hwf as (Hr & Hw & Hcap). unfold capacity. split_and!.
  - intros Hroom data. cbv zeta.
    set (got := take (Z.to_nat (len (buf_ s) - wpos_ s)) data).
    assert (Hgot : 0 ≤ len got ≤ len (buf_ s) - wpos_ s).
    { unfold got. rewrite len_take by lia. pose proof (len_nonneg data). lia. }
    destruct (blit_Ok (buf_ s) (wpos_ s) got) as (b & Hblit & Hlen & _); [lia..|].
    destruct (blit_pending _ _ (rpos_ s) _ _ Hr Hblit) as (_ & Hp).
    unfold input_from_fd, get_wptr, element_at, capacity, stored.
    rewrite (bool_decide_eq_true_2 (0 ≤ wpos_ s < _)) by lia. simpl.
    rewrite (wrap_small (len (buf_ s) - _)) by lia. fold got. rewrite Hblit. simpl.
    eexists. split; [reflexivity|].
    destruct (bool_decide (len got > 0)) eqn:Hpos.
    + apply bool_decide_eq_true in Hpos.
      rewrite (wrap_small (_ + len got)) by lia. unfold wf, pending. simpl.
      rewrite Hlen. split; [lia|done].
    + apply bool_decide_eq_false in Hpos.
      assert (Hz : len got = 0) by lia. rewrite Hz, Z.add_0_r in Hp.
      unfold wf, pending. simpl. rewrite Hlen. split; [lia|].
      destruct got; [|unfold len in Hz; simpl in Hz; lia]. by rewrite app_nil_r in *.
  - intros Hfull ans. unfold input_from_fd, get_wptr, element_at.
    by rewrite bool_decide_eq_false_2 by lia.
  - intros Hat room. cbv zeta.
    set (n := Z.min (Z.of_nat room) (wpos_ s - rpos_ s)).
    assert (Hn : 0 ≤ n ≤ wpos_ s - rpos_ s) by (unfold n; lia).
    destruct (pending_take_drop s n Hwf ltac:(lia) ltac:(lia)) as (Hs & Hp).
    unfold output_to_fd, get_rptr, element_at, size.
    rewrite (bool_decide_eq_true_2 (0 ≤ rpos_ s < _)) by lia. simpl.
    rewrite (wrap_small (wpos_ s - _)) by lia.
    assert (Htaken : taken (wpos_ s - rpos_ s) room = n) by (unfold taken, n; lia).
    rewrite Htaken, Hs. simpl.
    destruct (bool_decide (n > 0)) eqn:Hpos; simpl.
    + apply bool_decide_eq_true in Hpos.
      rewrite (wrap_small (_ + n)) by lia.
      rewrite bool_decide_eq_true_2 by lia.
      eexists. split; [reflexivity|]. split; [unfold wf; simpl; lia|done].
    + apply bool_decide_eq_false in Hpos.
      rewrite bool_decide_eq_true_2 by lia.
      assert (Hz : n = 0) by lia. rewrite Hz in *.
      eexists. split; [reflexivity|]. split; [done|].
      change (Z.to_nat 0) with 0%nat. by rewrite drop_0.
  - intros Hend ans. unfold output_to_fd, get_rptr, element_at.
    by rewrite bool_decide_eq_false_2 by lia.
Qed.

Lemma linear_fd_calls_witness :
  ∃ s', input_from_fd (ReadData Examples.hello) (create 16) = Ok (5, s') ∧
        pending s' = Examples.hello.
Proof.
  destruct (linear_fd_calls (create 16)) as (Hin & _); [by vm_compute|].
  destruct (Hin ltac:(by vm_compute) Examples.hello) as (s' & Hrun & _ & Hp).
  by exists s'.
Defined.

End BufferFacts.

(** ** The nodes of the queue: allocation, reuse and release *)

Module QueueMemory.
Import SPSCQueue QueueClient QueueLife SPSCQueueFacts.

Local Set Warnings "-clear-no-such-hyp".

Section memory.
Context {T : Type}.
Implicit Types (h : gmap addr (Node T)) (q : t T) (a b d fd : addr)
  (l fs : list addr) (es : list (addr * T)).

Lemma push_alloc_heap q d es fd x :
  repr q d es fd [] →
  let a := fresh (dom (heap q)) in
  let t := default d (last es.*1) in
  ∃ q' tn, push x q = Ok q' ∧ heap q !! t = Some tn ∧ t ≠ a ∧
    heap q' = <[t := mkNode (obj tn) (Some a)]> (<[a := mkNode (Some x) None]> (heap q)).
Proof.
  intros Hr a t. pose proof Hr as (Hh & Ht & Hfh & Hft & Hm & Hf & Hho & Hnd).
  assert (Ha : a ∉ (d :: es.*1) ++ [fd]) by (apply (repr_fresh q); [done|apply fresh_None]).
  assert (Htin : t ∈ d :: es.*1) by apply last_default_elem.
  destruct (lseg_is_Some _ _ _ _ Hm Htin) as [tn Htn].
  assert (Hta : t ≠ a). { intros Heq. apply Ha, elem_of_app. left. by rewrite <- Heq. }
  unfold push, free_list_empty. rewrite Hfh, Hft. simpl.
  rewrite bool_decide_eq_true_2 by done.
  unfold alloc, store_next, load. fold a. fold t in Ht.
  repeat (progress (simpl; rewrite ?Ht, ?lookup_insert_eq, ?(lookup_insert_ne _ a t), ?Htn by done)).
  eexists _, tn. split; [reflexivity|]. split; [done|]. split; [done|]. reflexivity.
Qed.

Lemma push_recycle_heap q d es fd f r x :
  repr q d es fd (f :: r) →
  let t := default d (last es.*1) in
  ∃ q' tn, push x q = Ok q' ∧ heap q !! t = Some tn ∧ t ≠ fd ∧
    heap q' = <[fd := mkNode (Some x) None]> (<[t := mkNode (obj tn) (Some fd)]> (heap q)).
Proof.
  intros Hr t. pose proof Hr as (Hh & Ht & Hfh & Hft & Hm & Hf & Hho & Hnd).
  pose proof Hnd as (Hn1 & Hn2 & Hn3)%NoDup_app.
  assert (Htin : t ∈ d :: es.*1) by apply last_default_elem.
  destruct (lseg_is_Some _ _ _ _ Hm Htin) as [tn Htn].
  assert (Htfd : t ≠ fd). { intros Heq. apply (Hn2 fd); [by rewrite <- Heq|left]. }
  destruct Hf as [(fn & Hfn & Hfnext) Hf'].
  apply NoDup_cons in Hn3 as [Hfdr Hn3].
  assert (Hftne : Some fd ≠ Some (default fd (last (f :: r)))).
  { intros [= Heq]. apply Hfdr. rewrite Heq, last_cons_default.
    apply last_default_elem. }
  unfold push, free_list_empty. rewrite Hfh, Hft.
  rewrite bool_decide_eq_false_2 by done.
  unfold store_next, load. fold t in Ht.
  repeat (progress (simpl; rewrite ?Ht, ?Hfh, ?lookup_insert_eq,
      ?(lookup_insert_ne _ t fd), ?(lookup_insert_ne _ fd t), ?Htn, ?Hfn, ?Hfnext by done)).
  eexists _, tn. split; [reflexivity|]. split; [done|]. split; [done|]. reflexivity.
Qed.

Lemma pop_heap mode q d a x es fd fs :
  repr q d ((a, x) :: es) fd fs →
  let ft := default fd (last fs) in
  ∃ q' ftn, pop mode q = Ok q' ∧ heap q !! ft = Some ftn ∧ d ≠ ft ∧
    heap q' = <[d := mkNode None None]> (<[ft := mkNode (obj ftn) (Some d)]> (heap q)).
Proof.
  intros Hr ft. pose proof Hr as (Hh & Ht & Hfh & Hft & Hm & Hf & Hho & Hnd).
  pose proof Hnd as (Hn1 & Hn2 & Hn3)%NoDup_app.
  assert (Hftin : ft ∈ fd :: fs) by apply last_default_elem.
  destruct (lseg_is_Some _ _ _ _ Hf Hftin) as [ftn Hftn].
  simpl in Hm. destruct Hm as [(dn & Hdn & Hdnext) Hm].
  assert (Hdft : d ≠ ft). { intros Heq. apply (Hn2 d); [left|]. by rewrite Heq. }
  unfold pop. rewrite (await_nonempty_repr _ _ _ _ _ _ _ _ Hr).
  unfold store_next, store_obj, load. fold ft in Hft.
  repeat (progress (simpl; rewrite ?Hh, ?Hft, ?lookup_insert_eq,
      ?(lookup_insert_ne _ ft d), ?(lookup_insert_ne _ d ft), ?Htn, ?Hftn, ?Hdn, ?Hdnext by done)).
  eexists _, ftn. split; [reflexivity|]. split; [done|]. split; [done|].
  simpl. rewrite insert_insert_eq. reflexivity.
Qed.

Lemma payload_frame q q' b :
  obj <$> heap q' !! b = obj <$> heap q !! b → payload q' b = payload q b.
Proof.
  unfold payload. intros Hb.
  destruct (heap q' !! b), (heap q !! b); simplify_eq/=; done.
Qed.

Lemma sound_new (dflt : T) : ∃ d fd, sound 0 (new dflt) d [] fd [].
Proof.
  destruct (repr_new dflt) as (d & fd & Hr & Hne). exists d, fd.
  pose proof Hr as (Hh & _ & Hfh & _).
  assert (Hheap : heap (new dflt) =
    <[fd := mkNode (Some dflt) None]> (<[d := mkNode (Some dflt) None]> ∅)).
  { unfold new, alloc in *. simpl in *. injection Hh as <-. injection Hfh as <-.
    reflexivity. }
  unfold sound, payload. rewrite Hheap. simpl.
  split_and!; try done.
  - rewrite lookup_insert_ne, lookup_insert_eq by done. eauto.
  - rewrite lookup_insert_eq. eauto.
  - rewrite !dom_insert_L. set_solver.
  - rewrite lookup_insert_ne, lookup_insert_eq by done. by eexists.
  - rewrite lookup_insert_eq. by eexists.
Qed.

Lemma sound_push_alloc k q d es fd x :
  sound k q d es fd [] →
  let a := fresh (dom (heap q)) in
  ∃ q', push x q = Ok q' ∧ sound k q' d (es ++ [(a, x)]) fd [] ∧
        dom (heap q') = {[a]} ∪ dom (heap q).
Proof.
  intros (Hr & Htl & Hfl & Hdom & Hd & Hk) a.
  destruct (push_alloc q d es fd x Hr) as (q' & Hp & Hr' & Ha & Hobj).
  destruct (push_alloc_heap q d es fd x Hr) as (q'' & tn & Hp' & Htn & Hta & Hheap).
  fold a in Ha, Hobj, Hr', Hta, Hheap. rewrite Hp in Hp'. injection Hp' as <-.
  set (t := default d (last es.*1)) in *.
  pose proof Hr as (_ & _ & _ & _ & _ & _ & _ & Hnd).
  pose proof Hnd as (Hn1 & Hn2 & Hn3)%NoDup_app.
  assert (Htin : t ∈ d :: es.*1) by apply last_default_elem.
  assert (Htd : t ∈ dom (heap q)) by (apply elem_of_dom; eauto).
  assert (Hfdt : fd ≠ t). { intros ->. apply (Hn2 t Htin). left. }
  assert (Hfda : fd ≠ a). { intros ->. apply Ha, elem_of_app. right. left. }
  assert (Hda : d ≠ a). { intros ->. apply Ha, elem_of_app. left. left. }
  assert (Hdom' : dom (heap q') = {[a]} ∪ dom (heap q)).
  { rewrite Hheap, !dom_insert_L. set_solver. }
  exists q'. split; [done|]. split; [|done].
  unfold sound. split_and!.
  - done.
  - rewrite fst_snoc, last_snoc. simpl.
    rewrite Hheap, lookup_insert_ne, lookup_insert_eq by done. eauto.
  - simpl in *. destruct Hfl as (n & Hn & Hnn). exists n. split; [|done].
    rewrite Hheap. by rewrite !lookup_insert_ne.
  - rewrite Hdom', Hdom, fst_snoc. set_solver.
  - rewrite (payload_frame q q' d); [done|]. by apply Hobj.
  - destruct k; simpl in *.
    + destruct Hk as [_ Hk]. split; [done|].
      rewrite (payload_frame q q' fd); [done|]. by apply Hobj.
    + rewrite (payload_frame q q' fd); [done|]. by apply Hobj.
Qed.

Lemma sound_push_recycle k q d es fd f r x :
  sound k q d es fd (f :: r) →
  ∃ q', push x q = Ok q' ∧ sound k q' d (es ++ [(fd, x)]) f r ∧
        dom (heap q') = dom (heap q).
Proof.
  intros (Hr & Htl & Hfl & Hdom & Hd & Hk).
  destruct (push_recycle q d es fd f r x Hr) as (q' & Hp & Hr' & Hobj).
  destruct (push_recycle_heap q d es fd f r x Hr) as (q'' & tn & Hp' & Htn & Hta & Hheap).
  rewrite Hp in Hp'. injection Hp' as <-.
  set (t := default d (last es.*1)) in *.
  pose proof Hr as (_ & _ & _ & _ & _ & _ & _ & Hnd).
  pose proof Hnd as (Hn1 & Hn2 & Hn3)%NoDup_app.
  apply NoDup_cons in Hn3 as [Hfdr Hn3].
  assert (Htin : t ∈ d :: es.*1) by apply last_default_elem.
  assert (Htd : t ∈ dom (heap q)) by (apply elem_of_dom; eauto).
  assert (Hfdd : fd ∈ dom (heap q)) by (rewrite Hdom; set_solver).
  set (ft := default f (last r)).
  assert (Hftin : ft ∈ f :: r) by apply last_default_elem.
  assert (Hftfd : ft ≠ fd). { intros Heq. apply Hfdr. by rewrite <- Heq. }
  assert (Hftt : ft ≠ t). { intros Heq. apply (Hn2 t Htin). right. by rewrite <- Heq. }
  assert (Hdfd : d ≠ fd). { intros ->. apply (Hn2 fd); left. }
  rewrite last_cons_default in Hfl. fold ft in Hfl.
  assert (Hdom' : dom (heap q') = dom (heap q)).
  { rewrite Hheap, !dom_insert_L. set_solver. }
  exists q'. split; [done|]. split; [|done].
  unfold sound. split_and!.
  - done.
  - rewrite fst_snoc, last_snoc. simpl. rewrite Hheap, lookup_insert_eq. eauto.
  - fold ft. destruct Hfl as (n & Hn & Hnn). exists n. split; [|done].
    rewrite Hheap. by rewrite !lookup_insert_ne.
  - rewrite Hdom', Hdom, fst_snoc. set_solver.
  - rewrite (payload_frame q q' d); [done|]. by apply Hobj.
  - destruct k; simpl in *; [by destruct Hk|].
    rewrite last_cons_default in Hk. fold ft in Hk |- *.
    rewrite (payload_frame q q' ft); [done|]. by apply Hobj.
Qed.

Lemma sound_pop k mode q d a x es fd fs :
  sound k q d ((a, x) :: es) fd fs →
  ∃ q', pop mode q = Ok q' ∧ sound (S k) q' a es fd (fs ++ [d]) ∧
        dom (heap q') = dom (heap q).
Proof.
  intros (Hr & Htl & Hfl & Hdom & Hd & Hk).
  destruct (pop_repr mode q d a x es fd fs Hr) as (q' & Hp & Hr' & Hdq & Hobj).
  destruct (pop_heap mode q d a x es fd fs Hr) as (q'' & ftn & Hp' & Hftn & Hdft & Hheap).
  rewrite Hp in Hp'. injection Hp' as <-.
  set (ft := default fd (last fs)) in *.
  pose proof Hr as (_ & _ & _ & _ & _ & _ & Hho & Hnd).
  pose proof Hnd as (Hn1 & Hn2 & Hn3)%NoDup_app.
  apply NoDup_cons in Hn1 as [Hdes Hn1].
  assert (Hftin : ft ∈ fd :: fs) by apply last_default_elem.
  assert (Hftd : ft ∈ dom (heap q)) by (apply elem_of_dom; eauto).
  assert (Hdd : d ∈ dom (heap q)) by (rewrite Hdom; set_solver).
  simpl in Htl. rewrite last_cons_default in Htl.
  set (t := default a (last es.*1)) in *.
  assert (Htin : t ∈ a :: es.*1) by apply last_default_elem.
  assert (Htd : t ≠ d). { intros Heq. apply Hdes. by rewrite <- Heq. }
  assert (Htft : t ≠ ft). { intros Heq. apply (Hn2 t); [by right|]. by rewrite Heq. }
  assert (Had : a ≠ d). { intros ->. apply Hdes. left. }
  assert (Hdom' : dom (heap q') = dom (heap q)).
  { rewrite Hheap, !dom_insert_L. set_solver. }
  exists q'. split; [done|]. split; [|done].
  unfold sound. split_and!.
  - done.
  - fold t. destruct Htl as (n & Hn & Hnn). exists n. split; [|done].
    rewrite Hheap. by rewrite !lookup_insert_ne.
  - rewrite last_snoc. simpl. rewrite Hdq. eauto.
  - rewrite Hdom', Hdom. rewrite !fmap_cons. simpl. set_solver.
  - rewrite (payload_frame q q' a); [|by apply Hobj].
    apply Forall_cons in Hho as [(n & Hn & Ho) _]. simpl in Hn, Ho.
    unfold payload. rewrite Hn. simpl. rewrite Ho. by eexists.
  - rewrite last_snoc. simpl. unfold payload. by rewrite Hdq.
Qed.

Lemma sound_store k q d es1 a x es2 fd fs y :
  sound k q d (es1 ++ (a, x) :: es2) fd fs →
  ∃ q', store_obj (Some a) (Some y) q = Ok q' ∧
        sound k q' d (es1 ++ (a, y) :: es2) fd fs ∧
        dom (heap q') = dom (heap q).
Proof.
  intros (Hr & Htl & Hfl & Hdom & Hd & Hk).
  destruct (store_obj_repr q d es1 a x es2 fd fs y Hr) as (q' & Hp & Hr' & Hfr).
  pose proof Hr as (_ & _ & _ & _ & _ & _ & Hho & Hnd).
  assert (Hin : (a, x) ∈ es1 ++ (a, x) :: es2) by (apply elem_of_app; right; left).
  destruct (holds_lookup _ _ _ _ Hho Hin) as (n & Hn & Ho).
  assert (Hqa : heap q' !! a = Some (mkNode (Some y) (next n))).
  { unfold store_obj, load in Hp. rewrite Hn in Hp. simpl in Hp.
    injection Hp as <-. simpl. by rewrite lookup_insert_eq. }
  assert (Hfst : (es1 ++ (a, y) :: es2).*1 = (es1 ++ (a, x) :: es2).*1).
  { by rewrite !fmap_app. }
  pose proof Hnd as (Hn1 & Hn2 & Hn3)%NoDup_app.
  apply NoDup_cons in Hn1 as [Hdes Hn1].
  assert (Hain : a ∈ (es1 ++ (a, x) :: es2).*1).
  { apply list_elem_of_fmap. by exists (a, x). }
  assert (Had : a ≠ d). { intros ->. done. }
  assert (Hafree : ∀ b, b ∈ fd :: fs → b ≠ a).
  { intros b Hb ->. apply (Hn2 a); [by right|done]. }
  assert (Hdom' : dom (heap q') = dom (heap q)).
  { apply set_eq. intros b. rewrite !elem_of_dom.
    destruct (decide (b = a)) as [->|Hb].
    - rewrite Hqa, Hn. split; by eexists.
    - by rewrite Hfr. }
  exists q'. split; [done|]. split; [|done].
  unfold sound. rewrite Hfst. split_and!.
  - exact Hr'.
  - destruct Htl as (tn & Htn & Htnn).
    destruct (decide (default d (last (es1 ++ (a, x) :: es2).*1) = a)) as [Heq|Hne].
    + rewrite Heq in *. rewrite Hqa. eexists. split; [done|]. simpl. congruence.
    + rewrite Hfr by done. eauto.
  - destruct Hfl as (fn & Hfn & Hfnn). exists fn. split; [|done].
    rewrite Hfr; [done|]. apply Hafree, last_default_elem.
  - by rewrite Hdom'.
  - unfold payload in *. rewrite Hfr; [done|]. done.
  - unfold payload in *. destruct k.
    + destruct Hk as [-> Hk]. split; [done|]. rewrite Hfr; [done|].
      apply Hafree. left.
    + rewrite Hfr; [done|]. apply Hafree, last_default_elem.
Qed.

Lemma built_sound k q : built k q → ∃ d es fd fs, sound k q d es fd fs.
Proof.
  induction 1 as [dflt|k q x q' _ IH Hp|k q mode q' _ IH He Hp
                  |k q mode y q' _ IH He Hp|k q y q' _ IH He Hp].
  - destruct (sound_new dflt) as (d & fd & Hs). by exists d, [], fd, [].
  - destruct IH as (d & es & fd & fs & Hs). destruct fs as [|f r].
    + destruct (sound_push_alloc k q d es fd x Hs) as (q'' & Hp' & Hs' & _).
      rewrite Hp in Hp'. injection Hp' as <-. by eexists _, _, _, _.
    + destruct (sound_push_recycle k q d es fd f r x Hs) as (q'' & Hp' & Hs' & _).
      rewrite Hp in Hp'. injection Hp' as <-. by eexists _, _, _, _.
  - destruct IH as (d & es & fd & fs & Hs).
    pose proof Hs as (Hr & _). rewrite (empty_repr _ _ _ _ _ Hr) in He.
    destruct es as [|[a x] es]; [done|].
    destruct (sound_pop k mode q d a x es fd fs Hs) as (q'' & Hp' & Hs' & _).
    rewrite Hp in Hp'. injection Hp' as <-. by eexists _, _, _, _.
  - destruct IH as (d & es & fd & fs & Hs).
    pose proof Hs as (Hr & _). rewrite (empty_repr _ _ _ _ _ Hr) in He.
    destruct es as [|[a x] es]; [done|].
    unfold assign_front in Hp.
    rewrite (front_ptr_repr _ _ _ _ _ _ _ _ Hr) in Hp. simpl in Hp.
    rewrite (read_obj_repr _ _ _ _ _ a x Hr) in Hp by left. simpl in Hp.
    destruct (sound_store k q d [] a x es fd fs y Hs) as (q'' & Hp' & Hs' & _).
    rewrite Hp in Hp'. injection Hp' as <-. by eexists _, _, _, _.
  - destruct IH as (d & es & fd & fs & Hs).
    pose proof Hs as (Hr & _). rewrite (empty_repr _ _ _ _ _ Hr) in He.
    destruct (exists_last (l := es)) as (es1 & [a x] & ->).
    { intros ->. done. }
    unfold assign_back in Hp.
    rewrite (back_ptr_repr _ _ _ _ _ _ _ Hr) in Hp.
    rewrite (read_obj_repr _ _ _ _ _ a x Hr) in Hp by (apply elem_of_app; right; left).
    simpl in Hp.
    destruct (sound_store k q d es1 a x [] fd fs y Hs) as (q'' & Hp' & Hs' & _).
    rewrite Hp in Hp'. injection Hp' as <-. by eexists _, _, _, _.
Qed.

Lemma free_list_empty_repr q d es fd fs :
  repr q d es fd fs → free_list_empty q = bool_decide (fs = []).
Proof.
  intros (_ & _ & Hfh & Hft & _ & _ & _ & Hnd). unfold free_list_empty.
  rewrite Hfh, Hft. destruct fs as [|f r]; simpl.
  - by rewrite !bool_decide_eq_true_2.
  - apply bool_decide_eq_false_2. intros [= Heq].
    apply NoDup_app in Hnd as (_ & _ & Hn3). apply NoDup_cons in Hn3 as [Hfd _].
    apply Hfd. rewrite Heq at 1. rewrite last_cons_default. apply last_default_elem.
Qed.

Lemma sound_size k q d es fd fs :
  sound k q d es fd fs → size (heap q) = (2 + length es + length fs)%nat.
Proof.
  intros (Hr & _ & _ & Hdom & _). destruct Hr as (_ & _ & _ & _ & _ & _ & _ & Hnd).
  rewrite <- size_dom, Hdom, size_list_to_set by done.
  rewrite length_app. simpl. rewrite length_fmap. lia.
Qed.

Lemma delete_list_None fuel q : delete_list fuel None q = Ok ([], q).
Proof. by destruct fuel. Qed.

Lemma dead_cons q a l n :
  heap q !! a = Some n →
  dead q (a :: l) = (if bool_decide (obj n = None) then [a] else []) ++ dead q l.
Proof.
  intros Hn. assert (Hp : payload q a = obj n) by (unfold payload; by rewrite Hn).
  unfold dead. rewrite filter_cons.
  destruct (decide (payload q a = None)) as [Hd|Hd]; rewrite Hp in Hd.
  - by rewrite bool_decide_eq_true_2.
  - by rewrite bool_decide_eq_false_2.
Qed.

Lemma dead_frame q q' l :
  (∀ b, b ∈ l → heap q' !! b = heap q !! b) → dead q' l = dead q l.
Proof.
  unfold dead. induction l as [|a l IH]; intros Hfr; [done|].
  assert (Hp : payload q' a = payload q a) by (unfold payload; by rewrite Hfr by left).
  rewrite !filter_cons. rewrite IH by (intros b Hb; apply Hfr; by right).
  destruct (decide (payload q' a = None)) as [Hd|Hd],
    (decide (payload q a = None)) as [Hd'|Hd']; try done; congruence.
Qed.

Lemma delete_list_lseg fuel q a l :
  lseg (heap q) a l → NoDup (a :: l) →
  (∃ n, heap q !! default a (last l) = Some n ∧ next n = None) →
  (length (a :: l) ≤ fuel)%nat →
  ∃ q', delete_list fuel (Some a) q = Ok (dead q (a :: l), q') ∧
        (∀ b, heap q' !! b = if decide (b ∈ a :: l) then None else heap q !! b) ∧
        head_ q' = head_ q ∧ tail_ q' = tail_ q ∧
        free_head_ q' = free_head_ q ∧ free_tail_ q' = free_tail_ q.
Proof.
  revert fuel q a. induction l as [|b l IH]; intros fuel q a Hs Hnd Hlast Hlen.
  - destruct fuel as [|fuel]; [simpl in Hlen; lia|].
    destruct Hlast as (n & Hn & Hnn). simpl in Hn.
    simpl. unfold delete_node, load. rewrite Hn. simpl. rewrite Hnn.
    rewrite delete_list_None. simpl.
    eexists. split; [by rewrite (dead_cons q a [] n Hn)|]. simpl. split; [|done].
    intros c. case_decide as Hc.
    + apply list_elem_of_singleton in Hc as ->. by rewrite lookup_delete_eq.
    + rewrite lookup_delete_ne; [done|]. intros ->. apply Hc. left.
  - destruct fuel as [|fuel]; [simpl in Hlen; lia|].
    simpl in Hs. destruct Hs as [(n & Hn & Hnb) Hs].
    apply NoDup_cons in Hnd as [Ha Hnd]. rewrite last_cons_default in Hlast.
    set (q1 := with_heap q (delete a (heap q))).
    assert (Hfr : ∀ c, c ∈ b :: l → heap q1 !! c = heap q !! c).
    { intros c Hc. simpl. rewrite lookup_delete_ne; [done|]. by intros ->. }
    destruct (IH fuel q1 b) as (q' & Hdl & Hlk & Hf1 & Hf2 & Hf3 & Hf4).
    { by apply (lseg_frame (heap q)). }
    { done. }
    { destruct Hlast as (m & Hm & Hmn). exists m. split; [|done].
      rewrite Hfr; [done|]. apply last_default_elem. }
    { simpl in *. lia. }
    simpl. unfold delete_node, load. rewrite Hn. simpl. rewrite Hnb.
    fold q1. rewrite Hdl. simpl.
    exists q'. split; [|split; [|done]].
    + rewrite (dead_cons q a (b :: l) n Hn). by rewrite (dead_frame q q1).
    + intros c. rewrite Hlk. simpl.
      destruct (decide (c = a)) as [->|Hca].
      * rewrite (decide_True (P := a ∈ a :: b :: l)) by left.
        case_decide; [done|]. by rewrite lookup_delete_eq.
      * rewrite lookup_delete_ne by done.
        case_decide as Hc.
        -- rewrite decide_True; [done|by right].
        -- rewrite decide_False; [done|]. intros Hc'.
           apply elem_of_cons in Hc' as [->|Hc']; done.
Qed.

Lemma delete_list_fuel fuel p q :
  (size (heap q) < fuel)%nat → delete_list fuel p q ≠ Fail Diverges.
Proof.
  revert p q. induction fuel as [|fuel IH]; intros p q Hlt; [lia|].
  destruct p as [a|]; [|done]. simpl. unfold delete_node, load.
  destruct (heap q !! a) as [n|] eqn:Hn; [|done]. simpl.
  set (q1 := with_heap q (delete a (heap q))).
  assert (Hlt1 : (size (heap q1) < fuel)%nat).
  { assert (size (heap q) ≠ 0)%nat.
    { intros H0. apply map_size_empty_inv in H0. rewrite H0 in Hn.
      by rewrite lookup_empty in Hn. }
    simpl. rewrite map_size_delete, Hn. simpl. lia. }
  specialize (IH (next n) q1 Hlt1).
  destruct (delete_list fuel (next n) q1) as [[l q2]|f]; [done|].
  simpl. congruence.
Qed.

Lemma holds_payload q es a : holds (heap q) es → a ∈ es.*1 → is_Some (payload q a).
Proof.
  intros Hho (e & -> & He)%list_elem_of_fmap.
  unfold holds in Hho. rewrite Forall_forall in Hho.
  destruct (Hho e He) as (n & Hn & Ho). unfold payload. rewrite Hn. simpl. by eexists.
Qed.

Lemma destroy_ends q : destroy q ≠ Fail Diverges.
Proof.
  unfold destroy.
  assert (H1 : ∀ f1, (size (heap q) < f1)%nat →
    delete_list f1 (head_ q) q ≠ Fail Diverges) by (intros; by apply delete_list_fuel).
  specialize (H1 (S (size (heap q))) ltac:(lia)).
  generalize dependent (S (size (heap q))). intros f1 H1.
  destruct (delete_list f1 (head_ q) q) as [[l1 q1]|f]; [|intros [= ->]; done].
  change (delete_list (S (size (heap (with_head q1 None))))
            (free_head_ (with_head q1 None)) (with_head q1 None)
          ≫= (λ '(l2, q2), Ok (l1 ++ l2, with_free_head q2 None)) ≠ Fail Diverges).
  assert (H2 : ∀ f2, (size (heap (with_head q1 None)) < f2)%nat →
    delete_list f2 (free_head_ (with_head q1 None)) (with_head q1 None) ≠ Fail Diverges)
    by (intros; by apply delete_list_fuel).
  specialize (H2 (S (size (heap (with_head q1 None)))) ltac:(lia)).
  generalize dependent (S (size (heap (with_head q1 None)))). intros f2 H2.
  destruct (delete_list f2 _ _) as [[l2 q2]|f]; [done|intros [= ->]; done].
Qed.

Lemma destroy_sound k q d es fd fs :
  sound k q d es fd fs →
  ∃ q', destroy q = Ok (dead q (fd :: fs), q') ∧ heap q' = ∅ ∧
        head_ q' = None ∧ free_head_ q' = None ∧
        (∀ a, a ∈ d :: es.*1 → is_Some (payload q a)).
Proof.
  intros Hs. pose proof (sound_size _ _ _ _ _ _ Hs) as Hsize.
  destruct Hs as (Hr & Htl & Hfl & Hdom & Hd & Hk).
  pose proof Hr as (Hh & Ht & Hfh & Hft & Hm & Hf & Hho & Hnd).
  pose proof Hnd as (Hn1 & Hn2 & Hn3)%NoDup_app.
  assert (Halive : ∀ a, a ∈ d :: es.*1 → is_Some (payload q a)).
  { intros a [->|Ha]%elem_of_cons; [done|by eapply holds_payload]. }
  assert (Hmain : dead q (d :: es.*1) = []).
  { apply elem_of_nil_inv. intros a [Hnone Hin]%list_elem_of_filter.
    destruct (Halive a Hin) as [v Hv]. congruence. }
  destruct (delete_list_lseg (S (size (heap q))) q d es.*1 Hm Hn1 Htl)
    as (q1 & Hd1 & Hlk1 & Hf1 & Hf2 & Hf3 & Hf4).
  { simpl. rewrite Hsize, length_fmap. lia. }
  set (q1' := with_head q1 None).
  assert (Hfr : ∀ b, b ∈ fd :: fs → heap q1' !! b = heap q !! b).
  { intros b Hb. simpl. rewrite Hlk1. rewrite decide_False; [done|].
    intros Hb'. by apply (Hn2 b). }
  destruct (delete_list_lseg (S (size (heap q1'))) q1' fd fs)
    as (q2 & Hd2 & Hlk2 & Hg1 & Hg2 & Hg3 & Hg4).
  { by apply (lseg_frame (heap q)). }
  { done. }
  { destruct Hfl as (n & Hn & Hnn). exists n. split; [|done].
    rewrite Hfr; [done|]. apply last_default_elem. }
  { apply le_S. apply length_le_size; [done|].
    intros b Hb. rewrite Hfr by done. by eapply lseg_is_Some. }
  exists (with_free_head q2 None). split_and!; try done.
  - unfold destroy. apply bind_Ok. exists (dead q (d :: es.*1), q1).
    split; [by rewrite Hh|]. cbv beta iota zeta. fold q1'.
    apply bind_Ok. exists (dead q1' (fd :: fs), q2). split.
    + replace (free_head_ q1') with (Some fd) by (simpl; congruence). exact Hd2.
    + cbv beta iota. by rewrite Hmain, (dead_frame q q1').
  - simpl. apply map_eq. intros b. rewrite lookup_empty, Hlk2.
    case_decide as Hb2; [done|]. simpl. rewrite Hlk1.
    case_decide as Hb1; [done|]. apply not_elem_of_dom. rewrite Hdom.
    rewrite elem_of_list_to_set, elem_of_app. tauto.
Qed.

Lemma push_keeps_head x q q' : push x q = Ok q' → head_ q' = head_ q.
Proof.
  unfold push, alloc, store_next, load. intros Hp.
  repeat (simpl in *; first [case_match; simplify_eq/=]); done.
Qed.

Lemma push_all_keeps_head xs q q' : push_all xs q = Ok q' → head_ q' = head_ q.
Proof.
  revert q. induction xs as [|x xs IH]; intros q Hp; simpl in Hp.
  - by injection Hp as <-.
  - destruct (push x q) as [q1|] eqn:Hp1; [|done]. simpl in Hp.
    rewrite (IH q1 Hp). by apply (push_keeps_head x).
Qed.

Lemma not_is_Ok_Fail {A} (f : fault) : ¬ is_Ok (Fail f : res A).
Proof. intros [v Hv]. discriminate Hv. Qed.

Lemma headless_queue mode q :
  head_ q = None → ¬ is_Ok (front mode q) ∧ ¬ is_Ok (pop mode q).
Proof.
  intros Hh. unfold front, front_ptr, pop.
  destruct (await_nonempty mode q) as [[]|f]; simpl.
  - unfold store_next, load. rewrite Hh. simpl. split; [apply not_is_Ok_Fail|].
    destruct (free_tail_ q) as [ft|]; simpl; [|apply not_is_Ok_Fail].
    destruct (heap q !! ft); simpl; rewrite ?Hh; apply not_is_Ok_Fail.
  - split; apply not_is_Ok_Fail.
Qed.

Lemma pop_empty_heap k mode q d fd fs :
  sound k q d [] fd fs → ¬ (mode = 1 ∨ mode = 2) →
  front mode q = Fail Undefined ∧
  ∃ q', pop mode q = Ok q' ∧ head_ q' = None ∧ tail_ q' = Some d ∧
        free_tail_ q' = Some d ∧ payload q' d = None.
Proof.
  intros (Hr & Htl & Hfl & Hdom & Hd & Hk) Hmode.
  pose proof Hr as (Hh & Ht & Hfh & Hft & Hm & Hf & Hho & Hnd).
  pose proof Hnd as (Hn1 & Hn2 & Hn3)%NoDup_app.
  simpl in Htl, Ht. destruct Htl as (dn & Hdn & Hdnext).
  set (ft := default fd (last fs)) in *.
  assert (Hftin : ft ∈ fd :: fs) by apply last_default_elem.
  destruct (lseg_is_Some _ _ _ _ Hf Hftin) as [ftn Hftn].
  assert (Hdft : d ≠ ft). { intros Heq. apply (Hn2 d); [left|]. by rewrite Heq. }
  unfold front, front_ptr, pop, await_nonempty.
  rewrite (bool_decide_eq_false_2 _ Hmode). simpl.
  unfold store_next, store_obj, load.
  repeat (progress (simpl; rewrite ?Hh, ?Hft, ?lookup_insert_eq,
      ?(lookup_insert_ne _ ft d), ?(lookup_insert_ne _ d ft), ?Hftn, ?Hdn, ?Hdnext by done)).
  split; [done|]. eexists. split; [reflexivity|]. simpl.
  split_and!; try done. unfold payload. simpl. by rewrite lookup_insert_eq.
Qed.

(** X15.  The heap of a queue built through its interface holds the two
    dummy nodes, one node for each element and the nodes of the freelist,
    and nothing else.  [push] allocates one node exactly when the freelist
    is empty (its dummy is its last node); otherwise it allocates nothing
    and stores the value in the node that was [free_head_], whose successor
    becomes the dummy of the freelist.  [pop] releases no node: it makes the
    freelist one node longer. *)
Theorem push_allocates_only_without_free_node k q :
  built k q →
  size (heap q) = (2 + length (contents q) + length (free_nodes q))%nat ∧
  free_list_empty q = bool_decide (free_nodes q = []) ∧
  (∀ x, ∃ q', push x q = Ok q' ∧ built k q' ∧ contents q' = contents q ++ [x] ∧
     if free_list_empty q
     then (∃ a, dom (heap q') = {[a]} ∪ dom (heap q) ∧ (a ∉ dom (heap q)) ∧
                tail_ q' = Some a) ∧ free_nodes q' = []
     else dom (heap q') = dom (heap q) ∧ tail_ q' = free_head_ q ∧
          ∃ f, free_nodes q = f :: free_nodes q' ∧ free_head_ q' = Some f) ∧
  (∀ mode, empty q = false →
     ∃ q', pop mode q = Ok q' ∧ built (S k) q' ∧ dom (heap q') = dom (heap q) ∧
           length (free_nodes q') = S (length (free_nodes q))).
Proof.
  intros Hb. destruct (built_sound k q Hb) as (d & es & fd & fs & Hs).
  pose proof Hs as (Hr & _).
  rewrite (contents_repr _ _ _ _ _ Hr), (free_nodes_repr _ _ _ _ _ Hr),
    (free_list_empty_repr _ _ _ _ _ Hr).
  split_and!.
  - rewrite (sound_size _ _ _ _ _ _ Hs), length_fmap. done.
  - done.
  - intros x. destruct fs as [|f r].
    + destruct (sound_push_alloc k q d es fd x Hs) as (q' & Hp & Hs' & Hdom').
      pose proof Hs' as (Hr' & _). exists q'. split_and!.
      * done.
      * by apply (built_push k q x).
      * by rewrite (contents_repr _ _ _ _ _ Hr'), fmap_app.
      * rewrite bool_decide_eq_true_2 by done. split.
        -- exists (fresh (dom (heap q))). split_and!; [done|apply is_fresh|].
           destruct Hr' as (_ & Ht' & _). by rewrite Ht', fst_snoc, last_snoc.
        -- by rewrite (free_nodes_repr _ _ _ _ _ Hr').
    + destruct (sound_push_recycle k q d es fd f r x Hs) as (q' & Hp & Hs' & Hdom').
      pose proof Hs' as (Hr' & _). exists q'. split_and!.
      * done.
      * by apply (built_push k q x).
      * by rewrite (contents_repr _ _ _ _ _ Hr'), fmap_app.
      * rewrite bool_decide_eq_false_2 by done. split_and!; [done| |].
        -- destruct Hr' as (_ & Ht' & _). destruct Hr as (_ & _ & Hfh & _).
           by rewrite Ht', Hfh, fst_snoc, last_snoc.
        -- exists f. rewrite (free_nodes_repr _ _ _ _ _ Hr').
           destruct Hr' as (_ & _ & Hfh' & _). done.
  - intros mode He. rewrite (empty_repr _ _ _ _ _ Hr) in He.
    destruct es as [|[a x] es]; [done|].
    destruct (sound_pop k mode q d a x es fd fs Hs) as (q' & Hp & Hs' & Hdom').
    pose proof Hs' as (Hr' & _). exists q'. split_and!; [done| |done|].
    + apply (built_pop k q mode); [done| |done].
      by rewrite (empty_repr _ _ _ _ _ Hr).
    + rewrite (free_nodes_repr _ _ _ _ _ Hr'), length_app. simpl. lia.
Qed.

(** X16.  The destructor never loops for ever.  On a queue built through
    its interface it releases every node of both lists, each one once, and
    touches nothing that is already released; the payloads on which it runs
    the destructor of [T] a second time are those of the nodes of the
    freelist that [pop] has emptied, and there is such a node exactly when
    [pop] was ever called. *)
Theorem destructor_releases_every_node k q :
  destroy q ≠ Fail Diverges ∧
  (built k q →
   ∃ twice q', destroy q = Ok (twice, q') ∧
     heap q' = ∅ ∧ head_ q' = None ∧ free_head_ q' = None ∧
     NoDup twice ∧
     (∀ a, a ∈ twice ↔ a ∈ dom (heap q) ∧ payload q a = None) ∧
     (twice = [] ↔ k = 0%nat)).
Proof.
  split.
  - by apply destroy_ends.
  - intros Hb. destruct (built_sound k q Hb) as (d & es & fd & fs & Hs).
    destruct (destroy_sound k q d es fd fs Hs) as (q' & Hd & Hheap & Hh & Hfh & Halive).
    destruct Hs as (Hr & Htl & Hfl & Hdom & Hdl & Hk).
    pose proof Hr as (_ & _ & _ & _ & _ & _ & _ & Hnd).
    pose proof Hnd as (Hn1 & Hn2 & Hn3)%NoDup_app.
    exists (dead q (fd :: fs)), q'. split_and!; try done.
    + by apply NoDup_filter.
    + intros a. unfold dead. rewrite list_elem_of_filter, Hdom.
      rewrite elem_of_list_to_set, elem_of_app. split.
      * intros [Hnone Hin]. split; [by right|done].
      * intros [[Hin|Hin] Hnone]; [|done].
        destruct (Halive a Hin) as [v Hv]. congruence.
    + destruct k as [|k]; simpl in Hk.
      * destruct Hk as [-> [v Hv]]. split; [done|]. intros _.
        apply elem_of_nil_inv. intros a [Hnone Hin]%list_elem_of_filter.
        apply list_elem_of_singleton in Hin as ->. congruence.
      * split; [|done]. intros Hnil.
        assert (Hin : default fd (last fs) ∈ dead q (fd :: fs)).
        { apply list_elem_of_filter. split; [done|apply last_default_elem]. }
        rewrite Hnil in Hin. by apply elem_of_nil in Hin.
Qed.

(** X17.  On an empty queue built through its interface, [pop] and [front]
    of the waiting modes 1 and 2 wait for ever.  In the other modes [front]
    dereferences a null pointer, and [pop] returns: it leaves [head_] null,
    puts the dummy node on the freelist while it is still [tail_], and
    destroys its payload.  From then on, whatever is pushed, no [front] and
    no [pop] of any mode returns. *)
Theorem pop_on_empty_queue_loses_head k q :
  built k q → empty q = true →
  (∀ mode, mode = 1 ∨ mode = 2 →
     pop mode q = Fail Blocked ∧ front mode q = Fail Blocked) ∧
  (∀ mode, ¬ (mode = 1 ∨ mode = 2) →
     front mode q = Fail Undefined ∧
     ∃ q', pop mode q = Ok q' ∧ head_ q' = None ∧ tail_ q' = head_ q ∧
       free_tail_ q' = head_ q ∧ empty q' = false ∧
       (∀ a, tail_ q' = Some a → payload q' a = None) ∧
       ∀ xs q'' m, push_all xs q' = Ok q'' →
         head_ q'' = None ∧ ¬ is_Ok (front m q'') ∧ ¬ is_Ok (pop m q'')).
Proof.
  intros Hb He. destruct (built_sound k q Hb) as (d & es & fd & fs & Hs).
  pose proof Hs as (Hr & _). pose proof Hr as (Hh & _).
  rewrite (empty_repr _ _ _ _ _ Hr) in He. apply bool_decide_eq_true in He as ->.
  split.
  - intros mode Hmode. unfold pop, front, front_ptr, await_nonempty.
    rewrite (empty_repr _ _ _ _ _ Hr).
    rewrite (bool_decide_eq_true_2 _ Hmode). done.
  - intros mode Hmode.
    destruct (pop_empty_heap k mode q d fd fs Hs Hmode)
      as (Hfront & q' & Hp & Hh' & Ht' & Hft' & Hpay).
    split; [done|]. exists q'. rewrite Hh. split_and!; try done.
    + unfold empty. rewrite Hh', Ht'. by apply bool_decide_eq_false_2.
    + intros a Ha. rewrite Ht' in Ha. by injection Ha as <-.
    + intros xs q'' m Hpa.
      assert (Hh'' : head_ q'' = None).
      { rewrite (push_all_keeps_head xs q' q'' Hpa). done. }
      split; [done|]. by apply headless_queue.
Qed.

End memory.

Lemma pushed_once_built : built 0 pushed_once.
Proof. apply (built_push 0 (new 0%nat) 7%nat); [apply built_new|by vm_compute]. Qed.

Lemma popped_once_built : built 1 popped_once.
Proof.
  apply (built_pop 0 pushed_once 0); [apply pushed_once_built|by vm_compute|by vm_compute].
Qed.

Lemma push_allocates_only_without_free_node_witness :
  built 1 popped_once ∧
  ∃ q', push 8%nat popped_once = Ok q' ∧ dom (heap q') = dom (heap popped_once) ∧
        tail_ q' = free_head_ popped_once.
Proof.
  split; [apply popped_once_built|].
  destruct (push_allocates_only_without_free_node 1 popped_once popped_once_built)
    as (_ & _ & Hpush & _).
  destruct (Hpush 8%nat) as (q' & Hp & _ & _ & Hcase).
  change (free_list_empty popped_once) with false in Hcase.
  destruct Hcase as (Hdom & Ht & _).
  exists q'. split_and!; [exact Hp|exact Hdom|exact Ht].
Defined.

Lemma destructor_releases_every_node_witness :
  built 1 popped_once ∧
  ∃ twice q', destroy popped_once = Ok (twice, q') ∧ heap q' = ∅ ∧ twice ≠ [].
Proof.
  split; [apply popped_once_built|].
  destruct (destructor_releases_every_node 1 popped_once) as [_ Hd].
  destruct (Hd popped_once_built) as (twice & q' & Hdes & Hheap & _ & _ & _ & _ & Hk).
  exists twice, q'. split_and!; [exact Hdes|exact Hheap|].
  intros Hnil. apply Hk in Hnil. discriminate Hnil.
Defined.

Lemma pop_on_empty_queue_loses_head_witness :
  built 1 popped_once ∧ empty popped_once = true ∧
  front 0 popped_once = Fail Undefined ∧
  ∃ q', pop 0 popped_once = Ok q' ∧ head_ q' = None ∧ empty q' = false.
Proof.
  split; [apply popped_once_built|]. split; [by vm_compute|].
  destruct (pop_on_empty_queue_loses_head 1 popped_once popped_once_built eq_refl)
    as [_ Hm].
  destruct (Hm 0) as (Hfront & q' & Hp & Hh & _ & _ & He & _); [lia|].
  split; [exact Hfront|]. exists q'. split_and!; [exact Hp|exact Hh|exact He].
Defined.

End QueueMemory.

(** ** [write_cont] of more than a block *)

Module Overrun.
Import SPSCQueue SPSCQueueFacts.
Import SPSCBlockBuffer SPSCAbs SPSCFacts SPSCInvariants Consistency ListFacts.
Import Compare Stream StreamFacts SPSCCalls SPSCStream.

Lemma simR_Fail_inv_r {A B} (R : A → B → Prop) m m' f :
  simR R m m' → m' = Fail f → m = Fail f.
Proof. intros Hs ->. destruct m; simpl in Hs; [done|by subst]. Qed.

Lemma list_write_cont_overrun src (n : bool) a :
  lok a → ListBuffer.block_size_ a < len src < 2 ^ 64 →
  ListBuffer.write_cont src n a = Fail Undefined.
Proof.
  intros Hlok Hsrc. pose proof Hlok as (_ & (Hbs0 & _)).
  destruct src as [|x src]; [unfold len in Hsrc; simpl in Hsrc; lia|].
  unfold ListBuffer.write_cont. rewrite (wrap_small (len (x :: src))) by lia.
  destruct (list_ensure_cont (len (x :: src)) a Hlok ltac:(lia))
    as (a1 & Hens & Hlok1 & _ & Hnew & _ & _ & Hbs1 & _).
  destruct (Hnew ltac:(lia)) as [Hwp1 _].
  unfold ListBuffer.ensure_cont in Hens.
  destruct (ListBuffer.add_block_if_needed (len (x :: src)) a) as [a1'|f] eqn:Hadd;
    [|done].
  simpl in Hens. injection Hens as _ ->. simpl.
  pose proof Hlok1 as ((Hne & _) & (_ & _ & Hgood & _)).
  unfold ListBuffer.copy_to_back, ListBuffer.unsnoc.
  destruct (exists_last Hne) as (segs & seg & Hbuf). rewrite Hbuf, last_snoc. simpl.
  rewrite Hbuf in Hgood. apply Forall_app in Hgood as [_ Hseg].
  rewrite Forall_singleton in Hseg. destruct Hseg as [(blk & Hblk & Hlen) _].
  rewrite Hblk. simpl. unfold blit. rewrite Hwp1.
  rewrite bool_decide_eq_false_2; [done|]. lia.
Qed.

Lemma list_write_cont_string_overrun src (n : bool) a :
  lok a → ListBuffer.block_size_ a < len src < 2 ^ 64 →
  ListBuffer.write_cont_string src n a = Fail Undefined.
Proof.
  intros Hlok Hsrc.
  unfold ListBuffer.write_cont_string, ListBuffer.write_cont_value.
  assert (H8 : len (size_t_bytes (len src)) = 8) by done.
  destruct (decide (8 ≤ ListBuffer.block_size_ a)) as [Hfit|Hno].
  - destruct (write_cont_ok a (size_t_bytes (len src)) false Hlok ltac:(lia))
      as (a1 & segs & tail & blk & blk' & _ & Hrun & Hlok1 & _ & _ & _ & _ & _ & _ & Hbs1).
    rewrite Hrun. simpl. apply list_write_cont_overrun; [done|]. by rewrite Hbs1.
  - rewrite (list_write_cont_overrun (size_t_bytes (len src)) false a Hlok); [done|].
    rewrite H8. lia.
Qed.

(** X18.  [write_cont] of a range longer than a block has no defined
    behaviour on the SPSC buffer: a fresh block is linked and [std::copy]
    runs past its end; the same holds for [write_cont] of a string longer
    than a block.  The sequential buffer stops at its assert instead. *)
Theorem write_cont_longer_than_block_overruns s src (do_notify : bool) :
  SPSCApi.reachable s → consistent s → block_size_ s < len src < 2 ^ 64 →
  write_cont src do_notify s = Fail Undefined ∧
  write_cont_string src do_notify s = Fail Undefined ∧
  ∀ b, BlockBuffer.block_size_ b = block_size_ s →
       BlockBuffer.write_cont src b = Fail Aborted.
Proof.
  intros Hreach Hc Hsrc. destruct (reachable_abs s Hreach) as (a & Ha).
  pose proof (abs_lok _ _ Ha Hc) as Hlok.
  destruct (abs_scalars _ _ Ha) as (Hbs & _).
  rewrite Hbs in Hsrc. pose proof Hlok as (_ & (Hbs0 & _)). split_and!.
  - eapply simR_Fail_inv_r; [by apply write_cont_sim|].
    by apply list_write_cont_overrun.
  - eapply simR_Fail_inv_r; [by apply write_cont_string_sim|].
    by apply list_write_cont_string_overrun.
  - intros b Hb. unfold BlockBuffer.write_cont.
    destruct src as [|x src]; [unfold len in Hsrc; simpl in Hsrc; lia|].
    rewrite (wrap_small (len (x :: src))) by lia.
    rewrite bool_decide_eq_false_2; [done|]. rewrite Hb, Hbs. lia.
Qed.

Lemma write_cont_longer_than_block_overruns_witness :
  SPSCApi.reachable Scenario.fresh ∧
  write_cont (replicate 17 x00) true Scenario.fresh = Fail Undefined.
Proof.
  split; [apply fresh_ok|].
  apply (write_cont_longer_than_block_overruns Scenario.fresh (replicate 17 x00) true).
  - apply fresh_ok.
  - apply fresh_ok.
  - by vm_compute.
Defined.

End Overrun.

(** ** The linear buffer: changing the size of the vector *)

Module BufferResize.
Import Buffer ListFacts BufferFacts.

Lemma resize_len n (l : list byte) : 0 ≤ n → len (resize n l) = n.
Proof.
  intros Hn. unfold resize, len. rewrite length_app, length_take, length_replicate. lia.
Qed.

Lemma resize_prefix (k : nat) n (l : list byte) :
  (k ≤ Z.to_nat n)%nat → (k ≤ length l)%nat → take k (resize n l) = take k l.
Proof.
  intros Hk Hl. unfold resize.
  rewrite take_app_le by (rewrite length_take; lia).
  rewrite take_take. f_equal. lia.
Qed.

Lemma pending_resize s n :
  wf s → wpos_ s ≤ n → pending (with_buf s (resize n (buf_ s))) = pending s.
Proof.
  intros (Hr & Hw & Hcap) Hn. unfold pending, len in *. simpl.
  rewrite !take_drop_commute. f_equal. apply resize_prefix; lia.
Qed.

(** X19.  On a linear buffer whose cursors are in order: [enlarge(n)] keeps
    the bytes written and not read and adds [n] bytes of room, so a value
    of up to [n] bytes can be written next; [reserve(n)] keeps them as long
    as [n] is not below the write cursor, and otherwise cuts the vector
    below the write cursor, after which every write of at least one byte
    runs past the vector; [reset(n)] leaves an empty buffer of [n] bytes. *)
Theorem linear_resize_keeps_or_cuts s n :
  wf s → 0 ≤ n →
  (capacity s + n < 2 ^ 64 →
     wf (enlarge n s) ∧ pending (enlarge n s) = pending s ∧
     capacity (enlarge n s) = capacity s + n ∧
     ∀ repr, len repr ≤ n →
       ∃ s', write_value repr (enlarge n s) = Ok s' ∧ wf s' ∧
             pending s' = pending s ++ repr) ∧
  (wpos_ s ≤ n < 2 ^ 64 →
     wf (reserve n s) ∧ pending (reserve n s) = pending s ∧
     capacity (reserve n s) = n) ∧
  (n < wpos_ s →
     capacity (reserve n s) = n ∧ ¬ wf (reserve n s) ∧
     ∀ repr, repr ≠ [] → write_value repr (reserve n s) = Fail Undefined) ∧
  (n < 2 ^ 31 →
     wf (reset n s) ∧ pending (reset n s) = [] ∧ capacity (reset n s) = n ∧
     empty (reset n s) = true).
Proof.
  intros Hwf Hn. pose proof Hwf as (Hr & Hw & Hcap). unfold capacity.
  split_and!.
  - intros Hsum. unfold enlarge. rewrite (wrap_small (_ + n)) by (unfold len in *; lia).
    set (s1 := with_buf s (resize (len (buf_ s) + n) (buf_ s))).
    assert (Hlen1 : len (buf_ s1) = len (buf_ s) + n).
    { simpl. apply resize_len. unfold len. lia. }
    assert (Hwf1 : wf s1).
    { unfold wf. rewrite Hlen1. simpl. lia. }
    assert (Hp1 : pending s1 = pending s) by (apply pending_resize; [done|lia]).
    split_and!; try done.
    intros repr Hrepr.
    destruct (write_value_ok s1 repr Hwf1) as (s' & Hrun & Hwf' & Hp' & _).
    { unfold capacity. rewrite Hlen1. simpl. lia. }
    exists s'. split_and!; try done. by rewrite Hp', Hp1.
  - intros Hfit. unfold reserve.
    assert (Hlen1 : len (resize n (buf_ s)) = n) by (by apply resize_len).
    split_and!.
    + unfold wf. simpl. rewrite Hlen1. lia.
    + apply pending_resize; [done|lia].
    + done.
  - intros Hcut. unfold reserve.
    assert (Hlen1 : len (resize n (buf_ s)) = n) by (by apply resize_len).
    split_and!.
    + done.
    + unfold wf. simpl. rewrite Hlen1. lia.
    + intros repr _. unfold write_value, blit. simpl. rewrite Hlen1.
      rewrite bool_decide_eq_false_2; [done|]. pose proof (len_nonneg repr). lia.
  - intros Hint. unfold reset, reserve. rewrite (wrap_small n) by lia.
    assert (Hlen1 : len (resize n (buf_ s)) = n) by (by apply resize_len).
    split_and!.
    + unfold wf. simpl. rewrite Hlen1. lia.
    + done.
    + done.
    + done.
Qed.

Lemma linear_resize_keeps_or_cuts_witness :
  wf (create 16) ∧
  ∃ s', write_value (le_bytes 4 7) (enlarge 4 (create 16)) = Ok s' ∧
        pending s' = le_bytes 4 7.
Proof.
  assert (Hwf : wf (create 16)) by (unfold wf; simpl; unfold len; simpl; lia).
  split; [exact Hwf|].
  destruct (linear_resize_keeps_or_cuts (create 16) 4 Hwf ltac:(lia)) as (He & _).
  destruct He as (_ & _ & _ & Hwrite); [by vm_compute|].
  destruct (Hwrite (le_bytes 4 7)) as (s' & Hrun & _ & Hp); [by vm_compute|].
  exists s'. split; [exact Hrun|exact Hp].
Defined.

End BufferResize.

(** ** [empty()] against a producer that links a block (claim C2) *)

Module EmptyRace.
Import SPSCQueue SPSCBlockBuffer SPSCCalls Stream SPSCStream Interleaving.

Lemma empty_interleaved_alone s : empty_interleaved Ok s = empty s.
Proof.
  unfold empty_interleaved, empty. destruct (one_block_left_ s); [|done].
  destruct (check_one_block_left s) as [[]|]; done.
Qed.

Lemma full_block_ok :
  write (replicate 16 x01) true Scenario.fresh = Ok Scenes.full_block ∧
  SPSCApi.reachable Scenes.full_block.
Proof.
  destruct fresh_ok as (_ & Hreach & _).
  assert (Hw : write (replicate 16 x01) true Scenario.fresh = Ok Scenes.full_block)
    by (by vm_compute).
  split; [done|].
  apply (SPSCApi.reachable_call (SPSCApi.Write (replicate 16 x01) true) VNone Scenario.fresh);
    [done|]. by vm_compute.
Qed.

(** C2, refuted when the producer runs during the call.  A buffer of
    16-byte blocks holds one full block of 16 published bytes, none of them
    read, so that [empty()] alone answers false.  The consumer calls
    [empty()]; after its [check_one_block_left()] has seen one block, the
    producer runs [write] of one byte with [notify == false], which links a
    second block; the consumer then loads [*wpos_], now the published
    length 0 of the new block, finds it equal to [rpos_], and [empty()]
    returns true, with two segments in the list and the same 16 published
    bytes unread before, during and after the call. *)
Theorem empty_true_over_unread_bytes :
  (∀ s, empty_interleaved Ok s = empty s) ∧
  SPSCApi.reachable Scenes.full_block ∧
  unread Scenes.full_block = replicate 16 x01 ∧
  empty_const Scenes.full_block = Ok false ∧
  ∃ s', empty_interleaved (write [x02] false) Scenes.full_block = Ok (true, s') ∧
        length (contents (buf_ s')) = 2%nat ∧
        unread s' = replicate 16 x01 ∧
        empty_const s' = Ok false.
Proof.
  split; [apply empty_interleaved_alone|].
  split; [apply full_block_ok|].
  split; [by vm_compute|]. split; [by vm_compute|].
  eexists. split; [by vm_compute|]. split; [by vm_compute|]. split; by vm_compute.
Qed.

End EmptyRace.
